(** * json-extractor.js: extraction, completeness check and completion of
      task JSON

    Shallow embedding of
    [src/ai-providers/custom-sdk/claude-code/json-extractor.js].

    - JavaScript strings are sequences of UTF-16 code units ([list N]).
    - Regular expressions are terms of a small syntax, run by a
      backtracking matcher written with continuations as in the ECMAScript
      specification; [String.prototype.replace] and [match] are built on it.
    - [JSON.parse] is a recursive-descent parser for the strict JSON
      grammar; numbers are IEEE 754 binary64 values ([spec_float]).
    - [JSON.stringify (v, null, 2)] is the pretty printer of the
      specification, with [Number::toString] for numbers.
    - Exceptions are explicit: a computation returns [Ok v] or [Throw e],
      and [try]/[catch] is a combinator. *)

From Stdlib Require Import String Ascii List NArith ZArith Lia Bool.
From Stdlib Require Import SpecFloat.
From Stdlib Require DecimalN.
Import ListNotations.

Local Open Scope N_scope.

(* ------------------------------------------------------------------ *)
(** ** Strings *)

(** A JavaScript string: its UTF-16 code units. *)
Definition jsstring : Type := list N.

Definition ch (a : ascii) : N := N_of_ascii a.

(** The double quote, code unit 0x22. *)
Definition dq : N := 34.

(** String literals.  A Rocq literal cannot hold a bare double quote, so in
    a literal given to [js] the character [~] stands for the double quote. *)
Definition js_unit (a : ascii) : N :=
  if Ascii.eqb a "~"%char then dq else N_of_ascii a.

Definition js (s : string) : jsstring := map js_unit (list_ascii_of_string s).

Definition LF : N := 10.

Fixpoint str_eqb (a b : jsstring) : bool :=
  match a, b with
  | [], [] => true
  | x :: a', y :: b' => (x =? y) && str_eqb a' b'
  | _, _ => false
  end.

Definition in_range (lo hi c : N) : bool := (lo <=? c) && (c <=? hi).

(** LineTerminator: LF, CR, U+2028, U+2029. *)
Definition is_line_terminator (c : N) : bool :=
  (c =? 10) || (c =? 13) || (c =? 8232) || (c =? 8233).

(** WhiteSpace and LineTerminator of ECMAScript: what [trim] strips and what
    [\s] matches. *)
Definition is_space (c : N) : bool :=
  in_range 9 13 c || (c =? 32) || (c =? 160) || (c =? 5760)
  || in_range 8192 8202 c || (c =? 8232) || (c =? 8233) || (c =? 8239)
  || (c =? 8287) || (c =? 12288) || (c =? 65279).

Definition is_digit (c : N) : bool := in_range 48 57 c.
Definition is_upper (c : N) : bool := in_range 65 90 c.
Definition is_lower (c : N) : bool := in_range 97 122 c.

(** [\w] *)
Definition is_word (c : N) : bool :=
  is_upper c || is_lower c || is_digit c || (c =? ch "_").

Fixpoint drop_space (s : jsstring) : jsstring :=
  match s with
  | c :: s' => if is_space c then drop_space s' else s
  | [] => []
  end.

(** [String.prototype.trim] *)
Definition trim (s : jsstring) : jsstring :=
  rev (drop_space (rev (drop_space s))).

(** [s.startsWith(c)] and [s.endsWith(c)] for a one-unit string [c]. *)
Definition startsWith (s : jsstring) (c : N) : bool :=
  match s with
  | x :: _ => x =? c
  | [] => false
  end.

Definition endsWith (s : jsstring) (c : N) : bool :=
  match rev s with
  | x :: _ => x =? c
  | [] => false
  end.

(* ------------------------------------------------------------------ *)
(** ** Regular expressions *)

(** The syntax covers what the source's patterns use: literals, classes,
    greedy repetition of a class, alternation, capture groups and the two
    anchors. *)
Inductive regex : Type :=
| REps
| RChar (c : N)
| RSet (p : N -> bool)
| RStar (p : N -> bool)
| RSeq (a b : regex)
| RAlt (a b : regex)
| RGroup (i : nat) (a : regex)
| RBol
| REol.

(** A matcher state: the unit before the current position (for [^]), the
    text from the current position on, and the captures made so far. *)
Record mstate : Type := MState {
  m_prev : option N;
  m_rest : jsstring;
  m_caps : list (nat * jsstring)
}.

Definition at_bol (multiline : bool) (prev : option N) : bool :=
  match prev with
  | None => true
  | Some c => multiline && is_line_terminator c
  end.

Definition at_eol (multiline : bool) (rest : jsstring) : bool :=
  match rest with
  | [] => true
  | c :: _ => multiline && is_line_terminator c
  end.

(** Greedy [p*]: take one more unit when possible, fall back to the
    continuation on failure. *)
Fixpoint star_loop (p : N -> bool) (k : mstate -> option mstate)
    (prev : option N) (rest : jsstring) (caps : list (nat * jsstring))
    : option mstate :=
  match rest with
  | c :: rest' =>
      if p c then
        match star_loop p k (Some c) rest' caps with
        | Some r => Some r
        | None => k (MState prev rest caps)
        end
      else k (MState prev rest caps)
  | [] => k (MState prev [] caps)
  end.

Fixpoint rmatch (ml : bool) (r : regex) (k : mstate -> option mstate)
    (st : mstate) : option mstate :=
  match r with
  | REps => k st
  | RChar c =>
      match m_rest st with
      | x :: t => if x =? c then k (MState (Some x) t (m_caps st)) else None
      | [] => None
      end
  | RSet p =>
      match m_rest st with
      | x :: t => if p x then k (MState (Some x) t (m_caps st)) else None
      | [] => None
      end
  | RStar p => star_loop p k (m_prev st) (m_rest st) (m_caps st)
  | RSeq a b => rmatch ml a (rmatch ml b k) st
  | RAlt a b =>
      match rmatch ml a k st with
      | Some r => Some r
      | None => rmatch ml b k st
      end
  | RGroup i a =>
      rmatch ml a
        (fun st' =>
           let got := firstn (length (m_rest st) - length (m_rest st'))
                             (m_rest st) in
           k (MState (m_prev st') (m_rest st') ((i, got) :: m_caps st')))
        st
  | RBol => if at_bol ml (m_prev st) then k st else None
  | REol => if at_eol ml (m_rest st) then k st else None
  end.

(** A regular expression object: pattern and the flags [g] and [m]. *)
Record RegExp : Type := Re {
  re_pat : regex;
  re_global : bool;
  re_multiline : bool
}.

(** One match attempt at the current position: the text after the match and
    the captures. *)
Definition exec_at (re : RegExp) (prev : option N) (s : jsstring)
    : option mstate :=
  rmatch (re_multiline re) (re_pat re) Some (MState prev s []).

(** Replacement templates: text and [$n]. *)
Inductive tpl_item : Type :=
| TText (s : jsstring)
| TCap (i : nat).

Fixpoint cap_lookup (caps : list (nat * jsstring)) (i : nat) : jsstring :=
  match caps with
  | (j, s) :: caps' => if Nat.eqb i j then s else cap_lookup caps' i
  | [] => []
  end.

Fixpoint expand (t : list tpl_item) (caps : list (nat * jsstring)) : jsstring :=
  match t with
  | TText s :: t' => s ++ expand t' caps
  | TCap i :: t' => cap_lookup caps i ++ expand t' caps
  | [] => []
  end.

(** Leftmost match: the text before it, the matched text, the final state. *)
Fixpoint search (re : RegExp) (prev : option N) (s : jsstring)
    : option (jsstring * jsstring * mstate) :=
  match exec_at re prev s with
  | Some st => Some ([], firstn (length s - length (m_rest st)) s, st)
  | None =>
      match s with
      | c :: s' =>
          match search re (Some c) s' with
          | Some (before, m, st) => Some (c :: before, m, st)
          | None => None
          end
      | [] => None
      end
  end.

(** [s.match(re)] for a non-global [re]: element 0 of the result, or null. *)
Definition str_match (s : jsstring) (re : RegExp) : option jsstring :=
  match search re None s with
  | Some (_, m, _) => Some m
  | None => None
  end.

Definition replace_first (s : jsstring) (re : RegExp) (t : list tpl_item)
    : jsstring :=
  match search re None s with
  | Some (before, _, st) => before ++ expand t (m_caps st) ++ m_rest st
  | None => s
  end.

(** Global replacement.  [skip] counts the units still covered by the last
    match; after an empty match the next unit is copied and the search
    resumes one unit further, as [AdvanceStringIndex] does. *)
Fixpoint replace_all_from (re : RegExp) (t : list tpl_item)
    (prev : option N) (s : jsstring) (skip : nat) : jsstring :=
  match skip with
  | S skip' =>
      match s with
      | c :: s' => replace_all_from re t (Some c) s' skip'
      | [] => []
      end
  | O =>
      match exec_at re prev s with
      | Some st =>
          expand t (m_caps st) ++
          match s with
          | c :: s' =>
              match (length s - length (m_rest st))%nat with
              | O => c :: replace_all_from re t (Some c) s' O
              | S n => replace_all_from re t (Some c) s' n
              end
          | [] => []
          end
      | None =>
          match s with
          | c :: s' => c :: replace_all_from re t (Some c) s' O
          | [] => []
          end
      end
  end.

(** [s.replace(re, t)] *)
Definition replace (s : jsstring) (re : RegExp) (t : list tpl_item) : jsstring :=
  if re_global re then replace_all_from re t None s O
  else replace_first s re t.

(** Pattern building blocks. *)
Fixpoint rlit (s : jsstring) : regex :=
  match s with
  | [] => REps
  | [c] => RChar c
  | c :: s' => RSeq (RChar c) (rlit s')
  end.

Fixpoint rseq (l : list regex) : regex :=
  match l with
  | [] => REps
  | [r] => r
  | r :: l' => RSeq r (rseq l')
  end.

Definition rplus (p : N -> bool) : regex := RSeq (RSet p) (RStar p).
Definition ropt (r : regex) : regex := RAlt r REps.

(** [[\s\S]] *)
Definition any_unit (c : N) : bool := is_space c || negb (is_space c).

Definition s_star : regex := RStar is_space.

(* ------------------------------------------------------------------ *)
(** ** Exceptions *)

Inductive exn : Type :=
| SyntaxError
| RangeError.

Inductive result (A : Type) : Type :=
| Ok (a : A)
| Throw (e : exn).
Arguments Ok {A} a.
Arguments Throw {A} e.

Definition bind {A B : Type} (c : result A) (f : A -> result B) : result B :=
  match c with
  | Ok a => f a
  | Throw e => Throw e
  end.

(** [try { body } catch { handler }] *)
Definition try_catch {A : Type} (body handler : result A) : result A :=
  match body with
  | Ok a => Ok a
  | Throw _ => handler
  end.

Notation "x <- c ;; k" := (bind c (fun x => k))
  (at level 61, c at next level, right associativity).

(* ------------------------------------------------------------------ *)
(** ** JSON values *)

(** What [JSON.parse] returns.  The members of an object are kept in the
    order in which JavaScript enumerates own properties. *)
#[local] Unset Elimination Schemes.
Inductive value : Type :=
| JNull
| JBool (b : bool)
| JNum (x : spec_float)
| JStr (s : jsstring)
| JArr (l : list value)
| JObj (m : list (jsstring * value)).
#[local] Set Elimination Schemes.

Definition object : Type := list (jsstring * value).

(** *** Numbers *)

(** Decimal digits of a natural number, most significant first. *)
Fixpoint uint_units (d : Decimal.uint) : jsstring :=
  match d with
  | Decimal.Nil => []
  | Decimal.D0 d' => 48 :: uint_units d'
  | Decimal.D1 d' => 49 :: uint_units d'
  | Decimal.D2 d' => 50 :: uint_units d'
  | Decimal.D3 d' => 51 :: uint_units d'
  | Decimal.D4 d' => 52 :: uint_units d'
  | Decimal.D5 d' => 53 :: uint_units d'
  | Decimal.D6 d' => 54 :: uint_units d'
  | Decimal.D7 d' => 55 :: uint_units d'
  | Decimal.D8 d' => 56 :: uint_units d'
  | Decimal.D9 d' => 57 :: uint_units d'
  end.

Definition dec_units (n : N) : jsstring := uint_units (N.to_uint n).

(** The number a run of decimal digits denotes. *)
Definition digits_value (ds : jsstring) : N :=
  fold_left (fun a c => 10 * a + (c - 48)) ds 0.

(** [p / q] over [2 ^ (k - 1074)], as numerator and denominator. *)
Definition scaled (p q k : Z) : Z * Z :=
  if (k <=? 1074)%Z then (p * 2 ^ (1074 - k), q)%Z
  else (p, q * 2 ^ (k - 1074))%Z.

(** The integer nearest to [num / den], the even one of two. *)
Definition round_half_even (num den : Z) : Z :=
  let lo := (num / den)%Z in
  match (2 * (num - lo * den) ?= den)%Z with
  | Lt => lo
  | Gt => (lo + 1)%Z
  | Eq => if Z.even lo then lo else (lo + 1)%Z
  end.

(** The Number value for the positive rational [p / q]: the binary64
    value nearest to it, the one with an even significand of two, and
    infinity from [2 ^ 1024] on.  The result is [m * 2 ^ (k - 1074)] with
    [m] below [2 ^ 53]; the exponent is the least one, from the least
    exponent -1074 of the format on, for which the quotient is below
    [2 ^ 53], which the binary logarithms give to within one. *)
Definition round_ratio (neg : bool) (p q : Z) : spec_float :=
  let k0 := Z.max 0 (Z.log2 p - Z.log2 q + 1021) in
  let k :=
    let '(n0, d0) := scaled p q k0 in
    if (n0 <? 2 ^ 53 * d0)%Z then k0 else (k0 + 1)%Z in
  let '(num, den) := scaled p q k in
  let m := round_half_even num den in
  let '(m, k) :=
    if (m =? 2 ^ 53)%Z then (2 ^ 52, k + 1)%Z else (m, k) in
  if (2045 <? k)%Z then S754_infinity neg
  else
    match m with
    | Zpos mp => S754_finite neg mp (k - 1074)
    | _ => S754_zero neg
    end.

(** The binary64 value nearest to [m * 10 ^ e10] (ties to even), for
    [0 <= m]; [neg] is the sign. *)
Definition b64_of_decimal (neg : bool) (m : Z) (e10 : Z) : spec_float :=
  if (m =? 0)%Z then S754_zero neg
  else if (0 <=? e10)%Z then round_ratio neg (m * 10 ^ e10) 1
  else round_ratio neg m (10 ^ (- e10)).

Definition b64_eqb (x y : spec_float) : bool :=
  match x, y with
  | S754_zero a, S754_zero b => Bool.eqb a b
  | S754_infinity a, S754_infinity b => Bool.eqb a b
  | S754_nan, S754_nan => true
  | S754_finite a m e, S754_finite b m' e' =>
      Bool.eqb a b && Pos.eqb m m' && Z.eqb e e'
  | _, _ => false
  end.

(** A positive rational as numerator and denominator. *)
Definition ratio : Type := (Z * Z)%type.

Definition ratio_of (m : positive) (e : Z) : ratio :=
  if (0 <=? e)%Z then (Zpos m * 2 ^ e, 1)%Z else (Zpos m, 2 ^ (- e))%Z.

Definition scale10 (q : ratio) (j : Z) : ratio :=
  if (0 <=? j)%Z then (fst q * 10 ^ j, snd q)%Z
  else (fst q, snd q * 10 ^ (- j))%Z.

(** The least [n], from [n0] on, with [q < 10 ^ n]. *)
Fixpoint decimal_exponent (fuel : nat) (q : ratio) (n0 : Z) : Z :=
  match fuel with
  | O => n0
  | S fuel' =>
      let t := scale10 q (- n0) in
      if (fst t <? snd t)%Z then n0
      else decimal_exponent fuel' q (n0 + 1)%Z
  end.

(** A starting point below the decimal exponent of [m * 2 ^ e], from its
    binary exponent: [30102 / 100000] is just under the base 10 logarithm
    of 2, and the margin of 3 covers the rounding over the binary64 range. *)
Definition exponent_estimate (m : positive) (e : Z) : Z :=
  ((Zpos (digits2_pos m) + e - 1) * 30102 / 100000 - 3)%Z.

(** Step 5 of [Number::toString]: the shortest [s] (of [k] digits, tried
    from [k] upwards) with [s * 10 ^ (n - k)] rounding to [x]; of two
    candidates the one nearer to [x], the even one on a tie.  Seventeen
    digits always identify a binary64 value, so with [fuel] gone the nearest
    candidate is returned. *)
Fixpoint shortest_digits (fuel : nat) (x : spec_float) (q : ratio) (n k : Z)
    : Z * Z :=
  let t := scale10 q (k - n) in
  let lo := (fst t / snd t)%Z in
  let hi := (lo + 1)%Z in
  let nearest :=
    match (2 * (fst t - lo * snd t) ?= snd t)%Z with
    | Lt => lo
    | Gt => hi
    | Eq => if Z.even lo then lo else hi
    end in
  match fuel with
  | O => (nearest, (n - k)%Z)
  | S fuel' =>
      match b64_eqb (b64_of_decimal false lo (n - k)) x,
            b64_eqb (b64_of_decimal false hi (n - k)) x with
      | true, true => (nearest, (n - k)%Z)
      | true, false => (lo, (n - k)%Z)
      | false, true => (hi, (n - k)%Z)
      | false, false => shortest_digits fuel' x q n (k + 1)%Z
      end
  end.

Fixpoint strip_zeros (rds : jsstring) (e : Z) : jsstring * Z :=
  match rds with
  | c :: rds' => if c =? 48 then strip_zeros rds' (e + 1)%Z else (rds, e)
  | [] => ([], e)
  end.

Definition zeros (n : Z) : jsstring := repeat 48 (Z.to_nat n).

(** Steps 7 to 11 of [Number::toString]: the digits [ds] and the exponent
    [n] written out. *)
Definition number_notation (ds : jsstring) (n : Z) : jsstring :=
  let k := Z.of_nat (length ds) in
  if ((k <=? n) && (n <=? 21))%Z then ds ++ zeros (n - k)
  else if ((0 <? n) && (n <=? 21))%Z then
    firstn (Z.to_nat n) ds ++ ch "." :: skipn (Z.to_nat n) ds
  else if ((-6 <? n) && (n <=? 0))%Z then
    ch "0" :: ch "." :: zeros (- n) ++ ds
  else
    let e := (n - 1)%Z in
    let sign := if (e <? 0)%Z then ch "-" else ch "+" in
    let tail := ch "e" :: sign :: dec_units (Z.to_N (Z.abs e)) in
    match ds with
    | [d] => d :: tail
    | d :: ds' => d :: ch "." :: ds' ++ tail
    | [] => tail
    end.

(** [Number::toString (x)], radix 10. *)
Definition number_to_string (x : spec_float) : jsstring :=
  match x with
  | S754_nan => js "NaN"
  | S754_zero _ => js "0"
  | S754_infinity s => (if s then [ch "-"] else []) ++ js "Infinity"
  | S754_finite s m e =>
      let q := ratio_of m e in
      let n := decimal_exponent 12 q (exponent_estimate m e) in
      let '(sd, e10) := shortest_digits 16 (S754_finite false m e) q n 1 in
      let '(rds, e10') := strip_zeros (rev (dec_units (Z.to_N sd))) e10 in
      let ds := rev rds in
      (if s then [ch "-"] else []) ++
      number_notation ds (e10' + Z.of_nat (length ds))
  end.

Definition is_finite (x : spec_float) : bool :=
  match x with
  | S754_zero _ | S754_finite _ _ _ => true
  | _ => false
  end.

(** *** Objects *)

(** An array index: the canonical numeral of an integer below [2^32 - 1]. *)
Definition array_index (k : jsstring) : option N :=
  match k with
  | [] => None
  | _ =>
      if forallb is_digit k then
        let n := digits_value k in
        if str_eqb (dec_units n) k && (n <? 4294967295) then Some n else None
      else None
  end.

(** Whether a new key [k] is enumerated before the existing key [k']:
    array indices come first, in ascending order; other keys follow in
    order of creation. *)
Definition key_before (k k' : jsstring) : bool :=
  match array_index k, array_index k' with
  | Some i, Some j => i <? j
  | Some _, None => true
  | None, _ => false
  end.

(** [CreateDataProperty]: an existing key keeps its place and takes the new
    value; a new key goes to its place in the enumeration order. *)
Fixpoint obj_set (o : object) (k : jsstring) (v : value) : object :=
  match o with
  | [] => [(k, v)]
  | (k', v') :: o' =>
      if str_eqb k k' then (k, v) :: o'
      else if key_before k k' then (k, v) :: (k', v') :: o'
      else (k', v') :: obj_set o' k v
  end.

Fixpoint obj_get (o : object) (k : jsstring) : option value :=
  match o with
  | [] => None
  | (k', v) :: o' => if str_eqb k k' then Some v else obj_get o' k
  end.

Definition obj_of_entries (l : list (jsstring * value)) : object :=
  fold_left (fun o kv => obj_set o (fst kv) (snd kv)) l [].

Fixpoint index_entries (i : N) (l : list value) : list (jsstring * value) :=
  match l with
  | [] => []
  | v :: l' => (dec_units i, v) :: index_entries (i + 1) l'
  end.

(** The own enumerable string-keyed properties of an object or array, in
    enumeration order ([length] of an array is not enumerable). *)
Definition own_entries (v : value) : list (jsstring * value) :=
  match v with
  | JObj m => m
  | JArr l => index_entries 0 l
  | _ => []
  end.

(** [v[k]] for a key [k] that the prototypes do not define (as is the case
    of the five task fields); [None] is [undefined]. *)
Definition get_prop (v : value) (k : jsstring) : option value :=
  obj_get (own_entries v) k.

(** [Object.values (v)] *)
Definition Object_values (v : value) : list value := map snd (own_entries v).

(** [typeof v === 'object'] *)
Definition typeof_object (v : value) : bool :=
  match v with
  | JNull | JArr _ | JObj _ => true
  | _ => false
  end.

Definition is_null (v : value) : bool :=
  match v with
  | JNull => true
  | _ => false
  end.

(** [Array.isArray]; [undefined] is not an array. *)
Definition isArray (v : option value) : bool :=
  match v with
  | Some (JArr _) => true
  | _ => false
  end.

(** ToBoolean *)
Definition truthy (v : value) : bool :=
  match v with
  | JNull => false
  | JBool b => b
  | JNum (S754_zero _) | JNum S754_nan => false
  | JNum _ => true
  | JStr s => negb (str_eqb s [])
  | JArr _ | JObj _ => true
  end.

(** [a || d] where [d] is a value and [a] may be undefined. *)
Definition or_else (a : option value) (d : value) : value :=
  match a with
  | Some v => if truthy v then v else d
  | None => d
  end.

(* ------------------------------------------------------------------ *)
(** ** JSON.parse *)

(** JSON whitespace: tab, line feed, carriage return, space. *)
Definition is_json_ws (c : N) : bool :=
  (c =? 9) || (c =? 10) || (c =? 13) || (c =? 32).

Fixpoint skip_ws (s : jsstring) : jsstring :=
  match s with
  | c :: s' => if is_json_ws c then skip_ws s' else s
  | [] => []
  end.

Definition hex_value (c : N) : option N :=
  if is_digit c then Some (c - 48)
  else if in_range 97 102 c then Some (c - 87)
  else if in_range 65 70 c then Some (c - 55)
  else None.

Definition hex4 (a b c d : N) : option N :=
  match hex_value a, hex_value b, hex_value c, hex_value d with
  | Some x, Some y, Some z, Some w => Some (((x * 16 + y) * 16 + z) * 16 + w)
  | _, _, _, _ => None
  end.

(** The unit a single-character escape denotes. *)
Definition unescape (e : N) : option N :=
  if e =? dq then Some dq
  else if e =? ch "\" then Some (ch "\")
  else if e =? ch "/" then Some (ch "/")
  else if e =? ch "b" then Some 8
  else if e =? ch "f" then Some 12
  else if e =? ch "n" then Some 10
  else if e =? ch "r" then Some 13
  else if e =? ch "t" then Some 9
  else None.

(** The units of a string literal after its opening quote, up to the
    closing quote, and the text that follows. *)
Fixpoint string_body (s : jsstring) : option (jsstring * jsstring) :=
  match s with
  | [] => None
  | c :: r =>
      if c =? dq then Some ([], r)
      else if c =? ch "\" then
        match r with
        | e :: r' =>
            if e =? ch "u" then
              match r' with
              | h1 :: h2 :: h3 :: h4 :: r'' =>
                  match hex4 h1 h2 h3 h4, string_body r'' with
                  | Some u, Some (t, rest) => Some (u :: t, rest)
                  | _, _ => None
                  end
              | _ => None
              end
            else
              match unescape e, string_body r' with
              | Some u, Some (t, rest) => Some (u :: t, rest)
              | _, _ => None
              end
        | [] => None
        end
      else if c <? 32 then None
      else
        match string_body r with
        | Some (t, rest) => Some (c :: t, rest)
        | None => None
        end
  end.

Fixpoint take_digits (s : jsstring) : jsstring * jsstring :=
  match s with
  | c :: s' =>
      if is_digit c then let (d, r) := take_digits s' in (c :: d, r)
      else ([], s)
  | [] => ([], [])
  end.

(** A number literal: sign, integer digits, fraction digits, exponent. *)
Record numeral : Type := Numeral {
  num_neg : bool;
  num_int : jsstring;
  num_frac : jsstring;
  num_exp : Z
}.

Definition lex_int (s : jsstring) : option (jsstring * jsstring) :=
  match s with
  | c :: r =>
      if c =? ch "0" then Some ([c], r)
      else if is_digit c then Some (take_digits s)
      else None
  | [] => None
  end.

Definition lex_frac (s : jsstring) : option (jsstring * jsstring) :=
  match s with
  | c :: r =>
      if c =? ch "." then
        match take_digits r with
        | ([], _) => None
        | (d, r') => Some (d, r')
        end
      else Some ([], s)
  | [] => Some ([], [])
  end.

Definition lex_exp (s : jsstring) : option (Z * jsstring) :=
  match s with
  | c :: r =>
      if (c =? ch "e") || (c =? ch "E") then
        let '(neg, r1) :=
          match r with
          | g :: r0 =>
              if g =? ch "-" then (true, r0)
              else if g =? ch "+" then (false, r0)
              else (false, r)
          | [] => (false, r)
          end in
        match take_digits r1 with
        | ([], _) => None
        | (d, r2) =>
            Some (cond_Zopp neg (Z.of_N (digits_value d)), r2)
        end
      else Some (0%Z, s)
  | [] => Some (0%Z, [])
  end.

Definition lex_number (s : jsstring) : option (numeral * jsstring) :=
  let '(neg, s1) :=
    match s with
    | c :: r => if c =? ch "-" then (true, r) else (false, s)
    | [] => (false, s)
    end in
  match lex_int s1 with
  | Some (ip, s2) =>
      match lex_frac s2 with
      | Some (fp, s3) =>
          match lex_exp s3 with
          | Some (ex, s4) => Some (Numeral neg ip fp ex, s4)
          | None => None
          end
      | None => None
      end
  | None => None
  end.

(** The Number value of a literal. *)
Definition numeral_value (n : numeral) : spec_float :=
  b64_of_decimal (num_neg n)
    (Z.of_N (digits_value (num_int n ++ num_frac n)))
    (num_exp n - Z.of_nat (length (num_frac n))).

Fixpoint strip_prefix (p s : jsstring) : option jsstring :=
  match p, s with
  | [], _ => Some s
  | x :: p', y :: s' => if x =? y then strip_prefix p' s' else None
  | _ :: _, [] => None
  end.

(** A scalar: string, literal name or number. *)
Definition parse_scalar (s : jsstring) : option (value * jsstring) :=
  match s with
  | [] => None
  | c :: r =>
      if c =? dq then
        match string_body r with
        | Some (t, rest) => Some (JStr t, rest)
        | None => None
        end
      else if c =? ch "t" then
        match strip_prefix (js "rue") r with
        | Some rest => Some (JBool true, rest)
        | None => None
        end
      else if c =? ch "f" then
        match strip_prefix (js "alse") r with
        | Some rest => Some (JBool false, rest)
        | None => None
        end
      else if c =? ch "n" then
        match strip_prefix (js "ull") r with
        | Some rest => Some (JNull, rest)
        | None => None
        end
      else
        match lex_number s with
        | Some (n, rest) => Some (JNum (numeral_value n), rest)
        | None => None
        end
  end.

(** Recursive descent on the JSON grammar.  Each function is given the text
    at the start of what it reads and returns what it read with the text
    that follows.  [fuel] bounds the recursion; see [JSON_parse]. *)
Fixpoint parse_value (fuel : nat) (s : jsstring) : option (value * jsstring) :=
  match fuel with
  | O => None
  | S fuel' =>
      match s with
      | [] => None
      | c :: r =>
          if c =? ch "{" then
            match skip_ws r with
            | c2 :: r2 =>
                if c2 =? ch "}" then Some (JObj [], r2)
                else
                  match parse_members fuel' (c2 :: r2) with
                  | Some (m, rest) => Some (JObj (obj_of_entries m), rest)
                  | None => None
                  end
            | [] => None
            end
          else if c =? ch "[" then
            match skip_ws r with
            | c2 :: r2 =>
                if c2 =? ch "]" then Some (JArr [], r2)
                else
                  match parse_elements fuel' (c2 :: r2) with
                  | Some (l, rest) => Some (JArr l, rest)
                  | None => None
                  end
            | [] => None
            end
          else parse_scalar s
      end
  end

with parse_elements (fuel : nat) (s : jsstring)
    : option (list value * jsstring) :=
  match fuel with
  | O => None
  | S fuel' =>
      match parse_value fuel' s with
      | Some (v, r) =>
          match skip_ws r with
          | c :: r' =>
              if c =? ch "," then
                match parse_elements fuel' (skip_ws r') with
                | Some (l, rest) => Some (v :: l, rest)
                | None => None
                end
              else if c =? ch "]" then Some ([v], r')
              else None
          | [] => None
          end
      | None => None
      end
  end

with parse_members (fuel : nat) (s : jsstring)
    : option (list (jsstring * value) * jsstring) :=
  match fuel with
  | O => None
  | S fuel' =>
      match s with
      | q :: r0 =>
          if q =? dq then
            match string_body r0 with
            | Some (k, r1) =>
                match skip_ws r1 with
                | c :: r2 =>
                    if c =? ch ":" then
                      match parse_value fuel' (skip_ws r2) with
                      | Some (v, r3) =>
                          match skip_ws r3 with
                          | d :: r4 =>
                              if d =? ch "," then
                                match parse_members fuel' (skip_ws r4) with
                                | Some (m, rest) => Some ((k, v) :: m, rest)
                                | None => None
                                end
                              else if d =? ch "}" then Some ([(k, v)], r4)
                              else None
                          | [] => None
                          end
                      | None => None
                      end
                    else None
                | [] => None
                end
            | None => None
            end
          else None
      | [] => None
      end
  end.

(** [JSON.parse (s)].  A value, a list of elements or a list of members
    each consume at least one unit before they recurse, and at most two
    calls are made per unit, so [2 * length s + 1] is fuel enough. *)
Definition JSON_parse (s : jsstring) : result value :=
  match parse_value (2 * length s + 1) (skip_ws s) with
  | Some (v, rest) =>
      match skip_ws rest with
      | [] => Ok v
      | _ :: _ => Throw SyntaxError
      end
  | None => Throw SyntaxError
  end.

(* ------------------------------------------------------------------ *)
(** ** JSON.stringify *)

Definition is_high_surrogate (c : N) : bool := in_range 55296 56319 c.
Definition is_low_surrogate (c : N) : bool := in_range 56320 57343 c.

Definition hex_digit (n : N) : N := if n <? 10 then 48 + n else 87 + n.

(** [UnicodeEscape] *)
Definition unicode_escape (c : N) : jsstring :=
  [ch "\"; ch "u"; hex_digit (c / 4096); hex_digit ((c / 256) mod 16);
   hex_digit ((c / 16) mod 16); hex_digit (c mod 16)].

Definition quote_unit (c : N) : jsstring :=
  if c =? 8 then [ch "\"; ch "b"]
  else if c =? 9 then [ch "\"; ch "t"]
  else if c =? 10 then [ch "\"; ch "n"]
  else if c =? 12 then [ch "\"; ch "f"]
  else if c =? 13 then [ch "\"; ch "r"]
  else if c =? dq then [ch "\"; dq]
  else if c =? ch "\" then [ch "\"; ch "\"]
  else if c <? 32 then unicode_escape c
  else [c].

(** The body of [QuoteJSONString]: a surrogate pair is copied, a lone
    surrogate is escaped. *)
Fixpoint quote_units (s : jsstring) : jsstring :=
  match s with
  | [] => []
  | c :: s' =>
      if is_high_surrogate c then
        match s' with
        | d :: s'' =>
            if is_low_surrogate d then c :: d :: quote_units s''
            else unicode_escape c ++ quote_units s'
        | [] => unicode_escape c
        end
      else if is_low_surrogate c then unicode_escape c ++ quote_units s'
      else quote_unit c ++ quote_units s'
  end.

Definition quote_json (s : jsstring) : jsstring :=
  dq :: quote_units s ++ [dq].

Fixpoint join (sep : jsstring) (l : list jsstring) : jsstring :=
  match l with
  | [] => []
  | [x] => x
  | x :: l' => x ++ sep ++ join sep l'
  end.

(** [SerializeJSONProperty] with a gap of two spaces; [indent] is the
    current indentation. *)
Fixpoint serialize (indent : jsstring) (v : value) : jsstring :=
  let inner := indent ++ js "  " in
  let sep := ch "," :: LF :: inner in
  match v with
  | JNull => js "null"
  | JBool true => js "true"
  | JBool false => js "false"
  | JNum x => if is_finite x then number_to_string x else js "null"
  | JStr s => quote_json s
  | JArr [] => js "[]"
  | JArr l =>
      ch "[" :: LF :: inner ++ join sep (map (serialize inner) l)
      ++ LF :: indent ++ [ch "]"]
  | JObj [] => js "{}"
  | JObj m =>
      ch "{" :: LF :: inner
      ++ join sep
           (map (fun kv =>
                   match kv with
                   | (k, x) => quote_json k ++ js ": " ++ serialize inner x
                   end) m)
      ++ LF :: indent ++ [ch "}"]
  end.

(** The text that [JSON.stringify (v, null, 2)] writes when it returns. *)
Definition json_text (v : value) : jsstring := serialize [] v.

(** How deep the arrays and objects of a value are nested. *)
Fixpoint depth (v : value) : nat :=
  match v with
  | JArr l => S (fold_right (fun x n => Nat.max (depth x) n) O l)
  | JObj m =>
      S (fold_right (fun kv n =>
                       match kv with
                       | (_, x) => Nat.max (depth x) n
                       end) O m)
  | _ => O
  end.

(** [JSON.stringify (v, null, 2)].  [SerializeJSONProperty] calls itself
    once for every level of arrays and objects, and an engine whose stack
    is used up throws a RangeError.  The two levels of the error-recovery
    task are printed by every engine; [room] is the number of further
    levels that the engine prints. *)
Definition JSON_stringify (room : nat) (v : value) : result jsstring :=
  if (depth v <=? 2 + room)%nat then Ok (json_text v) else Throw RangeError.

(* ------------------------------------------------------------------ *)
(** ** The patterns of the source *)

Definition fence : regex := rlit (js "```").

(** [/^```json\s*/gm] *)
Definition re_fence_json : RegExp :=
  Re (rseq [RBol; rlit (js "```json"); s_star]) true true.

(** [/^```\s*/gm] *)
Definition re_fence_open : RegExp :=
  Re (rseq [RBol; fence; s_star]) true true.

(** [/```\s*$/gm] *)
Definition re_fence_close : RegExp :=
  Re (rseq [fence; s_star; REol]) true true.

(** [/^const\s+\w+\s*=\s*/] and the same for [let] and [var] *)
Definition re_decl (kw : string) : RegExp :=
  Re (rseq [RBol; rlit (js kw); rplus is_space; rplus is_word; s_star;
            RChar (ch "="); s_star]) false false.

(** [/;?\s*$/] *)
Definition re_semicolon : RegExp :=
  Re (rseq [ropt (RChar (ch ";")); s_star; REol]) false false.

(** [/{[\s\S]*}/] *)
Definition re_object : RegExp :=
  Re (rseq [RChar (ch "{"); RStar any_unit; RChar (ch "}")]) false false.

(** [/\[[\s\S]*\]/] *)
Definition re_array : RegExp :=
  Re (rseq [RChar (ch "["); RStar any_unit; RChar (ch "]")]) false false.

(** The three positions in which a dangling key is repaired: at the end of
    the text, before [}] and before [,]. *)
Inductive position : Type :=
| AtEnd
| BeforeBrace
| BeforeComma.

Definition position_pat (p : position) : regex :=
  match p with
  | AtEnd => REol
  | BeforeBrace => RChar (ch "}")
  | BeforeComma => RChar (ch ",")
  end.

Definition position_text (p : position) : jsstring :=
  match p with
  | AtEnd => []
  | BeforeBrace => js "}"
  | BeforeComma => js ","
  end.

(** [/~name~\s*:\s*$/], [/~name~\s*:\s*}/] and [/~name~\s*:\s*,/]
    (in these comments as in [js] literals, [~] is the double quote) *)
Definition re_dangling (name : string) (p : position) : RegExp :=
  Re (rseq [RChar dq; rlit (js name); RChar dq; s_star; RChar (ch ":");
            s_star; position_pat p]) false false.

(** ['~name~: []'] followed by the closing unit *)
Definition tpl_empty_array (name : string) (p : position) : list tpl_item :=
  [TText (dq :: js name ++ dq :: js ": []" ++ position_text p)].

(** [/~(title|description|details|testStrategy)~\s*:\s*$/] and the two
    other positions *)
Definition re_dangling_string (p : position) : RegExp :=
  Re (rseq [RChar dq;
            RGroup 1 (RAlt (rlit (js "title"))
                     (RAlt (rlit (js "description"))
                     (RAlt (rlit (js "details"))
                           (rlit (js "testStrategy")))));
            RChar dq; s_star; RChar (ch ":"); s_star; position_pat p])
     false false.

(** ['~$1~: ~~'] followed by the closing unit *)
Definition tpl_empty_string (p : position) : list tpl_item :=
  [TText [dq]; TCap 1; TText (dq :: js ": ~~" ++ position_text p)].

(** [/:\s*$/], [/:\s*}/] and [/:\s*,/] *)
Definition re_colon (p : position) : RegExp :=
  Re (rseq [RChar (ch ":"); s_star; position_pat p]) false false.

(** [': ~~'] followed by the closing unit *)
Definition tpl_colon (p : position) : list tpl_item :=
  [TText (js ": ~~" ++ position_text p)].

Definition is_closer (c : N) : bool := (c =? ch "}") || (c =? ch "]").

(** Line 66: a comma, then group 1, which is [\s*[}\]]]. *)
Definition re_trailing_comma : RegExp :=
  Re (rseq [RChar (ch ","); RGroup 1 (RSeq s_star (RSet is_closer))])
     false false.

Definition is_key_start (c : N) : bool :=
  is_lower c || is_upper c || (c =? ch "_") || (c =? ch "$").

Definition is_key_unit (c : N) : bool :=
  is_lower c || is_upper c || is_digit c || (c =? ch "_") || (c =? ch "$").

Definition is_key_opener (c : N) : bool := (c =? ch "{") || (c =? ch ",").

(** Line 85, flag [g]: group 1 is [[{,]\s*], group 2 is
    [[a-zA-Z_$][a-zA-Z0-9_$]*], and [\s*:] follows. *)
Definition re_unquoted_key : RegExp :=
  Re (rseq [RGroup 1 (RSeq (RSet is_key_opener) s_star);
            RGroup 2 (RSeq (RSet is_key_start) (RStar is_key_unit));
            s_star; RChar (ch ":")]) true false.

(** ['$1~$2~:'] *)
Definition tpl_quoted_key : list tpl_item :=
  [TCap 1; TText [dq]; TCap 2; TText [dq; ch ":"]].

(** Line 87: a single quote, flag [g]. *)
Definition re_single_quote : RegExp := Re (RChar (ch "'")) true false.

(* ------------------------------------------------------------------ *)
(** ** extractJson *)

(** Lines 12 to 23: trimming, fences, declaration prefix, semicolon. *)
Definition strip_wrapping (text : jsstring) : jsstring :=
  let jsonText := trim text in
  let jsonText := replace jsonText re_fence_json [] in
  let jsonText := replace jsonText re_fence_open [] in
  let jsonText := replace jsonText re_fence_close [] in
  let jsonText := replace jsonText (re_decl "const") [] in
  let jsonText := replace jsonText (re_decl "let") [] in
  let jsonText := replace jsonText (re_decl "var") [] in
  replace jsonText re_semicolon [].

(** Lines 26 to 33: the object match is preferred to the array match. *)
Definition pick_match (jsonText : jsstring) : jsstring :=
  let objectMatch := str_match jsonText re_object in
  let arrayMatch := str_match jsonText re_array in
  match objectMatch with
  | Some m => m
  | None =>
      match arrayMatch with
      | Some m => m
      | None => jsonText
      end
  end.

(** The text on which the first parse is tried. *)
Definition candidate (text : jsstring) : jsstring :=
  pick_match (strip_wrapping text).

(** Lines 46 to 66: the substitutions of the repair pass. *)
Definition repair_substitutions (jsonText : jsstring) : jsstring :=
  let fixedJson := jsonText in
  let fixedJson := replace fixedJson (re_dangling "dependencies" AtEnd)
                     (tpl_empty_array "dependencies" AtEnd) in
  let fixedJson := replace fixedJson (re_dangling "dependencies" BeforeBrace)
                     (tpl_empty_array "dependencies" BeforeBrace) in
  let fixedJson := replace fixedJson (re_dangling "dependencies" BeforeComma)
                     (tpl_empty_array "dependencies" BeforeComma) in
  let fixedJson := replace fixedJson (re_dangling "subtasks" AtEnd)
                     (tpl_empty_array "subtasks" AtEnd) in
  let fixedJson := replace fixedJson (re_dangling "subtasks" BeforeBrace)
                     (tpl_empty_array "subtasks" BeforeBrace) in
  let fixedJson := replace fixedJson (re_dangling "subtasks" BeforeComma)
                     (tpl_empty_array "subtasks" BeforeComma) in
  let fixedJson := replace fixedJson (re_dangling_string AtEnd)
                     (tpl_empty_string AtEnd) in
  let fixedJson := replace fixedJson (re_dangling_string BeforeBrace)
                     (tpl_empty_string BeforeBrace) in
  let fixedJson := replace fixedJson (re_dangling_string BeforeComma)
                     (tpl_empty_string BeforeComma) in
  let fixedJson := replace fixedJson (re_colon AtEnd) (tpl_colon AtEnd) in
  let fixedJson := replace fixedJson (re_colon BeforeBrace)
                     (tpl_colon BeforeBrace) in
  let fixedJson := replace fixedJson (re_colon BeforeComma)
                     (tpl_colon BeforeComma) in
  replace fixedJson re_trailing_comma [TCap 1].

(** Lines 69 to 74: closing an open object or array. *)
Definition close_open (fixedJson : jsstring) : jsstring :=
  let fixedJson :=
    if startsWith fixedJson (ch "{") && negb (endsWith fixedJson (ch "}"))
    then fixedJson ++ [ch "}"] else fixedJson in
  if startsWith fixedJson (ch "[") && negb (endsWith fixedJson (ch "]"))
  then fixedJson ++ [ch "]"] else fixedJson.

(** The structural repair pass, lines 43 to 74. *)
Definition repair (jsonText : jsstring) : jsstring :=
  close_open (repair_substitutions jsonText).

(** The literal conversion, lines 84 to 87. *)
Definition convert_literal (jsonText : jsstring) : jsstring :=
  replace (replace jsonText re_unquoted_key tpl_quoted_key)
          re_single_quote [TText [dq]].

Definition extractJson (text : jsstring) : result jsstring :=
  let jsonText := candidate text in
  try_catch
    (_ <- JSON_parse jsonText ;; Ok jsonText)
    (try_catch
       (let fixedJson := repair jsonText in
        _ <- JSON_parse fixedJson ;; Ok fixedJson)
       (try_catch
          (let converted := convert_literal jsonText in
           _ <- JSON_parse converted ;; Ok converted)
          (Ok text))).

(* ------------------------------------------------------------------ *)
(** ** isCompleteJson *)

(** The predicate of line 118.  The values of [Object.values] of a parsed
    object are never [undefined], so the first disjunct of the source has
    no counterpart here. *)
Definition incomplete_field (v : value) : bool :=
  match v with
  | JNull => true
  | JStr s => str_eqb (trim s) []
  | _ => false
  end.

Definition defined (v : option value) : bool :=
  match v with
  | Some _ => true
  | None => false
  end.

Definition isCompleteJson (jsonText : jsstring) : result bool :=
  try_catch
    (parsed <- JSON_parse jsonText ;;
     if negb (typeof_object parsed) || is_null parsed then Ok false
     else if defined (get_prop parsed (js "title"))
             || defined (get_prop parsed (js "description")) then
       let hasIncompleteFields :=
         existsb incomplete_field (Object_values parsed) in
       Ok (negb hasIncompleteFields)
     else Ok true)
    (Ok false).

(* ------------------------------------------------------------------ *)
(** ** completeTaskJson *)

Definition default_title : jsstring := js "Generated Task".
Definition default_description : jsstring :=
  js "Task generated from incomplete AI response".
Definition default_details : jsstring :=
  js "Please review and update task details".
Definition default_testStrategy : jsstring :=
  js "Manual verification required".

(** Lines 146 to 152. *)
Definition task_defaults (parsed : value) : object :=
  [ (js "title", or_else (get_prop parsed (js "title")) (JStr default_title));
    (js "description",
      or_else (get_prop parsed (js "description")) (JStr default_description));
    (js "details",
      or_else (get_prop parsed (js "details")) (JStr default_details));
    (js "testStrategy",
      or_else (get_prop parsed (js "testStrategy"))
              (JStr default_testStrategy));
    (js "dependencies",
      match get_prop parsed (js "dependencies") with
      | Some (JArr l) => JArr l
      | _ => JArr []
      end) ].

(** [{ ...a, ...b }] where [a] is given by its members. *)
Definition spread (a : object) (b : value) : object :=
  fold_left (fun o kv => obj_set o (fst kv) (snd kv)) (own_entries b) a.

(** Lines 155 to 160. *)
Definition complete_object (parsed : value) : object :=
  let completed := spread (task_defaults parsed) parsed in
  if negb (isArray (obj_get completed (js "dependencies")))
  then obj_set completed (js "dependencies") (JArr [])
  else completed.

(** The object of lines 165 to 171. *)
Definition error_recovery_task : value :=
  JObj [ (js "title", JStr (js "Error Recovery Task"));
         (js "description", JStr (js "Task created due to JSON parsing error"));
         (js "details",
           JStr (js "Original AI response could not be parsed. Please review and update."));
         (js "testStrategy", JStr (js "Manual verification required"));
         (js "dependencies", JArr []) ].

Definition completeTaskJson (room : nat) (incompleteJson : jsstring)
    : result jsstring :=
  try_catch
    (parsed <- JSON_parse incompleteJson ;;
     let parsed :=
       if negb (typeof_object parsed) || is_null parsed then JObj []
       else parsed in
     JSON_stringify room (JObj (complete_object parsed)))
    (JSON_stringify room error_recovery_task).

(* ------------------------------------------------------------------ *)
(** ** Predicates used in the statements *)

Definition is_ok {A : Type} (r : result A) : bool :=
  match r with
  | Ok _ => true
  | Throw _ => false
  end.

(** [s] is strict JSON: [JSON.parse (s)] does not throw. *)
Definition parses (s : jsstring) : bool := is_ok (JSON_parse s).

(** A non-null structured value: an object or an array. *)
Definition structured (v : value) : bool :=
  match v with
  | JArr _ | JObj _ => true
  | _ => false
  end.

(** The key [k] is present among the own properties of [v]. *)
Definition has_key (v : value) (k : jsstring) : Prop :=
  exists x, get_prop v k = Some x.

(** A field value that makes a task-shaped object incomplete: null, or a
    string of whitespace only. *)
Definition blank (x : value) : Prop :=
  x = JNull \/ exists s, x = JStr s /\ Forall (fun c => is_space c = true) s.

(* ------------------------------------------------------------------ *)
(** ** Notions used in the proofs *)

(** What a pattern can match, and the captures it then makes; the
    anchors are not constrained. *)
Inductive matches : regex -> jsstring -> list (nat * jsstring) -> Prop :=
| M_eps : matches REps [] []
| M_char c : matches (RChar c) [c] []
| M_set (p : N -> bool) x : p x = true -> matches (RSet p) [x] []
| M_star (p : N -> bool) w :
    Forall (fun x => p x = true) w -> matches (RStar p) w []
| M_seq a b w1 w2 c1 c2 :
    matches a w1 c1 -> matches b w2 c2 ->
    matches (RSeq a b) (w1 ++ w2) (c2 ++ c1)
| M_alt_l a b w c : matches a w c -> matches (RAlt a b) w c
| M_alt_r a b w c : matches b w c -> matches (RAlt a b) w c
| M_group i a w c : matches a w c -> matches (RGroup i a) w ((i, w) :: c)
| M_bol : matches RBol [] []
| M_eol : matches REol [] [].

Definition starts_fence (s : jsstring) : bool :=
  match s with
  | a :: b :: c :: _ => (a =? ch "`") && (b =? ch "`") && (c =? ch "`")
  | _ => false
  end.

(** The text holds a run of three backticks. *)
Fixpoint has_fence (s : jsstring) : bool :=
  match s with
  | [] => false
  | _ :: s' => starts_fence s || has_fence s'
  end.

(** What may follow a number literal without changing how it is read. *)
Definition follow_ok (r : jsstring) : bool :=
  match r with
  | [] => true
  | c :: _ =>
      negb (is_digit c || (c =? ch ".") || (c =? ch "e") || (c =? ch "E"))
  end.

Definition head_is (P : N -> Prop) (s : jsstring) : Prop :=
  match s with
  | c :: _ => P c
  | [] => True
  end.

Definition int_follow (x : jsstring) : Prop :=
  head_is (fun c => is_digit c = false) x.

Definition frac_follow (x : jsstring) : Prop :=
  head_is (fun c => is_digit c = false /\ c <> ch ".") x.

Definition json_space (ws : jsstring) : Prop :=
  Forall (fun c => is_json_ws c = true) ws.

(** Reading a value depends neither on the text after it, as long as
    that text cannot continue a number, nor on the fuel, once there is
    twice the length of what is read. *)
Definition local_value (n : nat) : Prop :=
  forall s v r, parse_value n s = Some (v, r) ->
  exists pre, s = pre ++ r /\ pre <> []
  /\ (forall o, v = JObj o -> exists body, pre = ch "{" :: body ++ [ch "}"])
  /\ forall m x, (2 * length pre <= m + 1)%nat -> follow_ok x = true ->
       parse_value m (pre ++ x) = Some (v, x).

Definition local_elements (n : nat) : Prop :=
  forall s l r, parse_elements n s = Some (l, r) ->
  exists pre, s = pre ++ r /\ pre <> []
  /\ forall m x, (2 * length pre <= m)%nat ->
       parse_elements m (pre ++ x) = Some (l, x).

Definition local_members (n : nat) : Prop :=
  forall s l r, parse_members n s = Some (l, r) ->
  exists pre, s = pre ++ r /\ pre <> []
  /\ (exists body, pre = body ++ [ch "}"])
  /\ forall m x, (2 * length pre <= m)%nat ->
       parse_members m (pre ++ x) = Some (l, x).


Definition is_brace (c : N) : bool := (c =? ch "{") || (c =? ch "}").

(** The braces of a text, in order. *)
Definition braces (s : jsstring) : jsstring := filter is_brace s.

Definition has_close (s : jsstring) : bool :=
  existsb (fun c => c =? ch "}") s.

(** Some [{] of the text has a [}] after it: what the object pattern of
    line 26 needs to match. *)
Fixpoint open_then_close (s : jsstring) : bool :=
  match s with
  | [] => false
  | c :: s' => ((c =? ch "{") && has_close s') || open_then_close s'
  end.

(** The replacements of the repair pass, in order: pattern and template. *)
Definition repair_steps : list (RegExp * list tpl_item) :=
  [ (re_dangling "dependencies" AtEnd, tpl_empty_array "dependencies" AtEnd);
    (re_dangling "dependencies" BeforeBrace,
      tpl_empty_array "dependencies" BeforeBrace);
    (re_dangling "dependencies" BeforeComma,
      tpl_empty_array "dependencies" BeforeComma);
    (re_dangling "subtasks" AtEnd, tpl_empty_array "subtasks" AtEnd);
    (re_dangling "subtasks" BeforeBrace, tpl_empty_array "subtasks" BeforeBrace);
    (re_dangling "subtasks" BeforeComma, tpl_empty_array "subtasks" BeforeComma);
    (re_dangling_string AtEnd, tpl_empty_string AtEnd);
    (re_dangling_string BeforeBrace, tpl_empty_string BeforeBrace);
    (re_dangling_string BeforeComma, tpl_empty_string BeforeComma);
    (re_colon AtEnd, tpl_colon AtEnd);
    (re_colon BeforeBrace, tpl_colon BeforeBrace);
    (re_colon BeforeComma, tpl_colon BeforeComma);
    (re_trailing_comma, [TCap 1]) ].

(** What the candidate of [extractJson] can be. *)
Definition candidate_kind (c : jsstring) : Prop :=
  (exists x, c = ch "{" :: x ++ [ch "}"])
  \/ (exists x, c = ch "[" :: x ++ [ch "]"])
  \/ open_then_close c = false.

(** What the replacement of line 87 does to a unit. *)
Definition unquote (c : N) : N := if c =? ch "'" then dq else c.

(* ------------------------------------------------------------------ *)
(** ** Notions used for the completed task *)

(** The members of an object are in enumeration order: no key occurs
    twice and no key would be enumerated before one on its left. *)
Fixpoint ordered (m : object) : Prop :=
  match m with
  | [] => True
  | (k', _) :: m' =>
      Forall (fun kv => str_eqb (fst kv) k' = false
                        /\ key_before (fst kv) k' = false) m'
      /\ ordered m'
  end.

(** A value as [JSON.parse] builds it: every object in it is in
    enumeration order. *)
#[local] Unset Elimination Schemes.
Inductive wf : value -> Prop :=
| wf_null : wf JNull
| wf_bool b : wf (JBool b)
| wf_num x : wf (JNum x)
| wf_str s : wf (JStr s)
| wf_arr l : Forall wf l -> wf (JArr l)
| wf_obj m : ordered m -> Forall (fun kv => wf (snd kv)) m -> wf (JObj m).
#[local] Set Elimination Schemes.

(** [JSON.stringify] writes the number so that [JSON.parse] reads it back:
    it is finite and its shortest digits read as the same value. *)
Definition number_stable (x : spec_float) : bool :=
  is_finite x &&
  match lex_number (number_to_string x) with
  | Some (n, []) => b64_eqb (numeral_value n) x
  | _ => false
  end.

(** All the numbers of a value are written so that they are read back. *)
Fixpoint stable (v : value) : bool :=
  match v with
  | JNum x => number_stable x
  | JArr l => forallb stable l
  | JObj m => forallb (fun kv => match kv with (_, x) => stable x end) m
  | _ => true
  end.

(** A unit with which the text of a value can start. *)
Definition value_start (c : N) : Prop :=
  is_json_ws c = false /\ c <> ch "]" /\ c <> ch "}".

(** The text of a member in [serialize]. *)
Definition member_text (inner : jsstring) (kv : jsstring * value) : jsstring :=
  match kv with
  | (k, x) => quote_json k ++ js ": " ++ serialize inner x
  end.

(** Reading back what [serialize] wrote. *)
Definition reads_back (v : value) : Prop :=
  forall ind m rest,
    json_space ind -> follow_ok rest = true ->
    (2 * length (serialize ind v) <= m + 1)%nat ->
    parse_value m (serialize ind v ++ rest) = Some (v, rest).

(** The four defaults that are fixed strings (lines 147 to 150). *)
Definition default_fields : object :=
  [ (js "title", JStr default_title);
    (js "description", JStr default_description);
    (js "details", JStr default_details);
    (js "testStrategy", JStr default_testStrategy) ].

(* ------------------------------------------------------------------ *)
(** ** Notions used for the further properties *)

(** The units that a match of a pattern can hold. *)
Fixpoint pattern_units (r : regex) (x : N) : Prop :=
  match r with
  | RChar c => x = c
  | RSet p | RStar p => p x = true
  | RSeq a b | RAlt a b => pattern_units a x \/ pattern_units b x
  | RGroup _ a => pattern_units a x
  | REps | RBol | REol => False
  end.

(** The text [s] holds [b] after units that satisfy [P] and before units
    that satisfy [Q]. *)
Definition framed (P Q : N -> Prop) (b s : jsstring) : Prop :=
  exists pre post, s = pre ++ b ++ post /\ Forall P pre /\ Forall Q post.

(** [/o[\s\S]*c/]: the shape of the patterns of lines 26 and 27. *)
Definition re_span (o c : N) : RegExp :=
  Re (rseq [RChar o; RStar any_unit; RChar c]) false false.

Definition is_index (k : jsstring) : bool :=
  match array_index k with
  | Some _ => true
  | None => false
  end.

(** The keys of the defaults of lines 146 to 152, in their order. *)
Definition task_keys : list jsstring :=
  [js "title"; js "description"; js "details"; js "testStrategy";
   js "dependencies"].

(** The members of a completed task: array indices, then the five task
    fields in the order of the defaults, then the other keys. *)
Definition task_layout (m : object) : Prop :=
  exists idx fields others,
    m = idx ++ fields ++ others
    /\ Forall (fun kv => is_index (fst kv) = true) idx
    /\ map fst fields = task_keys
    /\ Forall (fun kv => ~ In (fst kv) task_keys) others.

(** The own property that [isCompleteJson] finds incomplete and that
    [completeTaskJson] does not rewrite. *)
Definition kept_blank (kv : jsstring * value) : bool :=
  negb (str_eqb (fst kv) (js "dependencies")) && incomplete_field (snd kv).

(** ** Notions used for the dangling colon *)

(** A pattern that ends with the end-of-text anchor. *)
Fixpoint ends_eol (r : regex) : bool :=
  match r with
  | REol => true
  | RSeq _ b => ends_eol b
  | _ => false
  end.

(** The text starts with optional whitespace and a comma. *)
Fixpoint comma_after_space (s : jsstring) : bool :=
  match s with
  | c :: s' =>
      if c =? ch "," then true
      else if is_space c then comma_after_space s' else false
  | [] => false
  end.

(** Some colon of the text is followed by optional whitespace and a
    comma: what the patterns of lines 48, 53, 58 and 63 need to match. *)
Fixpoint colon_then_comma (s : jsstring) : bool :=
  match s with
  | c :: s' => ((c =? ch ":") && comma_after_space s') || colon_then_comma s'
  | [] => false
  end.

(** The six keys that the repair pass knows, each with the value it puts
    after a dangling colon (lines 46 to 58). *)
Definition dangling_fills : list (string * jsstring) :=
  [ ("dependencies"%string, js "[]"); ("subtasks"%string, js "[]");
    ("title"%string, js "~~"); ("description"%string, js "~~");
    ("details"%string, js "~~"); ("testStrategy"%string, js "~~") ].

(** A pattern without anchors. *)
Fixpoint plain (r : regex) : bool :=
  match r with
  | RBol | REol => false
  | RSeq a b | RAlt a b => plain a && plain b
  | RGroup _ a => plain a
  | _ => true
  end.

(** A pattern without anchors but for the end-of-text anchor that
    ends it. *)
Fixpoint plain_to_eol (r : regex) : bool :=
  match r with
  | REol => true
  | RSeq a b => plain a && plain_to_eol b
  | _ => false
  end.

(** The unit before the position reached after reading [w]. *)
Definition after (prev : option N) (w : jsstring) : option N :=
  match rev w with
  | c :: _ => Some c
  | [] => prev
  end.

(** The keys of the pattern of lines 56 to 58. *)
Definition string_fields : list string :=
  ["title"; "description"; "details"; "testStrategy"]%string.

(** Neither a closing brace nor a closing bracket. *)
Definition no_closer (x : N) : Prop := x <> ch "}" /\ x <> ch "]".

(** The text ends with the key [name] in quotes and optional
    whitespace. *)
Definition ends_with_key (name : string) (y : jsstring) : bool :=
  match strip_prefix (rev (dq :: js name ++ [dq])) (drop_space (rev y)) with
  | Some _ => true
  | None => false
  end.

(** The same for one of the six keys that the repair pass knows. *)
Definition ends_with_known_key (y : jsstring) : bool :=
  existsb (fun q => ends_with_key (fst q) y) dangling_fills.

(** The text ends with the key [name] in quotes and whitespace. *)
Definition key_ends (name : string) (y : jsstring) : Prop :=
  exists x ws, Forall (fun c => is_space c = true) ws
               /\ y = x ++ dq :: js name ++ dq :: ws.

(** The first unit of the text that is not whitespace satisfies [p]. *)
Fixpoint after_space (p : N -> bool) (s : jsstring) : bool :=
  match s with
  | c :: s' =>
      if p c then true else if is_space c then after_space p s' else false
  | [] => false
  end.

(** Some unit [u] of the text is followed by optional whitespace and a
    unit that satisfies [p]. *)
Fixpoint unit_then (u : N) (p : N -> bool) (s : jsstring) : bool :=
  match s with
  | c :: s' => ((c =? u) && after_space p s') || unit_then u p s'
  | [] => false
  end.

(** Some colon of the text is followed by optional whitespace and a
    closing brace: what the patterns of lines 47, 51, 57 and 62 need to
    match. *)
Definition colon_then_brace (s : jsstring) : bool :=
  unit_then (ch ":") (fun c => c =? ch "}") s.

(** Some comma of the text is followed by optional whitespace and a
    closing brace or bracket: what the pattern of line 66 matches. *)
Definition comma_then_closer (s : jsstring) : bool :=
  unit_then (ch ",") is_closer s.

(** ** Notions used for the object literal *)

(** A member of an object literal: whitespace, a key that is not in
    quotes, whitespace, the colon and the text of the value. *)
Record literal : Type := Literal {
  lit_space : jsstring;
  lit_key : jsstring;
  lit_gap : jsstring;
  lit_value : jsstring
}.

Definition literal_text (m : literal) : jsstring :=
  lit_space m ++ lit_key m ++ lit_gap m ++ ch ":" :: lit_value m.

(** The member with its key in quotes; the whitespace between the key and
    the colon is not kept. *)
Definition quoted_text (m : literal) : jsstring :=
  lit_space m ++ dq :: lit_key m ++ dq :: ch ":" :: lit_value m.

(** The texts of the members with commas between them. *)
Fixpoint joined (f : literal -> jsstring) (ms : list literal) : jsstring :=
  match ms with
  | [] => []
  | m :: ms' =>
      f m ++ match ms' with
             | [] => []
             | _ :: _ => ch "," :: joined f ms'
             end
  end.

(** [[a-zA-Z_$][a-zA-Z0-9_$]*] *)
Definition is_identifier (k : jsstring) : bool :=
  match k with
  | c :: k' => is_key_start c && forallb is_key_unit k'
  | [] => false
  end.

(** The key is an identifier, whitespace stands around it, and the text of
    the value holds neither an opening brace nor a comma. *)
Definition literal_ok (m : literal) : bool :=
  forallb is_space (lit_space m) && is_identifier (lit_key m)
  && forallb is_space (lit_gap m)
  && forallb (fun c => negb (is_key_opener c)) (lit_value m).

(** A unit that starts no match of the patterns of the repair pass. *)
Definition plain_unit (h : N) : Prop :=
  h <> dq /\ h <> ch ":" /\ h <> ch ",".

(** ** Notions used for the valid text *)

(** From the text [r] on, whitespace leads to the end of a line: what
    [\s*$] matches under the flag [m]. *)
Fixpoint eol_after (r : jsstring) : bool :=
  match r with
  | [] => true
  | c :: r' => is_line_terminator c || (is_space c && eol_after r')
  end.

(** The text holds a run of three backticks at which a pattern of lines 15
    to 17 matches: the run is at the start of a line, or whitespace leads
    from it to the end of a line.  [prev] is the unit before the text. *)
Fixpoint fence_at_line (prev : option N) (s : jsstring) : bool :=
  match s with
  | [] => false
  | c :: s' =>
      (starts_fence s && (at_bol true prev || eol_after (skipn 3 s)))
      || fence_at_line (Some c) s'
  end.

Definition line_fence (s : jsstring) : bool := fence_at_line None s.

(** Some [o] of the text has a [c] after it: what the patterns of lines 26
    and 27 need to match. *)
Fixpoint opens_then_closes (o c : N) (s : jsstring) : bool :=
  match s with
  | [] => false
  | x :: s' =>
      ((x =? o) && existsb (fun y => y =? c) s') || opens_then_closes o c s'
  end.

(** The matches of lines 26 to 33 take the whole text [t] of the value
    [v]: an object is matched from its first to its last brace; an array
    is, unless the object pattern matches inside it; a scalar is left alone
    when neither pattern matches inside it. *)
Definition whole_match (v : value) (t : jsstring) : bool :=
  match v with
  | JObj _ => true
  | JArr _ => negb (open_then_close t)
  | _ =>
      negb (open_then_close t)
      && negb (opens_then_closes (ch "[") (ch "]") t)
  end.

(* ================================================================== *)
(** * Properties *)

(** ** Results and exceptions *)

Lemma try_catch_ok {A : Type} (body handler : result A) :
  (exists a, handler = Ok a) -> exists a, try_catch body handler = Ok a.
Proof.
  intros [a Ha]. destruct body as [b|e]; simpl; eauto.
Qed.

Lemma parses_false_throw (s : jsstring) :
  parses s = false -> exists e, JSON_parse s = Throw e.
Proof.
  unfold parses. destruct (JSON_parse s); simpl; [discriminate|eauto].
Qed.

(** [JSON.parse] throws nothing but a SyntaxError. *)
Lemma JSON_parse_throws (s : jsstring) (e : exn) :
  JSON_parse s = Throw e -> e = SyntaxError.
Proof.
  unfold JSON_parse.
  destruct (parse_value (2 * length s + 1) (skip_ws s)) as [[v rest]|];
    [destruct (skip_ws rest)|]; congruence.
Qed.

Lemma parses_true_ok (s : jsstring) :
  parses s = true -> exists v, JSON_parse s = Ok v.
Proof.
  unfold parses. destruct (JSON_parse s); simpl; [eauto|discriminate].
Qed.

(** The shape of lines 36 to 97: three attempts, then the fallback. *)
Lemma try_chain_cases (p1 p2 p3 : result value) (c f k t : jsstring) :
  let r := try_catch (_ <- p1 ;; Ok c)
             (try_catch (_ <- p2 ;; Ok f)
                (try_catch (_ <- p3 ;; Ok k) (Ok t))) in
  (is_ok p1 = true /\ r = Ok c)
  \/ (is_ok p1 = false /\ is_ok p2 = true /\ r = Ok f)
  \/ (is_ok p1 = false /\ is_ok p2 = false /\ is_ok p3 = true /\ r = Ok k)
  \/ (is_ok p1 = false /\ is_ok p2 = false /\ is_ok p3 = false /\ r = Ok t).
Proof.
  destruct p1, p2, p3; simpl; auto 10.
Qed.

(** The four ways [extractJson] returns, by the first stage that parses. *)
Lemma extractJson_cases (text : jsstring) :
  let c := candidate text in
  (parses c = true /\ extractJson text = Ok c)
  \/ (parses c = false /\ parses (repair c) = true
      /\ extractJson text = Ok (repair c))
  \/ (parses c = false /\ parses (repair c) = false
      /\ parses (convert_literal c) = true
      /\ extractJson text = Ok (convert_literal c))
  \/ (parses c = false /\ parses (repair c) = false
      /\ parses (convert_literal c) = false
      /\ extractJson text = Ok text).
Proof.
  exact (try_chain_cases (JSON_parse (candidate text))
           (JSON_parse (repair (candidate text)))
           (JSON_parse (convert_literal (candidate text)))
           (candidate text) (repair (candidate text))
           (convert_literal (candidate text)) text).
Qed.

(** When the candidate parses it is the result. *)
Lemma extractJson_first (text : jsstring) :
  parses (candidate text) = true -> extractJson text = Ok (candidate text).
Proof.
  intros H.
  destruct (extractJson_cases text)
    as [[_ E]|[(F & _)|[(F & _)|(F & _)]]]; [exact E|congruence..].
Qed.

(** ** C8 *)

(** C8: when the strict parse fails on the candidate, on the repaired
    candidate and on the converted candidate, [extractJson] returns its
    argument itself, untrimmed and untransformed. *)
Theorem extractJson_fallback_verbatim (text : jsstring) :
  parses (candidate text) = false ->
  parses (repair (candidate text)) = false ->
  parses (convert_literal (candidate text)) = false ->
  extractJson text = Ok text.
Proof.
  intros H1 H2 H3.
  destruct (extractJson_cases text) as [[H _]|[(_ & H & _)|[(_ & _ & H & _)|H]]];
    try congruence.
  apply H.
Qed.

Lemma extractJson_fallback_verbatim_witness :
  let text := js "  not json at all {{{ " in
  parses (candidate text) = false
  /\ candidate text <> text
  /\ extractJson text = Ok text.
Proof.
  cbv zeta. split; [vm_compute; reflexivity|]. split.
  - vm_compute. discriminate.
  - apply extractJson_fallback_verbatim; vm_compute; reflexivity.
Defined.

(** ** C9 *)

(** C9: [extractJson] returns, without throwing, either its argument
    unchanged or a text that parses as strict JSON. *)
Theorem extractJson_verbatim_or_valid (text : jsstring) :
  exists r, extractJson text = Ok r /\ (r = text \/ parses r = true).
Proof.
  destruct (extractJson_cases text)
    as [[P H]|[(_ & P & H)|[(_ & _ & P & H)|(_ & _ & _ & H)]]];
    eexists; (split; [exact H|]); auto.
Qed.

(** ** C4 *)

(** C4: on every string none of the three functions throws, and each
    failure path ends in the function's fallback: the argument itself for
    [extractJson], [false] for [isCompleteJson], the error-recovery task for
    [completeTaskJson], whether it is the parse of line 138 or the
    serialisation of line 162 that fails.  The last part gives the text of
    the error-recovery task. *)
Theorem no_propagating_error (room : nat) (text : jsstring) :
  (exists r, extractJson text = Ok r)
  /\ (exists b, isCompleteJson text = Ok b)
  /\ (exists r, completeTaskJson room text = Ok r)
  /\ (parses (candidate text) = false ->
      parses (repair (candidate text)) = false ->
      parses (convert_literal (candidate text)) = false ->
      extractJson text = Ok text)
  /\ (parses text = false -> isCompleteJson text = Ok false)
  /\ (parses text = false ->
      completeTaskJson room text = Ok (json_text error_recovery_task))
  /\ (forall parsed e,
        JSON_parse text = Ok parsed ->
        JSON_stringify room
          (JObj (complete_object
                   (if negb (typeof_object parsed) || is_null parsed
                    then JObj [] else parsed))) = Throw e ->
        completeTaskJson room text = Ok (json_text error_recovery_task))
  /\ json_text error_recovery_task
     = join [LF]
         [ js "{";
           js "  ~title~: ~Error Recovery Task~,";
           js "  ~description~: ~Task created due to JSON parsing error~,";
           js "  ~details~: ~Original AI response could not be parsed. Please review and update.~,";
           js "  ~testStrategy~: ~Manual verification required~,";
           js "  ~dependencies~: []";
           js "}" ].
Proof.
  repeat split.
  - destruct (extractJson_cases text)
      as [[_ H]|[(_ & _ & H)|[(_ & _ & _ & H)|(_ & _ & _ & H)]]]; eauto.
  - unfold isCompleteJson. apply try_catch_ok. eauto.
  - unfold completeTaskJson. apply try_catch_ok.
    exists (json_text error_recovery_task). reflexivity.
  - intros H1 H2 H3.
    destruct (extractJson_cases text)
      as [[H _]|[(_ & H & _)|[(_ & _ & H & _)|H]]]; try congruence.
    apply H.
  - intros H. apply parses_false_throw in H as [e He].
    unfold isCompleteJson. rewrite He. reflexivity.
  - intros H. apply parses_false_throw in H as [e He].
    unfold completeTaskJson. rewrite He. reflexivity.
  - intros parsed e P T. unfold completeTaskJson. rewrite P.
    cbn [bind]. rewrite T. reflexivity.
Qed.

Lemma no_propagating_error_witness :
  let text := js "not json" in
  parses text = false
  /\ extractJson text = Ok text
  /\ isCompleteJson text = Ok false
  /\ completeTaskJson 0 text = Ok (json_text error_recovery_task)
  /\ JSON_parse (json_text error_recovery_task) = Ok error_recovery_task.
Proof.
  cbv zeta.
  destruct (no_propagating_error 0 (js "not json"))
    as (_ & _ & _ & E & I & C & _).
  split; [vm_compute; reflexivity|].
  split; [apply E; vm_compute; reflexivity|].
  split; [apply I; vm_compute; reflexivity|].
  split; [apply C|]; vm_compute; reflexivity.
Defined.

(** ** C7 *)

(** C7: on the truncated text [{~title~:~x~,~dependencies~:] the repair
    pass puts an empty array after the dangling key and closes the brace,
    and the result parses to the value of
    [{~title~:~x~,~dependencies~:[]}]. *)
Theorem extractJson_truncated_dependencies :
  let text := js "{~title~:~x~,~dependencies~:" in
  repair_substitutions (candidate text)
    = js "{~title~:~x~,~dependencies~: []"
  /\ extractJson text = Ok (js "{~title~:~x~,~dependencies~: []}")
  /\ JSON_parse (js "{~title~:~x~,~dependencies~: []}")
     = JSON_parse (js "{~title~:~x~,~dependencies~:[]}")
  /\ JSON_parse (js "{~title~:~x~,~dependencies~:[]}")
     = Ok (JObj [(js "title", JStr (js "x")); (js "dependencies", JArr [])]).
Proof.
  cbv zeta. repeat split; vm_compute; reflexivity.
Qed.

(** ** C3 *)

(** C3 (the code departs from it): the replacement of line 66 has no [g]
    flag, so only the first trailing comma goes.  On [{~a~:[1,],}] the
    comma before [}] stays, the repaired text does not parse, and
    [extractJson] gives the text back. *)
Theorem trailing_comma_first_only :
  let text := js "{~a~:[1,],}" in
  replace text re_trailing_comma [TCap 1] = js "{~a~:[1],}"
  /\ repair (candidate text) = js "{~a~:[1],}"
  /\ parses (js "{~a~:[1],}") = false
  /\ parses (js "{~a~:[1]}") = true
  /\ extractJson text = Ok text.
Proof.
  cbv zeta. repeat split; vm_compute; reflexivity.
Qed.

(** ** C1 *)

(** C1 (the code departs from it): the defaults are computed with [||] but
    the parsed object is then spread over them, so a field that is present
    keeps its value even when it is empty or null.  On [{~title~:~~}] the
    returned JSON has an empty [title]; [dependencies] is an array. *)
Theorem completeTaskJson_keeps_empty_title (room : nat) :
  let text := js "{~title~:~~}" in
  JSON_parse text = Ok (JObj [(js "title", JStr [])])
  /\ obj_get (task_defaults (JObj [(js "title", JStr [])])) (js "title")
     = Some (JStr default_title)
  /\ exists out completed,
       completeTaskJson room text = Ok out
       /\ JSON_parse out = Ok completed
       /\ get_prop completed (js "title") = Some (JStr [])
       /\ get_prop completed (js "dependencies") = Some (JArr [])
       /\ isCompleteJson out = Ok false.
Proof.
  cbv zeta. split; [vm_compute; reflexivity|].
  split; [vm_compute; reflexivity|].
  eexists. eexists.
  split; [vm_compute; reflexivity|].
  split; [vm_compute; reflexivity|].
  repeat split; vm_compute; reflexivity.
Qed.

(** ** Whitespace and trimming *)

Lemma str_eqb_eq (a b : jsstring) : str_eqb a b = true <-> a = b.
Proof.
  revert b. induction a as [|x a IH]; intros [|y b]; simpl;
    try (split; [discriminate|discriminate]); try tauto.
  rewrite andb_true_iff, N.eqb_eq, IH. split.
  - intros [-> ->]. reflexivity.
  - intros H. injection H. auto.
Qed.

Lemma str_eqb_refl (a : jsstring) : str_eqb a a = true.
Proof. apply str_eqb_eq. reflexivity. Qed.

Lemma drop_space_nil (s : jsstring) :
  drop_space s = [] <-> Forall (fun c => is_space c = true) s.
Proof.
  induction s as [|c s IH]; simpl.
  - split; auto.
  - destruct (is_space c) eqn:E.
    + rewrite IH. split; intros H.
      * constructor; assumption.
      * inversion H; assumption.
    + split; [discriminate|]. intros H. inversion H. congruence.
Qed.

Lemma drop_space_head (s : jsstring) :
  match drop_space s with
  | c :: _ => is_space c = false
  | [] => True
  end.
Proof.
  induction s as [|c s IH]; simpl; [exact I|].
  destruct (is_space c) eqn:E; [exact IH|exact E].
Qed.

(** [trim] leaves nothing exactly for strings of whitespace only. *)
Lemma trim_nil (s : jsstring) :
  trim s = [] <-> Forall (fun c => is_space c = true) s.
Proof.
  unfold trim. split.
  - intros H.
    assert (D : drop_space (rev (drop_space s)) = []).
    { destruct (drop_space (rev (drop_space s))) as [|x l]; [reflexivity|].
      simpl in H. destruct (rev l); discriminate. }
    apply drop_space_nil in D. apply Forall_rev in D.
    rewrite rev_involutive in D.
    pose proof (drop_space_head s) as Hd.
    destruct (drop_space s) as [|c r] eqn:E.
    + apply drop_space_nil. exact E.
    + inversion D. congruence.
  - intros H. apply drop_space_nil in H. rewrite H. reflexivity.
Qed.

(** ** C5 *)

Lemma incomplete_field_blank (x : value) :
  incomplete_field x = true <-> blank x.
Proof.
  unfold blank. destruct x; simpl;
    try (split; [discriminate|intros [H|(s & H & _)]; discriminate]).
  - split; auto.
  - rewrite str_eqb_eq, trim_nil. split.
    + intros H. right. eauto.
    + intros [H|(t & H & F)]; [discriminate|]. injection H as ->. exact F.
Qed.

Lemma defined_has_key (v : value) (k : jsstring) :
  defined (get_prop v k) = true <-> has_key v k.
Proof.
  unfold has_key. destruct (get_prop v k); simpl; split; eauto.
  - discriminate.
  - intros [x H]. discriminate.
Qed.

Lemma has_blank_field (v : value) :
  existsb incomplete_field (Object_values v) = true
  <-> exists x, In x (Object_values v) /\ blank x.
Proof.
  rewrite existsb_exists. split; intros (x & I & H); exists x; split; auto;
    apply incomplete_field_blank; assumption.
Qed.

(** What [isCompleteJson] computes once the text has parsed. *)
Lemma isCompleteJson_parsed (jsonText : jsstring) (v : value) :
  JSON_parse jsonText = Ok v ->
  isCompleteJson jsonText =
    Ok (if structured v then
          if defined (get_prop v (js "title"))
             || defined (get_prop v (js "description"))
          then negb (existsb incomplete_field (Object_values v))
          else true
        else false).
Proof.
  intros H. unfold isCompleteJson. rewrite H.
  cbn [bind try_catch].
  destruct v; cbn [typeof_object is_null structured negb orb];
    try reflexivity;
    match goal with
    | |- context [defined ?a || defined ?b] =>
        destruct (defined a || defined b); reflexivity
    end.
Qed.

(** C5: [isCompleteJson] is [false] when the strict parse fails or gives a
    scalar or null; on an object or array with a [title] or a [description]
    key it is [false] exactly when some own field is null or a string of
    whitespace only, and [true] otherwise; on an object or array with
    neither key it is [true]. *)
Theorem isCompleteJson_characterised (jsonText : jsstring) :
  (parses jsonText = false -> isCompleteJson jsonText = Ok false)
  /\ (forall v, JSON_parse jsonText = Ok v ->
        (structured v = false -> isCompleteJson jsonText = Ok false)
        /\ (structured v = true ->
            has_key v (js "title") \/ has_key v (js "description") ->
            ((exists x, In x (Object_values v) /\ blank x) ->
             isCompleteJson jsonText = Ok false)
            /\ (~ (exists x, In x (Object_values v) /\ blank x) ->
                isCompleteJson jsonText = Ok true))
        /\ (structured v = true ->
            ~ has_key v (js "title") -> ~ has_key v (js "description") ->
            isCompleteJson jsonText = Ok true)).
Proof.
  split.
  - intros H. apply parses_false_throw in H as [e He].
    unfold isCompleteJson. rewrite He. reflexivity.
  - intros v Hv. rewrite (isCompleteJson_parsed _ _ Hv).
    split; [|split].
    + intros ->. reflexivity.
    + intros -> K.
      assert (D : defined (get_prop v (js "title"))
                  || defined (get_prop v (js "description")) = true).
      { apply orb_true_iff.
        destruct K as [K|K]; [left|right]; apply defined_has_key; exact K. }
      rewrite D. split; intros B.
      * apply has_blank_field in B. rewrite B. reflexivity.
      * destruct (existsb incomplete_field (Object_values v)) eqn:E;
          [|reflexivity].
        exfalso. apply B. apply has_blank_field. exact E.
    + intros -> T D.
      destruct (defined (get_prop v (js "title"))) eqn:ET.
      { exfalso. apply T. apply defined_has_key. exact ET. }
      destruct (defined (get_prop v (js "description"))) eqn:ED.
      { exfalso. apply D. apply defined_has_key. exact ED. }
      reflexivity.
Qed.

Lemma isCompleteJson_characterised_witness :
  isCompleteJson (js "{~title~:~x~,~description~:~ ~}") = Ok false
  /\ isCompleteJson (js "{~title~:0}") = Ok true
  /\ isCompleteJson (js "{~a~:null}") = Ok true
  /\ isCompleteJson (js "null") = Ok false
  /\ isCompleteJson (js "{") = Ok false.
Proof.
  split; [|split; [|split; [|split]]].
  - set (t := js "{~title~:~x~,~description~:~ ~}").
    set (v := JObj [(js "title", JStr (js "x"));
                    (js "description", JStr (js " "))]).
    assert (P : JSON_parse t = Ok v) by (vm_compute; reflexivity).
    destruct (isCompleteJson_characterised t) as [_ H].
    destruct (H v P) as (_ & H2 & _).
    apply H2; [reflexivity| |].
    + left. exists (JStr (js "x")). vm_compute. reflexivity.
    + exists (JStr (js " ")). split.
      * simpl. auto.
      * right. exists (js " "). split; [reflexivity|].
        repeat constructor.
  - set (t := js "{~title~:0}").
    set (v := JObj [(js "title", JNum (S754_zero false))]).
    assert (P : JSON_parse t = Ok v) by (vm_compute; reflexivity).
    destruct (isCompleteJson_characterised t) as [_ H].
    destruct (H v P) as (_ & H2 & _).
    apply H2; [reflexivity| |].
    + left. exists (JNum (S754_zero false)). vm_compute. reflexivity.
    + intros (x & I & B). simpl in I. destruct I as [<-|[]].
      destruct B as [B|(s & B & _)]; discriminate.
  - set (t := js "{~a~:null}").
    set (v := JObj [(js "a", JNull)]).
    assert (P : JSON_parse t = Ok v) by (vm_compute; reflexivity).
    destruct (isCompleteJson_characterised t) as [_ H].
    destruct (H v P) as (_ & _ & H3).
    apply H3; [reflexivity| |]; intros [x K]; vm_compute in K; discriminate.
  - assert (P : JSON_parse (js "null") = Ok JNull) by (vm_compute; reflexivity).
    destruct (isCompleteJson_characterised (js "null")) as [_ H].
    destruct (H JNull P) as (H1 & _). apply H1. reflexivity.
  - destruct (isCompleteJson_characterised (js "{")) as [H _].
    apply H. vm_compute. reflexivity.
Defined.

(* ------------------------------------------------------------------ *)
(** ** Tactics *)

Arguments is_digit : simpl never.
Arguments is_space : simpl never.
Arguments is_json_ws : simpl never.
Arguments in_range : simpl never.
Arguments ch : simpl never.
Arguments N.eqb : simpl never.
Arguments N.ltb : simpl never.
Arguments N.leb : simpl never.

Ltac ch_norm :=
  repeat match goal with
  | |- context [ch ?a] =>
      let v := eval vm_compute in (ch a) in change (ch a) with v
  | H : context [ch ?a] |- _ =>
      let v := eval vm_compute in (ch a) in change (ch a) with v in H
  end.

(** Decide a fact on units from the comparisons in the context. *)
Ltac units :=
  unfold is_json_ws, is_space, is_digit, is_upper, is_lower, is_word,
    is_line_terminator, in_range, dq in *;
  ch_norm;
  repeat rewrite ?orb_true_iff, ?orb_false_iff, ?andb_true_iff,
    ?andb_false_iff, ?negb_true_iff, ?negb_false_iff,
    ?N.eqb_eq, ?N.eqb_neq, ?N.leb_le, ?N.leb_gt, ?N.ltb_lt, ?N.ltb_ge in *;
  lia.

Ltac app_norm :=
  repeat first [rewrite <- app_assoc | rewrite <- app_comm_cons].

Ltac list_len :=
  repeat first [rewrite length_app in * | progress cbn [length] in *]; lia.

(* ------------------------------------------------------------------ *)
(** ** The matcher *)

Lemma star_loop_sound (p : N -> bool) k prev rest caps res :
  star_loop p k prev rest caps = Some res ->
  exists w prev1 rest1,
    rest = w ++ rest1 /\ Forall (fun x => p x = true) w
    /\ k (MState prev1 rest1 caps) = Some res.
Proof.
  revert prev. induction rest as [|c rest IH]; intros prev H; simpl in H.
  - exists [], prev, []. auto.
  - destruct (p c) eqn:E.
    + destruct (star_loop p k (Some c) rest caps) eqn:S.
      * injection H as ->.
        destruct (IH _ S) as (w & p1 & r1 & -> & F & K).
        exists (c :: w), p1, r1. auto.
      * exists [], prev, (c :: rest). auto.
    + exists [], prev, (c :: rest). auto.
Qed.

Lemma firstn_app_length (w r : jsstring) :
  firstn (length (w ++ r) - length r) (w ++ r) = w.
Proof.
  rewrite length_app.
  replace (length w + length r - length r)%nat with (length w + 0)%nat by lia.
  rewrite firstn_app_2. simpl. apply app_nil_r.
Qed.

Lemma rmatch_sound (ml : bool) (r : regex) :
  forall k st res,
    rmatch ml r k st = Some res ->
    exists w cs st1,
      m_rest st = w ++ m_rest st1 /\ matches r w cs
      /\ m_caps st1 = cs ++ m_caps st /\ k st1 = Some res.
Proof.
  induction r as [|c|p|p|a IHa b IHb|a IHa b IHb|i a IHa| |];
    intros k st res H; simpl in H.
  - exists [], [], st. repeat split; auto. constructor.
  - destruct (m_rest st) as [|x t] eqn:R; [discriminate|].
    destruct (x =? c) eqn:E; [|discriminate].
    apply N.eqb_eq in E. subst x.
    exists [c], [], (MState (Some c) t (m_caps st)). repeat split; auto.
    constructor.
  - destruct (m_rest st) as [|x t] eqn:R; [discriminate|].
    destruct (p x) eqn:E; [|discriminate].
    exists [x], [], (MState (Some x) t (m_caps st)). repeat split; auto.
    constructor. exact E.
  - apply star_loop_sound in H as (w & p1 & r1 & R & F & K).
    exists w, [], (MState p1 r1 (m_caps st)). repeat split; auto.
    constructor. exact F.
  - apply IHa in H as (w1 & c1 & st1 & R1 & M1 & C1 & K1).
    apply IHb in K1 as (w2 & c2 & st2 & R2 & M2 & C2 & K2).
    exists (w1 ++ w2), (c2 ++ c1), st2. repeat split; auto.
    + rewrite R1, R2. apply app_assoc.
    + constructor; assumption.
    + rewrite C2, C1. apply app_assoc.
  - destruct (rmatch ml a k st) eqn:A.
    + injection H as ->.
      apply IHa in A as (w & c & st1 & ? & ? & ? & ?).
      exists w, c, st1. repeat split; auto. apply M_alt_l. assumption.
    + apply IHb in H as (w & c & st1 & ? & ? & ? & ?).
      exists w, c, st1. repeat split; auto. apply M_alt_r. assumption.
  - apply IHa in H as (w & c & st1 & R & M & C & K).
    rewrite R, firstn_app_length in K.
    exists w, ((i, w) :: c),
      (MState (m_prev st1) (m_rest st1) ((i, w) :: m_caps st1)).
    repeat split; auto.
    + constructor. exact M.
    + simpl. rewrite C. reflexivity.
  - destruct (at_bol ml (m_prev st)); [|discriminate].
    exists [], [], st. repeat split; auto. constructor.
  - destruct (at_eol ml (m_rest st)); [|discriminate].
    exists [], [], st. repeat split; auto. constructor.
Qed.

Lemma exec_at_sound re prev s st :
  exec_at re prev s = Some st ->
  exists w, s = w ++ m_rest st /\ matches (re_pat re) w (m_caps st).
Proof.
  unfold exec_at. intros H.
  apply rmatch_sound in H as (w & cs & st1 & R & M & C & K).
  injection K as <-. simpl in *. exists w. split; auto.
  rewrite C, app_nil_r. exact M.
Qed.

Lemma search_eq re prev s :
  search re prev s =
  match exec_at re prev s with
  | Some st => Some ([], firstn (length s - length (m_rest st)) s, st)
  | None =>
      match s with
      | c :: s' =>
          match search re (Some c) s' with
          | Some (before, m, st) => Some (c :: before, m, st)
          | None => None
          end
      | [] => None
      end
  end.
Proof. destruct s; reflexivity. Qed.

Lemma exec_at_span re prev s st :
  exec_at re prev s = Some st ->
  let m := firstn (length s - length (m_rest st)) s in
  s = m ++ m_rest st /\ matches (re_pat re) m (m_caps st).
Proof.
  intros E. apply exec_at_sound in E as (w & R & M). subst s.
  cbv zeta. rewrite firstn_app_length. auto.
Qed.

Lemma search_sound re : forall s prev before m st,
  search re prev s = Some (before, m, st) ->
  s = before ++ m ++ m_rest st /\ matches (re_pat re) m (m_caps st).
Proof.
  induction s as [|c s IH]; intros prev before m st H;
    rewrite search_eq in H;
    (destruct (exec_at re prev _) eqn:E;
     [ injection H as <- <- <-; apply exec_at_span in E; exact E | ]).
  - discriminate.
  - destruct (search re (Some c) s) as [[[b' m'] st']|] eqn:S; [|discriminate].
    injection H as <- <- <-.
    apply IH in S as [R M]. simpl. split; [congruence|exact M].
Qed.

(** ** Replacement when nothing matches *)

Lemma replace_all_from_eq re t prev s skip :
  replace_all_from re t prev s skip =
  match skip with
  | S skip' =>
      match s with
      | c :: s' => replace_all_from re t (Some c) s' skip'
      | [] => []
      end
  | O =>
      match exec_at re prev s with
      | Some st =>
          expand t (m_caps st) ++
          match s with
          | c :: s' =>
              match (length s - length (m_rest st))%nat with
              | O => c :: replace_all_from re t (Some c) s' O
              | S n => replace_all_from re t (Some c) s' n
              end
          | [] => []
          end
      | None =>
          match s with
          | c :: s' => c :: replace_all_from re t (Some c) s' O
          | [] => []
          end
      end
  end.
Proof. destruct s, skip; reflexivity. Qed.

(** A global replacement whose pattern matches at no position changes
    nothing. *)
Lemma replace_all_no_match re t (ok : jsstring -> Prop) :
  (forall prev s, ok s -> exec_at re prev s = None) ->
  (forall c s, ok (c :: s) -> ok s) ->
  forall s prev, ok s -> replace_all_from re t prev s O = s.
Proof.
  intros Hn Ht. induction s as [|c s IH]; intros prev Hs;
    rewrite replace_all_from_eq, (Hn _ _ Hs); [reflexivity|].
  f_equal. apply IH. apply (Ht c). exact Hs.
Qed.

Lemma search_no_match re (ok : jsstring -> Prop) :
  (forall prev s, ok s -> exec_at re (Some prev) s = None) ->
  (forall c s, ok (c :: s) -> ok s) ->
  forall s, ok s -> exec_at re None s = None -> search re None s = None.
Proof.
  intros Hn Ht.
  assert (G : forall s prev, ok s -> search re (Some prev) s = None).
  { induction s as [|c s IH]; intros prev Hs;
      rewrite search_eq, (Hn _ _ Hs); [reflexivity|].
    rewrite IH; [reflexivity|]. apply (Ht c). exact Hs. }
  intros s Hs H0. rewrite search_eq, H0. destruct s as [|c s]; [reflexivity|].
  rewrite G; [reflexivity|]. apply (Ht c). exact Hs.
Qed.

(** ** The fence patterns *)

Lemma has_fence_tail (c : N) (s : jsstring) :
  has_fence (c :: s) = false -> has_fence s = false.
Proof.
  cbn [has_fence]. intros H. apply orb_false_iff in H. tauto.
Qed.

Lemma has_fence_head (s : jsstring) :
  has_fence s = false -> starts_fence s = false.
Proof.
  destruct s as [|c s]; [reflexivity|]. cbn [has_fence]. intros H.
  apply orb_false_iff in H. tauto.
Qed.

Lemma matches_fence_prefix w cs :
  matches fence w cs -> exists w', w = js "```" ++ w'.
Proof.
  unfold fence. cbn. intros M.
  inversion M as [| | | |a b w1 w2 c1 c2 M1 M2| | | | |]; subst.
  inversion M1; subst.
  inversion M2 as [| | | |a b w3 w4 c3 c4 M3 M4| | | | |]; subst.
  inversion M3; subst. inversion M4; subst.
  exists []. reflexivity.
Qed.

Lemma starts_fence_app (w : jsstring) :
  starts_fence (js "```" ++ w) = true.
Proof. reflexivity. Qed.

Lemma matches_rlit (s : jsstring) :
  forall w cs, matches (rlit s) w cs -> w = s /\ cs = [].
Proof.
  induction s as [|c s IH]; intros w cs M.
  - inversion M. auto.
  - destruct s as [|d s].
    + inversion M. auto.
    + change (rlit (c :: d :: s)) with (RSeq (RChar c) (rlit (d :: s))) in M.
      inversion M as [| | | |a b w1 w2 c1 c2 M1 M2| | | | |]; subst.
      inversion M1; subst. apply IH in M2 as [-> ->]. auto.
Qed.

(** Take a match of a concrete pattern apart. *)
Ltac inv_matches :=
  repeat match goal with
  | H : matches (rlit _) _ _ |- _ => apply matches_rlit in H as [? ?]; subst
  | H : matches fence _ _ |- _ => apply matches_rlit in H as [? ?]; subst
  | H : matches s_star _ _ |- _ => inversion H; subst; clear H
  | H : matches (RSeq _ _) _ _ |- _ => inversion H; subst; clear H
  | H : matches (RAlt _ _) _ _ |- _ => inversion H; subst; clear H
  | H : matches (RGroup _ _) _ _ |- _ => inversion H; subst; clear H
  | H : matches (RChar _) _ _ |- _ => inversion H; subst; clear H
  | H : matches (RSet _) _ _ |- _ => inversion H; subst; clear H
  | H : matches (RStar _) _ _ |- _ => inversion H; subst; clear H
  | H : matches REps _ _ |- _ => inversion H; subst; clear H
  | H : matches RBol _ _ |- _ => inversion H; subst; clear H
  | H : matches REol _ _ |- _ => inversion H; subst; clear H
  end.

Lemma fence_json_no_match prev s :
  starts_fence s = false -> exec_at re_fence_json prev s = None.
Proof.
  intros F. destruct (exec_at re_fence_json prev s) as [st|] eqn:E;
    [exfalso|reflexivity].
  apply exec_at_sound in E as (w & -> & M).
  cbn [re_pat re_fence_json rseq] in M. inv_matches.
  discriminate F.
Qed.

Lemma fence_open_no_match prev s :
  starts_fence s = false -> exec_at re_fence_open prev s = None.
Proof.
  intros F. destruct (exec_at re_fence_open prev s) as [st|] eqn:E;
    [exfalso|reflexivity].
  apply exec_at_sound in E as (w & -> & M).
  cbn [re_pat re_fence_open rseq] in M. inv_matches.
  discriminate F.
Qed.

Lemma fence_close_no_match prev s :
  starts_fence s = false -> exec_at re_fence_close prev s = None.
Proof.
  intros F. destruct (exec_at re_fence_close prev s) as [st|] eqn:E;
    [exfalso|reflexivity].
  apply exec_at_sound in E as (w & -> & M).
  cbn [re_pat re_fence_close rseq] in M. inv_matches.
  discriminate F.
Qed.

(** Without a fence in the text the three fence replacements change
    nothing. *)
Lemma replace_fences_id (s : jsstring) :
  has_fence s = false ->
  replace s re_fence_json [] = s
  /\ replace s re_fence_open [] = s
  /\ replace s re_fence_close [] = s.
Proof.
  intros H. unfold replace. cbn [re_global re_fence_json re_fence_open
                                 re_fence_close].
  repeat split;
    apply (replace_all_no_match _ _ (fun s => has_fence s = false));
    try exact H; try exact has_fence_tail; intros prev s' Hs.
  - apply fence_json_no_match, has_fence_head, Hs.
  - apply fence_open_no_match, has_fence_head, Hs.
  - apply fence_close_no_match, has_fence_head, Hs.
Qed.

(** ** The declaration patterns *)

Lemma decl_not_at_start (kw : string) (prev : N) (s : jsstring) :
  exec_at (re_decl kw) (Some prev) s = None.
Proof. reflexivity. Qed.

Lemma replace_decl_id (kw : string) (s : jsstring) :
  exec_at (re_decl kw) None s = None ->
  replace s (re_decl kw) [] = s.
Proof.
  intros H. unfold replace, replace_first. cbn [re_global re_decl].
  rewrite (search_no_match (re_decl kw) (fun _ => True)); auto.
Qed.

Lemma decl_no_match_brace (s : jsstring) :
  exec_at (re_decl "const") None (ch "{" :: s) = None
  /\ exec_at (re_decl "let") None (ch "{" :: s) = None
  /\ exec_at (re_decl "var") None (ch "{" :: s) = None.
Proof. repeat split; reflexivity. Qed.

(** ** The semicolon pattern *)

Lemma star_space_stuck (k : mstate -> option mstate) caps :
  (forall p x r, k (MState p (x :: r) caps) = None) ->
  forall (s : jsstring) (c : N) (prev : option N),
  is_space c = false ->
  star_loop is_space k prev (s ++ [c]) caps = None.
Proof.
  intros Hk s c prev Hc. revert prev.
  induction s as [|x s IH]; intros prev; cbn [app star_loop].
  - rewrite Hc. apply Hk.
  - destruct (is_space x).
    + rewrite IH. destruct s; apply Hk.
    + destruct s; apply Hk.
Qed.

Lemma semicolon_no_match (prev : option N) (s : jsstring) :
  exec_at re_semicolon prev (s ++ [ch "}"]) = None.
Proof.
  unfold exec_at.
  cbn [re_pat re_multiline re_semicolon rseq ropt rmatch m_rest m_prev m_caps
       s_star].
  assert (Hb : is_space (ch "}") = false) by reflexivity.
  rewrite (star_space_stuck _ [] (fun _ _ _ => eq_refl) s _ prev Hb).
  destruct s as [|x s]; cbn [app].
  - reflexivity.
  - destruct (x =? ch ";"); [|reflexivity].
    cbn [m_rest m_prev m_caps].
    rewrite (star_space_stuck _ [] (fun _ _ _ => eq_refl) s _ (Some x) Hb).
    reflexivity.
Qed.

Lemma search_at_end re (c : N) :
  (forall prev s, exec_at re prev (s ++ [c]) = None) ->
  forall s prev,
    search re prev (s ++ [c]) =
    match exec_at re (Some c) [] with
    | Some st => Some (s ++ [c], [], st)
    | None => None
    end.
Proof.
  intros Hn. induction s as [|x s IH]; intros prev; rewrite search_eq.
  - rewrite (Hn prev []). cbn [app]. rewrite search_eq.
    destruct (exec_at re (Some c) []) as [st|] eqn:E; [|reflexivity].
    apply exec_at_sound in E as (w & E & _).
    destruct w; [|discriminate]. cbn [app] in E. rewrite <- E. reflexivity.
  - rewrite (Hn prev (x :: s)). cbn [app]. rewrite IH.
    destruct (exec_at re (Some c) []); reflexivity.
Qed.

Lemma replace_semicolon_id (s : jsstring) :
  replace (s ++ [ch "}"]) re_semicolon [] = s ++ [ch "}"].
Proof.
  unfold replace, replace_first. cbn [re_global re_semicolon].
  change (Re _ false false) with re_semicolon.
  rewrite (search_at_end re_semicolon (ch "}") semicolon_no_match).
  cbn. rewrite app_nil_r. reflexivity.
Qed.

(** ** The object pattern *)

Lemma any_unit_true (c : N) : any_unit c = true.
Proof. unfold any_unit. apply orb_negb_r. Qed.

Lemma star_any_to_last (k : mstate -> option mstate) (c : N) caps res :
  (forall p, k (MState p [] caps) = None) ->
  (forall p, k (MState p [c] caps) = Some res) ->
  forall (s : jsstring) (prev : option N),
  star_loop any_unit k prev (s ++ [c]) caps = Some res.
Proof.
  intros K0 K1. induction s as [|x s IH]; intros prev; cbn [app star_loop].
  - rewrite any_unit_true, K0. apply K1.
  - rewrite any_unit_true, IH. reflexivity.
Qed.

Lemma match_object_whole (body : jsstring) :
  str_match (ch "{" :: body ++ [ch "}"]) re_object
  = Some (ch "{" :: body ++ [ch "}"]).
Proof.
  unfold str_match. rewrite search_eq. unfold exec_at.
  cbn [re_pat re_multiline re_object rseq rmatch m_rest m_prev m_caps].
  rewrite N.eqb_refl. cbn [m_rest m_prev m_caps].
  rewrite (star_any_to_last _ (ch "}") [] (MState (Some (ch "}")) [] []));
    [|reflexivity|reflexivity].
  cbn [m_rest length]. rewrite Nat.sub_0_r.
  change (S (length (body ++ [ch "}"])))
    with (length (ch "{" :: body ++ [ch "}"])).
  rewrite firstn_all. reflexivity.
Qed.

(* ------------------------------------------------------------------ *)
(** ** The parser reads locally *)

Lemma skip_ws_split (s : jsstring) :
  exists ws, s = ws ++ skip_ws s /\ Forall (fun c => is_json_ws c = true) ws.
Proof.
  induction s as [|c s (ws & E & F)]; simpl.
  - exists []. auto.
  - destruct (is_json_ws c) eqn:W.
    + exists (c :: ws). simpl. split; [congruence|auto].
    + exists []. auto.
Qed.

Lemma skip_ws_head (s : jsstring) :
  match skip_ws s with
  | c :: _ => is_json_ws c = false
  | [] => True
  end.
Proof.
  induction s as [|c s IH]; simpl; [exact I|].
  destruct (is_json_ws c) eqn:E; [exact IH|exact E].
Qed.

Lemma skip_ws_app (ws s : jsstring) :
  Forall (fun c => is_json_ws c = true) ws ->
  skip_ws (ws ++ s) = skip_ws s.
Proof.
  induction 1 as [|c ws H F IH]; simpl; [reflexivity|].
  rewrite H. exact IH.
Qed.

Lemma skip_ws_stop (c : N) (s : jsstring) :
  is_json_ws c = false -> skip_ws (c :: s) = c :: s.
Proof. intros H. simpl. rewrite H. reflexivity. Qed.

(** [skip_ws r] starting with [c] pins down the shape of [r]. *)
Lemma skip_ws_cons (r : jsstring) (c : N) (t : jsstring) :
  skip_ws r = c :: t ->
  exists ws, r = ws ++ c :: t /\ Forall (fun c => is_json_ws c = true) ws
             /\ is_json_ws c = false.
Proof.
  intros H. destruct (skip_ws_split r) as (ws & E & F).
  pose proof (skip_ws_head r) as Hd. rewrite H in E, Hd.
  exists ws. auto.
Qed.

Lemma follow_ok_ws (ws : jsstring) (c : N) (t : jsstring) :
  Forall (fun c => is_json_ws c = true) ws ->
  follow_ok [c] = true ->
  (forall x, is_json_ws x = true -> follow_ok [x] = true) ->
  follow_ok (ws ++ c :: t) = true.
Proof.
  intros F C W. destruct F as [|x ws Hx F]; simpl in *; auto.
Qed.

Lemma json_ws_follow (x : N) : is_json_ws x = true -> follow_ok [x] = true.
Proof.
  unfold follow_ok. intros H. units.
Qed.

(** *** Digits *)

Lemma take_digits_spec (s : jsstring) :
  forall d r, take_digits s = (d, r) ->
  s = d ++ r /\ Forall (fun c => is_digit c = true) d
  /\ match r with c :: _ => is_digit c = false | [] => True end.
Proof.
  induction s as [|c s IH]; simpl; intros d r H.
  - injection H as <- <-. auto.
  - destruct (is_digit c) eqn:E.
    + destruct (take_digits s) as [d' r'] eqn:T. injection H as <- <-.
      destruct (IH _ _ eq_refl) as (-> & F & Hr). auto.
    + injection H as <- <-. auto.
Qed.

Lemma take_digits_app (d r : jsstring) :
  Forall (fun c => is_digit c = true) d ->
  match r with c :: _ => is_digit c = false | [] => True end ->
  take_digits (d ++ r) = (d, r).
Proof.
  intros F Hr. induction F as [|c d H F IH]; simpl.
  - destruct r as [|c r]; [reflexivity|]. simpl. rewrite Hr. reflexivity.
  - rewrite H, IH. reflexivity.
Qed.

Lemma follow_ok_not_digit (r : jsstring) :
  follow_ok r = true ->
  match r with c :: _ => is_digit c = false | [] => True end.
Proof.
  destruct r as [|c r]; simpl; [auto|].
  rewrite negb_true_iff, !orb_false_iff. tauto.
Qed.

(** *** Numbers *)

Lemma follow_ok_head (r : jsstring) :
  follow_ok r = true ->
  head_is (fun c => is_digit c = false /\ c <> ch "." /\ c <> ch "e"
                    /\ c <> ch "E") r.
Proof.
  destruct r as [|c r]; [simpl; auto|]. unfold follow_ok. simpl. intros H. units.
Qed.

Lemma lex_int_local (s d r : jsstring) :
  lex_int s = Some (d, r) ->
  s = d ++ r /\ d <> []
  /\ forall x, int_follow x -> lex_int (d ++ x) = Some (d, x).
Proof.
  unfold lex_int. destruct s as [|c s]; [discriminate|].
  destruct (c =? ch "0") eqn:Z.
  - intros H. injection H as <- <-. repeat split; [discriminate|].
    intros x _. simpl. rewrite Z. reflexivity.
  - destruct (is_digit c) eqn:D; [|discriminate]. intros H.
    injection H as H.
    apply (take_digits_spec (c :: s) d r) in H as (E & F & Hr).
    destruct d as [|y d].
    { simpl in E. subst r. simpl in Hr. congruence. }
    simpl in E. injection E as <- ->.
    repeat split; [discriminate|].
    intros x Fx. cbn [app]. rewrite Z, D. f_equal.
    apply (take_digits_app (c :: d) x F). exact Fx.
Qed.

Lemma lex_frac_local (s d r : jsstring) :
  lex_frac s = Some (d, r) ->
  exists pre, s = pre ++ r
  /\ head_is (fun c => c = ch ".") pre
  /\ forall x, frac_follow x -> lex_frac (pre ++ x) = Some (d, x).
Proof.
  assert (Stop : forall x, frac_follow x -> lex_frac x = Some ([], x)).
  { intros [|y x] Fx; [reflexivity|]. unfold lex_frac.
    destruct Fx as [_ P]. apply N.eqb_neq in P. rewrite P. reflexivity. }
  unfold lex_frac. destruct s as [|c s].
  - intros H. injection H as <- <-. exists []. repeat split. exact Stop.
  - destruct (c =? ch ".") eqn:P.
    + destruct (take_digits s) as [[|y d'] r0] eqn:T; [discriminate|].
      intros H. injection H as <- <-.
      apply take_digits_spec in T as (-> & F & Hr).
      exists (c :: y :: d'). split; [reflexivity|]. split.
      { simpl. apply N.eqb_eq. exact P. }
      intros x Fx. cbn [app]. rewrite P.
      assert (Fx' : int_follow x) by (destruct x; simpl in *; tauto).
      rewrite (take_digits_app (y :: d') x F Fx'
               : take_digits (y :: d' ++ x) = _). reflexivity.
    + intros H. injection H as <- <-. exists []. repeat split. exact Stop.
Qed.

Lemma lex_exp_local (s : jsstring) (e : Z) (r : jsstring) :
  lex_exp s = Some (e, r) ->
  exists pre, s = pre ++ r
  /\ head_is (fun c => c = ch "e" \/ c = ch "E") pre
  /\ forall x, follow_ok x = true -> lex_exp (pre ++ x) = Some (e, x).
Proof.
  assert (Stop : forall x, follow_ok x = true -> lex_exp x = Some (0%Z, x)).
  { intros [|y x] Fx; [reflexivity|]. unfold lex_exp.
    apply follow_ok_head in Fx as (_ & _ & P1 & P2).
    apply N.eqb_neq in P1, P2. rewrite P1, P2. reflexivity. }
  unfold lex_exp. destruct s as [|c s].
  - intros H. injection H as <- <-. exists []. repeat split. exact Stop.
  - destruct ((c =? ch "e") || (c =? ch "E")) eqn:P.
    + destruct s as [|g r0].
      { simpl. discriminate. }
      assert (Hc : c = ch "e" \/ c = ch "E").
      { apply orb_true_iff in P. rewrite !N.eqb_eq in P. exact P. }
      destruct (g =? ch "-") eqn:G1; [|destruct (g =? ch "+") eqn:G2].
      * destruct (take_digits r0) as [[|y d'] r2] eqn:T; [discriminate|].
        intros H. injection H as <- <-.
        apply take_digits_spec in T as (-> & F & Hr).
        exists (c :: g :: y :: d'). repeat split; [exact Hc|].
        intros x Fx. cbn [app]. rewrite P, G1.
        rewrite (take_digits_app (y :: d') x F (follow_ok_not_digit _ Fx)
                 : take_digits (y :: d' ++ x) = _). reflexivity.
      * destruct (take_digits r0) as [[|y d'] r2] eqn:T; [discriminate|].
        intros H. injection H as <- <-.
        apply take_digits_spec in T as (-> & F & Hr).
        exists (c :: g :: y :: d'). repeat split; [exact Hc|].
        intros x Fx. cbn [app]. rewrite P, G1, G2.
        rewrite (take_digits_app (y :: d') x F (follow_ok_not_digit _ Fx)
                 : take_digits (y :: d' ++ x) = _). reflexivity.
      * destruct (take_digits (g :: r0)) as [[|y d'] r2] eqn:T; [discriminate|].
        intros H. injection H as <- <-.
        apply take_digits_spec in T as (E & F & Hr).
        cbn [app] in E. injection E as <- ->.
        exists (c :: g :: d'). repeat split; [exact Hc|].
        intros x Fx. cbn [app]. rewrite P, G1, G2.
        rewrite (take_digits_app (g :: d') x F (follow_ok_not_digit _ Fx)
                 : take_digits (g :: d' ++ x) = _). reflexivity.
    + intros H. injection H as <- <-. exists []. repeat split. exact Stop.
Qed.

Lemma lex_number_local (s : jsstring) (n : numeral) (r : jsstring) :
  lex_number s = Some (n, r) ->
  exists pre, s = pre ++ r /\ pre <> []
  /\ forall x, follow_ok x = true -> lex_number (pre ++ x) = Some (n, x).
Proof.
  assert (Core : forall neg s1,
    match lex_int s1 with
    | Some (ip, s2) =>
        match lex_frac s2 with
        | Some (fp, s3) =>
            match lex_exp s3 with
            | Some (ex, s4) => Some (Numeral neg ip fp ex, s4)
            | None => None
            end
        | None => None
        end
    | None => None
    end = Some (n, r) ->
    exists pre, s1 = pre ++ r /\ pre <> []
    /\ head_is (fun c => is_digit c = true) pre
    /\ forall x, follow_ok x = true ->
         match lex_int (pre ++ x) with
         | Some (ip, s2) =>
             match lex_frac s2 with
             | Some (fp, s3) =>
                 match lex_exp s3 with
                 | Some (ex, s4) => Some (Numeral neg ip fp ex, s4)
                 | None => None
                 end
             | None => None
             end
         | None => None
         end = Some (n, x)).
  { intros neg s1.
    destruct (lex_int s1) as [[ip s2]|] eqn:I; [|discriminate].
    destruct (lex_frac s2) as [[fp s3]|] eqn:Fp; [|discriminate].
    destruct (lex_exp s3) as [[ex s4]|] eqn:Ex; [|discriminate].
    intros H. injection H as <- <-.
    assert (Hd : head_is (fun c => is_digit c = true) s1).
    { unfold lex_int in I. destruct s1 as [|c s1]; [discriminate|]. simpl.
      destruct (c =? ch "0") eqn:Z; [units|].
      destruct (is_digit c); [reflexivity|discriminate]. }
    apply lex_int_local in I as (-> & Ni & Li).
    apply lex_frac_local in Fp as (pf & -> & Hf & Lf).
    apply lex_exp_local in Ex as (pe & -> & He & Le).
    exists (ip ++ pf ++ pe). split; [|split; [|split]].
    - rewrite <- !app_assoc. reflexivity.
    - destruct ip; [congruence|discriminate].
    - destruct ip; [congruence|exact Hd].
    - intros x Fx. pose proof (follow_ok_head _ Fx) as Hx.
      rewrite <- !app_assoc.
      rewrite Li, Lf, (Le x Fx); [reflexivity| |].
      + destruct pe as [|c pe]; simpl in *.
        * destruct x; simpl in *; tauto.
        * split; units.
      + destruct pf as [|c pf]; simpl in *.
        * destruct pe as [|c pe]; simpl in *.
          -- destruct x; simpl in *; tauto.
          -- units.
        * units. }
  unfold lex_number. destruct s as [|c s0].
  - intros H. apply Core in H as (pre & E & Np & _).
    destruct pre; [congruence|discriminate].
  - destruct (c =? ch "-") eqn:G.
    + intros H. apply Core in H as (pre & -> & Np & _ & L).
      exists (c :: pre). repeat split; [discriminate|].
      intros x Fx. cbn [app]. rewrite G. apply L. exact Fx.
    + intros H. apply Core in H as (pre & E & Np & Hd & L).
      exists pre. repeat split; auto.
      intros x Fx. destruct pre as [|y pre]; [congruence|].
      cbn [app] in E. injection E as <- _.
      cbn [app]. rewrite G. apply (L x Fx).
Qed.

(** *** Strings and literal names *)

Lemma string_body_local_len (n : nat) :
  forall s t r, (length s <= n)%nat ->
  string_body s = Some (t, r) ->
  exists pre, s = pre ++ r /\ pre <> []
  /\ forall x, string_body (pre ++ x) = Some (t, x).
Proof.
  induction n as [|n IH]; intros s t r L H.
  - destruct s; [discriminate|simpl in L; lia].
  - destruct s as [|c s]; [discriminate|]. simpl in L.
    cbn [string_body] in H.
    destruct (c =? dq) eqn:Q.
    { injection H as <- <-. exists [c]. repeat split; [discriminate|].
      intros x. cbn [app string_body]. rewrite Q. reflexivity. }
    destruct (c =? ch "\") eqn:B.
    + destruct s as [|e s]; [discriminate|].
      destruct (e =? ch "u") eqn:U.
      * destruct s as [|h1 [|h2 [|h3 [|h4 s]]]]; try discriminate.
        destruct (hex4 h1 h2 h3 h4) as [u|] eqn:Hx; [|discriminate].
        destruct (string_body s) as [[t' r']|] eqn:S; [|discriminate].
        injection H as <- <-.
        apply IH in S as (pre & -> & _ & Lp); [|simpl in L; lia].
        exists (c :: e :: h1 :: h2 :: h3 :: h4 :: pre).
        repeat split; [discriminate|].
        intros x. cbn [app string_body]. rewrite Q, B, U, Hx, Lp. reflexivity.
      * destruct (unescape e) as [u|] eqn:Un; [|discriminate].
        destruct (string_body s) as [[t' r']|] eqn:S; [|discriminate].
        injection H as <- <-.
        apply IH in S as (pre & -> & _ & Lp); [|simpl in L; lia].
        exists (c :: e :: pre). repeat split; [discriminate|].
        intros x. cbn [app string_body]. rewrite Q, B, U, Un, Lp. reflexivity.
    + destruct (c <? 32) eqn:C; [discriminate|].
      destruct (string_body s) as [[t' r']|] eqn:S; [|discriminate].
      injection H as <- <-.
      apply IH in S as (pre & -> & _ & Lp); [|lia].
      exists (c :: pre). repeat split; [discriminate|].
      intros x. cbn [app string_body]. rewrite Q, B, C, Lp. reflexivity.
Qed.

Lemma string_body_local (s t r : jsstring) :
  string_body s = Some (t, r) ->
  exists pre, s = pre ++ r /\ pre <> []
  /\ forall x, string_body (pre ++ x) = Some (t, x).
Proof. apply (string_body_local_len (length s)). lia. Qed.

Lemma strip_prefix_local (p s r : jsstring) :
  strip_prefix p s = Some r ->
  s = p ++ r /\ forall x, strip_prefix p (p ++ x) = Some x.
Proof.
  revert s. induction p as [|a p IH]; intros s H; simpl in H.
  - injection H as <-. auto.
  - destruct s as [|b s]; [discriminate|].
    destruct (a =? b) eqn:E; [|discriminate].
    apply N.eqb_eq in E. subst b.
    apply IH in H as [-> Hx]. split; [reflexivity|].
    intros x. simpl. rewrite N.eqb_refl. apply Hx.
Qed.

Lemma parse_scalar_local (s : jsstring) (v : value) (r : jsstring) :
  parse_scalar s = Some (v, r) ->
  exists pre, s = pre ++ r /\ pre <> []
  /\ forall x, follow_ok x = true -> parse_scalar (pre ++ x) = Some (v, x).
Proof.
  unfold parse_scalar. destruct s as [|c s]; [discriminate|].
  destruct (c =? dq) eqn:Q.
  { destruct (string_body s) as [[t r']|] eqn:S; [|discriminate].
    intros H. injection H as <- <-.
    apply string_body_local in S as (pre & -> & _ & L).
    exists (c :: pre). repeat split; [discriminate|].
    intros x _. cbn [app]. rewrite Q, L. reflexivity. }
  destruct (c =? ch "t") eqn:T.
  { destruct (strip_prefix (js "rue") s) as [r'|] eqn:S; [|discriminate].
    intros H. injection H as <- <-.
    apply strip_prefix_local in S as [-> L].
    exists (c :: js "rue"). repeat split; [discriminate|].
    intros x _. cbn [app]. rewrite Q, T.
    change (js "rue" ++ x) with (js "rue" ++ x). rewrite L. reflexivity. }
  destruct (c =? ch "f") eqn:F.
  { destruct (strip_prefix (js "alse") s) as [r'|] eqn:S; [|discriminate].
    intros H. injection H as <- <-.
    apply strip_prefix_local in S as [-> L].
    exists (c :: js "alse"). repeat split; [discriminate|].
    intros x _. cbn [app]. rewrite Q, T, F, L. reflexivity. }
  destruct (c =? ch "n") eqn:Nn.
  { destruct (strip_prefix (js "ull") s) as [r'|] eqn:S; [|discriminate].
    intros H. injection H as <- <-.
    apply strip_prefix_local in S as [-> L].
    exists (c :: js "ull"). repeat split; [discriminate|].
    intros x _. cbn [app]. rewrite Q, T, F, Nn, L. reflexivity. }
  destruct (lex_number (c :: s)) as [[n r']|] eqn:L; [|discriminate].
  intros H. injection H as <- <-.
  apply lex_number_local in L as (pre & E & Np & Lx).
  exists pre. repeat split; auto.
  intros x Fx. destruct pre as [|y pre]; [congruence|].
  cbn [app] in E. injection E as <- _.
  cbn [app]. rewrite Q, T, F, Nn.
  rewrite (Lx x Fx : lex_number (c :: pre ++ x) = _). reflexivity.
Qed.

(** *** Values *)

(** [skip_ws] over whitespace followed by a text that does not start with
    whitespace. *)
Lemma skip_ws_over (ws : jsstring) (c : N) (t : jsstring) :
  json_space ws -> is_json_ws c = false -> skip_ws (ws ++ c :: t) = c :: t.
Proof.
  intros F C. rewrite (skip_ws_app _ _ F). apply skip_ws_stop. exact C.
Qed.

Lemma follow_ok_ws_then (ws : jsstring) (c : N) (t : jsstring) :
  json_space ws -> follow_ok [c] = true -> follow_ok (ws ++ c :: t) = true.
Proof.
  intros F C. destruct F as [|y ws Hy F]; [exact C|].
  apply (json_ws_follow y Hy).
Qed.

Lemma nonws_head (pre r t : jsstring) :
  pre <> [] ->
  skip_ws t = pre ++ r ->
  exists c p, pre = c :: p /\ is_json_ws c = false.
Proof.
  intros Np E. destruct pre as [|c p]; [congruence|].
  exists c, p. split; [reflexivity|].
  pose proof (skip_ws_head t) as H. rewrite E in H. exact H.
Qed.

Lemma follow_comma : follow_ok [ch ","] = true.
Proof. reflexivity. Qed.
Lemma follow_bracket : follow_ok [ch "]"] = true.
Proof. reflexivity. Qed.
Lemma follow_brace : follow_ok [ch "}"] = true.
Proof. reflexivity. Qed.

Lemma local_value_step (n : nat) :
  local_elements n -> local_members n -> local_value (S n).
Proof.
  intros IE IM s v r H. cbn [parse_value] in H.
  destruct s as [|c r0]; [discriminate|].
  destruct (c =? ch "{") eqn:B.
  { destruct (skip_ws r0) as [|c2 r2] eqn:W; [discriminate|].
    apply skip_ws_cons in W as (ws & -> & F & C2).
    apply N.eqb_eq in B. subst c.
    destruct (c2 =? ch "}") eqn:E.
    - injection H as <- <-. apply N.eqb_eq in E. subst c2.
      exists (ch "{" :: ws ++ [ch "}"]). split; [|split; [|split]].
      + cbn [app]. rewrite <- app_assoc. reflexivity.
      + discriminate.
      + intros o _. exists ws. reflexivity.
      + intros m x L _. destruct m as [|m]; [list_len|].
        cbn [app parse_value]. rewrite N.eqb_refl.
        rewrite <- app_assoc. cbn [app].
        rewrite (skip_ws_over _ _ _ F C2), N.eqb_refl. reflexivity.
    - destruct (parse_members n (c2 :: r2)) as [[mm rest]|] eqn:P;
        [|discriminate].
      injection H as <- <-.
      apply IM in P as (pre & Ep & Np & (body & Eb) & L).
      destruct pre as [|y pre]; [congruence|].
      cbn [app] in Ep. injection Ep as <- ->.
      exists (ch "{" :: ws ++ c2 :: pre). split; [|split; [|split]].
      + cbn [app]. rewrite <- app_assoc. reflexivity.
      + discriminate.
      + intros o _. exists (ws ++ removelast (c2 :: pre)).
        f_equal. rewrite <- app_assoc. f_equal.
        rewrite Eb. rewrite removelast_last. reflexivity.
      + intros m x Lm _. destruct m as [|m]; [list_len|].
        cbn [app parse_value]. rewrite N.eqb_refl.
        rewrite <- app_assoc. cbn [app].
        rewrite (skip_ws_over _ _ _ F C2), E.
        pose proof (L m x) as Lx. cbn [app] in Lx.
        rewrite Lx; [reflexivity|list_len]. }
  destruct (c =? ch "[") eqn:A.
  { destruct (skip_ws r0) as [|c2 r2] eqn:W; [discriminate|].
    apply skip_ws_cons in W as (ws & -> & F & C2).
    destruct (c2 =? ch "]") eqn:E.
    - injection H as <- <-.
      exists (c :: ws ++ [c2]). split; [|split; [|split]].
      + cbn [app]. rewrite <- app_assoc. reflexivity.
      + discriminate.
      + intros o Ho. discriminate.
      + intros m x L _. destruct m as [|m]; [list_len|].
        cbn [app parse_value]. rewrite B, A.
        rewrite <- app_assoc. cbn [app].
        rewrite (skip_ws_over _ _ _ F C2), E. reflexivity.
    - destruct (parse_elements n (c2 :: r2)) as [[l rest]|] eqn:P;
        [|discriminate].
      injection H as <- <-.
      apply IE in P as (pre & Ep & Np & L).
      destruct pre as [|y pre]; [congruence|].
      cbn [app] in Ep. injection Ep as <- ->.
      exists (c :: ws ++ c2 :: pre). split; [|split; [|split]].
      + cbn [app]. rewrite <- app_assoc. reflexivity.
      + discriminate.
      + intros o Ho. discriminate.
      + intros m x Lm _. destruct m as [|m]; [list_len|].
        cbn [app parse_value]. rewrite B, A.
        rewrite <- app_assoc. cbn [app].
        rewrite (skip_ws_over _ _ _ F C2), E.
        pose proof (L m x) as Lx. cbn [app] in Lx.
        rewrite Lx; [reflexivity|list_len]. }
  pose proof H as Hs.
  apply parse_scalar_local in H as (pre & Ep & Np & L).
  exists pre. split; [exact Ep|]. split; [exact Np|]. split.
  - intros o ->. exfalso. unfold parse_scalar in Hs.
    destruct (c =? dq);
      [destruct (string_body r0) as [[? ?]|]; discriminate|].
    destruct (c =? ch "t");
      [destruct (strip_prefix _ r0); discriminate|].
    destruct (c =? ch "f");
      [destruct (strip_prefix _ r0); discriminate|].
    destruct (c =? ch "n");
      [destruct (strip_prefix _ r0); discriminate|].
    destruct (lex_number (c :: r0)) as [[? ?]|]; discriminate.
  - intros m x Lm Fx. destruct m as [|m].
    { destruct pre; [congruence|list_len]. }
    destruct pre as [|y pre]; [congruence|].
    cbn [app] in Ep. injection Ep as <- _.
    cbn [app parse_value]. rewrite B, A. apply (L x Fx).
Qed.

Lemma local_elements_step (n : nat) :
  local_value n -> local_elements n -> local_elements (S n).
Proof.
  intros IV IE s l r H. cbn [parse_elements] in H.
  destruct (parse_value n s) as [[v r1]|] eqn:V; [|discriminate].
  apply IV in V as (pre1 & -> & N1 & _ & L1).
  destruct (skip_ws r1) as [|c r1'] eqn:W; [discriminate|].
  apply skip_ws_cons in W as (ws & -> & F & C).
  destruct (c =? ch ",") eqn:Cm.
  - destruct (parse_elements n (skip_ws r1')) as [[l' rest]|] eqn:P;
      [|discriminate].
    injection H as <- <-.
    apply IE in P as (pre2 & E2 & N2 & L2).
    destruct (nonws_head _ _ _ N2 E2) as (y & p2 & -> & Hy).
    destruct (skip_ws_split r1') as (ws2 & E & F2). rewrite E2 in E.
    subst r1'.
    exists (pre1 ++ ws ++ c :: ws2 ++ y :: p2). split; [|split].
    + app_norm. reflexivity.
    + destruct pre1; [congruence|discriminate].
    + intros m x Lm. destruct m as [|m]; [destruct pre1; list_len|].
      cbn [parse_elements].
      replace ((pre1 ++ ws ++ c :: ws2 ++ y :: p2) ++ x)
        with (pre1 ++ (ws ++ c :: ws2 ++ y :: p2 ++ x)).
      2:{ app_norm. reflexivity. }
      rewrite L1; [| list_len |].
      2:{ apply follow_ok_ws_then; [exact F|].
          apply N.eqb_eq in Cm. subst c. reflexivity. }
      rewrite (skip_ws_over _ _ _ F C), Cm.
      rewrite (skip_ws_over _ _ _ F2 Hy).
      pose proof (L2 m x) as Lx. cbn [app] in Lx.
      rewrite Lx; [reflexivity|list_len].
  - destruct (c =? ch "]") eqn:Cb; [|discriminate].
    injection H as <- <-.
    exists (pre1 ++ ws ++ [c]). split; [|split].
    + app_norm. reflexivity.
    + destruct pre1; [congruence|discriminate].
    + intros m x Lm. destruct m as [|m]; [destruct pre1; list_len|].
      cbn [parse_elements].
      replace ((pre1 ++ ws ++ [c]) ++ x) with (pre1 ++ (ws ++ c :: x)).
      2:{ app_norm. reflexivity. }
      rewrite L1; [| list_len |].
      2:{ apply follow_ok_ws_then; [exact F|].
          apply N.eqb_eq in Cb. subst c. reflexivity. }
      rewrite (skip_ws_over _ _ _ F C), Cm, Cb. reflexivity.
Qed.

Lemma local_members_step (n : nat) :
  local_value n -> local_members n -> local_members (S n).
Proof.
  intros IV IM s l r H. cbn [parse_members] in H.
  destruct s as [|q r0]; [discriminate|].
  destruct (q =? dq) eqn:Q; [|discriminate].
  destruct (string_body r0) as [[k r1]|] eqn:S; [|discriminate].
  apply string_body_local in S as (preS & -> & _ & LS).
  destruct (skip_ws r1) as [|c r2] eqn:W1; [discriminate|].
  apply skip_ws_cons in W1 as (ws1 & -> & F1 & C1).
  destruct (c =? ch ":") eqn:Cc; [|discriminate].
  destruct (parse_value n (skip_ws r2)) as [[v r3]|] eqn:V; [|discriminate].
  apply IV in V as (preV & EV & NV & _ & LV).
  destruct (nonws_head _ _ _ NV EV) as (y & pV & -> & Hy).
  destruct (skip_ws_split r2) as (ws2 & E & F2). rewrite EV in E. subst r2.
  destruct (skip_ws r3) as [|d r4] eqn:W3; [discriminate|].
  apply skip_ws_cons in W3 as (ws3 & -> & F3 & C3).
  destruct (d =? ch ",") eqn:Dm.
  - destruct (parse_members n (skip_ws r4)) as [[l' rest]|] eqn:P;
      [|discriminate].
    injection H as <- <-.
    apply IM in P as (preM & EM & NM & (body & Eb) & LM).
    destruct (nonws_head _ _ _ NM EM) as (z & pM & -> & Hz).
    destruct (skip_ws_split r4) as (ws4 & E & F4). rewrite EM in E.
    subst r4.
    exists (q :: preS ++ ws1 ++ c :: ws2 ++ (y :: pV) ++ ws3 ++ d :: ws4
              ++ z :: pM).
    split; [|split; [|split]].
    + app_norm. reflexivity.
    + discriminate.
    + exists (q :: preS ++ ws1 ++ c :: ws2 ++ (y :: pV) ++ ws3 ++ d :: ws4
                ++ body).
      rewrite Eb. app_norm. reflexivity.
    + intros m x Lm. destruct m as [|m]; [list_len|].
      cbn [parse_members app]. rewrite Q.
      replace ((preS ++ ws1 ++ c :: ws2 ++ y :: pV ++ ws3 ++ d :: ws4
                  ++ z :: pM) ++ x)
        with (preS ++ (ws1 ++ c :: ws2 ++ (y :: pV)
                         ++ (ws3 ++ d :: ws4 ++ z :: pM ++ x))).
      2:{ app_norm. reflexivity. }
      rewrite LS, (skip_ws_over _ _ _ F1 C1), Cc.
      cbn [app]. rewrite (skip_ws_over _ _ _ F2 Hy).
      pose proof (LV m (ws3 ++ d :: ws4 ++ z :: pM ++ x)) as Lx.
      cbn [app] in Lx. rewrite Lx; [| list_len |].
      2:{ apply follow_ok_ws_then; [exact F3|].
          apply N.eqb_eq in Dm. subst d. reflexivity. }
      rewrite (skip_ws_over _ _ _ F3 C3), Dm.
      rewrite (skip_ws_over _ _ _ F4 Hz).
      pose proof (LM m x) as Ly. cbn [app] in Ly.
      rewrite Ly; [reflexivity|list_len].
  - destruct (d =? ch "}") eqn:Db; [|discriminate].
    injection H as <- <-. apply N.eqb_eq in Db. subst d.
    exists (q :: preS ++ ws1 ++ c :: ws2 ++ (y :: pV) ++ ws3 ++ [ch "}"]).
    split; [|split; [|split]].
    + app_norm. reflexivity.
    + discriminate.
    + exists (q :: preS ++ ws1 ++ c :: ws2 ++ (y :: pV) ++ ws3).
      app_norm. reflexivity.
    + intros m x Lm. destruct m as [|m]; [list_len|].
      cbn [parse_members app]. rewrite Q.
      replace ((preS ++ ws1 ++ c :: ws2 ++ y :: pV ++ ws3 ++ [ch "}"]) ++ x)
        with (preS ++ (ws1 ++ c :: ws2 ++ (y :: pV)
                         ++ (ws3 ++ ch "}" :: x))).
      2:{ app_norm. reflexivity. }
      rewrite LS, (skip_ws_over _ _ _ F1 C1), Cc.
      cbn [app]. rewrite (skip_ws_over _ _ _ F2 Hy).
      pose proof (LV m (ws3 ++ ch "}" :: x)) as Lx.
      cbn [app] in Lx. rewrite Lx; [| list_len |].
      2:{ apply follow_ok_ws_then; [exact F3|reflexivity]. }
      rewrite (skip_ws_over _ _ _ F3 C3), Dm, N.eqb_refl. reflexivity.
Qed.

Lemma parse_local (n : nat) :
  local_value n /\ local_elements n /\ local_members n.
Proof.
  induction n as [|n (IV & IE & IM)].
  - repeat split; intros s v r H; discriminate.
  - split; [|split].
    + apply local_value_step; assumption.
    + apply local_elements_step; assumption.
    + apply local_members_step; assumption.
Qed.

(* ------------------------------------------------------------------ *)
(** ** The text of a parsed value *)

Lemma json_ws_is_space (c : N) : is_json_ws c = true -> is_space c = true.
Proof. intros H. units. Qed.

Lemma json_space_spaces (ws : jsstring) :
  json_space ws -> Forall (fun c => is_space c = true) ws.
Proof.
  intros F. eapply Forall_impl; [|exact F]. exact json_ws_is_space.
Qed.

Lemma drop_space_over (ws : jsstring) (c : N) (t : jsstring) :
  Forall (fun c => is_space c = true) ws -> is_space c = false ->
  drop_space (ws ++ c :: t) = c :: t.
Proof.
  intros F C. induction F as [|x ws Hx F IH]; cbn [app drop_space].
  - rewrite C. reflexivity.
  - rewrite Hx. exact IH.
Qed.

(** Trimming a braced text wrapped in JSON whitespace leaves the braced
    text. *)
Lemma trim_braced (ws1 body ws2 : jsstring) :
  json_space ws1 -> json_space ws2 ->
  trim (ws1 ++ (ch "{" :: body ++ [ch "}"]) ++ ws2)
  = ch "{" :: body ++ [ch "}"].
Proof.
  intros F1 F2. unfold trim.
  replace (ws1 ++ (ch "{" :: body ++ [ch "}"]) ++ ws2)
    with (ws1 ++ ch "{" :: (body ++ ch "}" :: ws2))
    by (app_norm; reflexivity).
  rewrite (drop_space_over _ _ _ (json_space_spaces _ F1)); [|reflexivity].
  replace (rev (ch "{" :: body ++ ch "}" :: ws2))
    with (rev ws2 ++ ch "}" :: rev (ch "{" :: body)).
  2:{ change (ch "{" :: body ++ ch "}" :: ws2)
        with ((ch "{" :: body) ++ ch "}" :: ws2).
      rewrite rev_app_distr. cbn [rev]. app_norm. reflexivity. }
  rewrite drop_space_over; [| |reflexivity].
  - cbn [rev]. rewrite rev_app_distr, rev_involutive. reflexivity.
  - apply Forall_rev. apply json_space_spaces. exact F2.
Qed.

Lemma skip_ws_nil (s : jsstring) : skip_ws s = [] -> json_space s.
Proof.
  intros H. destruct (skip_ws_split s) as (ws & E & F).
  rewrite H, app_nil_r in E. subst ws. exact F.
Qed.

(** A text that parses is a value's text between JSON whitespace, and the
    value's text alone parses to the same value; an object's text runs from
    its opening to its closing brace. *)
Lemma JSON_parse_shape (text : jsstring) (v : value) :
  JSON_parse text = Ok v ->
  exists ws1 core ws2,
    text = ws1 ++ core ++ ws2 /\ json_space ws1 /\ json_space ws2
    /\ JSON_parse core = Ok v
    /\ (forall o, v = JObj o -> exists body, core = ch "{" :: body ++ [ch "}"]).
Proof.
  unfold JSON_parse.
  destruct (parse_value (2 * length text + 1) (skip_ws text))
    as [[v' rest]|] eqn:P; [|discriminate].
  destruct (skip_ws rest) eqn:W; [|discriminate].
  intros H. injection H as ->.
  destruct (parse_local (2 * length text + 1)) as (LV & _ & _).
  pose proof P as P'.
  apply LV in P as (pre & E & Np & Ho & L).
  destruct (skip_ws_split text) as (ws1 & Et & F1). rewrite E in Et.
  exists ws1, pre, rest. split; [exact Et|]. split; [exact F1|].
  split; [apply skip_ws_nil; exact W|]. split; [|exact Ho].
  destruct (nonws_head _ _ _ Np E) as (c & p & -> & Hc).
  rewrite (skip_ws_stop _ _ Hc).
  pose proof (L (2 * length (c :: p) + 1)%nat [] ltac:(lia) eq_refl) as Lx.
  rewrite app_nil_r in Lx. rewrite Lx. reflexivity.
Qed.

(** ** Fences in a part of a text *)

Lemma has_fence_suffix (a b : jsstring) :
  has_fence (a ++ b) = false -> has_fence b = false.
Proof.
  induction a as [|x a IH]; [auto|]. intros H.
  apply IH. apply (has_fence_tail x). exact H.
Qed.

Lemma starts_fence_prefix (b c : jsstring) :
  starts_fence (b ++ c) = false -> starts_fence b = false.
Proof.
  destruct b as [|x [|y [|z b]]]; auto.
Qed.

Lemma has_fence_prefix (b c : jsstring) :
  has_fence (b ++ c) = false -> has_fence b = false.
Proof.
  induction b as [|x b IH]; [auto|]. cbn [app has_fence].
  intros H. apply orb_false_iff in H as [H1 H2].
  apply orb_false_iff. split; [|apply IH; exact H2].
  apply (starts_fence_prefix (x :: b) c). exact H1.
Qed.

(** ** C2 *)

(** On a braced text without a fence the wrapping is already gone and the
    object match is the whole text. *)
Lemma candidate_braced (ws1 body ws2 : jsstring) :
  json_space ws1 -> json_space ws2 ->
  has_fence (ch "{" :: body ++ [ch "}"]) = false ->
  candidate (ws1 ++ (ch "{" :: body ++ [ch "}"]) ++ ws2)
  = ch "{" :: body ++ [ch "}"].
Proof.
  intros F1 F2 Hf. unfold candidate, strip_wrapping.
  rewrite (trim_braced _ _ _ F1 F2).
  destruct (replace_fences_id _ Hf) as (R1 & R2 & R3).
  rewrite R1, R2, R3.
  destruct (decl_no_match_brace (body ++ [ch "}"])) as (D1 & D2 & D3).
  rewrite (replace_decl_id _ _ D1), (replace_decl_id _ _ D2),
    (replace_decl_id _ _ D3).
  rewrite (replace_semicolon_id (ch "{" :: body)
           : replace (ch "{" :: body ++ [ch "}"]) re_semicolon [] = _).
  cbn [app]. unfold pick_match. rewrite match_object_whole. reflexivity.
Qed.

(** C2 as stated fails: a JSON string whose content is braced parses, and
    [extractJson] returns the braces, not the string. *)
Lemma extractJson_valid_changed :
  parses (js "~{}~") = true
  /\ trim (js "~{}~") = js "~{}~"
  /\ extractJson (js "~{}~") = Ok (js "{}")
  /\ js "{}" <> js "~{}~".
Proof.
  repeat split; try (vm_compute; reflexivity). discriminate.
Qed.

(* ------------------------------------------------------------------ *)
(** ** Replacement and the units it keeps *)

(** A first-match replacement keeps the units selected by [P] when every
    match and its replacement have the same ones. *)
Lemma replace_first_filter (P : N -> bool) re t :
  (forall w cs, matches (re_pat re) w cs ->
                filter P (expand t cs) = filter P w) ->
  forall s, filter P (replace_first s re t) = filter P s.
Proof.
  intros Hm s. unfold replace_first.
  destruct (search re None s) as [[[before m] st]|] eqn:S; [|reflexivity].
  apply search_sound in S as [E M]. rewrite E.
  rewrite !filter_app, (Hm _ _ M). reflexivity.
Qed.

Lemma skipn_length_app (w r : jsstring) : skipn (length w) (w ++ r) = r.
Proof. induction w; simpl; auto. Qed.

Lemma replace_all_filter (P : N -> bool) re t :
  (forall w cs, matches (re_pat re) w cs ->
                filter P (expand t cs) = filter P w) ->
  forall s prev k,
    filter P (replace_all_from re t prev s k) = filter P (skipn k s).
Proof.
  intros Hm. induction s as [|c s IH]; intros prev k;
    rewrite replace_all_from_eq.
  - destruct k as [|k]; [|reflexivity].
    destruct (exec_at re prev []) as [st|] eqn:E; [|reflexivity].
    apply exec_at_sound in E as (w & E & M).
    destruct w; [|discriminate].
    rewrite app_nil_r. rewrite (Hm _ _ M). reflexivity.
  - destruct k as [|k]; [|apply IH].
    destruct (exec_at re prev (c :: s)) as [st|] eqn:E.
    + apply exec_at_sound in E as (w & E & M).
      rewrite filter_app, (Hm _ _ M). rewrite E.
      rewrite length_app, Nat.add_sub.
      destruct w as [|x w].
      * cbn [length app] in *. rewrite <- E. cbn [skipn filter].
        rewrite IH. reflexivity.
      * cbn [app] in E. injection E as <- ->.
        cbn [length]. rewrite IH, skipn_length_app.
        cbn [skipn]. rewrite filter_app. reflexivity.
    + cbn [skipn filter]. rewrite IH. reflexivity.
Qed.

(** A first-match replacement keeps the first unit when the pattern does
    not match at the start. *)
Lemma replace_first_head re t (h : N) (s : jsstring) :
  exec_at re None (h :: s) = None ->
  exists s', replace_first (h :: s) re t = h :: s'.
Proof.
  intros H. unfold replace_first. rewrite search_eq, H.
  destruct (search re (Some h) s) as [[[before m] st]|]; cbn [app]; eauto.
Qed.

Lemma replace_all_head re t (h : N) (s : jsstring) :
  (forall st, exec_at re None (h :: s) = Some st ->
              exists e, expand t (m_caps st) = h :: e) ->
  exists s', replace_all_from re t None (h :: s) O = h :: s'.
Proof.
  intros H. rewrite replace_all_from_eq.
  destruct (exec_at re None (h :: s)) as [st|]; [|eauto].
  destruct (H st eq_refl) as [e ->]. cbn [app]. eauto.
Qed.

(** A global replacement keeps the last unit when no match reaches it and
    the pattern does not match the empty text at the end. *)
Lemma replace_all_last re t (l : N) :
  (forall prev s st, exec_at re prev (s ++ [l]) = Some st -> m_rest st <> []) ->
  (forall prev, exec_at re prev [] = None) ->
  forall s prev k, (k <= length s)%nat ->
    exists s', replace_all_from re t prev (s ++ [l]) k = s' ++ [l].
Proof.
  intros Hr He.
  assert (End : forall prev, replace_all_from re t prev [] O = []).
  { intros prev. rewrite replace_all_from_eq, He. reflexivity. }
  induction s as [|c s IH]; intros prev k Hk; rewrite replace_all_from_eq.
  - destruct k; [|cbn in Hk; lia]. cbn [app].
    destruct (exec_at re prev [l]) as [st|] eqn:E.
    + pose proof (Hr prev [] st E) as Hn.
      apply exec_at_sound in E as (w & E & _).
      destruct w as [|x w].
      * cbn [app] in E. rewrite <- E. cbn [length]. rewrite Nat.sub_diag.
        rewrite End. exists (expand t (m_caps st)). reflexivity.
      * exfalso. injection E as _ E. destruct w; [|discriminate].
        cbn [app] in E. congruence.
    + rewrite End. exists []. reflexivity.
  - destruct k as [|k].
    + cbn [app].
      destruct (exec_at re prev (c :: s ++ [l])) as [st|] eqn:E.
      * pose proof (Hr prev (c :: s) st E) as Hn.
        apply exec_at_sound in E as (w & E & _).
        rewrite E, length_app, Nat.add_sub.
        destruct w as [|x w].
        -- cbn [length]. destruct (IH (Some c) O ltac:(lia)) as [s' ->].
           exists (expand t (m_caps st) ++ c :: s'). app_norm. reflexivity.
        -- cbn [length].
           assert (Lw : (length w <= length s)%nat).
           { apply (f_equal (@length N)) in E.
             destruct (m_rest st); [congruence|].
             cbn [app] in E. list_len. }
           destruct (IH (Some c) (length w) Lw) as [s' ->].
           exists (expand t (m_caps st) ++ s'). app_norm. reflexivity.
      * destruct (IH (Some c) O ltac:(lia)) as [s' ->].
        exists (c :: s'). reflexivity.
    + cbn [app]. apply IH. cbn in Hk. lia.
Qed.

(** ** The repair pass keeps braces and the opening unit *)

Lemma repair_substitutions_steps (s : jsstring) :
  repair_substitutions s
  = fold_left (fun x p => replace x (fst p) (snd p)) repair_steps s.
Proof. reflexivity. Qed.

Lemma braces_spaces (ws : jsstring) :
  Forall (fun x => is_space x = true) ws -> braces ws = [].
Proof.
  induction 1 as [|x ws Hx F IH]; [reflexivity|].
  unfold braces in *. cbn [filter]. rewrite IH.
  assert (B : is_brace x = false).
  { unfold is_brace. units. }
  rewrite B. reflexivity.
Qed.

Lemma braces_app (a b : jsstring) : braces (a ++ b) = braces a ++ braces b.
Proof. apply filter_app. Qed.

Lemma braces_cons (c : N) (s : jsstring) :
  braces (c :: s) = if is_brace c then c :: braces s else braces s.
Proof. reflexivity. Qed.

Ltac braces_norm :=
  repeat rewrite braces_app;
  repeat match goal with
  | H : Forall _ ?w |- _ => rewrite (braces_spaces w H)
  end.

Lemma repair_steps_braces :
  Forall (fun p => re_global (fst p) = false /\
            forall w cs, matches (re_pat (fst p)) w cs ->
                         braces (expand (snd p) cs) = braces w)
         repair_steps.
Proof.
  unfold repair_steps.
  repeat (constructor; [split; [reflexivity|]; intros w cs M|]);
    try exact I.
  all: cbn [fst snd re_pat re_dangling re_dangling_string re_colon
            re_trailing_comma rseq position_pat tpl_empty_array
            tpl_empty_string tpl_colon] in *.
  all: inv_matches.
  all: braces_norm.
  all: try (vm_compute; reflexivity).
  - cbn [expand cap_lookup Nat.eqb app]. braces_norm.
    change (braces []) with (@nil N). rewrite !app_nil_r. reflexivity.
  - constructor.
Qed.

Lemma repair_steps_head :
  Forall (fun p => re_global (fst p) = false /\
            forall h s, h = ch "{" \/ h = ch "[" ->
                        exec_at (fst p) None (h :: s) = None)
         repair_steps.
Proof.
  unfold repair_steps.
  repeat (constructor;
          [split; [reflexivity|]; intros h s [->| ->]; reflexivity|]).
  constructor.
Qed.

Lemma repair_substitutions_braces (s : jsstring) :
  braces (repair_substitutions s) = braces s.
Proof.
  rewrite repair_substitutions_steps.
  pose proof repair_steps_braces as F. revert s.
  induction F as [|[re t] l [G H] F IH]; intros s; cbn [fold_left fst snd].
  - reflexivity.
  - rewrite IH. unfold replace. cbn [fst snd] in G, H. rewrite G.
    apply replace_first_filter. exact H.
Qed.

Lemma repair_substitutions_head (h : N) (s : jsstring) :
  h = ch "{" \/ h = ch "[" ->
  exists s', repair_substitutions (h :: s) = h :: s'.
Proof.
  intros Hh. rewrite repair_substitutions_steps.
  pose proof repair_steps_head as F. revert s.
  induction F as [|[re t] l [G H] F IH]; intros s; cbn [fold_left fst snd].
  - eauto.
  - unfold replace at 2. cbn [fst snd] in G, H. rewrite G.
    destruct (replace_first_head re t h s (H h s Hh)) as [s' ->].
    apply IH.
Qed.

(** ** The literal conversion keeps braces and the end units *)

Lemma replace_quote_map (s : jsstring) :
  replace s re_single_quote [TText [dq]] = map unquote s.
Proof.
  unfold replace. cbn [re_global re_single_quote].
  generalize (@None N).
  induction s as [|c s IH]; intros prev; rewrite replace_all_from_eq.
  - reflexivity.
  - unfold exec_at.
    cbn [re_pat re_multiline re_single_quote rmatch m_rest m_caps map].
    unfold unquote at 1. destruct (c =? ch "'").
    + cbn [m_rest m_caps expand app length].
      replace (S (length s) - length s)%nat with 1%nat by lia.
      rewrite IH. reflexivity.
    + rewrite IH. reflexivity.
Qed.

Lemma braces_unquote (s : jsstring) : braces (map unquote s) = braces s.
Proof.
  induction s as [|c s IH]; [reflexivity|].
  cbn [map]. rewrite !braces_cons, IH. unfold unquote.
  destruct (c =? ch "'") eqn:E; [|reflexivity].
  apply N.eqb_eq in E. subst c. reflexivity.
Qed.

(** A match of the key pattern: opener, spaces, key, spaces, colon. *)
Lemma matches_unquoted_key w cs :
  matches (re_pat re_unquoted_key) w cs ->
  exists o ws1 k ws2,
    w = (o :: ws1) ++ k ++ ws2 ++ [ch ":"]
    /\ is_key_opener o = true
    /\ Forall (fun x => is_space x = true) ws1
    /\ Forall (fun x => is_space x = true) ws2
    /\ Forall (fun x => is_key_unit x = true) k
    /\ expand tpl_quoted_key cs = (o :: ws1) ++ dq :: k ++ [dq; ch ":"].
Proof.
  cbn [re_pat re_unquoted_key rseq]. intros M. inv_matches.
  match goal with
  | |- exists _ _ _ _,
         ([?o] ++ ?a) ++ ([?k0] ++ ?ks) ++ ?b ++ _ = _ /\ _ =>
      exists o, a, (k0 :: ks), b
  end.
  split; [|split; [|split; [|split; [|split]]]];
    [reflexivity|assumption|assumption|assumption| |].
  - constructor; [|assumption].
    unfold is_key_start, is_key_unit in *.
    repeat rewrite ?orb_true_iff in *. tauto.
  - cbn [expand tpl_quoted_key cap_lookup Nat.eqb app]. app_norm.
    reflexivity.
Qed.

Lemma unquoted_key_braces w cs :
  matches (re_pat re_unquoted_key) w cs ->
  braces (expand tpl_quoted_key cs) = braces w.
Proof.
  intros M.
  destruct (matches_unquoted_key _ _ M) as (o & ws1 & k & ws2 & -> & _ & _ & F2 & _ & ->).
  change (dq :: k ++ [dq; ch ":"]) with ([dq] ++ k ++ [dq; ch ":"]).
  rewrite !braces_app, (braces_spaces _ F2). reflexivity.
Qed.

Lemma convert_literal_braces (s : jsstring) :
  braces (convert_literal s) = braces s.
Proof.
  unfold convert_literal. rewrite replace_quote_map, braces_unquote.
  unfold replace. cbn [re_global re_unquoted_key].
  change (Re _ true false) with re_unquoted_key.
  unfold braces.
  rewrite (replace_all_filter is_brace re_unquoted_key tpl_quoted_key
             unquoted_key_braces).
  reflexivity.
Qed.

Lemma convert_literal_head (h : N) (s : jsstring) :
  h = ch "{" \/ h = ch "[" ->
  exists s', convert_literal (h :: s) = h :: s'.
Proof.
  intros Hh. unfold convert_literal. rewrite replace_quote_map.
  unfold replace. cbn [re_global re_unquoted_key].
  change (Re _ true false) with re_unquoted_key.
  destruct (replace_all_head re_unquoted_key tpl_quoted_key h s) as [s' ->].
  - intros st E. apply exec_at_sound in E as (w & E & M).
    destruct (matches_unquoted_key _ _ M)
      as (o & ws1 & k & ws2 & -> & _ & _ & _ & _ & ->).
    cbn [app] in E. injection E as -> _. cbn [app]. eauto.
  - cbn [map]. exists (map unquote s'). f_equal.
    destruct Hh as [-> | ->]; reflexivity.
Qed.

Lemma convert_literal_last (s : jsstring) :
  exists s', convert_literal (s ++ [ch "}"]) = s' ++ [ch "}"].
Proof.
  unfold convert_literal. rewrite replace_quote_map.
  unfold replace. cbn [re_global re_unquoted_key].
  change (Re _ true false) with re_unquoted_key.
  destruct (replace_all_last re_unquoted_key tpl_quoted_key (ch "}"))
    with (s := s) (prev := @None N) (k := O) as [s' ->].
  - intros prev s0 st E R. apply exec_at_sound in E as (w & E & M).
    destruct (matches_unquoted_key _ _ M)
      as (o & ws1 & k & ws2 & -> & _).
    rewrite R, app_nil_r in E.
    replace ((o :: ws1) ++ k ++ ws2 ++ [ch ":"])
      with (((o :: ws1) ++ k ++ ws2) ++ [ch ":"]) in E
      by (app_norm; reflexivity).
    apply app_inj_tail in E as [_ E]. discriminate E.
  - intros prev. reflexivity.
  - lia.
  - rewrite map_app. exists (map unquote s'). reflexivity.
Qed.

(** ** When the object pattern matches *)

Lemma has_close_braces (s : jsstring) : has_close (braces s) = has_close s.
Proof.
  induction s as [|c s IH]; [reflexivity|].
  rewrite braces_cons. unfold has_close in *. cbn [existsb].
  destruct (is_brace c) eqn:B; cbn [existsb]; rewrite IH; [reflexivity|].
  destruct (c =? ch "}") eqn:E; [|reflexivity].
  unfold is_brace in B. rewrite E, orb_true_r in B. discriminate.
Qed.

Lemma open_then_close_braces (s : jsstring) :
  open_then_close (braces s) = open_then_close s.
Proof.
  induction s as [|c s IH]; [reflexivity|].
  rewrite braces_cons. cbn [open_then_close].
  destruct (is_brace c) eqn:B; cbn [open_then_close];
    rewrite IH, ?has_close_braces; [reflexivity|].
  destruct (c =? ch "{") eqn:E; [|reflexivity].
  unfold is_brace in B. rewrite E in B. discriminate.
Qed.

Lemma has_close_app (a b : jsstring) :
  has_close b = true -> has_close (a ++ b) = true.
Proof.
  unfold has_close. rewrite existsb_app. intros ->. apply orb_true_r.
Qed.

Lemma open_then_close_app (a b : jsstring) :
  open_then_close b = true -> open_then_close (a ++ b) = true.
Proof.
  induction a as [|c a IH]; [auto|]. intros H. cbn [app open_then_close].
  rewrite (IH H). apply orb_true_r.
Qed.

(** A text with a braced part has a [{] with a [}] after it. *)
Lemma open_then_close_braced (ws1 body ws2 : jsstring) :
  open_then_close (ws1 ++ (ch "{" :: body ++ [ch "}"]) ++ ws2) = true.
Proof.
  apply open_then_close_app. cbn [app open_then_close].
  rewrite N.eqb_refl. cbn [andb].
  rewrite <- app_assoc, has_close_app; [reflexivity|].
  cbn [app has_close existsb]. rewrite N.eqb_refl. reflexivity.
Qed.

Lemma star_any_finds (k : mstate -> option mstate) caps :
  (forall p t, k (MState p (ch "}" :: t) caps) <> None) ->
  forall (b : jsstring) (prev : option N),
    has_close b = true -> star_loop any_unit k prev b caps <> None.
Proof.
  intros Hk. induction b as [|x b IH]; intros prev H.
  - discriminate.
  - cbn [star_loop]. rewrite any_unit_true.
    destruct (star_loop any_unit k (Some x) b caps) eqn:S; [discriminate|].
    unfold has_close in H. cbn [existsb] in H.
    destruct (x =? ch "}") eqn:E.
    + apply N.eqb_eq in E. subst x. apply Hk.
    + exfalso. apply (IH (Some x)); assumption.
Qed.

Lemma search_found re :
  forall (a b : jsstring) (prev : option N),
    (forall p, exec_at re p b <> None) -> search re prev (a ++ b) <> None.
Proof.
  induction a as [|c a IH]; intros b prev H; rewrite search_eq.
  - cbn [app]. specialize (H prev).
    destruct (exec_at re prev b); [discriminate|congruence].
  - cbn [app]. destruct (exec_at re prev (c :: a ++ b)); [discriminate|].
    specialize (IH b (Some c) H).
    destruct (search re (Some c) (a ++ b)) as [[[? ?] ?]|];
      [discriminate|congruence].
Qed.

Lemma exec_object_open (p : option N) (b : jsstring) :
  has_close b = true -> exec_at re_object p (ch "{" :: b) <> None.
Proof.
  intros H. unfold exec_at.
  cbn [re_pat re_multiline re_object rseq rmatch m_rest m_prev m_caps].
  rewrite N.eqb_refl. cbn [m_rest m_prev m_caps].
  apply star_any_finds; [|exact H].
  intros q t. cbn [m_rest m_caps]. rewrite N.eqb_refl. discriminate.
Qed.

(** The object pattern matches as soon as some [{] has a [}] after it. *)
Lemma match_object_complete (s : jsstring) :
  open_then_close s = true -> str_match s re_object <> None.
Proof.
  intros H.
  assert (S : search re_object None s <> None).
  { generalize (@None N).
    induction s as [|c s IH]; intros prev; [discriminate|].
    cbn [open_then_close] in H. apply orb_true_iff in H as [H|H].
    - apply andb_true_iff in H as [E H]. apply N.eqb_eq in E. subst c.
      apply (search_found re_object [] (ch "{" :: s)).
      intros p. apply exec_object_open. exact H.
    - rewrite search_eq.
      destruct (exec_at re_object prev (c :: s)); [discriminate|].
      specialize (IH H (Some c)).
      destruct (search re_object (Some c) s) as [[[? ?] ?]|];
        [discriminate|congruence]. }
  unfold str_match.
  destruct (search re_object None s) as [[[? ?] ?]|];
    [discriminate|congruence].
Qed.

(** What the object and array patterns match. *)
Lemma match_object_shape (s m : jsstring) :
  str_match s re_object = Some m ->
  exists body, m = ch "{" :: body ++ [ch "}"].
Proof.
  unfold str_match.
  destruct (search re_object None s) as [[[before m'] st]|] eqn:S;
    [|discriminate].
  intros H. injection H as ->.
  apply search_sound in S as [_ M].
  cbn [re_pat re_object rseq] in M. inv_matches.
  eexists. cbn [app]. reflexivity.
Qed.

Lemma match_array_shape (s m : jsstring) :
  str_match s re_array = Some m ->
  exists body, m = ch "[" :: body ++ [ch "]"].
Proof.
  unfold str_match.
  destruct (search re_array None s) as [[[before m'] st]|] eqn:S;
    [|discriminate].
  intros H. injection H as ->.
  apply search_sound in S as [_ M].
  cbn [re_pat re_array rseq] in M. inv_matches.
  eexists. cbn [app]. reflexivity.
Qed.

(** ** The results of [extractJson] that are objects *)

Lemma candidate_kinds (s : jsstring) : candidate_kind (candidate s).
Proof.
  unfold candidate_kind, candidate, pick_match. generalize (strip_wrapping s). intros t.
  destruct (str_match t re_object) as [m|] eqn:O.
  - left. apply (match_object_shape _ _ O).
  - destruct (str_match t re_array) as [m|] eqn:A.
    + right. left. apply (match_array_shape _ _ A).
    + right. right. destruct (open_then_close t) eqn:H; [|reflexivity].
      exfalso. apply (match_object_complete t H). exact O.
Qed.

Lemma endsWith_last (s : jsstring) (c : N) :
  endsWith s c = true -> exists x, s = x ++ [c].
Proof.
  unfold endsWith. intros H. destruct (rev s) as [|y l] eqn:R; [discriminate|].
  apply N.eqb_eq in H. subst y. exists (rev l).
  rewrite <- (rev_involutive s), R. reflexivity.
Qed.

Lemma endsWith_app (s : jsstring) (c : N) : endsWith (s ++ [c]) c = true.
Proof.
  unfold endsWith. rewrite rev_app_distr. cbn [rev app]. apply N.eqb_refl.
Qed.

(** Closing a text that opens with a brace gives a braced text. *)
Lemma close_open_brace (s : jsstring) :
  exists x, close_open (ch "{" :: s) = ch "{" :: x ++ [ch "}"].
Proof.
  unfold close_open. cbn [startsWith]. rewrite N.eqb_refl. cbn [andb].
  destruct (endsWith (ch "{" :: s) (ch "}")) eqn:E; cbn [negb app startsWith].
  - change (ch "{" =? ch "[") with false. cbn [andb].
    apply endsWith_last in E as [x E]. destruct x as [|y x].
    + discriminate E.
    + cbn [app] in E. injection E as <- ->. eauto.
  - change (ch "{" =? ch "[") with false. cbn [andb]. eauto.
Qed.

Lemma close_open_bracket (s : jsstring) :
  exists x, close_open (ch "[" :: s) = ch "[" :: x.
Proof.
  unfold close_open. cbn [startsWith].
  change (ch "[" =? ch "{") with false. cbn [andb].
  destruct (startsWith (ch "[" :: s) (ch "[")
            && negb (endsWith (ch "[" :: s) (ch "]")));
    cbn [app]; eauto.
Qed.

Lemma close_open_other (s : jsstring) :
  startsWith s (ch "{") = false -> startsWith s (ch "[") = false ->
  close_open s = s.
Proof.
  unfold close_open. intros H1 H2. rewrite H1. cbn [andb]. rewrite H2.
  reflexivity.
Qed.

Lemma startsWith_true (s : jsstring) (c : N) :
  startsWith s c = true -> exists x, s = c :: x.
Proof.
  destruct s as [|y s]; [discriminate|]. cbn [startsWith]. intros H.
  apply N.eqb_eq in H. subst y. eauto.
Qed.

(** The text of an object does not open with a bracket. *)
Lemma object_not_bracket (r : jsstring) (o : object) (x : jsstring) :
  JSON_parse r = Ok (JObj o) -> r <> ch "[" :: x.
Proof.
  intros P E.
  destruct (JSON_parse_shape _ _ P) as (ws1 & core & ws2 & E' & F1 & _ & _ & Ho).
  destruct (Ho o eq_refl) as (body & ->). rewrite E in E'.
  destruct ws1 as [|w ws1]; cbn [app] in E'; injection E' as E' _.
  - discriminate E'.
  - inversion F1 as [|? ? W _]; subst. discriminate W.
Qed.

Lemma object_open_then_close (r : jsstring) (o : object) :
  JSON_parse r = Ok (JObj o) -> open_then_close r = true.
Proof.
  intros P.
  destruct (JSON_parse_shape _ _ P) as (ws1 & core & ws2 & -> & _ & _ & _ & Ho).
  destruct (Ho o eq_refl) as (body & ->). apply open_then_close_braced.
Qed.

Lemma extractJson_result (s r : jsstring) :
  extractJson s = Ok r ->
  r = s \/ r = candidate s \/ r = repair (candidate s)
  \/ r = convert_literal (candidate s).
Proof.
  intros E.
  destruct (extractJson_cases s)
    as [[_ H]|[(_ & _ & H)|[(_ & _ & _ & H)|(_ & _ & _ & H)]]];
    rewrite H in E; injection E as <-; auto.
Qed.

(** A closed text that parses to an object is braced, unless closing left
    it as it was and it opens with something else than a brace. *)
Lemma close_open_object (x : jsstring) (o : object) :
  JSON_parse (close_open x) = Ok (JObj o) ->
  (exists y, close_open x = ch "{" :: y ++ [ch "}"])
  \/ open_then_close x = true.
Proof.
  intros P.
  destruct (startsWith x (ch "{")) eqn:S1.
  - left. apply startsWith_true in S1 as [s' ->]. apply close_open_brace.
  - destruct (startsWith x (ch "[")) eqn:S2.
    + exfalso. apply startsWith_true in S2 as [s' ->].
      destruct (close_open_bracket s') as [y B].
      apply (object_not_bracket _ o y P). exact B.
    + right. rewrite (close_open_other _ S1 S2) in P.
      apply (object_open_then_close _ _ P).
Qed.

Lemma repaired_object_braced (c r : jsstring) (o : object) :
  candidate_kind c ->
  r = repair c ->
  JSON_parse r = Ok (JObj o) ->
  exists x, r = ch "{" :: x ++ [ch "}"].
Proof.
  unfold repair. intros K -> P.
  pose proof (repair_substitutions_braces c) as Hb.
  assert (Hh : forall h t, h = ch "{" \/ h = ch "[" -> c = h :: t ->
               exists s', repair_substitutions c = h :: s').
  { intros h t Hh ->. apply repair_substitutions_head. exact Hh. }
  revert P Hb Hh. generalize (repair_substitutions c). intros x P Hb Hh.
  destruct (close_open_object x o P) as [B|Hoc]; [exact B|].
  destruct K as [[y K]|[[y K]|K]].
  - destruct (Hh _ _ (or_introl eq_refl) K) as [s' ->].
    apply close_open_brace.
  - exfalso. destruct (Hh _ _ (or_intror eq_refl) K) as [s' ->].
    destruct (close_open_bracket s') as [z B].
    apply (object_not_bracket _ o z P). exact B.
  - exfalso.
    rewrite <- open_then_close_braces, Hb, open_then_close_braces in Hoc.
    congruence.
Qed.

Lemma converted_object_braced (c r : jsstring) (o : object) :
  candidate_kind c ->
  r = convert_literal c ->
  JSON_parse r = Ok (JObj o) ->
  exists x, r = ch "{" :: x ++ [ch "}"].
Proof.
  intros K -> P.
  pose proof (object_open_then_close _ _ P) as Hoc.
  destruct K as [[x K]|[[x K]|K]].
  - subst c.
    destruct (convert_literal_head (ch "{") (x ++ [ch "}"])) as [s' R];
      [auto|].
    destruct (convert_literal_last (ch "{" :: x)) as [s'' L].
    cbn [app] in L. rewrite R in L. rewrite R.
    destruct s'' as [|y s'']; [discriminate L|].
    cbn [app] in L. injection L as <- ->.
    exists s''. reflexivity.
  - exfalso. subst c.
    destruct (convert_literal_head (ch "[") (x ++ [ch "]"])) as [s' R];
      [auto|].
    apply (object_not_bracket _ o s' P). exact R.
  - exfalso.
    rewrite <- open_then_close_braces, convert_literal_braces,
      open_then_close_braces in Hoc.
    congruence.
Qed.

(** A text got from a candidate by one of the three stages, if it parses
    to an object, is braced. *)
Lemma stage_object_braced (c r : jsstring) (o : object) :
  candidate_kind c ->
  r = c \/ r = repair c \/ r = convert_literal c ->
  JSON_parse r = Ok (JObj o) ->
  exists x, r = ch "{" :: x ++ [ch "}"].
Proof.
  intros K [E|[E|E]] P.
  - subst r. destruct K as [[x K]|[[x K]|K]].
    + exists x. exact K.
    + exfalso. apply (object_not_bracket _ o (x ++ [ch "]"]) P). exact K.
    + pose proof (object_open_then_close _ _ P). congruence.
  - apply (repaired_object_braced c r o K E P).
  - apply (converted_object_braced c r o K E P).
Qed.

Lemma trim_braced_only (x : jsstring) :
  trim (ch "{" :: x ++ [ch "}"]) = ch "{" :: x ++ [ch "}"].
Proof.
  pose proof (trim_braced [] x [] (Forall_nil _) (Forall_nil _)) as T.
  cbn [app] in T. rewrite app_nil_r in T. exact T.
Qed.

(** ** C6 *)

(** C6 as stated fails: [extractJson] of [5 ;] is [5 ] with its space,
    which parses, and [extractJson] of that is [5]. *)
Lemma extractJson_not_idempotent :
  extractJson (js "5 ;") = Ok (js "5 ")
  /\ parses (js "5 ") = true
  /\ extractJson (js "5 ") = Ok (js "5")
  /\ js "5" <> js "5 ".
Proof.
  repeat split; try (vm_compute; reflexivity). discriminate.
Qed.

(* ------------------------------------------------------------------ *)
(** ** Objects in enumeration order *)

Lemma str_eqb_sym (a b : jsstring) : str_eqb a b = str_eqb b a.
Proof.
  destruct (str_eqb a b) eqn:E.
  - apply str_eqb_eq in E. subst. symmetry. apply str_eqb_refl.
  - destruct (str_eqb b a) eqn:E'; [|reflexivity].
    apply str_eqb_eq in E'. subst. rewrite str_eqb_refl in E. discriminate.
Qed.

Lemma str_eqb_neq (a b : jsstring) : str_eqb a b = false <-> a <> b.
Proof.
  split.
  - intros E ->. rewrite str_eqb_refl in E. discriminate.
  - intros H. destruct (str_eqb a b) eqn:E; [|reflexivity].
    apply str_eqb_eq in E. contradiction.
Qed.

(** A key that comes after all the keys of an object is added at its
    end. *)
Lemma obj_set_append (o : object) (k : jsstring) (v : value) :
  Forall (fun kv => str_eqb k (fst kv) = false
                    /\ key_before k (fst kv) = false) o ->
  obj_set o k v = o ++ [(k, v)].
Proof.
  induction 1 as [|[k' v'] o [E B] F IH]; cbn [obj_set app fst] in *.
  - reflexivity.
  - rewrite E, B, IH. reflexivity.
Qed.

Lemma ordered_app (a b : object) :
  ordered (a ++ b) ->
  ordered a /\ ordered b
  /\ Forall (fun x => Forall (fun y => str_eqb (fst y) (fst x) = false
                                       /\ key_before (fst y) (fst x) = false)
                             b) a.
Proof.
  induction a as [|[k v] a IH]; cbn [app ordered].
  - auto.
  - intros [F O]. apply Forall_app in F as [Fa Fb].
    destruct (IH O) as (Oa & Ob & Fab). repeat split; auto.
Qed.

(** Adding the members of an object that is in enumeration order, one
    after the other, rebuilds it. *)
Lemma fold_obj_set_ordered (m acc : object) :
  ordered (acc ++ m) ->
  fold_left (fun o kv => obj_set o (fst kv) (snd kv)) m acc = acc ++ m.
Proof.
  revert acc. induction m as [|[k v] m IH]; intros acc O; cbn [fold_left fst snd].
  - rewrite app_nil_r. reflexivity.
  - rewrite obj_set_append.
    + rewrite IH; rewrite <- app_assoc; [reflexivity|exact O].
    + apply ordered_app in O as (_ & _ & F).
      eapply Forall_impl; [|exact F]. intros [k' v'] H.
      inversion H as [|? ? [H1 H2] _]. cbn [fst] in *. auto.
Qed.

Lemma obj_of_entries_ordered (m : object) :
  ordered m -> obj_of_entries m = m.
Proof. intros O. apply (fold_obj_set_ordered m [] O). Qed.

(** The keys of [obj_set o k v] are those of [o] and [k]. *)
Lemma obj_set_keys (P : jsstring -> Prop) (o : object) (k : jsstring)
    (v : value) :
  Forall (fun kv => P (fst kv)) o -> P k ->
  Forall (fun kv => P (fst kv)) (obj_set o k v).
Proof.
  intros F Pk. induction F as [|[k' v'] o H F IH]; cbn [obj_set].
  - auto.
  - destruct (str_eqb k k'); [auto|].
    destruct (key_before k k'); auto.
Qed.

Lemma obj_set_values (P : value -> Prop) (o : object) (k : jsstring)
    (v : value) :
  Forall (fun kv => P (snd kv)) o -> P v ->
  Forall (fun kv => P (snd kv)) (obj_set o k v).
Proof.
  intros F Pv. induction F as [|[k' v'] o H F IH]; cbn [obj_set].
  - auto.
  - destruct (str_eqb k k'); [auto|].
    destruct (key_before k k'); auto.
Qed.

Lemma array_index_eq (a b : jsstring) (i j : N) :
  array_index a = Some i -> array_index b = Some j -> i = j -> a = b.
Proof.
  unfold array_index. intros Ha Hb ->.
  destruct a as [|x a]; [discriminate|]. destruct b as [|y b]; [discriminate|].
  destruct (forallb is_digit (x :: a)); [|discriminate].
  destruct (forallb is_digit (y :: b)); [|discriminate].
  destruct (str_eqb (dec_units (digits_value (x :: a))) (x :: a)
            && (digits_value (x :: a) <? 4294967295)) eqn:Ea; [|discriminate].
  destruct (str_eqb (dec_units (digits_value (y :: b))) (y :: b)
            && (digits_value (y :: b) <? 4294967295)) eqn:Eb; [|discriminate].
  apply andb_true_iff in Ea as [Ea _]. apply andb_true_iff in Eb as [Eb _].
  apply str_eqb_eq in Ea, Eb. injection Ha as Ha. injection Hb as Hb.
  rewrite <- Ea, <- Eb, Ha, Hb. reflexivity.
Qed.

(** A key that goes before [k'] also goes before what follows [k']. *)
Lemma key_before_trans (k k' x : jsstring) :
  key_before k k' = true -> str_eqb x k' = false ->
  key_before x k' = false ->
  str_eqb x k = false /\ key_before x k = false.
Proof.
  unfold key_before. intros B E B'.
  destruct (array_index k) as [i|] eqn:Ik; [|discriminate].
  destruct (array_index x) as [l|] eqn:Ix.
  - destruct (array_index k') as [j|] eqn:Ik'; [|discriminate].
    apply N.ltb_lt in B. apply N.ltb_ge in B'. split.
    + apply str_eqb_neq. intros ->. rewrite Ik in Ix. injection Ix as ->. lia.
    + apply N.ltb_ge. lia.
  - split; [|reflexivity].
    apply str_eqb_neq. intros ->. congruence.
Qed.

Lemma key_before_irrefl_sym (k k' : jsstring) :
  key_before k k' = true -> key_before k' k = false.
Proof.
  unfold key_before.
  destruct (array_index k) as [i|]; [|discriminate].
  destruct (array_index k') as [j|]; [|reflexivity].
  intros B. apply N.ltb_lt in B. apply N.ltb_ge. lia.
Qed.

(** [CreateDataProperty] keeps an object in enumeration order. *)
Lemma obj_set_ordered (o : object) (k : jsstring) (v : value) :
  ordered o -> ordered (obj_set o k v).
Proof.
  induction o as [|[k' v'] o IH]; cbn [obj_set ordered].
  - auto.
  - intros [F O]. destruct (str_eqb k k') eqn:E.
    + apply str_eqb_eq in E. subst k'. cbn [ordered]. auto.
    + destruct (key_before k k') eqn:B.
      * cbn [ordered]. split; [|auto]. constructor.
        -- cbn [fst]. split; [rewrite str_eqb_sym; exact E|].
           apply key_before_irrefl_sym. exact B.
        -- eapply Forall_impl; [|exact F]. intros [x vx] [Hx Bx].
           cbn [fst] in *. apply (key_before_trans k k' x); assumption.
      * cbn [ordered]. split; [|auto].
        apply (obj_set_keys
                 (fun x => str_eqb x k' = false /\ key_before x k' = false));
          auto.
Qed.

Lemma fold_obj_set_ordered_acc (l : list (jsstring * value)) (acc : object) :
  ordered acc ->
  ordered (fold_left (fun o kv => obj_set o (fst kv) (snd kv)) l acc).
Proof.
  revert acc. induction l as [|[k v] l IH]; intros acc O; cbn [fold_left].
  - exact O.
  - apply IH. apply obj_set_ordered. exact O.
Qed.

Lemma fold_obj_set_values (P : value -> Prop) (l : list (jsstring * value))
    (acc : object) :
  Forall (fun kv => P (snd kv)) acc -> Forall (fun kv => P (snd kv)) l ->
  Forall (fun kv => P (snd kv))
         (fold_left (fun o kv => obj_set o (fst kv) (snd kv)) l acc).
Proof.
  intros Fa Fl. revert acc Fa.
  induction Fl as [|[k v] l H Fl IH]; intros acc Fa; cbn [fold_left].
  - exact Fa.
  - apply IH. apply obj_set_values; assumption.
Qed.

(** ** Reading a property that was set *)

Lemma obj_get_set_same (o : object) (k : jsstring) (v : value) :
  obj_get (obj_set o k v) k = Some v.
Proof.
  induction o as [|[k' v'] o IH]; cbn [obj_set obj_get].
  - rewrite str_eqb_refl. reflexivity.
  - destruct (str_eqb k k') eqn:E.
    + cbn [obj_get]. rewrite str_eqb_refl. reflexivity.
    + destruct (key_before k k').
      * cbn [obj_get]. rewrite str_eqb_refl. reflexivity.
      * cbn [obj_get]. rewrite E. exact IH.
Qed.

Lemma obj_get_set_other (o : object) (k k0 : jsstring) (v : value) :
  str_eqb k0 k = false -> obj_get (obj_set o k v) k0 = obj_get o k0.
Proof.
  intros N. induction o as [|[k' v'] o IH]; cbn [obj_set obj_get].
  - rewrite N. reflexivity.
  - destruct (str_eqb k k') eqn:E.
    + apply str_eqb_eq in E. subst k'. cbn [obj_get]. rewrite N. reflexivity.
    + destruct (key_before k k').
      * cbn [obj_get]. rewrite N. reflexivity.
      * cbn [obj_get]. rewrite IH. reflexivity.
Qed.

Lemma obj_get_absent (o : object) (k : jsstring) :
  Forall (fun kv => str_eqb (fst kv) k = false) o -> obj_get o k = None.
Proof.
  induction 1 as [|[k' v'] o H F IH]; cbn [obj_get fst] in *.
  - reflexivity.
  - rewrite str_eqb_sym, H. exact IH.
Qed.

(** Spreading the members of an object in enumeration order over [a]: a
    key of the object reads as in the object, another key as in [a]. *)
Lemma obj_get_spread (l : list (jsstring * value)) (a : object)
    (k : jsstring) :
  ordered l ->
  obj_get (fold_left (fun o kv => obj_set o (fst kv) (snd kv)) l a) k
  = match obj_get l k with
    | Some v => Some v
    | None => obj_get a k
    end.
Proof.
  revert a. induction l as [|[k' v'] l IH]; intros a O;
    cbn [fold_left obj_get fst snd].
  - reflexivity.
  - destruct O as [F O]. rewrite (IH _ O).
    destruct (str_eqb k k') eqn:E.
    + apply str_eqb_eq in E. subst k'.
      rewrite obj_get_absent, obj_get_set_same; [reflexivity|].
      eapply Forall_impl; [|exact F]. intros x [H _]. exact H.
    + rewrite (obj_get_set_other _ _ _ _ E). reflexivity.
Qed.

(** ** Induction on values *)

Lemma value_ind (P : value -> Prop) :
  P JNull ->
  (forall b, P (JBool b)) ->
  (forall x, P (JNum x)) ->
  (forall s, P (JStr s)) ->
  (forall l, Forall P l -> P (JArr l)) ->
  (forall m, Forall (fun kv => P (snd kv)) m -> P (JObj m)) ->
  forall v, P v.
Proof.
  intros Hn Hb Hx Hs Ha Ho.
  fix IH 1. intros [| b | x | s | l | m].
  - exact Hn.
  - apply Hb.
  - apply Hx.
  - apply Hs.
  - apply Ha. induction l as [|v l IHl]; constructor; [apply IH|exact IHl].
  - apply Ho. induction m as [|[k v] m IHm]; constructor;
      [apply IH|exact IHm].
Qed.

(** ** What the parser builds *)

Lemma parse_scalar_wf (s : jsstring) (v : value) (r : jsstring) :
  parse_scalar s = Some (v, r) -> wf v.
Proof.
  unfold parse_scalar. destruct s as [|c s]; [discriminate|].
  destruct (c =? dq).
  { destruct (string_body s) as [[? ?]|]; [|discriminate].
    intros H. injection H as <- _. constructor. }
  destruct (c =? ch "t").
  { destruct (strip_prefix _ s); [|discriminate].
    intros H. injection H as <- _. constructor. }
  destruct (c =? ch "f").
  { destruct (strip_prefix _ s); [|discriminate].
    intros H. injection H as <- _. constructor. }
  destruct (c =? ch "n").
  { destruct (strip_prefix _ s); [|discriminate].
    intros H. injection H as <- _. constructor. }
  destruct (lex_number (c :: s)) as [[? ?]|]; [|discriminate].
  intros H. injection H as <- _. constructor.
Qed.

Lemma obj_of_entries_wf (m : list (jsstring * value)) :
  Forall (fun kv => wf (snd kv)) m -> wf (JObj (obj_of_entries m)).
Proof.
  intros F. constructor.
  - apply fold_obj_set_ordered_acc. exact I.
  - apply fold_obj_set_values; [constructor|exact F].
Qed.

Lemma parse_wf (n : nat) :
  (forall s v r, parse_value n s = Some (v, r) -> wf v)
  /\ (forall s l r, parse_elements n s = Some (l, r) -> Forall wf l)
  /\ (forall s m r, parse_members n s = Some (m, r) ->
        Forall (fun kv => wf (snd kv)) m).
Proof.
  induction n as [|n (IV & IE & IM)].
  - repeat split; intros; discriminate.
  - split; [|split].
    + intros s v r H. cbn [parse_value] in H.
      destruct s as [|c r0]; [discriminate|].
      destruct (c =? ch "{").
      { destruct (skip_ws r0) as [|c2 r2]; [discriminate|].
        destruct (c2 =? ch "}").
        - injection H as <- _. constructor; [exact I|constructor].
        - destruct (parse_members n (c2 :: r2)) as [[m rest]|] eqn:P;
            [|discriminate].
          injection H as <- _. apply obj_of_entries_wf. apply (IM _ _ _ P). }
      destruct (c =? ch "[").
      { destruct (skip_ws r0) as [|c2 r2]; [discriminate|].
        destruct (c2 =? ch "]").
        - injection H as <- _. constructor. constructor.
        - destruct (parse_elements n (c2 :: r2)) as [[l rest]|] eqn:P;
            [|discriminate].
          injection H as <- _. constructor. apply (IE _ _ _ P). }
      apply (parse_scalar_wf _ _ _ H).
    + intros s l r H. cbn [parse_elements] in H.
      destruct (parse_value n s) as [[v r1]|] eqn:V; [|discriminate].
      destruct (skip_ws r1) as [|c r1']; [discriminate|].
      destruct (c =? ch ",").
      * destruct (parse_elements n (skip_ws r1')) as [[l' rest]|] eqn:P;
          [|discriminate].
        injection H as <- _. constructor; [apply (IV _ _ _ V)|apply (IE _ _ _ P)].
      * destruct (c =? ch "]"); [|discriminate].
        injection H as <- _. constructor; [apply (IV _ _ _ V)|constructor].
    + intros s m r H. cbn [parse_members] in H.
      destruct s as [|q r0]; [discriminate|].
      destruct (q =? dq); [|discriminate].
      destruct (string_body r0) as [[k r1]|]; [|discriminate].
      destruct (skip_ws r1) as [|c r2]; [discriminate|].
      destruct (c =? ch ":"); [|discriminate].
      destruct (parse_value n (skip_ws r2)) as [[v r3]|] eqn:V; [|discriminate].
      destruct (skip_ws r3) as [|d r4]; [discriminate|].
      destruct (d =? ch ",").
      * destruct (parse_members n (skip_ws r4)) as [[m' rest]|] eqn:P;
          [|discriminate].
        injection H as <- _. constructor; [apply (IV _ _ _ V)|apply (IM _ _ _ P)].
      * destruct (d =? ch "}"); [|discriminate].
        injection H as <- _. constructor; [apply (IV _ _ _ V)|constructor].
Qed.

Lemma JSON_parse_wf (s : jsstring) (v : value) : JSON_parse s = Ok v -> wf v.
Proof.
  unfold JSON_parse.
  destruct (parse_value (2 * length s + 1) (skip_ws s)) as [[v' r]|] eqn:P;
    [|discriminate].
  destruct (skip_ws r); [|discriminate]. intros H. injection H as <-.
  apply (proj1 (parse_wf _) _ _ _ P).
Qed.

(** Settle the comparisons between known units. *)
Ltac eqb_known :=
  repeat match goal with
  | |- context [?a =? ?b] =>
      let v := eval vm_compute in (a =? b) in
      match v with
      | true => change (a =? b) with true
      | false => change (a =? b) with false
      end
  | |- context [?a <? ?b] =>
      let v := eval vm_compute in (a <? b) in
      match v with
      | true => change (a <? b) with true
      | false => change (a <? b) with false
      end
  end.

Ltac surrogates := unfold is_high_surrogate, is_low_surrogate in *; units.

(** ** Quoting and reading back a string *)

Lemma hex_value_digit (n : N) : n < 16 -> hex_value (hex_digit n) = Some n.
Proof.
  intros H. unfold hex_value, hex_digit.
  destruct (n <? 10) eqn:E.
  - apply N.ltb_lt in E.
    replace (is_digit (48 + n)) with true by (symmetry; units).
    f_equal. lia.
  - apply N.ltb_ge in E.
    replace (is_digit (87 + n)) with false by (symmetry; units).
    replace (in_range 97 102 (87 + n)) with true by (symmetry; units).
    f_equal. lia.
Qed.

Lemma hex4_escape (c : N) :
  c < 65536 ->
  hex4 (hex_digit (c / 4096)) (hex_digit ((c / 256) mod 16))
       (hex_digit ((c / 16) mod 16)) (hex_digit (c mod 16)) = Some c.
Proof.
  intros H. unfold hex4.
  assert (H3 : c / 4096 < 16) by (apply N.Div0.div_lt_upper_bound; lia).
  rewrite !hex_value_digit by (assumption || (apply N.mod_lt; lia)).
  f_equal.
  pose proof (N.Div0.div_mod c 16) as E0.
  pose proof (N.Div0.div_mod (c / 16) 16) as E1.
  pose proof (N.Div0.div_mod (c / 16 / 16) 16) as E2.
  rewrite !N.Div0.div_div in E1, E2.
  change (16 * 16) with 256 in *.
  rewrite N.Div0.div_div in E2. change (256 * 16) with 4096 in E2.
  assert (M : (c / 4096) mod 16 = c / 4096) by (apply N.mod_small; exact H3).
  lia.
Qed.

Lemma string_body_escape (c : N) (t : jsstring) (x : jsstring * jsstring) :
  c < 65536 ->
  string_body t = Some x ->
  string_body (unicode_escape c ++ t) = Some (c :: fst x, snd x).
Proof.
  intros H E. unfold unicode_escape. cbn [app string_body]. eqb_known.
  rewrite (hex4_escape c H), E. destruct x. reflexivity.
Qed.

Lemma string_body_plain (c : N) (t : jsstring) (x : jsstring * jsstring) :
  c <> dq -> c <> ch "\" -> 32 <= c ->
  string_body t = Some x ->
  string_body (c :: t) = Some (c :: fst x, snd x).
Proof.
  intros H1 H2 H3 E. cbn [string_body].
  apply N.eqb_neq in H1, H2. apply N.ltb_ge in H3.
  rewrite H1, H2, H3, E. destruct x. reflexivity.
Qed.

Lemma string_body_quote_unit (c : N) (t : jsstring) (x : jsstring * jsstring) :
  is_high_surrogate c = false -> is_low_surrogate c = false ->
  string_body t = Some x ->
  string_body (quote_unit c ++ t) = Some (c :: fst x, snd x).
Proof.
  intros _ _ E. unfold quote_unit.
  destruct (c =? 8) eqn:E8.
  { apply N.eqb_eq in E8. subst c. cbn [app string_body]. eqb_known.
    unfold unescape. eqb_known. rewrite E. destruct x. reflexivity. }
  destruct (c =? 9) eqn:E9.
  { apply N.eqb_eq in E9. subst c. cbn [app string_body]. eqb_known.
    unfold unescape. eqb_known. rewrite E. destruct x. reflexivity. }
  destruct (c =? 10) eqn:E10.
  { apply N.eqb_eq in E10. subst c. cbn [app string_body]. eqb_known.
    unfold unescape. eqb_known. rewrite E. destruct x. reflexivity. }
  destruct (c =? 12) eqn:E12.
  { apply N.eqb_eq in E12. subst c. cbn [app string_body]. eqb_known.
    unfold unescape. eqb_known. rewrite E. destruct x. reflexivity. }
  destruct (c =? 13) eqn:E13.
  { apply N.eqb_eq in E13. subst c. cbn [app string_body]. eqb_known.
    unfold unescape. eqb_known. rewrite E. destruct x. reflexivity. }
  destruct (c =? dq) eqn:Eq.
  { apply N.eqb_eq in Eq. subst c. cbn [app string_body]. eqb_known.
    unfold unescape. eqb_known. rewrite E. destruct x. reflexivity. }
  destruct (c =? ch "\") eqn:Eb.
  { apply N.eqb_eq in Eb. subst c. cbn [app string_body]. eqb_known.
    unfold unescape. eqb_known. rewrite E. destruct x. reflexivity. }
  destruct (c <? 32) eqn:Ec.
  { apply string_body_escape; [|exact E]. apply N.ltb_lt in Ec. lia. }
  cbn [app]. apply string_body_plain; [| | |exact E].
  - apply N.eqb_neq. exact Eq.
  - apply N.eqb_neq. exact Eb.
  - apply N.ltb_ge. exact Ec.
Qed.

Lemma string_body_quote_len (n : nat) :
  forall s rest, (length s <= n)%nat ->
  string_body (quote_units s ++ dq :: rest) = Some (s, rest).
Proof.
  induction n as [|n IH]; intros s rest L.
  - destruct s; [|cbn in L; lia]. cbn [quote_units app string_body].
    eqb_known. reflexivity.
  - destruct s as [|c s].
    { cbn [quote_units app string_body]. eqb_known. reflexivity. }
    cbn [length] in L. cbn [quote_units].
    destruct (is_high_surrogate c) eqn:Hh.
    + assert (Hc : c < 65536) by surrogates.
      destruct s as [|d s].
      * rewrite <- (app_nil_r (unicode_escape c)), <- app_assoc.
        apply (string_body_escape c _ ([], rest) Hc).
        cbn [app string_body]. eqb_known. reflexivity.
      * destruct (is_low_surrogate d) eqn:Hl.
        -- cbn [app].
           apply (string_body_plain c _ (d :: s, rest)); [surrogates..|].
           apply (string_body_plain d _ (s, rest)); [surrogates..|].
           apply IH. cbn [length] in L. lia.
        -- rewrite <- app_assoc.
           apply (string_body_escape c _ (d :: s, rest) Hc).
           apply IH. lia.
    + destruct (is_low_surrogate c) eqn:Hl.
      * rewrite <- app_assoc.
        apply (string_body_escape c _ (s, rest)); [surrogates|].
        apply IH. lia.
      * rewrite <- app_assoc.
        apply (string_body_quote_unit c _ (s, rest) Hh Hl).
        apply IH. lia.
Qed.

(** Reading a quoted string after its opening quote gives the string
    back. *)
Lemma string_body_quote (s rest : jsstring) :
  string_body (quote_units s ++ dq :: rest) = Some (s, rest).
Proof. apply (string_body_quote_len (length s)). lia. Qed.

(** ** Numbers that are read back *)

Lemma b64_eqb_eq (x y : spec_float) : b64_eqb x y = true -> x = y.
Proof.
  destruct x as [a|a| |a m e], y as [b|b| |b m' e']; cbn [b64_eqb];
    try discriminate; try reflexivity.
  - intros H. apply Bool.eqb_prop in H. congruence.
  - intros H. apply Bool.eqb_prop in H. congruence.
  - rewrite !andb_true_iff. intros [[H1 H2] H3].
    apply Bool.eqb_prop in H1. apply Pos.eqb_eq in H2. apply Z.eqb_eq in H3.
    congruence.
Qed.

Lemma lex_number_head (s : jsstring) (n : numeral) (r : jsstring) :
  lex_number s = Some (n, r) ->
  exists c t, s = c :: t /\ (c = ch "-" \/ is_digit c = true).
Proof.
  unfold lex_number. destruct s as [|c t].
  - cbn [lex_int]. discriminate.
  - intros H. exists c, t. split; [reflexivity|].
    destruct (c =? ch "-") eqn:E.
    + left. apply N.eqb_eq. exact E.
    + right. unfold lex_int in H.
      destruct (c =? ch "0") eqn:Z; [units|].
      destruct (is_digit c); [reflexivity|discriminate].
Qed.

(** The text of a number, followed by what cannot continue it, is read as
    the number. *)
Lemma parse_number_text (s : jsstring) (n : numeral) (m : nat)
    (rest : jsstring) :
  lex_number s = Some (n, []) -> follow_ok rest = true ->
  parse_value (S m) (s ++ rest) = Some (JNum (numeral_value n), rest).
Proof.
  intros L F.
  destruct (lex_number_head _ _ _ L) as (c & t & -> & Hc).
  apply lex_number_local in L as (pre & E & _ & Lx).
  rewrite app_nil_r in E. subst pre. specialize (Lx rest F).
  cbn [app parse_value] in *.
  assert (Hn : (c =? ch "{") = false /\ (c =? ch "[") = false
               /\ (c =? dq) = false /\ (c =? ch "t") = false
               /\ (c =? ch "f") = false /\ (c =? ch "n") = false).
  { destruct Hc as [->|Hc]; [repeat split; reflexivity|].
    repeat split; units. }
  destruct Hn as (H1 & H2 & H3 & H4 & H5 & H6).
  rewrite H1, H2. unfold parse_scalar. rewrite H3, H4, H5, H6, Lx.
  reflexivity.
Qed.

Lemma number_stable_reads (x : spec_float) (m : nat) (rest : jsstring) :
  number_stable x = true -> follow_ok rest = true ->
  parse_value (S m) (number_to_string x ++ rest) = Some (JNum x, rest)
  /\ is_finite x = true
  /\ exists c t, number_to_string x = c :: t /\ value_start c.
Proof.
  unfold number_stable. intros H F.
  apply andb_true_iff in H as [Hf H].
  destruct (lex_number (number_to_string x)) as [[n [|? ?]]|] eqn:L;
    try discriminate.
  apply b64_eqb_eq in H. split; [|split; [exact Hf|]].
  - rewrite (parse_number_text _ _ m rest L F), H. reflexivity.
  - destruct (lex_number_head _ _ _ L) as (c & t & E & Hc).
    exists c, t. split; [exact E|]. unfold value_start.
    destruct Hc as [->|Hc]; [repeat split; discriminate|].
    repeat split; units.
Qed.

(** ** What [serialize] writes *)

Lemma serialize_arr (ind : jsstring) (x : value) (l : list value) :
  serialize ind (JArr (x :: l))
  = ch "[" :: LF :: (ind ++ js "  ")
    ++ join (ch "," :: LF :: ind ++ js "  ")
            (map (serialize (ind ++ js "  ")) (x :: l))
    ++ LF :: ind ++ [ch "]"].
Proof. reflexivity. Qed.

Lemma serialize_obj (ind : jsstring) (kv : jsstring * value) (m : object) :
  serialize ind (JObj (kv :: m))
  = ch "{" :: LF :: (ind ++ js "  ")
    ++ join (ch "," :: LF :: ind ++ js "  ")
            (map (member_text (ind ++ js "  ")) (kv :: m))
    ++ LF :: ind ++ [ch "}"].
Proof. reflexivity. Qed.

Lemma join_cons2 (sep a b : jsstring) (l : list jsstring) :
  join sep (a :: b :: l) = a ++ sep ++ join sep (b :: l).
Proof. reflexivity. Qed.

Lemma value_start_dq : value_start dq.
Proof. repeat split; discriminate. Qed.

Lemma serialize_head (ind : jsstring) (v : value) :
  stable v = true ->
  exists c t, serialize ind v = c :: t /\ value_start c.
Proof.
  destruct v as [|[|]|x|s|[|y l]|[|kv m]]; intros S.
  - exists (ch "n"), (js "ull"). split; [reflexivity|].
    repeat split; discriminate.
  - exists (ch "t"), (js "rue"). split; [reflexivity|].
    repeat split; discriminate.
  - exists (ch "f"), (js "alse"). split; [reflexivity|].
    repeat split; discriminate.
  - cbn [stable] in S.
    destruct (number_stable_reads x O [] S eq_refl) as (_ & Hf & c & t & E & Hc).
    exists c, t. cbn [serialize]. rewrite Hf. auto.
  - exists dq, (quote_units s ++ [dq]). split; [reflexivity|].
    exact value_start_dq.
  - exists (ch "["), [ch "]"]. split; [reflexivity|].
    repeat split; discriminate.
  - rewrite serialize_arr. eexists _, _. split; [reflexivity|].
    repeat split; discriminate.
  - exists (ch "{"), [ch "}"]. split; [reflexivity|].
    repeat split; discriminate.
  - rewrite serialize_obj. eexists _, _. split; [reflexivity|].
    repeat split; discriminate.
Qed.

Lemma json_space_inner (ind : jsstring) :
  json_space ind -> json_space (ind ++ js "  ").
Proof.
  intros F. apply Forall_app. split; [exact F|].
  repeat constructor.
Qed.

Lemma json_space_line (ws : jsstring) : json_space ws -> json_space (LF :: ws).
Proof. intros F. constructor; [reflexivity|exact F]. Qed.

(** ** Reading back what was written *)

Lemma skip_ws_line (ws : jsstring) (c : N) (t : jsstring) :
  json_space ws -> is_json_ws c = false ->
  skip_ws (LF :: ws ++ c :: t) = c :: t.
Proof.
  intros F C. apply (skip_ws_over (LF :: ws) c t (json_space_line _ F) C).
Qed.

Lemma join_length (sep : jsstring) (a : jsstring) (l : list jsstring) :
  (length a <= length (join sep (a :: l)))%nat.
Proof.
  destruct l as [|b l]; [cbn; lia|]. rewrite join_cons2. list_len.
Qed.

(** The elements of an array, as written, are read back. *)
Lemma elements_read_back (inner ind : jsstring) :
  json_space inner -> json_space ind ->
  forall l, l <> [] ->
    Forall (fun v => reads_back v /\ stable v = true) l ->
    forall m rest,
      (2 * length (join (ch "," :: LF :: inner)
                        (map (serialize inner) l)) + 2 <= m)%nat ->
      parse_elements m
        (join (ch "," :: LF :: inner) (map (serialize inner) l)
         ++ LF :: ind ++ ch "]" :: rest)
      = Some (l, rest).
Proof.
  intros Fi Fd. induction l as [|v l IH]; intros Nl F m rest Lm;
    [congruence|].
  inversion F as [|? ? [Rv Sv] F']; subst.
  destruct m as [|m]; [lia|]. cbn [parse_elements].
  destruct l as [|v2 l].
  - cbn [map join] in *.
    rewrite (Rv inner m (LF :: ind ++ ch "]" :: rest) Fi eq_refl); [|lia].
    rewrite skip_ws_line; [|exact Fd|reflexivity].
    eqb_known. reflexivity.
  - cbn [map] in *. rewrite join_cons2 in *.
    rewrite <- !app_assoc.
    match goal with
    | |- context [parse_value m (serialize inner v ++ ?x)] =>
        rewrite (Rv inner m x Fi eq_refl); [|list_len]
    end.
    cbn [app]. rewrite skip_ws_stop by reflexivity.
    eqb_known.
    destruct (serialize_head inner v2) as (c & t & E & Hc).
    { inversion F' as [|? ? [_ S2] _]. exact S2. }
    assert (J : exists t', join (ch "," :: LF :: inner)
                             (serialize inner v2 :: map (serialize inner) l)
                           = c :: t').
    { destruct l as [|v3 l]; cbn [map].
      - cbn [join]. eauto.
      - rewrite join_cons2, E. cbn [app]. eauto. }
    destruct J as [t' J].
    specialize (IH ltac:(discriminate) F' m rest).
    cbn [map] in IH. rewrite J in *. cbn [app] in IH.
    cbn [app]. rewrite skip_ws_line; [|exact Fi|apply Hc].
    rewrite IH; [reflexivity|list_len].
Qed.

Lemma member_text_eq (inner k : jsstring) (x : value) :
  member_text inner (k, x)
  = dq :: quote_units k ++ dq :: ch ":" :: 32 :: serialize inner x.
Proof.
  unfold member_text, quote_json. cbn [app]. rewrite <- app_assoc.
  reflexivity.
Qed.

Lemma skip_ws_before_value (ws inner tail : jsstring) (v : value) :
  json_space ws -> stable v = true ->
  skip_ws (ws ++ serialize inner v ++ tail) = serialize inner v ++ tail.
Proof.
  intros F S. destruct (serialize_head inner v S) as (c & t & E & Hc).
  rewrite E. cbn [app]. apply skip_ws_over; [exact F|apply Hc].
Qed.

Lemma join_members_head (inner : jsstring) (kv : jsstring * value)
    (l : list (jsstring * value)) :
  exists t, join (ch "," :: LF :: inner) (map (member_text inner) (kv :: l))
            = dq :: t.
Proof.
  destruct kv as [k v]. cbn [map].
  destruct l as [|kv2 l]; cbn [map].
  - cbn [join]. rewrite member_text_eq. eauto.
  - rewrite join_cons2, member_text_eq. cbn [app]. eauto.
Qed.

Lemma join_cons_map {A : Type} (f : A -> jsstring) (sep a : jsstring) (b : A)
    (l : list A) :
  join sep (a :: map f (b :: l)) = a ++ sep ++ join sep (map f (b :: l)).
Proof. reflexivity. Qed.

(** The members of an object, as written, are read back. *)
Lemma members_read_back (inner ind : jsstring) :
  json_space inner -> json_space ind ->
  forall l, l <> [] ->
    Forall (fun kv => reads_back (snd kv) /\ stable (snd kv) = true) l ->
    forall m rest,
      (2 * length (join (ch "," :: LF :: inner)
                        (map (member_text inner) l)) + 2 <= m)%nat ->
      parse_members m
        (join (ch "," :: LF :: inner) (map (member_text inner) l)
         ++ LF :: ind ++ ch "}" :: rest)
      = Some (l, rest).
Proof.
  intros Fi Fd. induction l as [|[k v] l IH]; intros Nl F m rest Lm;
    [congruence|].
  inversion F as [|? ? [Rv Sv] F']; subst. cbn [snd] in Rv, Sv.
  destruct m as [|m]; [lia|].
  assert (Sp : json_space [32]) by (repeat constructor).
  destruct l as [|kv2 l].
  - cbn [map join] in *. rewrite member_text_eq in *.
    app_norm. cbn [parse_members].
    eqb_known. rewrite string_body_quote.
    rewrite skip_ws_stop by reflexivity. eqb_known.
    rewrite (skip_ws_before_value [32] inner _ v Sp Sv
             : skip_ws (32 :: serialize inner v ++ _) = _).
    rewrite (Rv inner m (LF :: ind ++ ch "}" :: rest) Fi eq_refl);
      [|list_len].
    rewrite skip_ws_line; [|exact Fd|reflexivity].
    eqb_known. reflexivity.
  - rewrite (map_cons (member_text inner) (k, v) (kv2 :: l)) in Lm |- *.
    rewrite join_cons_map in Lm |- *.
    rewrite member_text_eq in Lm |- *.
    destruct (join_members_head inner kv2 l) as [t J].
    specialize (IH ltac:(discriminate) F' m rest).
    rewrite J in IH, Lm |- *.
    app_norm. cbn [parse_members].
    eqb_known. rewrite string_body_quote.
    rewrite skip_ws_stop by reflexivity. eqb_known.
    match goal with
    | |- context [skip_ws (32 :: serialize inner v ++ ?x)] =>
        rewrite (skip_ws_before_value [32] inner x v Sp Sv
                 : skip_ws (32 :: serialize inner v ++ x) = _);
        rewrite (Rv inner m x Fi eq_refl); [|list_len]
    end.
    rewrite skip_ws_stop by reflexivity. eqb_known.
    rewrite skip_ws_line; [|exact Fi|reflexivity].
    cbn [app] in IH. rewrite IH; [reflexivity|list_len].
Qed.

Lemma join_elements_head (inner : jsstring) (v : value) (l : list value) :
  stable v = true ->
  exists c t, join (ch "," :: LF :: inner) (map (serialize inner) (v :: l))
              = c :: t /\ value_start c.
Proof.
  intros S. destruct (serialize_head inner v S) as (c & t & E & Hc).
  destruct l as [|v2 l]; cbn [map].
  - cbn [join]. eauto.
  - rewrite join_cons2, E. cbn [app]. eauto.
Qed.

Lemma forallb_Forall_and {A : Type} (P : A -> Prop) (f : A -> bool)
    (l : list A) :
  Forall P l -> forallb f l = true -> Forall (fun x => P x /\ f x = true) l.
Proof.
  induction 1 as [|x l H F IH]; cbn [forallb]; [constructor|].
  intros E. apply andb_true_iff in E as [E1 E2]. constructor; auto.
Qed.

(** What [serialize] writes for a value built by the parser, whose numbers
    are written so that they are read back, is read back as the value. *)
Lemma serialize_reads_back (v : value) :
  wf v -> stable v = true -> reads_back v.
Proof.
  induction v as [|b|x|s|l IH|o IH] using value_ind;
    intros W S ind m rest Fi Fr Lm.
  - destruct m as [|m]; [cbn in Lm; lia|]. reflexivity.
  - destruct m as [|m]; [destruct b; cbn in Lm; lia|].
    destruct b; reflexivity.
  - cbn [stable] in S. cbn [serialize] in *.
    destruct (number_stable_reads x (pred m) rest S Fr) as (P & Hf & c & t & E & _).
    rewrite Hf in *. rewrite E in Lm.
    destruct m as [|m]; [cbn in Lm; lia|]. exact P.
  - destruct m as [|m]; [cbn in Lm; lia|].
    cbn [serialize]. unfold quote_json. app_norm. cbn [parse_value].
    eqb_known. unfold parse_scalar. eqb_known.
    rewrite string_body_quote. reflexivity.
  - inversion W as [| | | |l' Wl|]; subst.
    cbn [stable] in S.
    destruct l as [|x l].
    { destruct m as [|m]; [cbn in Lm; lia|]. reflexivity. }
    assert (F : Forall (fun v => reads_back v /\ stable v = true) (x :: l)).
    { apply forallb_Forall_and; [|exact S].
      rewrite Forall_forall in *. intros y Hy.
      apply forallb_forall with (x := y) in S; [|exact Hy].
      apply IH; auto. }
    rewrite serialize_arr in *.
    destruct (join_elements_head (ind ++ js "  ") x l) as (c & t & J & Hc).
    { inversion F as [|? ? [_ Sx] _]. exact Sx. }
    pose proof (elements_read_back (ind ++ js "  ") ind
                  (json_space_inner _ Fi) Fi (x :: l) ltac:(discriminate) F)
      as E.
    destruct m as [|m]; [cbn in Lm; lia|].
    specialize (E m rest). rewrite J in *.
    pose proof (json_space_inner _ Fi) as Fn.
    set (inner := ind ++ js "  ") in *.
    app_norm. cbn [app parse_value]. eqb_known.
    rewrite (skip_ws_line _ c _ Fn (proj1 Hc)).
    destruct Hc as (_ & Hc & _). apply N.eqb_neq in Hc. rewrite Hc.
    cbn [app] in E. rewrite E; [reflexivity|list_len].
  - inversion W as [| | | | |o' Oo Wo]; subst.
    cbn [stable] in S.
    destruct o as [|kv o].
    { destruct m as [|m]; [cbn in Lm; lia|]. reflexivity. }
    assert (F : Forall (fun kv => reads_back (snd kv)
                                  /\ stable (snd kv) = true) (kv :: o)).
    { rewrite Forall_forall in *. intros y Hy.
      apply forallb_forall with (x := y) in S; [|exact Hy].
      destruct y as [ky vy]. cbn [snd]. split; [|exact S].
      apply (IH _ Hy); [apply (Wo _ Hy)|exact S]. }
    rewrite serialize_obj in *.
    destruct (join_members_head (ind ++ js "  ") kv o) as (t & J).
    pose proof (members_read_back (ind ++ js "  ") ind
                  (json_space_inner _ Fi) Fi (kv :: o) ltac:(discriminate) F)
      as E.
    destruct m as [|m]; [cbn in Lm; lia|].
    specialize (E m rest). rewrite J in *.
    pose proof (json_space_inner _ Fi) as Fn.
    set (inner := ind ++ js "  ") in *.
    app_norm. cbn [app parse_value]. eqb_known.
    rewrite (skip_ws_line _ dq _ Fn eq_refl).
    eqb_known.
    cbn [app] in E. rewrite E; [|list_len].
    rewrite (obj_of_entries_ordered _ Oo). reflexivity.
Qed.

(** [JSON.parse] of [JSON.stringify] of such a value is the value. *)
Lemma JSON_parse_stringify (v : value) :
  wf v -> stable v = true -> JSON_parse (json_text v) = Ok v.
Proof.
  intros W S. unfold JSON_parse, json_text.
  destruct (serialize_head [] v S) as (c & t & E & Hc).
  pose proof (serialize_reads_back v W S []
                (2 * length (serialize [] v) + 1)%nat
                [] (Forall_nil _) eq_refl ltac:(lia)) as R.
  rewrite app_nil_r in R. rewrite E in *.
  rewrite (skip_ws_stop c t (proj1 Hc)), R. reflexivity.
Qed.

(** ** Decimal numerals *)

Lemma digits_value_acc (d : Decimal.uint) (acc : positive) :
  fold_left (fun a c => 10 * a + (c - 48)) (uint_units d) (Npos acc)
  = Npos (Pos.of_uint_acc d acc).
Proof.
  revert acc. induction d; intros acc; cbn [uint_units fold_left Pos.of_uint_acc];
    try reflexivity;
    match goal with
    | |- fold_left _ _ ?x = _ =>
        match goal with
        | |- _ = N.pos (Pos.of_uint_acc _ ?y) =>
            replace x with (N.pos y) by lia
        end
    end; apply IHd.
Qed.

Lemma digits_value_uint (d : Decimal.uint) :
  digits_value (uint_units d) = Pos.of_uint d.
Proof.
  unfold digits_value.
  induction d; cbn [uint_units fold_left Pos.of_uint]; try reflexivity;
    try exact IHd;
    match goal with
    | |- fold_left _ _ ?x = N.pos (Pos.of_uint_acc _ ?y) =>
        change x with (N.pos y); apply digits_value_acc
    end.
Qed.

Lemma digits_value_dec (n : N) : digits_value (dec_units n) = n.
Proof.
  unfold dec_units. rewrite digits_value_uint.
  apply (DecimalN.Unsigned.of_to n).
Qed.

Lemma uint_units_digits (d : Decimal.uint) :
  forallb is_digit (uint_units d) = true.
Proof. induction d; cbn [uint_units forallb]; auto. Qed.

Lemma dec_units_inj (i j : N) : dec_units i = dec_units j -> i = j.
Proof.
  intros E. rewrite <- (digits_value_dec i), <- (digits_value_dec j), E.
  reflexivity.
Qed.

Lemma array_index_dec (n : N) :
  array_index (dec_units n) = if n <? 4294967295 then Some n else None.
Proof.
  unfold array_index.
  destruct (dec_units n) as [|c t] eqn:E.
  - exfalso. pose proof (digits_value_dec n) as D. rewrite E in D.
    cbn in D. subst n. discriminate E.
  - rewrite <- E. unfold dec_units at 1. rewrite uint_units_digits.
    rewrite digits_value_dec, str_eqb_refl. reflexivity.
Qed.

Lemma key_before_dec (i j : N) :
  i <= j -> key_before (dec_units j) (dec_units i) = false.
Proof.
  intros L. unfold key_before. rewrite !array_index_dec.
  destruct (j <? 4294967295) eqn:Ej; [|reflexivity].
  destruct (i <? 4294967295) eqn:Ei.
  - apply N.ltb_ge. exact L.
  - apply N.ltb_lt in Ej. apply N.ltb_ge in Ei. lia.
Qed.

Lemma index_entries_keys (l : list value) (i : N) :
  Forall (fun kv => exists j, i <= j /\ fst kv = dec_units j)
         (index_entries i l).
Proof.
  revert i. induction l as [|v l IH]; intros i; cbn [index_entries].
  - constructor.
  - constructor.
    + exists i. split; [lia|reflexivity].
    + eapply Forall_impl; [|apply (IH (i + 1))].
      intros kv (j & L & E). exists j. split; [lia|exact E].
Qed.

(** The elements of an array under their indices are in enumeration
    order. *)
Lemma index_entries_ordered (l : list value) (i : N) :
  ordered (index_entries i l).
Proof.
  revert i. induction l as [|v l IH]; intros i; cbn [index_entries ordered].
  - exact I.
  - split; [|apply IH].
    eapply Forall_impl; [|apply (index_entries_keys l (i + 1))].
    intros kv (j & L & E). rewrite E. split.
    + apply str_eqb_neq. intros H. apply dec_units_inj in H. lia.
    + apply key_before_dec. lia.
Qed.

Lemma index_entries_values (P : value -> Prop) (l : list value) (i : N) :
  Forall P l -> Forall (fun kv => P (snd kv)) (index_entries i l).
Proof.
  intros F. revert i. induction F as [|v l H F IH]; intros i;
    cbn [index_entries]; constructor; auto.
Qed.

(** ** The own properties of a parsed value *)

Lemma own_entries_ordered (v : value) : wf v -> ordered (own_entries v).
Proof.
  intros W. destruct v; cbn [own_entries]; try exact I.
  - apply index_entries_ordered.
  - inversion W. assumption.
Qed.

Lemma own_entries_wf (v : value) :
  wf v -> Forall (fun kv => wf (snd kv)) (own_entries v).
Proof.
  intros W. destruct v; cbn [own_entries]; try constructor.
  - inversion W. apply index_entries_values. assumption.
  - inversion W. assumption.
Qed.

Lemma own_entries_stable (v : value) :
  stable v = true ->
  Forall (fun kv => stable (snd kv) = true) (own_entries v).
Proof.
  intros S. destruct v; cbn [own_entries stable] in *; try constructor.
  - apply (index_entries_values (fun x => stable x = true)).
    apply Forall_forall. intros x Hx.
    apply forallb_forall with (x := x) in S; assumption.
  - apply Forall_forall. intros [k x] Hx.
    apply forallb_forall with (x := (k, x)) in S; assumption.
Qed.

Lemma obj_get_In (o : object) (k : jsstring) (v : value) :
  obj_get o k = Some v -> exists k', In (k', v) o.
Proof.
  induction o as [|[k' v'] o IH]; cbn [obj_get]; [discriminate|].
  destruct (str_eqb k k').
  - intros H. injection H as ->. exists k'. left. reflexivity.
  - intros H. destruct (IH H) as [k0 I]. exists k0. right. exact I.
Qed.

Lemma get_prop_holds (P : value -> Prop) (parsed : value) (k : jsstring)
    (v : value) :
  Forall (fun kv => P (snd kv)) (own_entries parsed) ->
  get_prop parsed k = Some v -> P v.
Proof.
  intros F G. apply obj_get_In in G as [k' I].
  rewrite Forall_forall in F. apply (F _ I).
Qed.

(** ** The completed object *)

Lemma or_else_holds (P : value -> Prop) (a : option value) (d : value) :
  (forall v, a = Some v -> P v) -> P d -> P (or_else a d).
Proof.
  intros Ha Hd. unfold or_else. destruct a as [v|]; [|exact Hd].
  destruct (truthy v); [apply Ha; reflexivity|exact Hd].
Qed.

Lemma task_defaults_ordered (parsed : value) : ordered (task_defaults parsed).
Proof.
  unfold task_defaults. cbn [ordered].
  repeat split; repeat constructor.
Qed.

Lemma task_defaults_values (P : value -> Prop) (parsed : value) :
  Forall (fun kv => P (snd kv)) (own_entries parsed) ->
  (forall s, P (JStr s)) -> P (JArr []) ->
  Forall (fun kv => P (snd kv)) (task_defaults parsed).
Proof.
  intros F Hs Ha. unfold task_defaults.
  repeat constructor; cbn [snd];
    try (apply or_else_holds; [intros v G; apply (get_prop_holds P _ _ _ F G)
                              |apply Hs]).
  destruct (get_prop parsed (js "dependencies")) as [v|] eqn:G; [|exact Ha].
  destruct v; try exact Ha. apply (get_prop_holds P _ _ _ F G).
Qed.

Lemma complete_object_ordered (parsed : value) :
  ordered (complete_object parsed).
Proof.
  unfold complete_object, spread.
  match goal with |- context [if ?b then _ else _] => destruct b end.
  - apply obj_set_ordered. apply fold_obj_set_ordered_acc.
    apply task_defaults_ordered.
  - apply fold_obj_set_ordered_acc. apply task_defaults_ordered.
Qed.

Lemma complete_object_values (P : value -> Prop) (parsed : value) :
  Forall (fun kv => P (snd kv)) (own_entries parsed) ->
  (forall s, P (JStr s)) -> P (JArr []) ->
  Forall (fun kv => P (snd kv)) (complete_object parsed).
Proof.
  intros F Hs Ha.
  assert (S : Forall (fun kv => P (snd kv))
                     (spread (task_defaults parsed) parsed)).
  { unfold spread. apply fold_obj_set_values; [|exact F].
    apply task_defaults_values; assumption. }
  unfold complete_object.
  match goal with |- context [if ?b then _ else _] => destruct b end.
  - apply obj_set_values; assumption.
  - exact S.
Qed.

Lemma complete_object_wf (parsed : value) :
  wf parsed -> wf (JObj (complete_object parsed)).
Proof.
  intros W. constructor.
  - apply complete_object_ordered.
  - apply complete_object_values.
    + apply own_entries_wf. exact W.
    + intros s. constructor.
    + constructor. constructor.
Qed.

Lemma complete_object_stable (parsed : value) :
  stable parsed = true -> stable (JObj (complete_object parsed)) = true.
Proof.
  intros S. cbn [stable]. apply forallb_forall. intros [k x] I.
  pose proof (complete_object_values (fun x => stable x = true) parsed
                (own_entries_stable parsed S) (fun s => eq_refl) eq_refl) as F.
  rewrite Forall_forall in F. apply (F _ I).
Qed.

(** ** The members of the completed object *)

Lemma spread_get (a : object) (parsed : value) (k : jsstring) :
  wf parsed ->
  obj_get (spread a parsed) k
  = match get_prop parsed k with
    | Some v => Some v
    | None => obj_get a k
    end.
Proof.
  intros W. unfold spread, get_prop. apply obj_get_spread.
  apply own_entries_ordered. exact W.
Qed.

Lemma task_defaults_get (parsed : value) (k : jsstring) :
  k <> js "dependencies" -> get_prop parsed k = None ->
  obj_get (task_defaults parsed) k = obj_get default_fields k.
Proof.
  intros N G. unfold task_defaults, default_fields. cbn [obj_get].
  destruct (str_eqb k (js "title")) eqn:E1.
  { apply str_eqb_eq in E1. subst k. rewrite G. reflexivity. }
  destruct (str_eqb k (js "description")) eqn:E2.
  { apply str_eqb_eq in E2. subst k. rewrite G. reflexivity. }
  destruct (str_eqb k (js "details")) eqn:E3.
  { apply str_eqb_eq in E3. subst k. rewrite G. reflexivity. }
  destruct (str_eqb k (js "testStrategy")) eqn:E4.
  { apply str_eqb_eq in E4. subst k. rewrite G. reflexivity. }
  destruct (str_eqb k (js "dependencies")) eqn:E5; [|reflexivity].
  apply str_eqb_eq in E5. contradiction.
Qed.

Lemma task_defaults_dependencies (parsed : value) :
  obj_get (task_defaults parsed) (js "dependencies")
  = Some match get_prop parsed (js "dependencies") with
         | Some (JArr l) => JArr l
         | _ => JArr []
         end.
Proof. reflexivity. Qed.

Lemma complete_object_get (parsed : value) (k : jsstring) :
  wf parsed -> k <> js "dependencies" ->
  obj_get (complete_object parsed) k
  = match get_prop parsed k with
    | Some v => Some v
    | None => obj_get default_fields k
    end.
Proof.
  intros W N.
  assert (S : obj_get (spread (task_defaults parsed) parsed) k
              = match get_prop parsed k with
                | Some v => Some v
                | None => obj_get default_fields k
                end).
  { rewrite spread_get by exact W.
    destruct (get_prop parsed k) eqn:G; [reflexivity|].
    apply task_defaults_get; assumption. }
  unfold complete_object.
  match goal with |- context [if ?b then _ else _] => destruct b end.
  - rewrite obj_get_set_other; [exact S|]. apply str_eqb_neq. exact N.
  - exact S.
Qed.

Lemma complete_object_dependencies (parsed : value) :
  wf parsed ->
  obj_get (complete_object parsed) (js "dependencies")
  = Some match get_prop parsed (js "dependencies") with
         | Some (JArr l) => JArr l
         | _ => JArr []
         end.
Proof.
  intros W. unfold complete_object.
  rewrite spread_get by exact W. rewrite task_defaults_dependencies.
  destruct (get_prop parsed (js "dependencies")) as [v|] eqn:G.
  - destruct v; cbn [isArray negb]; try apply obj_get_set_same.
    rewrite spread_get by exact W. rewrite G. reflexivity.
  - cbn [isArray negb]. rewrite spread_get by exact W.
    rewrite G, task_defaults_dependencies, G. reflexivity.
Qed.

(** ** The nesting of the completed object *)





Lemma JSON_stringify_fits (room : nat) (v : value) :
  (depth v <= 2 + room)%nat -> JSON_stringify room v = Ok (json_text v).
Proof.
  intros H. unfold JSON_stringify.
  destruct (Nat.leb_spec (depth v) (2 + room)); [reflexivity|lia].
Qed.

Lemma JSON_stringify_deep (room : nat) (v : value) :
  (2 + room < depth v)%nat -> JSON_stringify room v = Throw RangeError.
Proof.
  intros H. unfold JSON_stringify.
  destruct (Nat.leb_spec (depth v) (2 + room)); [lia|reflexivity].
Qed.

(** What [completeTaskJson] returns for a text that parses to an object or
    an array: the text of the completed object when the serialiser prints
    it, and the error-recovery task when it does not. *)
Lemma completeTaskJson_outcome (room : nat) (text : jsstring)
    (parsed : value) :
  JSON_parse text = Ok parsed -> structured parsed = true ->
  ((depth (JObj (complete_object parsed)) <= 2 + room)%nat
   /\ completeTaskJson room text
      = Ok (json_text (JObj (complete_object parsed))))
  \/ ((2 + room < depth (JObj (complete_object parsed)))%nat
      /\ completeTaskJson room text = Ok (json_text error_recovery_task)).
Proof.
  intros P S. unfold completeTaskJson. rewrite P.
  assert (E : (if negb (typeof_object parsed) || is_null parsed
               then JObj [] else parsed) = parsed)
    by (destruct parsed; try discriminate S; reflexivity).
  cbn [bind]. rewrite E.
  destruct (Nat.le_gt_cases (depth (JObj (complete_object parsed)))
                            (2 + room)) as [H|H].
  - left. split; [exact H|]. rewrite (JSON_stringify_fits _ _ H).
    reflexivity.
  - right. split; [exact H|]. rewrite (JSON_stringify_deep _ _ H).
    reflexivity.
Qed.


(* ------------------------------------------------------------------ *)
(** ** The fields kept by completeTaskJson *)




(* ================================================================== *)
(** * Further properties *)

(* ------------------------------------------------------------------ *)
(** ** Deleting matches around a protected span *)

Lemma matches_units r w cs : matches r w cs -> Forall (pattern_units r) w.
Proof.
  induction 1; cbn [pattern_units]; auto.
  - apply Forall_app. split.
    + eapply Forall_impl; [|exact IHmatches1]. cbn beta. auto.
    + eapply Forall_impl; [|exact IHmatches2]. cbn beta. auto.
  - eapply Forall_impl; [|exact IHmatches]. cbn beta. auto.
  - eapply Forall_impl; [|exact IHmatches]. cbn beta. auto.
Qed.

(** A word without [o] that starts a text is within what precedes the
    first [o]. *)
Lemma prefix_before_unit (o : N) (m r pre y : jsstring) :
  m ++ r = pre ++ o :: y ->
  Forall (fun x => x <> o) m ->
  exists pre2, pre = m ++ pre2 /\ r = pre2 ++ o :: y.
Proof.
  revert pre. induction m as [|x m IH]; intros pre E F.
  - exists pre. auto.
  - inversion F as [|? ? Hx Fm]; subst.
    destruct pre as [|p pre]; cbn [app] in E.
    + injection E as -> _. contradiction.
    + injection E as -> E. destruct (IH pre E Fm) as (pre2 & -> & ->).
      exists pre2. auto.
Qed.

(** A word without [c] that ends a text is within what follows the
    last [c]. *)
Lemma suffix_after_unit (c : N) (before m x post : jsstring) :
  before ++ m = x ++ c :: post ->
  Forall (fun u => u <> c) m ->
  exists post1, post = post1 ++ m /\ before = x ++ c :: post1.
Proof.
  intros E F.
  apply (f_equal (@rev N)) in E.
  rewrite !rev_app_distr in E. cbn [rev] in E. rewrite <- app_assoc in E.
  cbn [app] in E.
  apply prefix_before_unit in E as (p2 & E1 & E2);
    [|apply Forall_rev; exact F].
  exists (rev p2). split.
  - rewrite <- (rev_involutive post), E1, rev_app_distr, rev_involutive.
    reflexivity.
  - rewrite <- (rev_involutive before), E2, rev_app_distr. cbn [rev].
    rewrite rev_involutive, <- app_assoc. reflexivity.
Qed.

Lemma ends_with_last (c : N) (l b1 t : jsstring) :
  l ++ [c] = b1 ++ t -> t <> [] -> exists t', t = t' ++ [c].
Proof.
  revert l. induction b1 as [|y b1 IH]; intros l E Nt.
  - exists l. auto.
  - destruct l as [|z l]; cbn [app] in E.
    + injection E as _ E. symmetry in E. apply app_eq_nil in E as [_ E].
      contradiction.
    + injection E as _ E. apply (IH l E Nt).
Qed.

(** Deleting matches keeps what holds of every unit. *)
Lemma replace_all_delete (R : N -> Prop) re :
  forall s prev k, Forall R s -> Forall R (replace_all_from re [] prev s k).
Proof.
  induction s as [|x s IH]; intros prev k F; rewrite replace_all_from_eq.
  - destruct k; [|constructor]. destruct (exec_at re prev []); constructor.
  - inversion F as [|? ? Hx Fs]; subst.
    destruct k as [|k]; [|apply IH; exact Fs].
    destruct (exec_at re prev (x :: s)) as [st|]; cbn [expand app].
    + destruct (length (x :: s) - length (m_rest st))%nat.
      * constructor; auto.
      * apply IH. exact Fs.
    + constructor; auto.
Qed.

Section Around.

Variables (P Q : N -> Prop) (o c : N) (body : jsstring).
Hypothesis P_open : forall x, P x -> x <> o.
Hypothesis Q_close : forall x, Q x -> x <> c.

(** Before the span: the matches end before [o]. *)
Lemma replace_all_before re (y : jsstring) :
  (forall x, pattern_units (re_pat re) x -> x <> o) ->
  forall pre prev k, Forall P pre -> (k <= length pre)%nat ->
  exists pre' prev',
    Forall P pre'
    /\ replace_all_from re [] prev (pre ++ o :: y) k
       = pre' ++ replace_all_from re [] prev' (o :: y) 0.
Proof.
  intros U. induction pre as [|x pre IH]; intros prev k F L.
  - cbn [length] in L. assert (k = O) by lia. subst k.
    exists [], prev. split; [constructor|reflexivity].
  - inversion F as [|? ? Hx Fp]; subst. cbn [length] in L.
    rewrite replace_all_from_eq. cbn [app].
    destruct k as [|k].
    + destruct (exec_at re prev (x :: pre ++ o :: y)) as [st|] eqn:E.
      * cbn [expand app].
        pose proof (exec_at_span _ _ _ _ E) as [Es M]. cbn zeta in Es, M.
        apply matches_units in M.
        set (n := (length (x :: pre ++ o :: y) - length (m_rest st))%nat)
          in *.
        assert (Fm : Forall (fun u => u <> o)
                       (firstn n (x :: pre ++ o :: y))).
        { eapply Forall_impl; [|exact M]. exact U. }
        change (x :: pre ++ o :: y) with ((x :: pre) ++ o :: y) in Es at 1.
        symmetry in Es.
        destruct (prefix_before_unit _ _ _ _ _ Es Fm) as (p2 & Ep & _).
        assert (Ln : (n <= S (length pre))%nat).
        { apply (f_equal (@length N)) in Ep. rewrite length_app in Ep.
          cbn [length] in Ep.
          assert (length (firstn n (x :: pre ++ o :: y)) = n).
          { apply firstn_length_le. subst n. lia. }
          lia. }
        destruct n as [|n].
        -- destruct (IH (Some x) O Fp ltac:(lia)) as (p' & v' & Fp' & Ep').
           exists (x :: p'), v'. split; [constructor; auto|].
           rewrite Ep'. reflexivity.
        -- destruct (IH (Some x) n Fp ltac:(lia)) as (p' & v' & Fp' & Ep').
           exists p', v'. split; [exact Fp'|exact Ep'].
      * destruct (IH (Some x) O Fp ltac:(lia)) as (p' & v' & Fp' & Ep').
        exists (x :: p'), v'. split; [constructor; auto|].
        rewrite Ep'. reflexivity.
    + destruct (IH (Some x) k Fp ltac:(lia)) as (p' & v' & Fp' & Ep').
      exists p', v'. split; [exact Fp'|exact Ep'].
Qed.

(** In the span: no match starts there. *)
Lemma replace_all_inside re (post : jsstring) :
  forall b prev,
    (forall b1 x b2 v, b = b1 ++ x :: b2 ->
                       exec_at re v (x :: b2 ++ post) = None) ->
    exists prev',
      replace_all_from re [] prev (b ++ post) 0
      = b ++ replace_all_from re [] prev' post 0.
Proof.
  induction b as [|x b IH]; intros prev H.
  - exists prev. reflexivity.
  - rewrite replace_all_from_eq. cbn [app].
    rewrite (H [] x b prev eq_refl).
    destruct (IH (Some x)) as (v' & E).
    { intros b1 x0 b2 v Eb. apply (H (x :: b1) x0 b2 v). rewrite Eb.
      reflexivity. }
    exists v'. rewrite E. reflexivity.
Qed.

Lemma replace_all_framed re :
  re_global re = true ->
  (forall x, pattern_units (re_pat re) x -> x <> o) ->
  (forall b1 x b2 post v,
     o :: body ++ [c] = b1 ++ x :: b2 ->
     exec_at re v (x :: b2 ++ post) = None) ->
  forall s, framed P Q (o :: body ++ [c]) s ->
            framed P Q (o :: body ++ [c]) (replace s re []).
Proof.
  intros G U In s (pre & post & -> & Fp & Fq).
  unfold replace. rewrite G.
  cbn [app].
  destruct (replace_all_before re ((body ++ [c]) ++ post) U pre None O Fp
              ltac:(lia)) as (pre' & v1 & Fp' & E1).
  rewrite E1.
  change (o :: (body ++ [c]) ++ post) with ((o :: body ++ [c]) ++ post).
  destruct (replace_all_inside re post (o :: body ++ [c]) v1) as (v2 & E2).
  { intros b1 x b2 v Eb. apply (In b1 x b2 post v Eb). }
  rewrite E2.
  exists pre', (replace_all_from re [] v2 post 0).
  split; [reflexivity|]. split; [exact Fp'|].
  apply replace_all_delete. exact Fq.
Qed.

End Around.

(** ** The steps of [strip_wrapping] around a protected span *)

Lemma drop_space_framed (R : N -> Prop) (x : N) (t : jsstring) :
  is_space x = false ->
  forall pre, Forall R pre ->
  exists pre1, Forall R pre1 /\ drop_space (pre ++ x :: t) = pre1 ++ x :: t.
Proof.
  intros Hx. induction pre as [|y pre IH]; intros F.
  - exists []. split; [constructor|]. cbn [app drop_space]. rewrite Hx.
    reflexivity.
  - inversion F as [|? ? Hy Fp]; subst. cbn [app drop_space].
    destruct (is_space y).
    + apply IH. exact Fp.
    + exists (y :: pre). split; [exact F|reflexivity].
Qed.

Lemma search_none_after re :
  (forall p s, exec_at re (Some p) s = None) ->
  forall s p, search re (Some p) s = None.
Proof.
  intros H. induction s as [|x s IH]; intros p; rewrite search_eq, H.
  - reflexivity.
  - rewrite IH. reflexivity.
Qed.

Lemma search_exec re :
  forall s prev before m st,
    search re prev s = Some (before, m, st) ->
    exists prev' s', s = before ++ s' /\ exec_at re prev' s' = Some st.
Proof.
  induction s as [|x s IH]; intros prev before m st; rewrite search_eq.
  - destruct (exec_at re prev []) eqn:E; [|discriminate].
    intros H. injection H as <- _ <-. exists prev, []. auto.
  - destruct (exec_at re prev (x :: s)) eqn:E.
    + intros H. injection H as <- _ <-. exists prev, (x :: s). auto.
    + destruct (search re (Some x) s) as [[[b' m'] st']|] eqn:S;
        [|discriminate].
      intros H. injection H as <- _ <-.
      destruct (IH _ _ _ _ S) as (v & s' & -> & Ex).
      exists v, s'. auto.
Qed.

(** A match of [/;?\s*$/] ends where the text does. *)
Lemma exec_semicolon_end prev s st :
  exec_at re_semicolon prev s = Some st -> m_rest st = [].
Proof.
  unfold exec_at.
  change (re_pat re_semicolon)
    with (RSeq (ropt (RChar (ch ";"))) (RSeq s_star REol)).
  change (re_multiline re_semicolon) with false.
  cbn [rmatch]. intros H.
  apply rmatch_sound in H as (w1 & c1 & st1 & _ & _ & _ & H).
  apply rmatch_sound in H as (w2 & c2 & st2 & _ & _ & _ & H).
  cbn [rmatch] in H. unfold at_eol in H.
  destruct (m_rest st2) eqn:R; [|discriminate].
  injection H as <-. exact R.
Qed.

Section Steps.

Variables (P Q : N -> Prop) (o c : N) (body : jsstring).
Hypothesis P_open : forall x, P x -> x <> o.
Hypothesis Q_close : forall x, Q x -> x <> c.
Hypothesis o_space : is_space o = false.
Hypothesis o_word : is_word o = false.
Hypothesis o_tick : o <> ch "`".
Hypothesis o_equal : o <> ch "=".
Hypothesis c_space : is_space c = false.
Hypothesis c_tick : c <> ch "`".
Hypothesis c_semicolon : c <> ch ";".
Hypothesis no_fence : has_fence (o :: body ++ [c]) = false.

Lemma trim_framed (s : jsstring) :
  framed P Q (o :: body ++ [c]) s -> framed P Q (o :: body ++ [c]) (trim s).
Proof.
  intros (pre & post & -> & Fp & Fq). unfold trim.
  cbn [app].
  destruct (drop_space_framed P o ((body ++ [c]) ++ post) o_space pre Fp)
    as (pre1 & Fp1 & ->).
  replace (pre1 ++ o :: (body ++ [c]) ++ post)
    with ((pre1 ++ o :: body) ++ c :: post)
    by (app_norm; reflexivity).
  rewrite rev_app_distr. cbn [rev]. rewrite <- app_assoc. cbn [app].
  destruct (drop_space_framed Q c (rev (pre1 ++ o :: body)) c_space
              (rev post) (Forall_rev Fq)) as (q1 & Fq1 & ->).
  rewrite rev_app_distr. cbn [rev]. rewrite rev_involutive.
  exists pre1, (rev q1). split.
  - app_norm. reflexivity.
  - split; [exact Fp1|apply Forall_rev; exact Fq1].
Qed.

Lemma no_fence_inside (b1 : jsstring) (x : N) (b2 post : jsstring) :
  o :: body ++ [c] = b1 ++ x :: b2 ->
  starts_fence (x :: b2 ++ post) = false.
Proof.
  intros E.
  assert (Hs : has_fence (x :: b2) = false).
  { pose proof no_fence as H. rewrite E in H.
    apply has_fence_suffix in H. exact H. }
  destruct (ends_with_last c (o :: body) b1 (x :: b2) E ltac:(discriminate))
    as (t & Et).
  apply N.eqb_neq in c_tick.
  destruct b2 as [|y [|z b3]].
  - destruct t as [|? [|? ?]]; try discriminate Et. injection Et as ->.
    cbn [app]. unfold starts_fence.
    destruct post as [|? [|? ?]]; try reflexivity.
    rewrite c_tick. reflexivity.
  - destruct t as [|? [|? [|? ?]]]; try discriminate Et.
    injection Et as _ ->. cbn [app]. unfold starts_fence.
    destruct post as [|? ?]; try reflexivity.
    rewrite c_tick, andb_false_r. reflexivity.
  - apply has_fence_head in Hs. exact Hs.
Qed.

Ltac other_unit H :=
  let E := fresh in
  let W := fresh in
  intros E; rewrite E in H;
  first [ exact (o_tick H) | exact (o_equal H) | exact (c_semicolon H)
        | congruence
        | pose proof o_word as W; rewrite H in W; vm_compute in W;
          discriminate W ].

Ltac units_apart :=
  cbn; intros H;
  repeat match goal with
  | H : _ \/ _ |- _ => destruct H as [H|H]
  | H : False |- _ => destruct H
  end; other_unit H.

Lemma fence_json_units (x : N) :
  pattern_units (re_pat re_fence_json) x -> x <> o.
Proof. units_apart. Qed.

Lemma fence_open_units (x : N) :
  pattern_units (re_pat re_fence_open) x -> x <> o.
Proof. units_apart. Qed.

Lemma fence_close_units (x : N) :
  pattern_units (re_pat re_fence_close) x -> x <> o.
Proof. units_apart. Qed.

Lemma fences_framed (s : jsstring) :
  framed P Q (o :: body ++ [c]) s ->
  framed P Q (o :: body ++ [c])
    (replace (replace (replace s re_fence_json []) re_fence_open [])
             re_fence_close []).
Proof.
  intros F.
  apply replace_all_framed;
    [reflexivity|exact fence_close_units| |].
  { intros b1 x b2 post v E. apply fence_close_no_match.
    apply (no_fence_inside b1 x b2 post E). }
  apply replace_all_framed;
    [reflexivity|exact fence_open_units| |].
  { intros b1 x b2 post v E. apply fence_open_no_match.
    apply (no_fence_inside b1 x b2 post E). }
  apply replace_all_framed;
    [reflexivity|exact fence_json_units| |].
  { intros b1 x b2 post v E. apply fence_json_no_match.
    apply (no_fence_inside b1 x b2 post E). }
  exact F.
Qed.

Lemma decl_framed (kw : string) (s : jsstring) :
  (forall x, pattern_units (re_pat (re_decl kw)) x -> x <> o) ->
  framed P Q (o :: body ++ [c]) s ->
  framed P Q (o :: body ++ [c]) (replace s (re_decl kw) []).
Proof.
  intros U F. unfold replace, replace_first.
  change (re_global (re_decl kw)) with false. cbn iota.
  rewrite search_eq.
  destruct (exec_at (re_decl kw) None s) as [st|] eqn:E.
  - cbn [expand app].
    destruct F as (pre & post & -> & Fp & Fq).
    pose proof (exec_at_span _ _ _ _ E) as [Es M]. cbn zeta in Es, M.
    apply matches_units in M.
    cbn [app] in Es. symmetry in Es.
    apply prefix_before_unit in Es as (p2 & Ep & Er).
    2:{ eapply Forall_impl; [|exact M]. exact U. }
    rewrite Ep in Fp. apply Forall_app in Fp as [_ Fp].
    rewrite Er. exists p2, post. auto.
  - destruct s as [|x s]; [exact F|].
    rewrite (search_none_after (re_decl kw) (decl_not_at_start kw)).
    exact F.
Qed.

Lemma decl_const_units (x : N) :
  pattern_units (re_pat (re_decl "const")) x -> x <> o.
Proof. units_apart. Qed.

Lemma decl_let_units (x : N) :
  pattern_units (re_pat (re_decl "let")) x -> x <> o.
Proof. units_apart. Qed.

Lemma decl_var_units (x : N) :
  pattern_units (re_pat (re_decl "var")) x -> x <> o.
Proof. units_apart. Qed.

Lemma semicolon_units (x : N) :
  pattern_units (re_pat re_semicolon) x -> x <> c.
Proof. units_apart. Qed.

Lemma semicolon_framed (s : jsstring) :
  framed P Q (o :: body ++ [c]) s ->
  framed P Q (o :: body ++ [c]) (replace s re_semicolon []).
Proof.
  intros F. unfold replace, replace_first.
  change (re_global re_semicolon) with false. cbn iota.
  destruct (search re_semicolon None s) as [[[before m] st]|] eqn:S;
    [|exact F].
  cbn [expand app].
  destruct (search_exec _ _ _ _ _ _ S) as (v & s' & _ & Ex).
  apply exec_semicolon_end in Ex. rewrite Ex, app_nil_r.
  apply search_sound in S as [Es M]. rewrite Ex, app_nil_r in Es.
  apply matches_units in M.
  destruct F as (pre & post & -> & Fp & Fq).
  replace (pre ++ (o :: body ++ [c]) ++ post)
    with ((pre ++ o :: body) ++ c :: post) in Es
    by (app_norm; reflexivity).
  symmetry in Es.
  apply suffix_after_unit in Es as (q1 & Eq & Eb).
  2:{ eapply Forall_impl; [|exact M]. exact semicolon_units. }
  rewrite Eq in Fq. apply Forall_app in Fq as [Fq _].
  rewrite Eb. exists pre, q1. split; [|auto].
  app_norm. reflexivity.
Qed.

Lemma strip_wrapping_framed (s : jsstring) :
  framed P Q (o :: body ++ [c]) s ->
  framed P Q (o :: body ++ [c]) (strip_wrapping s).
Proof.
  intros F. unfold strip_wrapping.
  apply semicolon_framed.
  apply decl_framed; [exact decl_var_units|].
  apply decl_framed; [exact decl_let_units|].
  apply decl_framed; [exact decl_const_units|].
  apply fences_framed. apply trim_framed. exact F.
Qed.

End Steps.

(** ** The span that the object and array patterns match *)

Section Span.

Variables (o c : N).

Lemma star_any_last (k : mstate -> option mstate) caps :
  (forall p x t, x <> c -> k (MState p (x :: t) caps) = None) ->
  (forall p, k (MState p [] caps) = None) ->
  (forall p t, k (MState p (c :: t) caps) = Some (MState (Some c) t caps)) ->
  forall post, Forall (fun x => x <> c) post ->
  (forall prev, star_loop any_unit k prev post caps = None)
  /\ (forall body prev,
        star_loop any_unit k prev (body ++ c :: post) caps
        = Some (MState (Some c) post caps)).
Proof.
  intros K1 K0 Kc post F.
  assert (N0 : forall prev, star_loop any_unit k prev post caps = None).
  { induction F as [|x post Hx F IH]; intros prev; cbn [star_loop].
    - apply K0.
    - rewrite any_unit_true, IH. apply K1. exact Hx. }
  split; [exact N0|].
  induction body as [|x body IH]; intros prev; cbn [app star_loop];
    rewrite any_unit_true.
  - rewrite N0. apply Kc.
  - rewrite IH. reflexivity.
Qed.

Lemma search_span (body post : jsstring) :
  Forall (fun x => x <> c) post ->
  forall pre prev, Forall (fun x => x <> o) pre ->
    search (re_span o c) prev (pre ++ o :: body ++ c :: post)
    = Some (pre, o :: body ++ [c], MState (Some c) post []).
Proof.
  intros Fq. induction pre as [|x pre IH]; intros prev Fp;
    rewrite search_eq; unfold exec_at;
    cbn [app re_pat re_multiline re_span rseq rmatch m_rest m_prev m_caps].
  - rewrite N.eqb_refl. cbn [m_rest m_prev m_caps].
    match goal with
    | |- context [star_loop any_unit ?k _ _ _] =>
        rewrite (proj2 (star_any_last k [] 
                   ltac:(intros p x t Hx; cbn [m_rest m_caps];
                         apply N.eqb_neq in Hx; rewrite Hx; reflexivity)
                   ltac:(reflexivity)
                   ltac:(intros p t; cbn [m_rest m_caps];
                         rewrite N.eqb_refl; reflexivity)
                   post Fq))
    end.
    cbn [m_rest].
    change (o :: body ++ c :: post) with ((o :: body) ++ c :: post).
    replace ((o :: body) ++ c :: post) with ((o :: body ++ [c]) ++ post)
      by (app_norm; reflexivity).
    rewrite firstn_app_length. reflexivity.
  - inversion Fp as [|? ? Hx Fp']; subst.
    apply N.eqb_neq in Hx. rewrite Hx. rewrite IH by exact Fp'.
    reflexivity.
Qed.

Lemma search_no_open (s : jsstring) :
  Forall (fun x => x <> o) s -> forall prev, search (re_span o c) prev s = None.
Proof.
  induction 1 as [|x s Hx F IH]; intros prev; rewrite search_eq;
    unfold exec_at;
    cbn [re_pat re_multiline re_span rseq rmatch m_rest m_prev m_caps].
  - reflexivity.
  - apply N.eqb_neq in Hx. rewrite Hx, IH. reflexivity.
Qed.

End Span.

Lemma match_object_framed (body s : jsstring) :
  framed (fun x => x <> ch "{") (fun x => x <> ch "}")
         (ch "{" :: body ++ [ch "}"]) s ->
  str_match s re_object = Some (ch "{" :: body ++ [ch "}"]).
Proof.
  intros (pre & post & -> & Fp & Fq). unfold str_match.
  change re_object with (re_span (ch "{") (ch "}")).
  replace (pre ++ (ch "{" :: body ++ [ch "}"]) ++ post)
    with (pre ++ ch "{" :: body ++ ch "}" :: post)
    by (app_norm; reflexivity).
  rewrite search_span by assumption. reflexivity.
Qed.

Lemma match_array_framed (body s : jsstring) :
  framed (fun x => x <> ch "[") (fun x => x <> ch "]")
         (ch "[" :: body ++ [ch "]"]) s ->
  str_match s re_array = Some (ch "[" :: body ++ [ch "]"]).
Proof.
  intros (pre & post & -> & Fp & Fq). unfold str_match.
  change re_array with (re_span (ch "[") (ch "]")).
  replace (pre ++ (ch "[" :: body ++ [ch "]"]) ++ post)
    with (pre ++ ch "[" :: body ++ ch "]" :: post)
    by (app_norm; reflexivity).
  rewrite search_span by assumption. reflexivity.
Qed.

Lemma match_object_none (s : jsstring) :
  Forall (fun x => x <> ch "{") s -> str_match s re_object = None.
Proof.
  intros F. unfold str_match.
  change re_object with (re_span (ch "{") (ch "}")).
  rewrite search_no_open by exact F. reflexivity.
Qed.

(** ** An object inside a text *)

Lemma candidate_object_framed (body s : jsstring) :
  has_fence (ch "{" :: body ++ [ch "}"]) = false ->
  framed (fun x => x <> ch "{") (fun x => x <> ch "}")
         (ch "{" :: body ++ [ch "}"]) s ->
  candidate s = ch "{" :: body ++ [ch "}"].
Proof.
  intros Hf F. unfold candidate, pick_match.
  rewrite (match_object_framed body); [reflexivity|].
  apply strip_wrapping_framed; auto; try reflexivity; discriminate.
Qed.

Lemma json_space_not (c : N) (ws : jsstring) :
  is_json_ws c = false -> json_space ws -> Forall (fun x => x <> c) ws.
Proof.
  intros Hc F. eapply Forall_impl; [|exact F].
  cbn beta. intros x Hx ->. congruence.
Qed.

(** X1: an object in a text: when the text is a part without an opening
    brace, then a JSON object that holds no run of three backticks, then a
    part without a closing brace, [extractJson] returns the object, trimmed.
    The parts around can be prose, a fence, a declaration, brackets. *)
Theorem extractJson_object_in_text (pre core post : jsstring) (o : object) :
  JSON_parse core = Ok (JObj o) ->
  has_fence core = false ->
  Forall (fun x => x <> ch "{") pre ->
  Forall (fun x => x <> ch "}") post ->
  extractJson (pre ++ core ++ post) = Ok (trim core).
Proof.
  intros Pc Hf Fp Fq.
  destruct (JSON_parse_shape _ _ Pc)
    as (ws1 & b & ws2 & -> & F1 & F2 & Pb & Ho).
  destruct (Ho o eq_refl) as (body & ->).
  assert (Hb : has_fence (ch "{" :: body ++ [ch "}"]) = false).
  { apply has_fence_suffix in Hf. apply has_fence_prefix in Hf. exact Hf. }
  rewrite (trim_braced _ _ _ F1 F2).
  assert (C : candidate (pre ++ (ws1 ++ (ch "{" :: body ++ [ch "}"]) ++ ws2)
                         ++ post)
              = ch "{" :: body ++ [ch "}"]).
  { apply candidate_object_framed; [exact Hb|].
    exists (pre ++ ws1), (ws2 ++ post). split; [app_norm; reflexivity|].
    split; apply Forall_app; split; auto;
      apply json_space_not; auto. }
  rewrite extractJson_first; rewrite C; [reflexivity|].
  unfold parses. rewrite Pb. reflexivity.
Qed.

Lemma extractJson_object_in_text_witness :
  extractJson
    (js "Here is the task:" ++ [LF] ++ js "```json" ++ [LF]
     ++ js "{~title~: ~x~, ~dependencies~: [1, 2]}"
     ++ [LF] ++ js "```" ++ [LF] ++ js "Tell me if [more] is needed;")
  = Ok (js "{~title~: ~x~, ~dependencies~: [1, 2]}").
Proof.
  change (js "{~title~: ~x~, ~dependencies~: [1, 2]}")
    with (trim (js "{~title~: ~x~, ~dependencies~: [1, 2]}")) at 2.
  replace (js "Here is the task:" ++ [LF] ++ js "```json" ++ [LF]
     ++ js "{~title~: ~x~, ~dependencies~: [1, 2]}"
     ++ [LF] ++ js "```" ++ [LF] ++ js "Tell me if [more] is needed;")
    with ((js "Here is the task:" ++ [LF] ++ js "```json" ++ [LF])
     ++ js "{~title~: ~x~, ~dependencies~: [1, 2]}"
     ++ ([LF] ++ js "```" ++ [LF] ++ js "Tell me if [more] is needed;"))
    by reflexivity.
  apply (extractJson_object_in_text _ _ _
           [(js "title", JStr (js "x"));
            (js "dependencies",
              JArr [JNum (S754_finite false 4503599627370496 (-52));
                    JNum (S754_finite false 4503599627370496 (-51))])]).
  - vm_compute. reflexivity.
  - vm_compute. reflexivity.
  - repeat (constructor; [intros E; vm_compute in E; discriminate E|]).
    constructor.
  - repeat (constructor; [intros E; vm_compute in E; discriminate E|]).
    constructor.
Defined.

(** ** An array inside a text *)

Lemma parse_elements_end (n : nat) :
  forall s l r, parse_elements n s = Some (l, r) ->
  exists body, s = body ++ ch "]" :: r.
Proof.
  induction n as [|n IH]; intros s l r; [discriminate|].
  cbn [parse_elements].
  destruct (parse_value n s) as [[v r1]|] eqn:V; [|discriminate].
  destruct (parse_local n) as (LV & _ & _).
  apply LV in V as (p1 & -> & _).
  destruct (skip_ws r1) as [|d r'] eqn:W; [discriminate|].
  apply skip_ws_cons in W as (ws & -> & _ & _).
  destruct (d =? ch ",") eqn:Dc.
  - destruct (parse_elements n (skip_ws r')) as [[l' rest]|] eqn:E;
      [|discriminate].
    intros H. injection H as _ <-.
    apply IH in E as (body' & E).
    destruct (skip_ws_split r') as (ws' & Er & _). rewrite E in Er.
    exists (p1 ++ ws ++ d :: ws' ++ body'). rewrite Er.
    app_norm. reflexivity.
  - destruct (d =? ch "]") eqn:Db; [|discriminate].
    apply N.eqb_eq in Db. subst d.
    intros H. injection H as _ <-.
    exists (p1 ++ ws). app_norm. reflexivity.
Qed.

Lemma parse_scalar_not_array (s : jsstring) (l : list value) (r : jsstring) :
  parse_scalar s <> Some (JArr l, r).
Proof.
  unfold parse_scalar. destruct s as [|x s]; [discriminate|].
  repeat match goal with
  | |- context [if ?b then _ else _] => destruct b
  | |- context [match ?m with Some _ => _ | None => _ end] => destruct m
  | |- context [let (_, _) := ?p in _] => destruct p
  end; discriminate.
Qed.

Lemma parse_array_shape (n : nat) (s : jsstring) (l : list value)
    (r : jsstring) :
  parse_value n s = Some (JArr l, r) ->
  exists body, s = (ch "[" :: body ++ [ch "]"]) ++ r.
Proof.
  destruct n as [|n]; [discriminate|]. cbn [parse_value].
  destruct s as [|x r0]; [discriminate|].
  destruct (x =? ch "{") eqn:Xo.
  { destruct (skip_ws r0) as [|c2 r2]; [discriminate|].
    destruct (c2 =? ch "}"); [discriminate|].
    destruct (parse_members n (c2 :: r2)) as [[m rest]|]; discriminate. }
  destruct (x =? ch "[") eqn:Xa.
  - apply N.eqb_eq in Xa. subst x.
    destruct (skip_ws r0) as [|c2 r2] eqn:W; [discriminate|].
    apply skip_ws_cons in W as (ws & -> & _ & _).
    destruct (c2 =? ch "]") eqn:Cb.
    + apply N.eqb_eq in Cb. subst c2. intros H. injection H as _ <-.
      exists ws. app_norm. reflexivity.
    + destruct (parse_elements n (c2 :: r2)) as [[l' rest]|] eqn:E;
        [|discriminate].
      intros H. injection H as _ <-.
      apply parse_elements_end in E as (body' & ->).
      exists (ws ++ body'). app_norm. reflexivity.
  - intros H. exfalso. exact (parse_scalar_not_array _ _ _ H).
Qed.

(** The text of an array runs from its opening to its closing bracket. *)
Lemma JSON_parse_array_shape (text : jsstring) (l : list value) :
  JSON_parse text = Ok (JArr l) ->
  exists ws1 body ws2,
    text = ws1 ++ (ch "[" :: body ++ [ch "]"]) ++ ws2
    /\ json_space ws1 /\ json_space ws2
    /\ JSON_parse (ch "[" :: body ++ [ch "]"]) = Ok (JArr l).
Proof.
  unfold JSON_parse at 1.
  destruct (parse_value (2 * length text + 1) (skip_ws text))
    as [[v' rest]|] eqn:P; [|discriminate].
  destruct (skip_ws rest) eqn:W; [|discriminate].
  intros H. injection H as ->.
  destruct (parse_local (2 * length text + 1)) as (LV & _ & _).
  pose proof (parse_array_shape _ _ _ _ P) as (body & Eb).
  apply LV in P as (pre & E & Np & _ & L).
  rewrite Eb in E. apply app_inv_tail in E. subst pre.
  destruct (skip_ws_split text) as (ws1 & Et & F1). rewrite Eb in Et.
  exists ws1, body, rest. split; [exact Et|]. split; [exact F1|].
  split; [apply skip_ws_nil; exact W|].
  unfold JSON_parse.
  rewrite skip_ws_stop by reflexivity.
  pose proof (L (2 * length (ch "[" :: body ++ [ch "]"]) + 1)%nat []
                ltac:(lia) eq_refl) as Lx.
  rewrite app_nil_r in Lx. rewrite Lx. reflexivity.
Qed.

Lemma trim_bracketed (ws1 body ws2 : jsstring) :
  json_space ws1 -> json_space ws2 ->
  trim (ws1 ++ (ch "[" :: body ++ [ch "]"]) ++ ws2)
  = ch "[" :: body ++ [ch "]"].
Proof.
  intros F1 F2. unfold trim.
  replace (ws1 ++ (ch "[" :: body ++ [ch "]"]) ++ ws2)
    with (ws1 ++ ch "[" :: (body ++ ch "]" :: ws2))
    by (app_norm; reflexivity).
  rewrite (drop_space_over _ _ _ (json_space_spaces _ F1)); [|reflexivity].
  replace (rev (ch "[" :: body ++ ch "]" :: ws2))
    with (rev ws2 ++ ch "]" :: rev (ch "[" :: body)).
  2:{ change (ch "[" :: body ++ ch "]" :: ws2)
        with ((ch "[" :: body) ++ ch "]" :: ws2).
      rewrite rev_app_distr. cbn [rev]. app_norm. reflexivity. }
  rewrite drop_space_over; [| |reflexivity].
  - cbn [rev]. rewrite rev_app_distr, rev_involutive. reflexivity.
  - apply Forall_rev. apply json_space_spaces. exact F2.
Qed.

Lemma candidate_array_framed (body s : jsstring) :
  has_fence (ch "[" :: body ++ [ch "]"]) = false ->
  framed (fun x => x <> ch "[" /\ x <> ch "{")
         (fun x => x <> ch "]" /\ x <> ch "{")
         (ch "[" :: body ++ [ch "]"]) s ->
  Forall (fun x => x <> ch "{") body ->
  candidate s = ch "[" :: body ++ [ch "]"].
Proof.
  intros Hf F Fb. unfold candidate, pick_match.
  assert (G : framed (fun x => x <> ch "[" /\ x <> ch "{")
                     (fun x => x <> ch "]" /\ x <> ch "{")
                     (ch "[" :: body ++ [ch "]"]) (strip_wrapping s)).
  { apply strip_wrapping_framed; auto; try reflexivity;
      try discriminate; intros x H; apply H. }
  destruct G as (pre' & post' & E & Fp & Fq).
  rewrite match_object_none.
  - rewrite (match_array_framed body); [reflexivity|].
    exists pre', post'. split; [exact E|].
    split; eapply Forall_impl; try eassumption; cbn beta; intros x H;
      apply H.
  - rewrite E. apply Forall_app. split.
    + eapply Forall_impl; [|exact Fp]. cbn beta. intros x H. apply H.
    + apply Forall_app. split.
      * constructor; [discriminate|]. apply Forall_app. split; [exact Fb|].
        constructor; [discriminate|constructor].
      * eapply Forall_impl; [|exact Fq]. cbn beta. intros x H. apply H.
Qed.

(** X2: an array in a text without an opening brace: when the text is a part
    without an opening bracket, then a JSON array that holds no run of
    three backticks, then a part without a closing bracket, [extractJson]
    returns the array, trimmed. *)
Theorem extractJson_array_in_text (pre core post : jsstring)
    (l : list value) :
  JSON_parse core = Ok (JArr l) ->
  has_fence core = false ->
  Forall (fun x => x <> ch "{") (pre ++ core ++ post) ->
  Forall (fun x => x <> ch "[") pre ->
  Forall (fun x => x <> ch "]") post ->
  extractJson (pre ++ core ++ post) = Ok (trim core).
Proof.
  intros Pc Hf Fo Fp Fq.
  destruct (JSON_parse_array_shape _ _ Pc)
    as (ws1 & body & ws2 & -> & F1 & F2 & Pb).
  assert (Hb : has_fence (ch "[" :: body ++ [ch "]"]) = false).
  { apply has_fence_suffix in Hf. apply has_fence_prefix in Hf. exact Hf. }
  rewrite (trim_bracketed _ _ _ F1 F2).
  apply Forall_app in Fo as [Fo1 Fo2]. apply Forall_app in Fo2 as [Fo2 Fo3].
  apply Forall_app in Fo2 as [_ Fo2]. apply Forall_app in Fo2 as [Fo2 _].
  inversion Fo2 as [|? ? _ Fo4]; subst.
  apply Forall_app in Fo4 as [Fb _].
  assert (C : candidate (pre ++ (ws1 ++ (ch "[" :: body ++ [ch "]"]) ++ ws2)
                         ++ post)
              = ch "[" :: body ++ [ch "]"]).
  { apply candidate_array_framed; [exact Hb| |exact Fb].
    exists (pre ++ ws1), (ws2 ++ post). split; [app_norm; reflexivity|].
    split; apply Forall_app; split.
    - apply Forall_forall. intros x Hx. split.
      + rewrite Forall_forall in Fp. apply Fp. exact Hx.
      + rewrite Forall_forall in Fo1. apply Fo1. exact Hx.
    - apply Forall_forall. intros x Hx.
      pose proof (json_space_not (ch "[") ws1 eq_refl F1) as A.
      pose proof (json_space_not (ch "{") ws1 eq_refl F1) as B.
      rewrite Forall_forall in A, B. split; auto.
    - apply Forall_forall. intros x Hx.
      pose proof (json_space_not (ch "]") ws2 eq_refl F2) as A.
      pose proof (json_space_not (ch "{") ws2 eq_refl F2) as B.
      rewrite Forall_forall in A, B. split; auto.
    - apply Forall_forall. intros x Hx. split.
      + rewrite Forall_forall in Fq. apply Fq. exact Hx.
      + rewrite Forall_forall in Fo3. apply Fo3. exact Hx. }
  rewrite extractJson_first; rewrite C; [reflexivity|].
  unfold parses. rewrite Pb. reflexivity.
Qed.

Lemma extractJson_array_in_text_witness :
  extractJson
    (js "const ids = " ++ js "[1, [2, ~3~]]" ++ js " ; // the ids")
  = Ok (js "[1, [2, ~3~]]").
Proof.
  change (js "[1, [2, ~3~]]") with (trim (js "[1, [2, ~3~]]")) at 2.
  apply (extractJson_array_in_text _ _ _
           [JNum (S754_finite false 4503599627370496 (-52));
            JArr [JNum (S754_finite false 4503599627370496 (-51));
                  JStr (js "3")]]).
  - vm_compute. reflexivity.
  - vm_compute. reflexivity.
  - repeat (constructor; [intros E; vm_compute in E; discriminate E|]).
    constructor.
  - repeat (constructor; [intros E; vm_compute in E; discriminate E|]).
    constructor.
  - repeat (constructor; [intros E; vm_compute in E; discriminate E|]).
    constructor.
Defined.

(** ** The layout of the completed object *)

Lemma key_before_not_index (k k' : jsstring) :
  is_index k = false -> key_before k k' = false.
Proof.
  unfold is_index, key_before. destruct (array_index k); [discriminate|].
  reflexivity.
Qed.

Lemma key_before_index (k k' : jsstring) :
  is_index k = true -> is_index k' = false -> key_before k k' = true.
Proof.
  unfold is_index, key_before.
  destruct (array_index k); [|discriminate].
  destruct (array_index k'); [discriminate|]. reflexivity.
Qed.

Lemma str_eqb_index (k k' : jsstring) :
  is_index k = true -> is_index k' = false -> str_eqb k k' = false.
Proof.
  intros H H'. apply str_eqb_neq. intros ->. congruence.
Qed.

Lemma task_keys_not_index (k : jsstring) :
  In k task_keys -> is_index k = false.
Proof.
  unfold task_keys. cbn [In].
  intros [<-|[<-|[<-|[<-|[<-|[]]]]]]; reflexivity.
Qed.

(** A key that is not an index passes the members before which it does
    not go and takes the place of the member that has it. *)
Lemma obj_set_replace (pre rest : object) (k : jsstring) (old v : value) :
  Forall (fun kv => str_eqb k (fst kv) = false
                    /\ key_before k (fst kv) = false) pre ->
  obj_set (pre ++ (k, old) :: rest) k v = pre ++ (k, v) :: rest.
Proof.
  induction 1 as [|[k' v'] pre [E B] F IH]; cbn [app obj_set fst] in *.
  - rewrite str_eqb_refl. reflexivity.
  - rewrite E, B, IH. reflexivity.
Qed.

Lemma obj_set_insert (pre rest : object) (k k' : jsstring) (v v' : value) :
  Forall (fun kv => str_eqb k (fst kv) = false
                    /\ key_before k (fst kv) = false) pre ->
  str_eqb k k' = false -> key_before k k' = true ->
  obj_set (pre ++ (k', v') :: rest) k v = pre ++ (k, v) :: (k', v') :: rest.
Proof.
  intros F E B.
  induction F as [|[k0 v0] pre [E0 B0] F IH]; cbn [app obj_set fst] in *.
  - rewrite E, B. reflexivity.
  - rewrite E0, B0, IH. reflexivity.
Qed.

Lemma obj_set_skip (pre rest : object) (k : jsstring) (v : value) :
  Forall (fun kv => str_eqb k (fst kv) = false
                    /\ key_before k (fst kv) = false) pre ->
  obj_set (pre ++ rest) k v = pre ++ obj_set rest k v.
Proof.
  induction 1 as [|[k' v'] pre [E B] F IH]; cbn [app obj_set fst] in *.
  - reflexivity.
  - rewrite E, B, IH. reflexivity.
Qed.

Lemma passes_index (idx : object) (k : jsstring) :
  is_index k = false ->
  Forall (fun kv => is_index (fst kv) = true) idx ->
  Forall (fun kv => str_eqb k (fst kv) = false
                    /\ key_before k (fst kv) = false) idx.
Proof.
  intros Hk F. eapply Forall_impl; [|exact F]. cbn beta. intros [k' v'] H.
  cbn [fst] in *. split.
  - rewrite str_eqb_sym. apply str_eqb_index; assumption.
  - apply key_before_not_index. exact Hk.
Qed.

(** An index goes among the indices. *)
Lemma obj_set_index (idx rest : object) (k k' : jsstring) (v v' : value) :
  is_index k = true -> is_index k' = false ->
  Forall (fun kv => is_index (fst kv) = true) idx ->
  exists idx',
    obj_set (idx ++ (k', v') :: rest) k v = idx' ++ (k', v') :: rest
    /\ Forall (fun kv => is_index (fst kv) = true) idx'.
Proof.
  intros Hk Hk' F.
  induction F as [|[k0 v0] idx H0 F (idx' & E & F')];
    cbn [app obj_set fst] in *.
  - rewrite (str_eqb_index _ _ Hk Hk'), (key_before_index _ _ Hk Hk').
    exists [(k, v)]. split; [reflexivity|]. constructor; [exact Hk|constructor].
  - destruct (str_eqb k k0).
    + exists ((k, v) :: idx). split; [reflexivity|]. constructor; assumption.
    + destruct (key_before k k0).
      * exists ((k, v) :: (k0, v0) :: idx). split; [reflexivity|].
        constructor; [exact Hk|]. constructor; assumption.
      * rewrite E. exists ((k0, v0) :: idx'). split; [reflexivity|].
        constructor; assumption.
Qed.

(** A key that is not an index takes its place among the fields or goes
    to the other keys. *)
Lemma obj_set_fields (others : object) (k : jsstring) (v : value) :
  is_index k = false ->
  forall fields,
  exists fields' others',
    obj_set (fields ++ others) k v = fields' ++ others'
    /\ map fst fields' = map fst fields
    /\ (others' = others
        \/ (others' = obj_set others k v /\ ~ In k (map fst fields))).
Proof.
  intros Hk. induction fields as [|[kf vf] fields IH]; cbn [app obj_set map].
  - exists [], (obj_set others k v). split; [reflexivity|].
    split; [reflexivity|]. right. split; [reflexivity|]. intros [].
  - destruct (str_eqb k kf) eqn:E.
    + apply str_eqb_eq in E. subst kf.
      exists ((k, v) :: fields), others. split; [reflexivity|].
      split; [reflexivity|]. left. reflexivity.
    + rewrite (key_before_not_index _ _ Hk).
      destruct IH as (f' & o' & E' & M & D). rewrite E'.
      exists ((kf, vf) :: f'), o'. split; [reflexivity|].
      split; [cbn [map fst]; rewrite M; reflexivity|].
      destruct D as [D|[D N]]; [left; exact D|right].
      split; [exact D|]. cbn [map fst In]. intros [H|H]; [|auto].
      subst kf. rewrite str_eqb_refl in E. discriminate.
Qed.

Lemma obj_set_layout (m : object) (k : jsstring) (v : value) :
  task_layout m -> task_layout (obj_set m k v).
Proof.
  intros (idx & fields & others & -> & Fi & Mf & Fo).
  destruct (is_index k) eqn:Hk.
  - destruct fields as [|[kf vf] fields]; [discriminate Mf|].
    assert (Hf : is_index kf = false).
    { apply task_keys_not_index. rewrite <- Mf. left. reflexivity. }
    cbn [app].
    destruct (obj_set_index idx (fields ++ others) k kf v vf Hk Hf Fi)
      as (idx' & E & Fi').
    rewrite E. exists idx', ((kf, vf) :: fields), others. auto.
  - rewrite (obj_set_skip _ _ _ _ (passes_index _ _ Hk Fi)).
    destruct (obj_set_fields others k v Hk fields)
      as (f' & o' & E & M & D).
    rewrite E. exists idx, f', o'. split; [reflexivity|].
    split; [exact Fi|]. split; [congruence|].
    destruct D as [->|[-> N]]; [exact Fo|].
    apply (obj_set_keys (fun k => ~ In k task_keys)); [exact Fo|].
    rewrite <- Mf. exact N.
Qed.

Lemma fold_obj_set_layout (l : list (jsstring * value)) (m : object) :
  task_layout m ->
  task_layout (fold_left (fun o kv => obj_set o (fst kv) (snd kv)) l m).
Proof.
  revert m. induction l as [|[k v] l IH]; intros m L; cbn [fold_left].
  - exact L.
  - apply IH. apply obj_set_layout. exact L.
Qed.

Lemma task_defaults_layout (parsed : value) :
  task_layout (task_defaults parsed).
Proof.
  exists [], (task_defaults parsed), []. split.
  - rewrite app_nil_r. reflexivity.
  - split; [constructor|]. split; [reflexivity|constructor].
Qed.

Lemma complete_object_layout (parsed : value) :
  task_layout (complete_object parsed).
Proof.
  unfold complete_object, spread.
  match goal with |- context [if ?b then _ else _] => destruct b end.
  - apply obj_set_layout. apply fold_obj_set_layout.
    apply task_defaults_layout.
  - apply fold_obj_set_layout. apply task_defaults_layout.
Qed.

(** ** Spreading an object over defaults it already holds *)

Lemma fold_obj_set_index (a' : object) (ka : jsstring) (va : value) :
  is_index ka = false ->
  forall idx i0,
    ordered (i0 ++ idx) ->
    Forall (fun kv => is_index (fst kv) = true) idx ->
    fold_left (fun o kv => obj_set o (fst kv) (snd kv)) idx
              (i0 ++ (ka, va) :: a')
    = i0 ++ idx ++ (ka, va) :: a'.
Proof.
  intros Ha. induction idx as [|[k v] idx IH]; intros i0 O F;
    cbn [fold_left fst snd app].
  - reflexivity.
  - inversion F as [|? ? Hk F']; subst. cbn [fst] in Hk.
    destruct (ordered_app _ _ O) as (_ & _ & B).
    rewrite obj_set_insert.
    + change (i0 ++ (k, v) :: (ka, va) :: a')
        with (i0 ++ [(k, v)] ++ (ka, va) :: a').
      rewrite app_assoc, IH; [app_norm; reflexivity| |exact F'].
      rewrite <- app_assoc. exact O.
    + eapply Forall_impl; [|exact B]. cbn beta. intros x Hx.
      inversion Hx as [|? ? H _]; subst. exact H.
    + apply str_eqb_index; assumption.
    + apply key_before_index; assumption.
Qed.

Lemma fold_obj_set_replace (fields : object) :
  forall a pre,
    ordered (pre ++ fields) -> map fst a = map fst fields ->
    fold_left (fun o kv => obj_set o (fst kv) (snd kv)) fields (pre ++ a)
    = pre ++ fields.
Proof.
  induction fields as [|[k v] fields IH]; intros a pre O M;
    cbn [fold_left fst snd].
  - destruct a; [reflexivity|discriminate M].
  - destruct a as [|[k' old] a]; [discriminate M|].
    cbn [map fst] in M. injection M as -> M.
    destruct (ordered_app _ _ O) as (_ & _ & B).
    rewrite obj_set_replace.
    + change (pre ++ (k, v) :: a) with (pre ++ [(k, v)] ++ a).
      rewrite app_assoc, IH; [app_norm; reflexivity| |exact M].
      rewrite <- app_assoc. exact O.
    + eapply Forall_impl; [|exact B]. cbn beta. intros x Hx.
      inversion Hx as [|? ? H _]; subst. exact H.
Qed.

Lemma spread_absorbed (m a : object) :
  ordered m -> task_layout m -> map fst a = task_keys ->
  fold_left (fun o kv => obj_set o (fst kv) (snd kv)) m a = m.
Proof.
  intros O (idx & fields & others & -> & Fi & Mf & _) Ma.
  destruct a as [|[ka va] a']; [discriminate Ma|].
  assert (Ha : is_index ka = false).
  { apply task_keys_not_index. rewrite <- Ma. left. reflexivity. }
  rewrite !fold_left_app.
  pose proof O as O'. rewrite app_assoc in O'.
  destruct (ordered_app _ _ O) as (Oi & _ & _).
  destruct (ordered_app _ _ O') as (Of & _ & _).
  pose proof (fold_obj_set_index a' ka va Ha idx [] Oi Fi) as E1.
  cbn [app] in E1. rewrite E1.
  rewrite (fold_obj_set_replace fields ((ka, va) :: a') idx Of);
    [|congruence].
  rewrite (app_assoc idx fields others).
  apply fold_obj_set_ordered. exact O'.
Qed.

Lemma complete_object_absorbed (m : object) :
  ordered m -> task_layout m ->
  isArray (obj_get m (js "dependencies")) = true ->
  complete_object (JObj m) = m.
Proof.
  intros O L A. unfold complete_object, spread. cbn [own_entries].
  rewrite (spread_absorbed m (task_defaults (JObj m)) O L eq_refl).
  rewrite A. reflexivity.
Qed.

Lemma complete_object_array (parsed : value) :
  wf parsed ->
  isArray (obj_get (complete_object parsed) (js "dependencies")) = true.
Proof.
  intros W. rewrite (complete_object_dependencies parsed W).
  destruct (get_prop parsed (js "dependencies")) as [[]|]; reflexivity.
Qed.

(** Completing what was completed changes nothing. *)
Lemma complete_object_fixed (parsed : value) :
  wf parsed ->
  complete_object (JObj (complete_object parsed)) = complete_object parsed.
Proof.
  intros W. apply complete_object_absorbed.
  - apply complete_object_ordered.
  - apply complete_object_layout.
  - apply complete_object_array. exact W.
Qed.

Lemma completeTaskJson_scalar (room : nat) (text : jsstring) (v : value) :
  JSON_parse text = Ok v -> structured v = false ->
  completeTaskJson room text
  = Ok (json_text (JObj (complete_object (JObj [])))).
Proof.
  intros P S. unfold completeTaskJson. rewrite P.
  destruct v; try discriminate S; reflexivity.
Qed.

Lemma completeTaskJson_throw (room : nat) (text : jsstring) (e : exn) :
  JSON_parse text = Throw e ->
  completeTaskJson room text = Ok (json_text error_recovery_task).
Proof.
  intros P. unfold completeTaskJson. rewrite P. reflexivity.
Qed.

Lemma completeTaskJson_reparsed (text : jsstring) (v : value) :
  JSON_parse text = Ok v -> stable v = true ->
  JSON_parse (json_text (JObj (complete_object v)))
  = Ok (JObj (complete_object v)).
Proof.
  intros P St. apply JSON_parse_stringify.
  - apply complete_object_wf. apply (JSON_parse_wf _ _ P).
  - apply complete_object_stable. exact St.
Qed.

(** The error-recovery task is returned as it is. *)
Lemma completeTaskJson_error_recovery (room : nat) :
  completeTaskJson room (json_text error_recovery_task)
  = Ok (json_text error_recovery_task).
Proof. vm_compute. reflexivity. Qed.

(** X3: completion is idempotent: [completeTaskJson] returns its own output
    unchanged.  The numbers of a parsed object or array are to be such as
    are read back from their printed form. *)
Theorem completeTaskJson_idempotent (room : nat) (text out : jsstring) :
  (forall v, JSON_parse text = Ok v -> structured v = true ->
             stable v = true) ->
  completeTaskJson room text = Ok out ->
  completeTaskJson room out = Ok out.
Proof.
  intros St R.
  destruct (JSON_parse text) as [v|e] eqn:P.
  - destruct (structured v) eqn:S.
    + pose proof (completeTaskJson_reparsed text v P (St v eq_refl S)) as P1.
      destruct (completeTaskJson_outcome room text v P S)
        as [[D R1]|[D R1]]; rewrite R1 in R; injection R as <-.
      * destruct (completeTaskJson_outcome room _ _ P1 eq_refl)
          as [[_ R2]|[D2 _]].
        -- rewrite R2, complete_object_fixed; [reflexivity|].
           apply (JSON_parse_wf _ _ P).
        -- rewrite complete_object_fixed in D2
             by apply (JSON_parse_wf _ _ P).
           lia.
      * apply completeTaskJson_error_recovery.
    + rewrite (completeTaskJson_scalar room text v P S) in R.
      injection R as <-. vm_compute. reflexivity.
  - rewrite (completeTaskJson_throw room text e P) in R. injection R as <-.
    apply completeTaskJson_error_recovery.
Qed.

Lemma completeTaskJson_idempotent_witness :
  completeTaskJson 0
    (js "{~2~:true,~note~:~n~,~title~:~T~,~1~:[],~dependencies~:{}}")
  = Ok (json_text
          (JObj [(js "1", JArr []); (js "2", JBool true);
                 (js "title", JStr (js "T"));
                 (js "description", JStr default_description);
                 (js "details", JStr default_details);
                 (js "testStrategy", JStr default_testStrategy);
                 (js "dependencies", JArr []);
                 (js "note", JStr (js "n"))]))
  /\ completeTaskJson 0
       (json_text
          (JObj [(js "1", JArr []); (js "2", JBool true);
                 (js "title", JStr (js "T"));
                 (js "description", JStr default_description);
                 (js "details", JStr default_details);
                 (js "testStrategy", JStr default_testStrategy);
                 (js "dependencies", JArr []);
                 (js "note", JStr (js "n"))]))
     = Ok (json_text
          (JObj [(js "1", JArr []); (js "2", JBool true);
                 (js "title", JStr (js "T"));
                 (js "description", JStr default_description);
                 (js "details", JStr default_details);
                 (js "testStrategy", JStr default_testStrategy);
                 (js "dependencies", JArr []);
                 (js "note", JStr (js "n"))])).
Proof.
  assert (R : completeTaskJson 0
    (js "{~2~:true,~note~:~n~,~title~:~T~,~1~:[],~dependencies~:{}}")
  = Ok (json_text
          (JObj [(js "1", JArr []); (js "2", JBool true);
                 (js "title", JStr (js "T"));
                 (js "description", JStr default_description);
                 (js "details", JStr default_details);
                 (js "testStrategy", JStr default_testStrategy);
                 (js "dependencies", JArr []);
                 (js "note", JStr (js "n"))]))).
  { vm_compute. reflexivity. }
  split; [exact R|].
  apply (completeTaskJson_idempotent 0
    (js "{~2~:true,~note~:~n~,~title~:~T~,~1~:[],~dependencies~:{}}"));
    [|exact R].
  intros v P _. vm_compute in P. injection P as <-. reflexivity.
Defined.

(** ** The shape of what [completeTaskJson] returns *)

Lemma obj_get_present (m : object) (k : jsstring) :
  In k (map fst m) -> obj_get m k <> None.
Proof.
  induction m as [|[k' v'] m IH]; cbn [map fst In obj_get]; [intros []|].
  intros [->|H].
  - rewrite str_eqb_refl. discriminate.
  - destruct (str_eqb k k'); [discriminate|auto].
Qed.

Lemma task_layout_keys (m : object) (k : jsstring) :
  task_layout m -> In k task_keys -> obj_get m k <> None.
Proof.
  intros (idx & fields & others & -> & _ & Mf & _) H.
  apply obj_get_present. rewrite !map_app, Mf.
  apply in_or_app. right. apply in_or_app. left. exact H.
Qed.

Lemma error_recovery_layout :
  match error_recovery_task with
  | JObj m => task_layout m
  | _ => False
  end.
Proof.
  cbn. eexists [], _, []. split; [rewrite app_nil_r; reflexivity|].
  split; [constructor|]. split; [reflexivity|constructor].
Qed.

Lemma error_recovery_shaped (room : nat) (text : jsstring) :
  completeTaskJson room text = Ok (json_text error_recovery_task) ->
  exists out completed,
    completeTaskJson room text = Ok out
    /\ JSON_parse out = Ok (JObj completed)
    /\ task_layout completed
    /\ (forall k, In k task_keys -> obj_get completed k <> None)
    /\ exists l, obj_get completed (js "dependencies") = Some (JArr l).
Proof.
  intros R. pose proof error_recovery_layout as L.
  unfold error_recovery_task in L.
  match type of L with
  | task_layout ?m =>
      exists (json_text error_recovery_task), m
  end.
  split; [exact R|].
  split; [vm_compute; reflexivity|].
  split; [exact L|].
  split.
  - intros k. apply task_layout_keys. exact L.
  - exists []. reflexivity.
Qed.

(** X4: whatever the text, [completeTaskJson] returns the text of an object
    that holds the five task fields, in the order of the defaults, after
    the array indices and before every other key, with an array for
    [dependencies].  The numbers of a parsed object or array are to be such
    as are read back from their printed form. *)
Theorem completeTaskJson_task_shaped (room : nat) (text : jsstring) :
  (forall v, JSON_parse text = Ok v -> structured v = true ->
             stable v = true) ->
  exists out completed,
    completeTaskJson room text = Ok out
    /\ JSON_parse out = Ok (JObj completed)
    /\ task_layout completed
    /\ (forall k, In k task_keys -> obj_get completed k <> None)
    /\ exists l, obj_get completed (js "dependencies") = Some (JArr l).
Proof.
  intros St.
  destruct (JSON_parse text) as [v|e] eqn:P.
  - destruct (structured v) eqn:S.
    + pose proof (completeTaskJson_reparsed text v P (St v eq_refl S)) as P1.
      pose proof (JSON_parse_wf _ _ P) as W.
      destruct (completeTaskJson_outcome room text v P S)
        as [[_ R1]|[_ R1]]; [|apply error_recovery_shaped; exact R1].
      exists (json_text (JObj (complete_object v))), (complete_object v).
      split; [exact R1|]. split; [exact P1|].
      split; [apply complete_object_layout|].
      split.
      * intros k. apply task_layout_keys. apply complete_object_layout.
      * rewrite (complete_object_dependencies v W).
        destruct (get_prop v (js "dependencies")) as [[]|]; eexists;
          reflexivity.
    + exists (json_text (JObj (complete_object (JObj [])))),
             (complete_object (JObj [])).
      split; [apply (completeTaskJson_scalar room text v P S)|].
      split; [vm_compute; reflexivity|].
      split; [apply complete_object_layout|].
      split.
      * intros k. apply task_layout_keys. apply complete_object_layout.
      * exists []. reflexivity.
  - apply error_recovery_shaped. apply (completeTaskJson_throw room text e P).
Qed.

Lemma completeTaskJson_task_shaped_witness :
  exists out completed,
    completeTaskJson 0 (js "[7,{~a~:null}]") = Ok out
    /\ JSON_parse out = Ok (JObj completed)
    /\ task_layout completed
    /\ (forall k, In k task_keys -> obj_get completed k <> None)
    /\ exists l, obj_get completed (js "dependencies") = Some (JArr l).
Proof.
  apply (completeTaskJson_task_shaped 0 (js "[7,{~a~:null}]")).
  intros v P _. vm_compute in P. injection P as <-. vm_compute. reflexivity.
Defined.

(** ** Completing, then checking *)

Lemma ordered_In_get (m : object) (k : jsstring) (x : value) :
  ordered m -> In (k, x) m -> obj_get m k = Some x.
Proof.
  induction m as [|[k' v'] m IH]; cbn [ordered In obj_get]; [intros _ []|].
  intros [F O] [H|H].
  - injection H as -> ->. rewrite str_eqb_refl. reflexivity.
  - rewrite Forall_forall in F. destruct (F _ H) as [E _]. cbn [fst] in E.
    rewrite E. auto.
Qed.

Lemma obj_get_In_key (m : object) (k : jsstring) (x : value) :
  obj_get m k = Some x -> In (k, x) m.
Proof.
  induction m as [|[k' v'] m IH]; cbn [obj_get In]; [discriminate|].
  destruct (str_eqb k k') eqn:E.
  - apply str_eqb_eq in E. subst k'. intros H. injection H as ->. auto.
  - auto.
Qed.

Lemma default_fields_not_blank (k : jsstring) (x : value) :
  obj_get default_fields k = Some x -> incomplete_field x = false.
Proof.
  intros H. apply obj_get_In_key in H. unfold default_fields in H.
  cbn [In] in H.
  destruct H as [H|[H|[H|[H|[]]]]]; injection H as _ <-; reflexivity.
Qed.

Lemma completed_blank (parsed : value) :
  wf parsed ->
  existsb incomplete_field (map snd (complete_object parsed))
  = existsb kept_blank (own_entries parsed).
Proof.
  intros W. apply eq_true_iff_eq. rewrite !existsb_exists. split.
  - intros (x & Hx & Bx). apply in_map_iff in Hx as ([k x'] & E & Hk).
    cbn [snd] in E. subst x'.
    apply (ordered_In_get _ _ _ (complete_object_ordered parsed)) in Hk.
    destruct (str_eqb k (js "dependencies")) eqn:D.
    + apply str_eqb_eq in D. subst k.
      rewrite (complete_object_dependencies parsed W) in Hk.
      injection Hk as <-.
      destruct (get_prop parsed (js "dependencies")) as [[]|];
        discriminate Bx.
    + apply str_eqb_neq in D.
      rewrite (complete_object_get parsed k W D) in Hk.
      destruct (get_prop parsed k) as [x'|] eqn:G.
      * injection Hk as ->. exists (k, x). split.
        -- apply obj_get_In_key. exact G.
        -- unfold kept_blank. cbn [fst snd].
           apply str_eqb_neq in D. rewrite D, Bx. reflexivity.
      * apply default_fields_not_blank in Hk. congruence.
  - intros ([k x] & Hk & Bk). unfold kept_blank in Bk. cbn [fst snd] in Bk.
    apply andb_true_iff in Bk as [D Bx]. apply negb_true_iff in D.
    apply str_eqb_neq in D.
    apply (ordered_In_get _ _ _ (own_entries_ordered parsed W)) in Hk.
    exists x. split; [|exact Bx].
    apply in_map_iff. exists (k, x). split; [reflexivity|].
    apply obj_get_In_key.
    rewrite (complete_object_get parsed k W D).
    unfold get_prop. rewrite Hk. reflexivity.
Qed.

Lemma completed_has_title (parsed : value) :
  wf parsed ->
  defined (obj_get (complete_object parsed) (js "title")) = true.
Proof.
  intros W.
  pose proof (task_layout_keys _ (js "title")
                (complete_object_layout parsed)) as H.
  destruct (obj_get (complete_object parsed) (js "title")); [reflexivity|].
  exfalso. apply H; [|reflexivity]. left. reflexivity.
Qed.

(** X5: what [isCompleteJson] says of the text that [completeTaskJson] returns
    for an object or an array.  When the serialiser prints the completed
    object, the text is complete exactly when no own property of the input
    other than [dependencies] is null or a string of whitespace.  When the
    completed object is nested too deep for the serialiser, the text is
    the error-recovery task, which is complete. *)
Theorem completed_isCompleteJson (room : nat) (text : jsstring) (v : value) :
  JSON_parse text = Ok v -> structured v = true -> stable v = true ->
  exists out,
    completeTaskJson room text = Ok out
    /\ isCompleteJson out
       = Ok (if (depth (JObj (complete_object v)) <=? 2 + room)%nat
             then negb (existsb kept_blank (own_entries v))
             else true).
Proof.
  intros P S St.
  pose proof (completeTaskJson_reparsed text v P St) as P1.
  pose proof (JSON_parse_wf _ _ P) as W.
  destruct (completeTaskJson_outcome room text v P S) as [[D R1]|[D R1]].
  - exists (json_text (JObj (complete_object v))).
    split; [exact R1|].
    destruct (Nat.leb_spec (depth (JObj (complete_object v))) (2 + room));
      [|lia].
    rewrite (isCompleteJson_parsed _ _ P1). cbn [structured].
    unfold get_prop, Object_values. cbn [own_entries].
    rewrite (completed_has_title v W). cbn [orb].
    rewrite (completed_blank v W). reflexivity.
  - exists (json_text error_recovery_task).
    split; [exact R1|].
    destruct (Nat.leb_spec (depth (JObj (complete_object v))) (2 + room));
      [lia|].
    vm_compute. reflexivity.
Qed.

Lemma completed_isCompleteJson_witness :
  (exists out,
     completeTaskJson 0 (js "{~title~:~x~,~dependencies~:null}") = Ok out
     /\ isCompleteJson out = Ok true)
  /\ (exists out,
        completeTaskJson 0 (js "{~details~:~ ~}") = Ok out
        /\ isCompleteJson out = Ok false)
  /\ (isCompleteJson (js "{~a~:null}") = Ok true
      /\ exists out,
           completeTaskJson 0 (js "{~a~:null}") = Ok out
           /\ isCompleteJson out = Ok false)
  /\ (exists out,
        completeTaskJson 0 (js "{~a~:null,~b~:[[[]]]}") = Ok out
        /\ isCompleteJson out = Ok true)
  /\ (exists out,
        completeTaskJson 2 (js "{~a~:null,~b~:[[[]]]}") = Ok out
        /\ isCompleteJson out = Ok false).
Proof.
  split; [|split; [|split; [split; [reflexivity|]|split]]].
  - apply (completed_isCompleteJson 0
             (js "{~title~:~x~,~dependencies~:null}")
             (JObj [(js "title", JStr (js "x"));
                    (js "dependencies", JNull)]));
      vm_compute; reflexivity.
  - apply (completed_isCompleteJson 0
             (js "{~details~:~ ~}")
             (JObj [(js "details", JStr (js " "))]));
      vm_compute; reflexivity.
  - apply (completed_isCompleteJson 0
             (js "{~a~:null}") (JObj [(js "a", JNull)]));
      vm_compute; reflexivity.
  - apply (completed_isCompleteJson 0
             (js "{~a~:null,~b~:[[[]]]}")
             (JObj [(js "a", JNull); (js "b", JArr [JArr [JArr []]])]));
      vm_compute; reflexivity.
  - apply (completed_isCompleteJson 2
             (js "{~a~:null,~b~:[[[]]]}")
             (JObj [(js "a", JNull); (js "b", JArr [JArr [JArr []]])]));
      vm_compute; reflexivity.
Defined.

(** ** The braces of the stripped text *)

Lemma drop_space_split (s : jsstring) :
  exists ws, s = ws ++ drop_space s /\ Forall (fun x => is_space x = true) ws.
Proof.
  induction s as [|x s (ws & E & F)]; cbn [drop_space].
  - exists []. auto.
  - destruct (is_space x) eqn:Hx.
    + exists (x :: ws). cbn [app]. split; [congruence|auto].
    + exists []. auto.
Qed.

Lemma trim_split (s : jsstring) :
  exists ws1 ws2,
    s = ws1 ++ trim s ++ ws2
    /\ Forall (fun x => is_space x = true) ws1
    /\ Forall (fun x => is_space x = true) ws2.
Proof.
  unfold trim.
  destruct (drop_space_split s) as (ws1 & E1 & F1).
  destruct (drop_space_split (rev (drop_space s))) as (ws2 & E2 & F2).
  exists ws1, (rev ws2). split; [|split; [exact F1|apply Forall_rev; exact F2]].
  rewrite <- rev_app_distr, <- E2, rev_involutive. exact E1.
Qed.

Lemma braces_trim (s : jsstring) : braces (trim s) = braces s.
Proof.
  destruct (trim_split s) as (ws1 & ws2 & E & F1 & F2).
  rewrite E at 2. rewrite !braces_app.
  rewrite (braces_spaces _ F1), (braces_spaces _ F2), app_nil_r.
  reflexivity.
Qed.

Lemma braces_none (w : jsstring) :
  Forall (fun x => is_brace x = false) w -> braces w = [].
Proof.
  induction 1 as [|x w Hx F IH]; [reflexivity|].
  rewrite braces_cons, Hx. exact IH.
Qed.

Lemma space_not_brace (x : N) : is_space x = true -> is_brace x = false.
Proof. unfold is_brace. intros H. units. Qed.

Lemma word_not_brace (x : N) : is_word x = true -> is_brace x = false.
Proof. unfold is_brace, is_word. intros H. units. Qed.

Ltac no_brace :=
  cbn; intros H;
  repeat match goal with
  | H : _ \/ _ |- _ => destruct H as [H|H]
  | H : False |- _ => destruct H
  end;
  first [ apply space_not_brace; exact H
        | apply word_not_brace; exact H
        | subst; reflexivity ].

Lemma strip_patterns_braces :
  Forall (fun re => forall x, pattern_units (re_pat re) x ->
                              is_brace x = false)
    [re_fence_json; re_fence_open; re_fence_close; re_decl "const";
     re_decl "let"; re_decl "var"; re_semicolon].
Proof. repeat (constructor; [intros x; no_brace|]). constructor. Qed.

Lemma delete_braces re (s : jsstring) :
  (forall x, pattern_units (re_pat re) x -> is_brace x = false) ->
  braces (replace s re []) = braces s.
Proof.
  intros U.
  assert (H : forall w cs, matches (re_pat re) w cs ->
                filter is_brace (expand [] cs) = filter is_brace w).
  { intros w cs M. apply matches_units in M. symmetry.
    apply braces_none. eapply Forall_impl; [|exact M]. exact U. }
  unfold replace. destruct (re_global re).
  - apply (replace_all_filter is_brace re [] H s None O).
  - apply (replace_first_filter is_brace re [] H).
Qed.

Lemma strip_wrapping_braces (s : jsstring) :
  braces (strip_wrapping s) = braces s.
Proof.
  pose proof strip_patterns_braces as F.
  repeat match goal with
  | F : Forall _ (_ :: _) |- _ =>
      let H := fresh "U" in inversion F as [|? ? H F']; subst; clear F;
      rename F' into F
  end.
  unfold strip_wrapping.
  rewrite !delete_braces by assumption. apply braces_trim.
Qed.

(** ** A text with a brace that is closed *)

Lemma parse_brace_object (s : jsstring) (v : value) :
  JSON_parse (ch "{" :: s) = Ok v -> exists o, v = JObj o.
Proof.
  unfold JSON_parse. rewrite skip_ws_stop by reflexivity.
  destruct (2 * length (ch "{" :: s) + 1)%nat as [|n]; [discriminate|].
  cbn [parse_value]. rewrite N.eqb_refl.
  destruct (skip_ws s) as [|c2 r2]; [discriminate|].
  destruct (c2 =? ch "}").
  - destruct (skip_ws r2); [|discriminate]. intros H. injection H as <-.
    eexists. reflexivity.
  - destruct (parse_members n (c2 :: r2)) as [[m rest]|]; [|discriminate].
    destruct (skip_ws rest); [|discriminate]. intros H. injection H as <-.
    eexists. reflexivity.
Qed.

Lemma parses_brace_object (s : jsstring) :
  parses (ch "{" :: s) = true -> exists o, JSON_parse (ch "{" :: s) = Ok (JObj o).
Proof.
  intros H. apply parses_true_ok in H as (v & P).
  destruct (parse_brace_object _ _ P) as (o & ->). exists o. exact P.
Qed.

Lemma candidate_open_close (text : jsstring) :
  open_then_close text = true ->
  exists body, candidate text = ch "{" :: body ++ [ch "}"].
Proof.
  intros H. unfold candidate, pick_match.
  assert (H' : open_then_close (strip_wrapping text) = true).
  { rewrite <- open_then_close_braces, strip_wrapping_braces,
      open_then_close_braces. exact H. }
  destruct (str_match (strip_wrapping text) re_object) as [m|] eqn:M.
  - apply (match_object_shape _ _ M).
  - exfalso. apply (match_object_complete _ H'). exact M.
Qed.

Lemma stage_object (body c r : jsstring) :
  c = ch "{" :: body ++ [ch "}"] ->
  r = c \/ r = repair c \/ r = convert_literal c ->
  parses r = true ->
  exists o, JSON_parse r = Ok (JObj o).
Proof.
  intros -> [->|[->| ->]] P.
  - apply parses_brace_object. exact P.
  - revert P. unfold repair.
    destruct (repair_substitutions_head (ch "{") (body ++ [ch "}"])
                (or_introl eq_refl)) as (s' & ->).
    destruct (close_open_brace s') as (x & ->).
    apply parses_brace_object.
  - revert P.
    destruct (convert_literal_head (ch "{") (body ++ [ch "}"])
                (or_introl eq_refl)) as (s' & ->).
    apply parses_brace_object.
Qed.

(** X6: when some opening brace of the text has a closing brace after it,
    [extractJson] returns the text itself or the text of a JSON object:
    never an array or a scalar, whatever else the text holds. *)
Theorem extractJson_object_or_verbatim (text r : jsstring) :
  open_then_close text = true ->
  extractJson text = Ok r ->
  r = text \/ exists o, JSON_parse r = Ok (JObj o).
Proof.
  intros H R.
  destruct (candidate_open_close text H) as (body & C).
  pose proof (stage_object body (candidate text)) as S.
  destruct (extractJson_cases text)
    as [[P E]|[(_ & P & E)|[(_ & _ & P & E)|(_ & _ & _ & E)]]];
    rewrite R in E; injection E as E.
  - right. apply (S r C); [left; exact E|]. rewrite E. exact P.
  - right. apply (S r C); [right; left; exact E|]. rewrite E. exact P.
  - right. apply (S r C); [right; right; exact E|]. rewrite E. exact P.
  - left. exact E.
Qed.

Lemma extractJson_object_or_verbatim_witness :
  (extractJson (js "[{~a~:1},{~b~:2}]") = Ok (js "[{~a~:1},{~b~:2}]")
   /\ (js "[{~a~:1},{~b~:2}]" = js "[{~a~:1},{~b~:2}]"
       \/ exists o, JSON_parse (js "[{~a~:1},{~b~:2}]") = Ok (JObj o)))
  /\ (extractJson (js "[{~a~:1}]") = Ok (js "{~a~:1}")
      /\ (js "{~a~:1}" = js "[{~a~:1}]"
          \/ exists o, JSON_parse (js "{~a~:1}") = Ok (JObj o))).
Proof.
  split.
  - assert (R : extractJson (js "[{~a~:1},{~b~:2}]")
                = Ok (js "[{~a~:1},{~b~:2}]")) by (vm_compute; reflexivity).
    split; [exact R|].
    apply (extractJson_object_or_verbatim (js "[{~a~:1},{~b~:2}]") _
             eq_refl R).
  - assert (R : extractJson (js "[{~a~:1}]") = Ok (js "{~a~:1}"))
      by (vm_compute; reflexivity).
    split; [exact R|].
    apply (extractJson_object_or_verbatim (js "[{~a~:1}]") _ eq_refl R).
Defined.

(** ** Extracting from what was completed *)

Lemma extractJson_braced_object (body : jsstring) (o : object) :
  JSON_parse (ch "{" :: body ++ [ch "}"]) = Ok (JObj o) ->
  has_fence (ch "{" :: body ++ [ch "}"]) = false ->
  extractJson (ch "{" :: body ++ [ch "}"]) = Ok (ch "{" :: body ++ [ch "}"]).
Proof.
  intros P Hf.
  assert (C : candidate (ch "{" :: body ++ [ch "}"])
              = ch "{" :: body ++ [ch "}"]).
  { apply candidate_object_framed; [exact Hf|].
    exists [], []. split; [rewrite app_nil_r; reflexivity|].
    split; constructor. }
  rewrite extractJson_first; rewrite C; [reflexivity|].
  unfold parses. rewrite P. reflexivity.
Qed.

Lemma stringify_object_braced (m : object) :
  m <> [] ->
  exists body, json_text (JObj m) = ch "{" :: body ++ [ch "}"].
Proof.
  intros Nm. destruct m as [|kv m]; [contradiction|].
  unfold json_text. rewrite serialize_obj.
  eexists (LF :: ([] ++ js "  ")
           ++ join (ch "," :: LF :: [] ++ js "  ")
                   (map (member_text ([] ++ js "  ")) (kv :: m))
           ++ [LF]).
  cbn [app]. f_equal. f_equal. rewrite <- !app_assoc. reflexivity.
Qed.

Lemma complete_object_not_nil (parsed : value) :
  complete_object parsed <> [].
Proof.
  intros E.
  apply (task_layout_keys _ (js "title") (complete_object_layout parsed)).
  - left. reflexivity.
  - rewrite E. reflexivity.
Qed.

(** X7: what [completeTaskJson] returns goes through [extractJson] unchanged,
    unless it holds a run of three backticks.  The numbers of a parsed
    object or array are to be such as are read back from their printed
    form. *)
Theorem extractJson_keeps_completed (room : nat) (text out : jsstring) :
  (forall v, JSON_parse text = Ok v -> structured v = true ->
             stable v = true) ->
  completeTaskJson room text = Ok out ->
  has_fence out = false ->
  extractJson out = Ok out.
Proof.
  intros St R Hf.
  destruct (JSON_parse text) as [v|e] eqn:P.
  - destruct (structured v) eqn:S.
    + pose proof (completeTaskJson_reparsed text v P (St v eq_refl S)) as P1.
      destruct (completeTaskJson_outcome room text v P S)
        as [[_ R1]|[_ R1]]; rewrite R1 in R; injection R as <-.
      * destruct (stringify_object_braced _ (complete_object_not_nil v))
          as (body & E).
        rewrite E in *. apply (extractJson_braced_object _ _ P1 Hf).
      * vm_compute. reflexivity.
    + rewrite (completeTaskJson_scalar room text v P S) in R.
      injection R as <-. vm_compute. reflexivity.
  - rewrite (completeTaskJson_throw room text e P) in R. injection R as <-.
    vm_compute. reflexivity.
Qed.

Lemma extractJson_keeps_completed_witness :
  exists out,
    completeTaskJson 0 (js "{~title~:~a `b`~,~n~:[1]}") = Ok out
    /\ extractJson out = Ok out.
Proof.
  assert (R : exists out,
            completeTaskJson 0 (js "{~title~:~a `b`~,~n~:[1]}") = Ok out
            /\ has_fence out = false).
  { eexists. split; [vm_compute; reflexivity|]. vm_compute. reflexivity. }
  destruct R as (out & R & Hf). exists out. split; [exact R|].
  apply (extractJson_keeps_completed 0
           (js "{~title~:~a `b`~,~n~:[1]}") out); [|exact R|exact Hf].
  intros v P _. vm_compute in P. injection P as <-. vm_compute. reflexivity.
Defined.

(** ** Blank input *)

Lemma blank_no_parse (text : jsstring) :
  Forall (fun c => is_space c = true) text ->
  JSON_parse text = Throw SyntaxError.
Proof.
  intros F. unfold JSON_parse.
  replace (2 * length text + 1)%nat with (S (2 * length text)) by lia.
  destruct (skip_ws text) as [|c r] eqn:W; [reflexivity|].
  apply skip_ws_cons in W as (ws & E & _ & Hw).
  rewrite E in F. apply Forall_app in F as [_ F].
  inversion F as [|? ? Hc _]; subst.
  assert (H1 : (c =? ch "{") = false) by units.
  assert (H2 : (c =? ch "[") = false) by units.
  assert (H3 : (c =? dq) = false) by units.
  assert (H4 : (c =? ch "t") = false) by units.
  assert (H5 : (c =? ch "f") = false) by units.
  assert (H6 : (c =? ch "n") = false) by units.
  assert (H7 : (c =? ch "-") = false) by units.
  assert (H8 : (c =? ch "0") = false) by units.
  assert (H9 : is_digit c = false) by units.
  cbn [parse_value]. rewrite H1, H2. unfold parse_scalar.
  rewrite H3, H4, H5, H6. unfold lex_number. rewrite H7.
  unfold lex_int. rewrite H8, H9. reflexivity.
Qed.

Lemma blank_candidate (text : jsstring) :
  Forall (fun c => is_space c = true) text -> candidate text = [].
Proof.
  intros F. unfold candidate, strip_wrapping.
  rewrite (proj2 (trim_nil text) F). reflexivity.
Qed.

(** X8: a text of whitespace only, the empty text included: [extractJson]
    returns it as it is, [isCompleteJson] is false and [completeTaskJson]
    returns the error-recovery task. *)
Theorem blank_text (room : nat) (text : jsstring) :
  Forall (fun c => is_space c = true) text ->
  extractJson text = Ok text
  /\ isCompleteJson text = Ok false
  /\ completeTaskJson room text = Ok (json_text error_recovery_task).
Proof.
  intros F. pose proof (blank_no_parse text F) as P.
  pose proof (blank_candidate text F) as C.
  split; [|split].
  - destruct (extractJson_cases text)
      as [[P1 E]|[(_ & P1 & E)|[(_ & _ & P1 & E)|(_ & _ & _ & E)]]];
      [exfalso..|exact E]; revert P1; rewrite C; vm_compute; discriminate.
  - unfold isCompleteJson. rewrite P. reflexivity.
  - apply (completeTaskJson_throw room text _ P).
Qed.

Lemma blank_text_witness :
  extractJson (js " " ++ [LF; 160]) = Ok (js " " ++ [LF; 160])
  /\ isCompleteJson (js " " ++ [LF; 160]) = Ok false
  /\ completeTaskJson 0 (js " " ++ [LF; 160])
     = Ok (json_text error_recovery_task).
Proof.
  apply (blank_text 0 (js " " ++ [LF; 160])).
  repeat constructor.
Defined.

(** ** The text of a scalar *)

Lemma digits_end (x d : jsstring) :
  d <> [] -> Forall (fun c => is_digit c = true) d ->
  exists b c, x ++ d = b ++ [c] /\ is_digit c = true.
Proof.
  intros Nd F. destruct (exists_last Nd) as (d' & c & ->).
  apply Forall_app in F as [_ F]. inversion F as [|? ? Hc _]; subst.
  exists (x ++ d'), c. split; [app_norm; reflexivity|exact Hc].
Qed.

Lemma lex_int_digits (s d r : jsstring) :
  lex_int s = Some (d, r) ->
  s = d ++ r /\ d <> [] /\ Forall (fun c => is_digit c = true) d.
Proof.
  intros H. destruct (lex_int_local _ _ _ H) as (E & Nd & _).
  split; [exact E|]. split; [exact Nd|].
  unfold lex_int in H. destruct s as [|c s]; [discriminate|].
  destruct (c =? ch "0") eqn:Z.
  - injection H as <- _. apply N.eqb_eq in Z. subst c.
    constructor; [reflexivity|constructor].
  - destruct (is_digit c) eqn:D; [|discriminate]. injection H as H.
    apply (take_digits_spec (c :: s) d r) in H. apply H.
Qed.

Lemma lex_frac_digits (s d r : jsstring) :
  lex_frac s = Some (d, r) ->
  s = r
  \/ exists d', d' <> [] /\ Forall (fun c => is_digit c = true) d'
                /\ s = (ch "." :: d') ++ r.
Proof.
  unfold lex_frac. destruct s as [|c s].
  - intros H. injection H as _ <-. left. reflexivity.
  - destruct (c =? ch ".") eqn:P.
    + apply N.eqb_eq in P. subst c.
      destruct (take_digits s) as [[|y d'] r'] eqn:T; [discriminate|].
      intros H. injection H as _ <-.
      apply take_digits_spec in T as (E & F & _).
      right. exists (y :: d'). split; [discriminate|]. split; [exact F|].
      rewrite E. reflexivity.
    + intros H. injection H as _ <-. left. reflexivity.
Qed.

Lemma lex_exp_digits (s : jsstring) (e : Z) (r : jsstring) :
  lex_exp s = Some (e, r) ->
  s = r
  \/ exists p d', d' <> [] /\ Forall (fun c => is_digit c = true) d'
                  /\ s = (p ++ d') ++ r.
Proof.
  unfold lex_exp. destruct s as [|c s].
  - intros H. injection H as _ <-. left. reflexivity.
  - destruct ((c =? ch "e") || (c =? ch "E")).
    + destruct s as [|g r0].
      * cbn [take_digits]. discriminate.
      * destruct (g =? ch "-") eqn:Gm.
        -- destruct (take_digits r0) as [[|y d] r2] eqn:T; [discriminate|].
           intros H. injection H as _ <-.
           apply take_digits_spec in T as (E1 & F & _).
           right. exists [c; g], (y :: d). split; [discriminate|].
           split; [exact F|]. rewrite E1. reflexivity.
        -- destruct (g =? ch "+") eqn:Gp.
           ++ destruct (take_digits r0) as [[|y d] r2] eqn:T;
                [discriminate|].
              intros H. injection H as _ <-.
              apply take_digits_spec in T as (E1 & F & _).
              right. exists [c; g], (y :: d). split; [discriminate|].
              split; [exact F|]. rewrite E1. reflexivity.
           ++ destruct (take_digits (g :: r0)) as [[|y d] r2] eqn:T;
                [discriminate|].
              intros H. injection H as _ <-.
              apply take_digits_spec in T as (E1 & F & _).
              right. exists [c], (y :: d). split; [discriminate|].
              split; [exact F|]. rewrite E1. reflexivity.
    + intros H. injection H as _ <-. left. reflexivity.
Qed.

Lemma lex_number_end (s : jsstring) (n : numeral) (r : jsstring) :
  lex_number s = Some (n, r) ->
  exists b c, s = (b ++ [c]) ++ r /\ is_digit c = true.
Proof.
  unfold lex_number.
  assert (G : forall x s1,
            s = x ++ s1 ->
            match lex_int s1 with
            | Some (ip, s2) =>
                match lex_frac s2 with
                | Some (fp, s3) =>
                    match lex_exp s3 with
                    | Some (ex, s4) => Some (s4)
                    | None => None
                    end
                | None => None
                end
            | None => None
            end = Some r ->
            exists b c, s = (b ++ [c]) ++ r /\ is_digit c = true).
  { intros x s1 E.
    destruct (lex_int s1) as [[ip s2]|] eqn:I; [|discriminate].
    destruct (lex_frac s2) as [[fp s3]|] eqn:Fr; [|discriminate].
    destruct (lex_exp s3) as [[ex s4]|] eqn:Ex; [|discriminate].
    intros H. injection H as <-.
    apply lex_int_digits in I as (E1 & N1 & F1).
    apply lex_frac_digits in Fr. apply lex_exp_digits in Ex.
    destruct Ex as [Ex|(p & d3 & N3 & F3 & Ex)].
    - destruct Fr as [Fr|(d2 & N2 & F2 & Fr)].
      + destruct (digits_end x ip N1 F1) as (b & c & Eb & Hc).
        exists b, c. split; [|exact Hc].
        rewrite <- Eb, E, E1, Fr, Ex. app_norm. reflexivity.
      + destruct (digits_end (x ++ ip ++ [ch "."]) d2 N2 F2)
          as (b & c & Eb & Hc).
        exists b, c. split; [|exact Hc].
        rewrite <- Eb, E, E1, Fr, Ex. app_norm. reflexivity.
    - destruct Fr as [Fr|(d2 & N2 & F2 & Fr)].
      + destruct (digits_end (x ++ ip ++ p) d3 N3 F3) as (b & c & Eb & Hc).
        exists b, c. split; [|exact Hc].
        rewrite <- Eb, E, E1, Fr, Ex. app_norm. reflexivity.
      + destruct (digits_end (x ++ ip ++ (ch "." :: d2) ++ p) d3 N3 F3)
          as (b & c & Eb & Hc).
        exists b, c. split; [|exact Hc].
        rewrite <- Eb, E, E1, Fr, Ex. app_norm. reflexivity. }
  destruct s as [|c0 s0].
  - intros H. apply (G [] []); [reflexivity|].
    destruct (lex_int []) as [[ip s2]|]; [|discriminate].
    destruct (lex_frac s2) as [[fp s3]|]; [|discriminate].
    destruct (lex_exp s3) as [[ex s4]|]; [|discriminate].
    injection H as _ <-. reflexivity.
  - destruct (c0 =? ch "-").
    + intros H. apply (G [c0] s0); [reflexivity|].
      destruct (lex_int s0) as [[ip s2]|]; [|discriminate].
      destruct (lex_frac s2) as [[fp s3]|]; [|discriminate].
      destruct (lex_exp s3) as [[ex s4]|]; [|discriminate].
      injection H as _ <-. reflexivity.
    + intros H. apply (G [] (c0 :: s0)); [reflexivity|].
      destruct (lex_int (c0 :: s0)) as [[ip s2]|]; [|discriminate].
      destruct (lex_frac s2) as [[fp s3]|]; [|discriminate].
      destruct (lex_exp s3) as [[ex s4]|]; [|discriminate].
      injection H as _ <-. reflexivity.
Qed.

Lemma string_body_end_len (n : nat) :
  forall s t r, (length s <= n)%nat ->
  string_body s = Some (t, r) -> exists b, s = (b ++ [dq]) ++ r.
Proof.
  induction n as [|n IH]; intros s t r L H.
  - destruct s; [discriminate|simpl in L; lia].
  - destruct s as [|c s]; [discriminate|]. simpl in L.
    cbn [string_body] in H.
    destruct (c =? dq) eqn:Q.
    { injection H as _ <-. apply N.eqb_eq in Q. subst c. exists [].
      reflexivity. }
    destruct (c =? ch "\") eqn:B.
    + destruct s as [|e s]; [discriminate|].
      destruct (e =? ch "u") eqn:U.
      * destruct s as [|h1 [|h2 [|h3 [|h4 s]]]]; try discriminate.
        destruct (hex4 h1 h2 h3 h4) as [u|] eqn:Hx; [|discriminate].
        destruct (string_body s) as [[t' r']|] eqn:S; [|discriminate].
        injection H as _ <-.
        apply IH in S as (b & ->); [|simpl in L; lia].
        exists (c :: e :: h1 :: h2 :: h3 :: h4 :: b). reflexivity.
      * destruct (unescape e) as [u|] eqn:Un; [|discriminate].
        destruct (string_body s) as [[t' r']|] eqn:S; [|discriminate].
        injection H as _ <-.
        apply IH in S as (b & ->); [|simpl in L; lia].
        exists (c :: e :: b). reflexivity.
    + destruct (c <? 32) eqn:C; [discriminate|].
      destruct (string_body s) as [[t' r']|] eqn:S; [|discriminate].
      injection H as _ <-.
      apply IH in S as (b & ->); [|lia].
      exists (c :: b). reflexivity.
Qed.

(** A scalar's text starts with a unit that is not whitespace and starts
    none of [const], [let], [var]; it ends with a unit that is neither
    whitespace nor a semicolon, a colon or a comma. *)
Lemma parse_scalar_ends (s : jsstring) (v : value) (r : jsstring) :
  parse_scalar s = Some (v, r) ->
  (exists c t, s = c :: t /\ is_space c = false
               /\ c <> ch "c" /\ c <> ch "l" /\ c <> ch "v")
  /\ exists b c, s = (b ++ [c]) ++ r /\ is_space c = false
                 /\ c <> ch ";" /\ c <> ch ":" /\ c <> ch ",".
Proof.
  unfold parse_scalar. destruct s as [|c s]; [discriminate|].
  destruct (c =? dq) eqn:Q.
  { apply N.eqb_eq in Q. subst c.
    destruct (string_body s) as [[t rest]|] eqn:S; [|discriminate].
    intros H. injection H as _ <-. split.
    - exists dq, s. repeat split; discriminate.
    - apply (string_body_end_len (length s)) in S as (b & ->); [|lia].
      exists (dq :: b), dq. repeat split; discriminate. }
  destruct (c =? ch "t") eqn:T.
  { apply N.eqb_eq in T. subst c.
    destruct (strip_prefix (js "rue") s) as [rest|] eqn:S; [|discriminate].
    intros H. injection H as _ <-.
    apply strip_prefix_local in S as [-> _]. split.
    - eexists _, _. repeat split; discriminate.
    - exists (js "tru"), (ch "e"). repeat split; discriminate. }
  destruct (c =? ch "f") eqn:F.
  { apply N.eqb_eq in F. subst c.
    destruct (strip_prefix (js "alse") s) as [rest|] eqn:S; [|discriminate].
    intros H. injection H as _ <-.
    apply strip_prefix_local in S as [-> _]. split.
    - eexists _, _. repeat split; discriminate.
    - exists (js "fals"), (ch "e"). repeat split; discriminate. }
  destruct (c =? ch "n") eqn:Nn.
  { apply N.eqb_eq in Nn. subst c.
    destruct (strip_prefix (js "ull") s) as [rest|] eqn:S; [|discriminate].
    intros H. injection H as _ <-.
    apply strip_prefix_local in S as [-> _]. split.
    - eexists _, _. repeat split; discriminate.
    - exists (js "nul"), (ch "l"). repeat split; discriminate. }
  destruct (lex_number (c :: s)) as [[n rest]|] eqn:L; [|discriminate].
  intros H. injection H as _ <-. split.
  - exists c, s. split; [reflexivity|].
    unfold lex_number in L.
    destruct (c =? ch "-") eqn:M.
    + apply N.eqb_eq in M. subst c. repeat split; discriminate.
    + destruct (lex_int (c :: s)) as [[ip s2]|] eqn:I; [|discriminate].
      unfold lex_int in I.
      destruct (c =? ch "0") eqn:Z.
      * apply N.eqb_eq in Z. subst c. repeat split; discriminate.
      * destruct (is_digit c) eqn:D; [|discriminate].
        repeat split; units.
  - apply lex_number_end in L as (b & d & E & Hd).
    exists b, d. split; [exact E|]. repeat split; units.
Qed.

(** ** A scalar as the whole text *)

Lemma trim_core (ws1 ws2 t b : jsstring) (c0 c1 : N) :
  Forall (fun x => is_space x = true) ws1 ->
  Forall (fun x => is_space x = true) ws2 ->
  is_space c0 = false -> is_space c1 = false ->
  c0 :: t = b ++ [c1] ->
  trim (ws1 ++ (c0 :: t) ++ ws2) = c0 :: t.
Proof.
  intros F1 F2 H0 H1 E. unfold trim. cbn [app].
  rewrite (drop_space_over _ _ _ F1 H0).
  change (c0 :: t ++ ws2) with ((c0 :: t) ++ ws2). rewrite E.
  rewrite !rev_app_distr. cbn [rev app].
  rewrite (drop_space_over _ _ _ (Forall_rev F2) H1).
  cbn [rev]. rewrite rev_involutive. reflexivity.
Qed.

(** Nothing goes when the text ends with a unit that is neither whitespace
    nor a semicolon. *)
Lemma replace_semicolon_end (b : jsstring) (c : N) :
  is_space c = false -> c <> ch ";" ->
  replace (b ++ [c]) re_semicolon [] = b ++ [c].
Proof.
  intros Hs Hc. unfold replace, replace_first.
  change (re_global re_semicolon) with false. cbn iota.
  destruct (search re_semicolon None (b ++ [c])) as [[[before m] st]|] eqn:S;
    [|reflexivity].
  cbn [expand app].
  destruct (search_exec _ _ _ _ _ _ S) as (v & s' & _ & Ex).
  apply exec_semicolon_end in Ex. rewrite Ex, app_nil_r.
  apply search_sound in S as [Es M]. rewrite Ex, app_nil_r in Es.
  apply matches_units in M.
  destruct m as [|x m]; [rewrite app_nil_r in Es; congruence|].
  exfalso.
  destruct (@exists_last _ (x :: m) ltac:(discriminate)) as (m' & y & Em).
  rewrite Em in Es, M. rewrite app_assoc in Es.
  apply app_inj_tail in Es as [_ <-].
  apply Forall_app in M as [_ M]. inversion M as [|? ? Hy _]; subst.
  cbn in Hy. destruct Hy as [[Hy|[]]|[Hy|[]]]; congruence.
Qed.

Lemma decl_no_match_head (c : N) (s : jsstring) :
  c <> ch "c" -> c <> ch "l" -> c <> ch "v" ->
  exec_at (re_decl "const") None (c :: s) = None
  /\ exec_at (re_decl "let") None (c :: s) = None
  /\ exec_at (re_decl "var") None (c :: s) = None.
Proof.
  intros H1 H2 H3.
  apply N.eqb_neq in H1, H2, H3.
  change (ch "c") with 99 in H1. change (ch "l") with 108 in H2.
  change (ch "v") with 118 in H3.
  unfold exec_at. cbn. rewrite H1, H2, H3. auto.
Qed.

Lemma match_array_none (s : jsstring) :
  Forall (fun x => x <> ch "[") s -> str_match s re_array = None.
Proof.
  intros F. unfold str_match.
  change re_array with (re_span (ch "[") (ch "]")).
  rewrite search_no_open by exact F. reflexivity.
Qed.

Lemma candidate_plain (ws1 ws2 b t : jsstring) (c0 c1 : N) :
  Forall (fun x => is_space x = true) ws1 ->
  Forall (fun x => is_space x = true) ws2 ->
  c0 :: t = b ++ [c1] ->
  is_space c0 = false -> c0 <> ch "c" -> c0 <> ch "l" -> c0 <> ch "v" ->
  is_space c1 = false -> c1 <> ch ";" ->
  has_fence (c0 :: t) = false ->
  Forall (fun x => x <> ch "{" /\ x <> ch "[") (c0 :: t) ->
  candidate (ws1 ++ (c0 :: t) ++ ws2) = c0 :: t.
Proof.
  intros W1 W2 E S0 Hc Hl Hv S1 Hs Hf F. unfold candidate, strip_wrapping.
  rewrite (trim_core ws1 ws2 t b c0 c1 W1 W2 S0 S1 E).
  destruct (replace_fences_id _ Hf) as (R1 & R2 & R3).
  rewrite R1, R2, R3.
  destruct (decl_no_match_head c0 t Hc Hl Hv) as (D1 & D2 & D3).
  rewrite (replace_decl_id _ _ D1), (replace_decl_id _ _ D2),
    (replace_decl_id _ _ D3).
  rewrite E, (replace_semicolon_end b c1 S1 Hs), <- E.
  unfold pick_match.
  rewrite match_object_none, match_array_none; [reflexivity| |];
    (eapply Forall_impl; [|exact F]); cbn beta; intros x H; apply H.
Qed.

Lemma parse_value_plain (n : nat) (c : N) (s : jsstring) :
  c <> ch "{" -> c <> ch "[" ->
  parse_value (S n) (c :: s) = parse_scalar (c :: s).
Proof.
  intros H1 H2. apply N.eqb_neq in H1, H2. cbn [parse_value].
  rewrite H1, H2. reflexivity.
Qed.

(** The text of a scalar between JSON whitespace. *)
Lemma JSON_parse_scalar_shape (text : jsstring) (v : value) :
  JSON_parse text = Ok v ->
  Forall (fun x => x <> ch "{" /\ x <> ch "[") text ->
  exists ws1 c0 t b c1 ws2,
    text = ws1 ++ (c0 :: t) ++ ws2 /\ json_space ws1 /\ json_space ws2
    /\ JSON_parse (c0 :: t) = Ok v
    /\ c0 :: t = b ++ [c1]
    /\ is_space c0 = false /\ c0 <> ch "c" /\ c0 <> ch "l" /\ c0 <> ch "v"
    /\ is_space c1 = false /\ c1 <> ch ";".
Proof.
  unfold JSON_parse at 1. intros H F.
  destruct (parse_value (2 * length text + 1) (skip_ws text))
    as [[v' rest]|] eqn:P; [|discriminate].
  destruct (skip_ws rest) eqn:W; [|discriminate].
  injection H as ->.
  destruct (parse_local (2 * length text + 1)) as (LV & _ & _).
  pose proof P as P'.
  apply LV in P' as (pre & E & Np & _ & L).
  destruct (skip_ws_split text) as (ws1 & Et & F1).
  destruct (nonws_head _ _ _ Np E) as (c & p & -> & Hc).
  assert (Hb : c <> ch "{" /\ c <> ch "[").
  { rewrite Et, E in F. apply Forall_app in F as [_ F].
    inversion F; assumption. }
  replace (2 * length text + 1)%nat with (S (2 * length text)) in P by lia.
  rewrite E in P. cbn [app] in P.
  rewrite (parse_value_plain _ _ _ (proj1 Hb) (proj2 Hb)) in P.
  apply parse_scalar_ends in P
    as ((c0 & t & E0 & S0 & A1 & A2 & A3) & (b & c1 & E1 & S1 & B1 & _)).
  injection E0 as <- _.
  change (c :: p ++ rest) with ((c :: p) ++ rest) in E1.
  apply app_inv_tail in E1.
  exists ws1, c, p, b, c1, rest.
  split; [rewrite Et, E; reflexivity|]. split; [exact F1|].
  split; [apply skip_ws_nil; exact W|].
  split; [|repeat split; assumption].
  unfold JSON_parse. rewrite (skip_ws_stop _ _ Hc).
  pose proof (L (2 * length (c :: p) + 1)%nat [] ltac:(lia) eq_refl) as Lx.
  rewrite app_nil_r in Lx. rewrite Lx. reflexivity.
Qed.

(** X9: a JSON text without braces, brackets or a run of three backticks (a
    number, a literal name, a string without those units) is returned
    trimmed. *)
Theorem extractJson_plain_scalar (text : jsstring) (v : value) :
  JSON_parse text = Ok v ->
  Forall (fun x => x <> ch "{" /\ x <> ch "[") text ->
  has_fence text = false ->
  extractJson text = Ok (trim text).
Proof.
  intros P F Hf.
  destruct (JSON_parse_scalar_shape _ _ P F)
    as (ws1 & c0 & t & b & c1 & ws2 & -> & F1 & F2 & Pc & E & S0 & Hc & Hl
        & Hv & S1 & Hs).
  apply has_fence_suffix in Hf. apply has_fence_prefix in Hf.
  apply Forall_app in F as [_ F]. apply Forall_app in F as [F _].
  rewrite (trim_core ws1 ws2 t b c0 c1 (json_space_spaces _ F1)
             (json_space_spaces _ F2) S0 S1 E).
  assert (C : candidate (ws1 ++ (c0 :: t) ++ ws2) = c0 :: t).
  { apply (candidate_plain ws1 ws2 b t c0 c1); try assumption;
      apply json_space_spaces; assumption. }
  rewrite extractJson_first; rewrite C; [reflexivity|].
  unfold parses. rewrite Pc. reflexivity.
Qed.

Lemma extractJson_plain_scalar_witness :
  extractJson (js "  -12.5e3 " ++ [LF]) = Ok (js "-12.5e3")
  /\ extractJson (js " ~a; b~") = Ok (js "~a; b~").
Proof.
  split.
  - change (js "-12.5e3") with (trim (js "  -12.5e3 " ++ [LF])).
    apply (extractJson_plain_scalar _
             (JNum (S754_finite true 6871947673600000 (-39)))).
    + vm_compute. reflexivity.
    + repeat (constructor; [split; intros E; vm_compute in E;
                            discriminate E|]).
      constructor.
    + vm_compute. reflexivity.
  - change (js "~a; b~") with (trim (js " ~a; b~")).
    apply (extractJson_plain_scalar _ (JStr (js "a; b"))).
    + vm_compute. reflexivity.
    + repeat (constructor; [split; intros E; vm_compute in E;
                            discriminate E|]).
      constructor.
    + vm_compute. reflexivity.
Defined.

(** ** Whitespace around the text *)

Lemma drop_space_app (ws s : jsstring) :
  Forall (fun x => is_space x = true) ws ->
  drop_space (ws ++ s) = drop_space s.
Proof.
  induction 1 as [|x ws Hx F IH]; cbn [app drop_space]; [reflexivity|].
  rewrite Hx. exact IH.
Qed.

Lemma drop_space_keep (s ws : jsstring) :
  drop_space s <> [] -> drop_space (s ++ ws) = drop_space s ++ ws.
Proof.
  induction s as [|x s IH]; cbn [app drop_space]; [contradiction|].
  destruct (is_space x); [exact IH|reflexivity].
Qed.

Lemma trim_padded (ws1 ws2 s : jsstring) :
  Forall (fun x => is_space x = true) ws1 ->
  Forall (fun x => is_space x = true) ws2 ->
  trim (ws1 ++ s ++ ws2) = trim s.
Proof.
  intros F1 F2. unfold trim. rewrite (drop_space_app _ _ F1).
  destruct (drop_space s) as [|c t] eqn:D.
  - apply drop_space_nil in D.
    assert (E : drop_space (s ++ ws2) = []).
    { apply drop_space_nil. apply Forall_app. auto. }
    rewrite E. reflexivity.
  - rewrite drop_space_keep by (rewrite D; discriminate). rewrite D.
    rewrite rev_app_distr, (drop_space_app _ _ (Forall_rev F2)).
    reflexivity.
Qed.

Lemma candidate_padded (ws1 ws2 s : jsstring) :
  Forall (fun x => is_space x = true) ws1 ->
  Forall (fun x => is_space x = true) ws2 ->
  candidate (ws1 ++ s ++ ws2) = candidate s.
Proof.
  intros F1 F2. unfold candidate, strip_wrapping.
  rewrite (trim_padded _ _ _ F1 F2). reflexivity.
Qed.

Lemma extractJson_by_candidate (a b : jsstring) :
  candidate a = candidate b ->
  extractJson a = extractJson b
  \/ (extractJson a = Ok a /\ extractJson b = Ok b).
Proof.
  intros E.
  pose proof (extractJson_cases a) as Ha.
  pose proof (extractJson_cases b) as Hb.
  cbv zeta in Ha, Hb. rewrite E in Ha.
  revert Ha Hb. generalize (candidate b). intros c Ha Hb.
  destruct Ha as [[P1 E1]|[(P1 & P2 & E1)|[(P1 & P2 & P3 & E1)
                                          |(P1 & P2 & P3 & E1)]]];
    destruct Hb as [[Q1 E2]|[(Q1 & Q2 & E2)|[(Q1 & Q2 & Q3 & E2)
                                            |(Q1 & Q2 & Q3 & E2)]]];
    try congruence; try (left; congruence).
  right. auto.
Qed.

(** X10: whitespace around the text does not change what [extractJson] finds:
    the result is the same, or each text is returned as it is. *)
Theorem extractJson_padded (ws1 ws2 text : jsstring) :
  Forall (fun x => is_space x = true) ws1 ->
  Forall (fun x => is_space x = true) ws2 ->
  extractJson (ws1 ++ text ++ ws2) = extractJson text
  \/ (extractJson (ws1 ++ text ++ ws2) = Ok (ws1 ++ text ++ ws2)
      /\ extractJson text = Ok text).
Proof.
  intros F1 F2. apply extractJson_by_candidate.
  apply candidate_padded; assumption.
Qed.

Lemma extractJson_padded_witness :
  extractJson ([LF; 160] ++ js "x = {a: 1}" ++ js "  ")
  = extractJson (js "x = {a: 1}")
  \/ (extractJson ([LF; 160] ++ js "x = {a: 1}" ++ js "  ")
      = Ok ([LF; 160] ++ js "x = {a: 1}" ++ js "  ")
      /\ extractJson (js "x = {a: 1}") = Ok (js "x = {a: 1}")).
Proof.
  apply (extractJson_padded [LF; 160] (js "  ") (js "x = {a: 1}"));
    repeat constructor.
Defined.

(** ** JSON whitespace around a JSON text *)

Lemma parse_value_scalar (n : nat) (s : jsstring) (v : value)
    (r : jsstring) :
  parse_value n s = Some (v, r) -> structured v = false ->
  parse_scalar s = Some (v, r).
Proof.
  destruct n as [|n]; [discriminate|]. cbn [parse_value].
  destruct s as [|x r0]; [discriminate|].
  destruct (x =? ch "{").
  { destruct (skip_ws r0) as [|c2 r2]; [discriminate|].
    destruct (c2 =? ch "}").
    - intros H. injection H as <- _. discriminate.
    - destruct (parse_members n (c2 :: r2)) as [[m rest]|]; [|discriminate].
      intros H. injection H as <- _. discriminate. }
  destruct (x =? ch "[").
  { destruct (skip_ws r0) as [|c2 r2]; [discriminate|].
    destruct (c2 =? ch "]").
    - intros H. injection H as <- _. discriminate.
    - destruct (parse_elements n (c2 :: r2)) as [[l rest]|]; [|discriminate].
      intros H. injection H as <- _. discriminate. }
  auto.
Qed.

(** The text of a value ends with a unit that is neither whitespace nor a
    colon or a comma. *)
Lemma value_text_end (n : nat) (s : jsstring) (v : value) (r : jsstring) :
  parse_value n s = Some (v, r) ->
  exists b c, s = (b ++ [c]) ++ r /\ is_space c = false /\ c <> ch ":"
              /\ c <> ch ",".
Proof.
  intros P. destruct v as [|bv|x|str|l|o].
  1-4: apply parse_value_scalar in P; [|reflexivity];
       apply parse_scalar_ends in P as (_ & b & c & E & Hs & _ & Hc);
       exists b, c; auto.
  - apply parse_array_shape in P as (body & ->).
    exists (ch "[" :: body), (ch "]").
    split; [reflexivity|split; [reflexivity|split; discriminate]].
  - destruct (parse_local n) as (LV & _ & _).
    apply LV in P as (pre & -> & _ & Ho & _).
    destruct (Ho _ eq_refl) as (body & ->).
    exists (ch "{" :: body), (ch "}").
    split; [reflexivity|split; [reflexivity|split; discriminate]].
Qed.

Lemma skip_ws_keep (s ws : jsstring) :
  skip_ws s <> [] -> skip_ws (s ++ ws) = skip_ws s ++ ws.
Proof.
  induction s as [|x s IH]; cbn [app skip_ws]; [contradiction|].
  destruct (is_json_ws x); [exact IH|reflexivity].
Qed.

Lemma json_space_follow (ws : jsstring) : json_space ws -> follow_ok ws = true.
Proof.
  intros F. destruct F as [|x ws Hx _]; [reflexivity|].
  apply (json_ws_follow x Hx).
Qed.

Lemma json_space_skip (ws : jsstring) : json_space ws -> skip_ws ws = [].
Proof.
  induction 1 as [|x ws Hx F IH]; cbn [skip_ws]; [reflexivity|].
  rewrite Hx. exact IH.
Qed.

(** What [skip_ws] leaves of a padded text and what the parser then reads
    and leaves. *)
Lemma read_padded (s ws2 pre rest : jsstring) (b : jsstring) (c : N) :
  json_space ws2 -> json_space rest ->
  pre = b ++ [c] -> is_json_ws c = false ->
  skip_ws (s ++ ws2) = pre ++ rest ->
  exists rest', skip_ws s = pre ++ rest' /\ json_space rest'.
Proof.
  intros F2 Fr -> Hc E.
  destruct (skip_ws s) as [|x t] eqn:W.
  - apply skip_ws_nil in W.
    assert (N0 : skip_ws (s ++ ws2) = []).
    { apply json_space_skip. apply Forall_app. auto. }
    rewrite N0 in E. destruct b; discriminate E.
  - rewrite skip_ws_keep in E by (rewrite W; discriminate).
    rewrite W in E.
    (* the last unit that is not whitespace is [c] on both sides *)
    assert (G : forall (u : jsstring) (w1 w2 : jsstring),
              json_space w1 -> json_space w2 ->
              u ++ w1 = (b ++ [c]) ++ w2 ->
              exists w, u = (b ++ [c]) ++ w /\ json_space w).
    { intros u w1. revert u.
      induction w1 as [|y w1 IH] using rev_ind; intros u w2 G1 G2 Eu.
      - rewrite app_nil_r in Eu. exists w2. auto.
      - destruct w2 as [|z w2 _] using rev_ind.
        + rewrite app_nil_r in Eu. rewrite app_assoc in Eu.
          apply app_inj_tail in Eu as [_ ->].
          apply Forall_app in G1 as [_ G1].
          inversion G1; subst. congruence.
        + rewrite !app_assoc in Eu. apply app_inj_tail in Eu as [Eu _].
          apply Forall_app in G1 as [G1 _].
          apply Forall_app in G2 as [G2 _].
          apply (IH u w2 G1 G2). rewrite Eu. app_norm. reflexivity. }
    destruct (G (x :: t) ws2 rest F2 Fr E) as (w & Ew & Fw).
    exists w. auto.
Qed.

Lemma JSON_parse_padded (ws1 ws2 s : jsstring) :
  json_space ws1 -> json_space ws2 ->
  JSON_parse (ws1 ++ s ++ ws2) = JSON_parse s.
Proof.
  intros F1 F2.
  assert (Up : forall v, JSON_parse s = Ok v ->
                         JSON_parse (ws1 ++ s ++ ws2) = Ok v).
  { intros v. unfold JSON_parse.
    destruct (parse_value (2 * length s + 1) (skip_ws s))
      as [[v' rest]|] eqn:P; [|discriminate].
    destruct (skip_ws rest) eqn:W; [|discriminate].
    intros H. injection H as ->.
    destruct (parse_local (2 * length s + 1)) as (LV & _ & _).
    apply LV in P as (pre & E & Np & _ & L).
    rewrite (skip_ws_app _ _ F1).
    rewrite skip_ws_keep by (rewrite E; destruct pre; [contradiction|discriminate]).
    rewrite E, <- app_assoc.
    apply skip_ws_nil in W.
    assert (Fr : json_space (rest ++ ws2)) by (apply Forall_app; auto).
    rewrite L.
    - rewrite (json_space_skip _ Fr). reflexivity.
    - destruct (skip_ws_split s) as (w0 & Es & _). rewrite E in Es.
      rewrite Es. list_len.
    - apply json_space_follow. exact Fr. }
  assert (Down : forall v, JSON_parse (ws1 ++ s ++ ws2) = Ok v ->
                           JSON_parse s = Ok v).
  { intros v. unfold JSON_parse.
    rewrite (skip_ws_app _ _ F1).
    destruct (parse_value (2 * length (ws1 ++ s ++ ws2) + 1)
                          (skip_ws (s ++ ws2)))
      as [[v' rest]|] eqn:P; [|discriminate].
    destruct (skip_ws rest) eqn:W; [|discriminate].
    intros H. injection H as ->.
    apply skip_ws_nil in W.
    destruct (parse_local (2 * length (ws1 ++ s ++ ws2) + 1)) as (LV & _ & _).
    pose proof (value_text_end _ _ _ _ P) as (b & c & Eb & Hs & _).
    assert (Hc : is_json_ws c = false).
    { destruct (is_json_ws c) eqn:Wc; [|reflexivity].
      apply json_ws_is_space in Wc. congruence. }
    apply LV in P as (pre & E & Np & _ & L).
    rewrite E in Eb. apply app_inv_tail in Eb.
    destruct (read_padded s ws2 pre rest b c F2 W Eb Hc E)
      as (rest' & Es & Fr').
    rewrite Es, L.
    - rewrite (json_space_skip _ Fr'). reflexivity.
    - destruct (skip_ws_split s) as (w0 & Es' & _). rewrite Es in Es'.
      rewrite Es'. list_len.
    - apply json_space_follow. exact Fr'. }
  destruct (JSON_parse s) as [v|e] eqn:Ps.
  - apply Up. reflexivity.
  - destruct (JSON_parse (ws1 ++ s ++ ws2)) as [v|e'] eqn:Pp.
    + specialize (Down v eq_refl). discriminate Down.
    + rewrite (JSON_parse_throws _ _ Ps), (JSON_parse_throws _ _ Pp).
      reflexivity.
Qed.

(** X11: [isCompleteJson] and [completeTaskJson] take no notice of JSON
    whitespace (tab, line feed, carriage return, space) around the text. *)
Theorem json_whitespace_ignored (room : nat) (ws1 ws2 text : jsstring) :
  json_space ws1 -> json_space ws2 ->
  isCompleteJson (ws1 ++ text ++ ws2) = isCompleteJson text
  /\ completeTaskJson room (ws1 ++ text ++ ws2) = completeTaskJson room text.
Proof.
  intros F1 F2. unfold isCompleteJson, completeTaskJson.
  rewrite (JSON_parse_padded _ _ _ F1 F2). auto.
Qed.

Lemma json_whitespace_ignored_witness :
  isCompleteJson ([LF; 9] ++ js "{~title~:~x~}" ++ js "  ")
  = isCompleteJson (js "{~title~:~x~}")
  /\ completeTaskJson 0 ([LF; 9] ++ js "{~title~:~x~}" ++ js "  ")
     = completeTaskJson 0 (js "{~title~:~x~}").
Proof.
  apply (json_whitespace_ignored 0 [LF; 9] (js "  ") (js "{~title~:~x~}"));
    repeat constructor.
Defined.

(** ** The braces through the passes *)

Lemma close_open_tail (s : jsstring) :
  close_open s = s \/ close_open s = s ++ [ch "}"]
  \/ close_open s = s ++ [ch "]"].
Proof.
  unfold close_open.
  destruct (startsWith s (ch "{") && negb (endsWith s (ch "}"))) eqn:A.
  - apply andb_true_iff in A as [A _].
    apply startsWith_true in A as (x & ->). cbn [app startsWith].
    change (ch "{" =? ch "[") with false. cbn [andb]. auto.
  - destruct (startsWith s (ch "[") && negb (endsWith s (ch "]"))); auto.
Qed.


(* ------------------------------------------------------------------ *)
(* ------------------------------------------------------------------ *)
(** ** Patterns that do not match *)

Lemma exec_eol_end re prev s st :
  ends_eol (re_pat re) = true -> re_multiline re = false ->
  exec_at re prev s = Some st -> m_rest st = [].
Proof.
  unfold exec_at. intros E M. rewrite M. clear M.
  generalize (MState prev s []). generalize st.
  induction (re_pat re) as [| | | |a IHa b IHb| | | |]; try discriminate E.
  - intros st0 st1 H. cbn [rmatch] in H.
    apply rmatch_sound in H as (w & cs & st2 & _ & _ & _ & H).
    apply (IHb E _ _ H).
  - intros st0 st1 H. cbn [rmatch] in H. unfold at_eol in H.
    destruct (m_rest st1) eqn:R; [|discriminate].
    injection H as <-. exact R.
Qed.

(** A replacement that is not global leaves the text as it is when no
    part of the text can be a match. *)
Lemma replace_unmatched re t (s : jsstring) :
  re_global re = false ->
  (forall before w rest cs,
     s = before ++ w ++ rest -> matches (re_pat re) w cs ->
     (ends_eol (re_pat re) = true -> re_multiline re = false -> rest = []) ->
     False) ->
  replace s re t = s.
Proof.
  intros G H. unfold replace, replace_first. rewrite G.
  destruct (search re None s) as [[[before m] st]|] eqn:S; [|reflexivity].
  exfalso.
  destruct (search_exec _ _ _ _ _ _ S) as (v & s' & _ & Ex).
  apply search_sound in S as [Es M].
  apply (H before m (m_rest st) (m_caps st) Es M).
  intros E Ml. apply (exec_eol_end re v s' st E Ml Ex).
Qed.

Lemma In_app_unit (u : N) (a b : jsstring) : In u (a ++ u :: b).
Proof. apply in_or_app. right. left. reflexivity. Qed.

Lemma Forall_not_In (u : N) (s : jsstring) :
  Forall (fun x => x <> u) s -> ~ In u s.
Proof.
  intros F H. rewrite Forall_forall in F. apply (F u H). reflexivity.
Qed.

(** The patterns that end with a closing brace need one. *)
Lemma before_brace_unmatched (s : jsstring) :
  Forall (fun x => x <> ch "}") s ->
  (forall name, replace s (re_dangling name BeforeBrace)
                  (tpl_empty_array name BeforeBrace) = s)
  /\ replace s (re_dangling_string BeforeBrace) (tpl_empty_string BeforeBrace)
     = s
  /\ replace s (re_colon BeforeBrace) (tpl_colon BeforeBrace) = s.
Proof.
  intros F. apply Forall_not_In in F.
  repeat split; [intros name| |];
    (apply replace_unmatched; [reflexivity|]);
    intros before w rest cs E M _; apply F; rewrite E;
    cbn [re_pat re_dangling re_dangling_string re_colon rseq position_pat]
      in M;
    inv_matches; apply in_or_app; right; apply in_or_app; left;
    repeat rewrite <- app_assoc; repeat (apply in_or_app; right);
    cbn [app]; auto using in_eq, In_app_unit.
Qed.

(** ** The matcher finds the match that there is *)

Lemma after_cons (prev : option N) (x : N) (w : jsstring) :
  after prev (x :: w) = after (Some x) w.
Proof.
  unfold after. cbn [rev].
  destruct (rev w) as [|c l] eqn:R; [reflexivity|]. reflexivity.
Qed.

Lemma after_app (prev : option N) (a b : jsstring) :
  after prev (a ++ b) = after (after prev a) b.
Proof.
  revert prev. induction a as [|x a IH]; intros prev; [reflexivity|].
  cbn [app]. rewrite !after_cons. apply IH.
Qed.

Lemma star_loop_complete (p : N -> bool) (k : mstate -> option mstate) caps
    (rest : jsstring) :
  forall w prev,
    Forall (fun x => p x = true) w ->
    k (MState (after prev w) rest caps) <> None ->
    star_loop p k prev (w ++ rest) caps <> None.
Proof.
  induction w as [|x w IH]; intros prev F K; cbn [app].
  - change (after prev []) with prev in K.
    destruct rest as [|c r]; cbn [star_loop]; [exact K|].
    destruct (p c); [|exact K].
    destruct (star_loop p k (Some c) r caps); [discriminate|exact K].
  - inversion F as [|? ? Hx Fw]; subst. cbn [star_loop]. rewrite Hx.
    rewrite after_cons in K. specialize (IH (Some x) Fw K).
    destruct (star_loop p k (Some x) (w ++ rest) caps);
      [discriminate|contradiction].
Qed.

(** If a pattern without anchors matches [w] and the continuation goes on
    from there, the matcher succeeds. *)
Lemma rmatch_complete (ml : bool) (r : regex) (w : jsstring) cs :
  matches r w cs -> plain r = true ->
  forall k prev rest caps,
    k (MState (after prev w) rest (cs ++ caps)) <> None ->
    rmatch ml r k (MState prev (w ++ rest) caps) <> None.
Proof.
  induction 1 as [|c|p x Hp|p w F|a b w1 w2 c1 c2 M1 IH1 M2 IH2
                  |a b w c M IH|a b w c M IH|i a w c M IH| |];
    intros Pl k prev rest caps K;
    cbn [plain] in Pl; try discriminate Pl;
    cbn [rmatch m_rest m_prev m_caps app].
  - exact K.
  - rewrite N.eqb_refl. exact K.
  - rewrite Hp. exact K.
  - apply star_loop_complete; assumption.
  - apply andb_true_iff in Pl as [Pa Pb].
    rewrite <- app_assoc. apply (IH1 Pa).
    apply (IH2 Pb). rewrite <- after_app, app_assoc. exact K.
  - apply andb_true_iff in Pl as [Pa Pb].
    specialize (IH Pa k prev rest caps K).
    destruct (rmatch ml a k (MState prev (w ++ rest) caps));
      [discriminate|contradiction].
  - apply andb_true_iff in Pl as [Pa Pb].
    destruct (rmatch ml a k (MState prev (w ++ rest) caps));
      [discriminate|].
    apply (IH Pb). exact K.
  - apply (IH Pl). cbn [m_rest m_prev m_caps].
    rewrite firstn_app_length. exact K.
Qed.

(** The same for a pattern that ends with the end-of-text anchor, when
    the match runs to the end of the text. *)
Lemma rmatch_complete_eol (ml : bool) (r : regex) :
  plain_to_eol r = true ->
  forall w cs prev caps,
    matches r w cs ->
    rmatch ml r Some (MState prev w caps) <> None.
Proof.
  induction r as [| | | |a IHa b IHb| | | |]; intros Pl; try discriminate Pl;
    intros w cs prev caps M.
  - cbn [plain_to_eol] in Pl. apply andb_true_iff in Pl as [Pa Pb].
    inversion M as [| | | |a' b' w1 w2 c1 c2 M1 M2| | | | |]; subst.
    cbn [rmatch].
    apply (rmatch_complete ml a w1 c1 M1 Pa). apply (IHb Pb w2 c2 _ _ M2).
  - inversion M; subst. cbn [rmatch m_rest at_eol]. discriminate.
Qed.

Lemma exec_complete_eol re (w : jsstring) cs prev :
  plain_to_eol (re_pat re) = true ->
  matches (re_pat re) w cs ->
  exec_at re prev w <> None.
Proof.
  intros Pl M. unfold exec_at.
  apply (rmatch_complete_eol _ _ Pl w cs prev [] M).
Qed.

Lemma matches_rlit_intro (s : jsstring) : matches (rlit s) s [].
Proof.
  induction s as [|c s IH]; [constructor|].
  destruct s as [|d s]; [constructor|].
  change (rlit (c :: d :: s)) with (RSeq (RChar c) (rlit (d :: s))).
  change (c :: d :: s) with ([c] ++ d :: s).
  change (@nil (nat * jsstring)) with (@nil (nat * jsstring) ++ []).
  constructor; [constructor|exact IH].
Qed.

Lemma plain_rlit (s : jsstring) : plain (rlit s) = true.
Proof.
  induction s as [|c s IH]; [reflexivity|].
  destruct s as [|d s]; [reflexivity|].
  change (rlit (c :: d :: s)) with (RSeq (RChar c) (rlit (d :: s))).
  cbn [plain]. exact IH.
Qed.

(** ** What the patterns of the repair pass match *)

Lemma matches_dangling (name : string) (p : position) w cs :
  matches (re_pat (re_dangling name p)) w cs ->
  exists s1 s2,
    Forall (fun x => is_space x = true) s1
    /\ Forall (fun x => is_space x = true) s2
    /\ w = (dq :: js name ++ dq :: s1) ++ ch ":" :: s2 ++ position_text p
    /\ cs = [].
Proof.
  cbn [re_pat re_dangling rseq]. intros M.
  destruct p; cbn [position_pat] in M; inv_matches;
    match goal with
    | F1 : Forall _ ?a, F2 : Forall _ ?b |- _ =>
        first [ exists a, b; split; [exact F1|]; split; [exact F2|];
                split; [cbn [position_text app]; app_norm; reflexivity
                       |reflexivity]
              | exists b, a; split; [exact F2|]; split; [exact F1|];
                split; [cbn [position_text app]; app_norm; reflexivity
                       |reflexivity] ]
    end.
Qed.

Lemma matches_dangling_string (p : position) w cs :
  matches (re_pat (re_dangling_string p)) w cs ->
  exists name s1 s2,
    In name string_fields
    /\ Forall (fun x => is_space x = true) s1
    /\ Forall (fun x => is_space x = true) s2
    /\ w = (dq :: js name ++ dq :: s1) ++ ch ":" :: s2 ++ position_text p
    /\ cs = [(1%nat, js name)].
Proof.
  cbn [re_pat re_dangling_string rseq]. intros M.
  assert (G : forall name s1 s2 x,
            In name string_fields ->
            Forall (fun x => is_space x = true) s1 ->
            Forall (fun x => is_space x = true) s2 ->
            exists name' s1' s2',
              In name' string_fields
              /\ Forall (fun x => is_space x = true) s1'
              /\ Forall (fun x => is_space x = true) s2'
              /\ (([dq] ++ js name) ++ [dq] ++ s1 ++ [ch ":"] ++ s2 ++ x
                  = (dq :: js name' ++ dq :: s1') ++ ch ":" :: s2' ++ x)
              /\ [(1%nat, js name)] = [(1%nat, js name')]).
  { intros name s1 s2 x I F1 F2. exists name, s1, s2.
    repeat split; try assumption. app_norm. reflexivity. }
  destruct p; cbn [position_pat] in M; inv_matches;
    cbn [position_text app];
    match goal with
    | F1 : Forall _ ?a, F2 : Forall _ ?b |- _ =>
        first [ apply (G "title"%string a b); [cbn; tauto|exact F1|exact F2]
              | apply (G "description"%string a b);
                [cbn; tauto|exact F1|exact F2]
              | apply (G "details"%string a b);
                [cbn; tauto|exact F1|exact F2]
              | apply (G "testStrategy"%string a b);
                [cbn; tauto|exact F1|exact F2]
              | apply (G "title"%string b a); [cbn; tauto|exact F2|exact F1]
              | apply (G "description"%string b a);
                [cbn; tauto|exact F2|exact F1]
              | apply (G "details"%string b a);
                [cbn; tauto|exact F2|exact F1]
              | apply (G "testStrategy"%string b a);
                [cbn; tauto|exact F2|exact F1] ]
    end.
Qed.

Lemma matches_colon (p : position) w cs :
  matches (re_pat (re_colon p)) w cs ->
  exists s2,
    Forall (fun x => is_space x = true) s2
    /\ w = ch ":" :: s2 ++ position_text p /\ cs = [].
Proof.
  cbn [re_pat re_colon rseq]. intros M.
  destruct p; cbn [position_pat] in M; inv_matches;
    match goal with
    | F1 : Forall _ ?a |- _ =>
        exists a; split; [exact F1|];
        split; [cbn [position_text app]; app_norm; reflexivity|reflexivity]
    end.
Qed.

Lemma matches_trailing_comma w cs :
  matches (re_pat re_trailing_comma) w cs ->
  exists sp cl,
    Forall (fun x => is_space x = true) sp /\ is_closer cl = true
    /\ w = ch "," :: sp ++ [cl] /\ cs = [(1%nat, sp ++ [cl])].
Proof.
  cbn [re_pat re_trailing_comma rseq]. intros M. inv_matches.
  match goal with
  | F1 : Forall _ ?a, C : is_closer ?x = true |- _ =>
      exists a, x; split; [exact F1|]; split; [exact C|];
      split; reflexivity
  end.
Qed.

(** ** A colon before a comma *)

Lemma comma_after_space_intro (ws b : jsstring) :
  Forall (fun x => is_space x = true) ws ->
  comma_after_space (ws ++ ch "," :: b) = true.
Proof.
  induction 1 as [|x ws Hx F IH]; cbn [app comma_after_space].
  - rewrite N.eqb_refl. reflexivity.
  - rewrite Hx, IH. destruct (x =? ch ","); reflexivity.
Qed.

Lemma colon_then_comma_app (a b : jsstring) :
  colon_then_comma b = true -> colon_then_comma (a ++ b) = true.
Proof.
  intros H. induction a as [|x a IH]; [exact H|].
  cbn [app colon_then_comma]. rewrite IH. apply orb_true_r.
Qed.

Lemma colon_then_comma_intro (a ws b : jsstring) :
  Forall (fun x => is_space x = true) ws ->
  colon_then_comma (a ++ ch ":" :: ws ++ ch "," :: b) = true.
Proof.
  intros F. apply colon_then_comma_app. cbn [colon_then_comma].
  rewrite N.eqb_refl, (comma_after_space_intro _ _ F). reflexivity.
Qed.

(** What comes after does not count when it starts with a unit that is
    neither whitespace nor a comma. *)
Lemma comma_after_space_app (a : jsstring) (x : N) (b : jsstring) :
  is_space x = false -> x <> ch "," ->
  comma_after_space (a ++ x :: b) = comma_after_space a.
Proof.
  intros Hs Hc. apply N.eqb_neq in Hc.
  induction a as [|y a IH]; cbn [app comma_after_space].
  - rewrite Hc, Hs. reflexivity.
  - rewrite IH. reflexivity.
Qed.

Lemma colon_then_comma_split (a : jsstring) (x : N) (b : jsstring) :
  is_space x = false -> x <> ch "," ->
  colon_then_comma (a ++ x :: b)
  = colon_then_comma a || colon_then_comma (x :: b).
Proof.
  intros Hs Hc. induction a as [|y a IH]; [reflexivity|].
  cbn [app]. cbn [colon_then_comma].
  change (colon_then_comma (a ++ x :: b)
          = colon_then_comma a || colon_then_comma (x :: b)) in IH.
  rewrite IH, (comma_after_space_app a x b Hs Hc).
  rewrite orb_assoc. reflexivity.
Qed.

(** ** The patterns of the repair pass that do not match *)

Lemma before_comma_unmatched (s : jsstring) :
  colon_then_comma s = false ->
  (forall name, replace s (re_dangling name BeforeComma)
                  (tpl_empty_array name BeforeComma) = s)
  /\ replace s (re_dangling_string BeforeComma) (tpl_empty_string BeforeComma)
     = s
  /\ replace s (re_colon BeforeComma) (tpl_colon BeforeComma) = s.
Proof.
  intros H.
  assert (G : forall before pre s2 rest,
            Forall (fun x => is_space x = true) s2 ->
            s = before ++ (pre ++ ch ":" :: s2 ++ position_text BeforeComma)
                ++ rest -> False).
  { intros before pre s2 rest F E.
    rewrite E in H. cbn [position_text js map list_ascii_of_string] in H.
    rewrite <- !app_assoc in H. cbn [app] in H.
    rewrite colon_then_comma_app in H; [discriminate|].
    rewrite <- app_assoc. cbn [app].
    apply (colon_then_comma_intro pre s2 rest F). }
  repeat split; [intros name| |];
    (apply replace_unmatched; [reflexivity|]);
    intros before w rest cs E M _.
  - apply matches_dangling in M as (s1 & s2 & F1 & F2 & -> & _).
    apply (G before _ s2 rest F2 E).
  - apply matches_dangling_string in M as (nm & s1 & s2 & _ & F1 & F2 & -> & _).
    apply (G before _ s2 rest F2 E).
  - apply matches_colon in M as (s2 & F2 & -> & _).
    apply (G before [] s2 rest F2 E).
Qed.

Lemma ends_colon_space (y z sp : jsstring) (u : N) :
  y ++ [u] = z ++ ch ":" :: sp ->
  Forall (fun x => is_space x = true) sp ->
  is_space u = false -> u <> ch ":" -> False.
Proof.
  intros E F Hs Hc.
  destruct sp as [|l sp _] using rev_ind.
  - change (z ++ [ch ":"]) with (z ++ [ch ":"]) in E.
    apply app_inj_tail in E as [_ E]. congruence.
  - change (z ++ ch ":" :: sp ++ [l]) with (z ++ (ch ":" :: sp) ++ [l]) in E.
    rewrite app_assoc in E. apply app_inj_tail in E as [_ E].
    apply Forall_app in F as [_ F]. inversion F; subst. congruence.
Qed.

(** The patterns that end at the end of the text need a colon and
    whitespace there. *)
Lemma at_end_unmatched (y : jsstring) (u : N) :
  is_space u = false -> u <> ch ":" ->
  (forall name, replace (y ++ [u]) (re_dangling name AtEnd)
                  (tpl_empty_array name AtEnd) = y ++ [u])
  /\ replace (y ++ [u]) (re_dangling_string AtEnd) (tpl_empty_string AtEnd)
     = y ++ [u]
  /\ replace (y ++ [u]) (re_colon AtEnd) (tpl_colon AtEnd) = y ++ [u].
Proof.
  intros Hs Hc.
  assert (G : forall before pre s2 rest,
            Forall (fun x => is_space x = true) s2 ->
            rest = [] ->
            y ++ [u] = before ++ (pre ++ ch ":" :: s2 ++ position_text AtEnd)
                       ++ rest -> False).
  { intros before pre s2 rest F -> E.
    cbn [position_text] in E. rewrite !app_nil_r in E.
    rewrite app_assoc in E.
    apply (ends_colon_space _ _ _ _ E F Hs Hc). }
  repeat split; [intros name| |];
    (apply replace_unmatched; [reflexivity|]);
    intros before w rest cs E M R; specialize (R eq_refl eq_refl).
  - apply matches_dangling in M as (s1 & s2 & F1 & F2 & -> & _).
    apply (G before _ s2 rest F2 R E).
  - apply matches_dangling_string in M as (nm & s1 & s2 & _ & F1 & F2 & -> & _).
    apply (G before _ s2 rest F2 R E).
  - apply matches_colon in M as (s2 & F2 & -> & _).
    apply (G before [] s2 rest F2 R E).
Qed.

(** The pattern of line 66 needs a comma, whitespace and a closing brace
    or bracket. *)
Lemma trailing_comma_unmatched (s : jsstring) :
  (forall a sp cl b,
     s = a ++ ch "," :: sp ++ cl :: b ->
     Forall (fun x => is_space x = true) sp -> is_closer cl = true ->
     False) ->
  replace s re_trailing_comma [TCap 1] = s.
Proof.
  intros H. apply replace_unmatched; [reflexivity|].
  intros before w rest cs E M _.
  apply matches_trailing_comma in M as (sp & cl & F & C & -> & _).
  apply (H before sp cl rest); [|exact F|exact C].
  rewrite E. cbn [app]. rewrite <- app_assoc. reflexivity.
Qed.

(** ** A key with a dangling colon at the end of the text *)

(** The place of the last [u] decides how a text splits. *)
Lemma last_unit_split (u : N) (a sa b sb : jsstring) :
  Forall (fun x => x <> u) sa -> Forall (fun x => x <> u) sb ->
  a ++ u :: sa = b ++ u :: sb -> a = b /\ sa = sb.
Proof.
  intros Fa Fb E.
  assert (E' : (b ++ [u]) ++ sb = a ++ u :: sa).
  { rewrite <- app_assoc. symmetry. exact E. }
  apply suffix_after_unit in E' as (p1 & E1 & E2); [|exact Fb].
  destruct p1 as [|l p1 _] using rev_ind.
  - apply app_inj_tail in E2 as [-> _]. auto.
  - exfalso. rewrite E1 in Fa. apply Forall_app in Fa as [Fa _].
    apply Forall_app in Fa as [_ Fa]. inversion Fa as [|? ? Hl _]; subst.
    change (a ++ u :: p1 ++ [l]) with (a ++ (u :: p1) ++ [l]) in E2.
    rewrite app_assoc in E2. apply app_inj_tail in E2 as [_ E2].
    congruence.
Qed.

Lemma spaces_not (u : N) (ws : jsstring) :
  is_space u = false -> Forall (fun x => is_space x = true) ws ->
  Forall (fun x => x <> u) ws.
Proof.
  intros Hu F. eapply Forall_impl; [|exact F]. cbn beta.
  intros x Hx ->. congruence.
Qed.

Lemma words_not (u : N) (n : jsstring) :
  is_word u = false -> Forall (fun x => is_word x = true) n ->
  Forall (fun x => x <> u) n.
Proof.
  intros Hu F. eapply Forall_impl; [|exact F]. cbn beta.
  intros x Hx ->. congruence.
Qed.

(** A match of a dangling key at the end of a text that ends with a key
    and its colon is that key and colon. *)
Lemma dangling_align (x n ws1 before n' s1 s2 : jsstring) :
  Forall (fun c => c <> dq) n ->
  Forall (fun c => c <> dq) n' ->
  Forall (fun c => is_space c = true) ws1 ->
  Forall (fun c => is_space c = true) s1 ->
  Forall (fun c => is_space c = true) s2 ->
  x ++ dq :: n ++ dq :: ws1 ++ [ch ":"]
  = before ++ ((dq :: n' ++ dq :: s1) ++ ch ":" :: s2 ++ []) ++ [] ->
  before = x /\ n' = n /\ s1 = ws1 /\ s2 = [].
Proof.
  intros Fn Fn' F1 Fs1 Fs2 E.
  rewrite !app_nil_r in E.
  assert (E1 : (x ++ dq :: n ++ dq :: ws1) ++ ch ":" :: []
               = (before ++ dq :: n' ++ dq :: s1) ++ ch ":" :: s2).
  { app_norm. cbn [app]. rewrite E. app_norm. reflexivity. }
  assert (S2 : s2 = []).
  { destruct s2 as [|l s2 _] using rev_ind; [reflexivity|]. exfalso.
    change ((before ++ dq :: n' ++ dq :: s1) ++ ch ":" :: s2 ++ [l])
      with ((before ++ dq :: n' ++ dq :: s1) ++ (ch ":" :: s2) ++ [l]) in E1.
    rewrite (app_assoc _ (ch ":" :: s2)) in E1.
    apply app_inj_tail in E1 as [_ E1].
    apply Forall_app in Fs2 as [_ Fs2]. inversion Fs2; subst.
    discriminate. }
  subst s2. apply app_inj_tail in E1 as [E1 _].
  assert (E2 : (x ++ dq :: n) ++ dq :: ws1 = (before ++ dq :: n') ++ dq :: s1).
  { app_norm. cbn [app]. rewrite E1. app_norm. reflexivity. }
  apply last_unit_split in E2 as [E2 ->];
    [|apply spaces_not; [reflexivity|assumption]..].
  apply last_unit_split in E2 as [-> ->]; auto.
Qed.

Lemma dangling_key_matches (name : string) (ws1 : jsstring) :
  Forall (fun c => is_space c = true) ws1 ->
  exists cs,
    matches (re_pat (re_dangling name AtEnd))
            ([dq] ++ js name ++ [dq] ++ ws1 ++ [ch ":"] ++ [] ++ []) cs.
Proof.
  intros F. cbn [re_pat re_dangling rseq position_pat]. eexists.
  apply M_seq; [apply M_char|].
  apply M_seq; [apply matches_rlit_intro|].
  apply M_seq; [apply M_char|].
  apply M_seq; [apply (M_star is_space); exact F|].
  apply M_seq; [apply M_char|].
  apply M_seq; [apply (M_star is_space); constructor|apply M_eol].
Qed.

Lemma plain_dangling (name : string) :
  plain_to_eol (re_pat (re_dangling name AtEnd)) = true.
Proof.
  cbn [re_pat re_dangling rseq position_pat plain_to_eol plain s_star].
  rewrite plain_rlit. reflexivity.
Qed.

Lemma search_dangling_found re (x y : jsstring) cs :
  plain_to_eol (re_pat re) = true ->
  matches (re_pat re) y cs ->
  search re None (x ++ y) <> None.
Proof.
  intros Pl M. apply search_found. intros p.
  apply (exec_complete_eol re y cs p Pl M).
Qed.

Lemma dangling_at_end_fires (name : string) (x ws1 : jsstring) :
  Forall (fun c => is_word c = true) (js name) ->
  Forall (fun c => is_space c = true) ws1 ->
  replace (x ++ dq :: js name ++ dq :: ws1 ++ [ch ":"])
          (re_dangling name AtEnd) (tpl_empty_array name AtEnd)
  = x ++ dq :: js name ++ dq :: js ": []".
Proof.
  intros Fn F1. unfold replace, replace_first.
  change (re_global (re_dangling name AtEnd)) with false. cbn iota.
  destruct (search (re_dangling name AtEnd) None
              (x ++ dq :: js name ++ dq :: ws1 ++ [ch ":"]))
    as [[[before m] st]|] eqn:S.
  - destruct (search_exec _ _ _ _ _ _ S) as (v & s' & _ & Ex).
    apply exec_eol_end in Ex; [|reflexivity..].
    apply search_sound in S as [Es M]. rewrite Ex in *.
    apply matches_dangling in M as (s1 & s2 & Fs1 & Fs2 & -> & _).
    cbn [position_text] in Es.
    apply dangling_align in Es as (-> & _);
      try assumption; try (apply words_not; [reflexivity|assumption]).
    cbn [tpl_empty_array expand position_text]. rewrite !app_nil_r.
    reflexivity.
  - exfalso. destruct (dangling_key_matches name ws1 F1) as (cs & M).
    revert S.
    apply (search_dangling_found _ x _ _ (plain_dangling name) M).
Qed.

Lemma string_fields_words (name : string) :
  In name string_fields -> Forall (fun c => is_word c = true) (js name).
Proof.
  intros [<-|[<-|[<-|[<-|[]]]]]; repeat constructor.
Qed.

Lemma dangling_string_matches (name : string) (ws1 : jsstring) :
  In name string_fields ->
  Forall (fun c => is_space c = true) ws1 ->
  exists cs,
    matches (re_pat (re_dangling_string AtEnd))
            ([dq] ++ js name ++ [dq] ++ ws1 ++ [ch ":"] ++ [] ++ []) cs.
Proof.
  intros I F. cbn [re_pat re_dangling_string rseq position_pat]. eexists.
  apply M_seq; [apply M_char|].
  apply M_seq.
  { apply M_group.
    destruct I as [<-|[<-|[<-|[<-|[]]]]].
    - apply M_alt_l, matches_rlit_intro.
    - apply M_alt_r, M_alt_l, matches_rlit_intro.
    - apply M_alt_r, M_alt_r, M_alt_l, matches_rlit_intro.
    - apply M_alt_r, M_alt_r, M_alt_r, matches_rlit_intro. }
  apply M_seq; [apply M_char|].
  apply M_seq; [apply (M_star is_space); exact F|].
  apply M_seq; [apply M_char|].
  apply M_seq; [apply (M_star is_space); constructor|apply M_eol].
Qed.

Lemma dangling_string_at_end_fires (name : string) (x ws1 : jsstring) :
  In name string_fields ->
  Forall (fun c => is_space c = true) ws1 ->
  replace (x ++ dq :: js name ++ dq :: ws1 ++ [ch ":"])
          (re_dangling_string AtEnd) (tpl_empty_string AtEnd)
  = x ++ dq :: js name ++ dq :: js ": ~~".
Proof.
  intros I F1. unfold replace, replace_first.
  change (re_global (re_dangling_string AtEnd)) with false. cbn iota.
  destruct (search (re_dangling_string AtEnd) None
              (x ++ dq :: js name ++ dq :: ws1 ++ [ch ":"]))
    as [[[before m] st]|] eqn:S.
  - destruct (search_exec _ _ _ _ _ _ S) as (v & s' & _ & Ex).
    apply exec_eol_end in Ex; [|reflexivity..].
    apply search_sound in S as [Es M]. rewrite Ex in *.
    apply matches_dangling_string in M
      as (name' & s1 & s2 & I' & Fs1 & Fs2 & -> & Ec).
    cbn [position_text] in Es. rewrite Ec.
    apply dangling_align in Es as (-> & En & _);
      try assumption;
      try (apply words_not; [reflexivity|];
           apply string_fields_words; assumption).
    rewrite En.
    cbn [tpl_empty_string expand position_text cap_lookup].
    rewrite Nat.eqb_refl. rewrite !app_nil_r. cbn [app].
    try rewrite <- app_assoc. reflexivity.
  - exfalso. destruct (dangling_string_matches name ws1 I F1) as (cs & M).
    revert S.
    apply (search_dangling_found (re_dangling_string AtEnd) x _ _ eq_refl M).
Qed.

(** A dangling key at the end of the text is not another key. *)
Lemma dangling_at_end_other (key : jsstring) (name : string)
    (x ws1 : jsstring) :
  key <> js name ->
  Forall (fun c => c <> dq) key ->
  Forall (fun c => is_word c = true) (js name) ->
  Forall (fun c => is_space c = true) ws1 ->
  replace (x ++ dq :: key ++ dq :: ws1 ++ [ch ":"])
          (re_dangling name AtEnd) (tpl_empty_array name AtEnd)
  = x ++ dq :: key ++ dq :: ws1 ++ [ch ":"].
Proof.
  intros N Fk Fn F1. apply replace_unmatched; [reflexivity|].
  intros before w rest cs E M R.
  rewrite (R (eq_refl : ends_eol (re_pat (re_dangling name AtEnd)) = true)
             eq_refl) in E.
  apply matches_dangling in M as (s1 & s2 & Fs1 & Fs2 & -> & _).
  cbn [position_text] in E.
  apply dangling_align in E as (_ & En & _);
    try assumption; try (apply words_not; [reflexivity|assumption]).
  congruence.
Qed.

Lemma dangling_string_at_end_other (key x ws1 : jsstring) :
  (forall name, In name string_fields -> key <> js name) ->
  Forall (fun c => c <> dq) key ->
  Forall (fun c => is_space c = true) ws1 ->
  replace (x ++ dq :: key ++ dq :: ws1 ++ [ch ":"])
          (re_dangling_string AtEnd) (tpl_empty_string AtEnd)
  = x ++ dq :: key ++ dq :: ws1 ++ [ch ":"].
Proof.
  intros N Fk F1. apply replace_unmatched; [reflexivity|].
  intros before w rest cs E M R.
  rewrite (R eq_refl eq_refl) in E.
  apply matches_dangling_string in M
    as (name & s1 & s2 & I & Fs1 & Fs2 & -> & _).
  cbn [position_text] in E.
  apply dangling_align in E as (_ & En & _);
    try assumption;
    try (apply words_not; [reflexivity|];
         apply string_fields_words; assumption).
  apply (N name I). congruence.
Qed.

(** A colon that ends the text is what the pattern of line 61 finds. *)
Lemma colon_at_end_fires (y : jsstring) :
  replace (y ++ [ch ":"]) (re_colon AtEnd) (tpl_colon AtEnd)
  = y ++ js ": ~~".
Proof.
  unfold replace, replace_first.
  change (re_global (re_colon AtEnd)) with false. cbn iota.
  destruct (search (re_colon AtEnd) None (y ++ [ch ":"]))
    as [[[before m] st]|] eqn:S.
  - destruct (search_exec _ _ _ _ _ _ S) as (v & s' & _ & Ex).
    apply exec_eol_end in Ex; [|reflexivity..].
    apply search_sound in S as [Es M]. rewrite Ex in *.
    apply matches_colon in M as (s2 & F2 & -> & _).
    cbn [position_text] in Es. rewrite !app_nil_r in Es.
    destruct s2 as [|l s2 _] using rev_ind.
    + apply app_inj_tail in Es as [-> _].
      cbn [tpl_colon expand position_text]. rewrite !app_nil_r.
      reflexivity.
    + exfalso.
      change (before ++ ch ":" :: s2 ++ [l])
        with (before ++ (ch ":" :: s2) ++ [l]) in Es.
      rewrite app_assoc in Es. apply app_inj_tail in Es as [_ Es].
      apply Forall_app in F2 as [_ F2]. inversion F2; subst. discriminate.
  - exfalso. revert S.
    assert (M : matches (re_pat (re_colon AtEnd)) ([ch ":"] ++ [] ++ [])
                  (([] ++ []) ++ [])).
    { cbn [re_pat re_colon rseq position_pat].
      apply M_seq; [apply M_char|].
      apply M_seq; [apply (M_star is_space); constructor|apply M_eol]. }
    apply (search_dangling_found (re_colon AtEnd) y _ _ eq_refl M).
Qed.

(** ** A text that opens an object and does not close it *)

Lemma search_no_close (o c : N) (s : jsstring) :
  Forall (fun x => x <> c) s -> search (re_span o c) None s = None.
Proof.
  intros F. destruct (search (re_span o c) None s) as [[[before m] st]|] eqn:S;
    [|reflexivity].
  exfalso. apply search_sound in S as [Es M].
  apply Forall_not_In in F. apply F. rewrite Es. clear Es F.
  cbn [re_pat re_span rseq] in M. inv_matches.
  apply in_or_app. right. apply in_or_app. left.
  apply in_or_app. right. apply in_or_app. right. left. reflexivity.
Qed.

Lemma pick_match_no_closer (s : jsstring) :
  Forall (fun x => x <> ch "}" /\ x <> ch "]") s -> pick_match s = s.
Proof.
  intros F. unfold pick_match, str_match.
  change re_object with (re_span (ch "{") (ch "}")).
  change re_array with (re_span (ch "[") (ch "]")).
  rewrite !search_no_close; [reflexivity| |];
    (eapply Forall_impl; [|exact F]); cbn beta; intros x H; apply H.
Qed.

Lemma has_fence_none (s : jsstring) :
  Forall (fun x => x <> ch "`") s -> has_fence s = false.
Proof.
  induction 1 as [|x s Hx F IH]; [reflexivity|].
  cbn [has_fence]. rewrite IH, orb_false_r.
  unfold starts_fence. destruct s as [|b [|c s]]; try reflexivity.
  apply N.eqb_neq in Hx. rewrite Hx. reflexivity.
Qed.

(** A run of backticks does not go over another unit. *)
Lemma has_fence_split (a : jsstring) (x : N) (b : jsstring) :
  x <> ch "`" ->
  has_fence (a ++ x :: b) = has_fence a || has_fence (x :: b).
Proof.
  intros Hx. apply N.eqb_neq in Hx.
  induction a as [|y a IH]; [reflexivity|].
  cbn [app]. cbn [has_fence].
  change (has_fence (a ++ x :: b) = has_fence a || has_fence (x :: b)) in IH.
  assert (E : starts_fence (y :: a ++ x :: b) = starts_fence (y :: a)).
  { unfold starts_fence.
    destruct a as [|z [|w a]]; cbn [app]; try reflexivity.
    - destruct b; [reflexivity|].
      rewrite Hx, andb_false_r. reflexivity.
    - rewrite Hx, andb_false_r. reflexivity. }
  rewrite E, IH, orb_assoc. reflexivity.
Qed.

Lemma candidate_open (ws2 b t : jsstring) (c1 : N) :
  Forall (fun x => is_space x = true) ws2 ->
  ch "{" :: t = b ++ [c1] ->
  is_space c1 = false -> c1 <> ch ";" ->
  has_fence (ch "{" :: t) = false ->
  Forall (fun x => x <> ch "}" /\ x <> ch "]") (ch "{" :: t) ->
  candidate ((ch "{" :: t) ++ ws2) = ch "{" :: t.
Proof.
  intros W2 E S1 Hs Hf F. unfold candidate, strip_wrapping.
  rewrite (trim_core [] ws2 t b (ch "{") c1 (Forall_nil _) W2 eq_refl S1 E
           : trim ((ch "{" :: t) ++ ws2) = ch "{" :: t).
  destruct (replace_fences_id _ Hf) as (R1 & R2 & R3).
  rewrite R1, R2, R3.
  destruct (decl_no_match_head (ch "{") t) as (D1 & D2 & D3);
    [discriminate..|].
  rewrite (replace_decl_id _ _ D1), (replace_decl_id _ _ D2),
    (replace_decl_id _ _ D3).
  rewrite E, (replace_semicolon_end b c1 S1 Hs), <- E.
  apply pick_match_no_closer, F.
Qed.

(** A JSON text ends with its value and whitespace. *)
Lemma JSON_parse_ends (text : jsstring) (v : value) :
  JSON_parse text = Ok v ->
  exists b c ws, text = b ++ c :: ws /\ is_space c = false /\ c <> ch ":"
                 /\ json_space ws.
Proof.
  unfold JSON_parse. intros H.
  destruct (parse_value (2 * length text + 1) (skip_ws text))
    as [[v' rest]|] eqn:P; [|discriminate].
  destruct (skip_ws rest) eqn:W; [|discriminate].
  apply skip_ws_nil in W.
  apply value_text_end in P as (b & c & E & Hc & Hn & _).
  destruct (skip_ws_split text) as (ws & Et & _).
  exists (ws ++ b), c, rest. split; [|auto].
  rewrite Et at 1. rewrite E. app_norm. reflexivity.
Qed.

Lemma colon_end_no_parse (y : jsstring) :
  parses (y ++ [ch ":"]) = false.
Proof.
  unfold parses. destruct (JSON_parse (y ++ [ch ":"])) as [v|e] eqn:P;
    [|reflexivity].
  exfalso. apply JSON_parse_ends in P as (b & c & ws & E & Hc & Hn & F).
  destruct ws as [|l ws _] using rev_ind.
  - apply app_inj_tail in E as [_ E]. congruence.
  - change (b ++ c :: ws ++ [l]) with (b ++ (c :: ws) ++ [l]) in E.
    rewrite app_assoc in E. apply app_inj_tail in E as [_ E].
    apply Forall_app in F as [_ F]. inversion F; subst. discriminate.
Qed.

(** ** The repair pass on a text that ends with a colon *)

Lemma colon_then_comma_cons (x : N) (s : jsstring) :
  x <> ch ":" -> colon_then_comma (x :: s) = colon_then_comma s.
Proof.
  intros H. apply N.eqb_neq in H. cbn [colon_then_comma]. rewrite H.
  reflexivity.
Qed.

Lemma colon_then_comma_none (s : jsstring) :
  Forall (fun x => x <> ch ":") s -> colon_then_comma s = false.
Proof.
  induction 1 as [|x s Hx F IH]; [reflexivity|].
  rewrite colon_then_comma_cons by exact Hx. exact IH.
Qed.

(** No comma of the text is followed by whitespace and a closing unit
    when the only closing unit is the last one. *)
Lemma no_comma_closer (p : jsstring) (u w : N) :
  Forall (fun x => is_closer x = false) (p ++ [u]) ->
  is_space u = false -> u <> ch "," ->
  forall a sp cl b,
    (p ++ [u]) ++ [w] = a ++ ch "," :: sp ++ cl :: b ->
    Forall (fun x => is_space x = true) sp -> is_closer cl = true -> False.
Proof.
  intros F Hs Hc a sp cl b E Fs C.
  destruct b as [|l b _] using rev_ind.
  - change (a ++ ch "," :: sp ++ [cl]) with (a ++ (ch "," :: sp) ++ [cl]) in E.
    rewrite app_assoc in E. apply app_inj_tail in E as [E _].
    destruct sp as [|k sp _] using rev_ind.
    + apply app_inj_tail in E as [_ E]. congruence.
    + change (a ++ ch "," :: sp ++ [k]) with (a ++ (ch "," :: sp) ++ [k]) in E.
      rewrite app_assoc in E. apply app_inj_tail in E as [_ E].
      apply Forall_app in Fs as [_ Fs]. inversion Fs; subst. congruence.
  - replace (a ++ ch "," :: sp ++ cl :: b ++ [l])
      with ((a ++ ch "," :: sp ++ cl :: b) ++ [l]) in E
      by (app_norm; reflexivity).
    apply app_inj_tail in E as [E _]. rewrite E in F.
    rewrite Forall_forall in F.
    assert (G : is_closer cl = false).
    { apply F. apply in_or_app. right. right. apply in_or_app. right.
      left. reflexivity. }
    congruence.
Qed.

(** When the text has no closing brace, no colon before a comma, and ends
    with two units of which the first is neither whitespace nor a comma and
    the second neither whitespace nor a colon, no substitution of the repair
    pass applies to it. *)
Lemma repair_quiet (p : jsstring) (u w : N) :
  Forall (fun x => is_closer x = false) (p ++ [u]) ->
  is_space u = false -> u <> ch "," ->
  is_space w = false -> w <> ch ":" -> w <> ch "}" ->
  colon_then_comma ((p ++ [u]) ++ [w]) = false ->
  forall q, In q repair_steps ->
    replace ((p ++ [u]) ++ [w]) (fst q) (snd q) = (p ++ [u]) ++ [w].
Proof.
  intros F Hs Hc Ws Wc Wb C q I.
  assert (Fb : Forall (fun x => x <> ch "}") ((p ++ [u]) ++ [w])).
  { apply Forall_app. split; [|repeat constructor; exact Wb].
    eapply Forall_impl; [|exact F]. cbn beta. intros x Hx ->.
    discriminate Hx. }
  destruct (before_brace_unmatched _ Fb) as (B1 & B2 & B3).
  destruct (before_comma_unmatched _ C) as (C1 & C2 & C3).
  destruct (at_end_unmatched (p ++ [u]) w Ws Wc) as (A1 & A2 & A3).
  pose proof (trailing_comma_unmatched _ (fun a sp cl b E =>
                no_comma_closer p u w F Hs Hc a sp cl b E)) as T.
  unfold repair_steps in I.
  repeat (destruct I as [<-|I]; [cbn [fst snd]; auto|]).
  destruct I.
Qed.

Lemma fold_quiet (l : list (RegExp * list tpl_item)) (s : jsstring) :
  (forall q, In q l -> replace s (fst q) (snd q) = s) ->
  fold_left (fun x q => replace x (fst q) (snd q)) l s = s.
Proof.
  induction l as [|q l IH]; intros H; [reflexivity|].
  cbn [fold_left]. rewrite (H q (in_eq _ _)).
  apply IH. intros q' I. apply H. right. exact I.
Qed.

(** One substitution applies, none before it, and none to what it
    gives. *)
Lemma repair_fires (pre post : list (RegExp * list tpl_item))
    (re : RegExp) (t : list tpl_item) (s r : jsstring) :
  repair_steps = pre ++ (re, t) :: post ->
  (forall q, In q pre -> replace s (fst q) (snd q) = s) ->
  replace s re t = r ->
  (forall q, In q repair_steps -> replace r (fst q) (snd q) = r) ->
  repair_substitutions s = r.
Proof.
  intros E Hpre Hfire Hpost. rewrite repair_substitutions_steps.
  rewrite E, fold_left_app, (fold_quiet pre s Hpre).
  cbn [fold_left fst snd]. rewrite Hfire.
  apply fold_quiet. intros q I. apply Hpost. rewrite E.
  apply in_or_app. right. right. exact I.
Qed.

Lemma close_open_brace_tail (z : jsstring) (w : N) :
  w <> ch "}" ->
  close_open (ch "{" :: z ++ [w]) = (ch "{" :: z ++ [w]) ++ [ch "}"].
Proof.
  intros H. apply N.eqb_neq in H.
  assert (E : endsWith (ch "{" :: z ++ [w]) (ch "}") = false).
  { change (ch "{" :: z ++ [w]) with ((ch "{" :: z) ++ [w]).
    unfold endsWith. rewrite rev_app_distr. exact H. }
  unfold close_open. rewrite E.
  cbn [startsWith]. rewrite N.eqb_refl. cbn [andb negb app startsWith].
  change (ch "{" =? ch "[") with false. reflexivity.
Qed.

(** The text opens an object, ends with a colon and whitespace, and one
    substitution turns it into a text that the closing brace makes
    valid. *)
Lemma extractJson_colon_repaired (y z ws2 : jsstring) (w : N) (v : value) :
  Forall (fun x => is_space x = true) ws2 ->
  has_fence (ch "{" :: y ++ [ch ":"]) = false ->
  Forall (fun x => x <> ch "}" /\ x <> ch "]") (ch "{" :: y ++ [ch ":"]) ->
  repair_substitutions (ch "{" :: y ++ [ch ":"]) = ch "{" :: z ++ [w] ->
  w <> ch "}" ->
  JSON_parse ((ch "{" :: z ++ [w]) ++ [ch "}"]) = Ok v ->
  extractJson ((ch "{" :: y ++ [ch ":"]) ++ ws2)
  = Ok ((ch "{" :: z ++ [w]) ++ [ch "}"]).
Proof.
  intros W2 Hf F R Hw P.
  assert (C : candidate ((ch "{" :: y ++ [ch ":"]) ++ ws2)
              = ch "{" :: y ++ [ch ":"]).
  { apply (candidate_open ws2 (ch "{" :: y) (y ++ [ch ":"]) (ch ":"));
      try assumption; try reflexivity; discriminate. }
  assert (Rp : repair (ch "{" :: y ++ [ch ":"])
               = (ch "{" :: z ++ [w]) ++ [ch "}"]).
  { unfold repair. rewrite R. apply close_open_brace_tail, Hw. }
  pose proof (colon_end_no_parse (ch "{" :: y)) as N.
  change ((ch "{" :: y) ++ [ch ":"]) with (ch "{" :: y ++ [ch ":"]) in N.
  assert (Pp : parses ((ch "{" :: z ++ [w]) ++ [ch "}"]) = true).
  { unfold parses. rewrite P. reflexivity. }
  generalize (extractJson_cases ((ch "{" :: y ++ [ch ":"]) ++ ws2)).
  cbv zeta. rewrite C, Rp.
  intros [[H _]|[(_ & _ & E)|[(_ & H & _)|(_ & H & _)]]];
    first [exact E|congruence].
Qed.

(** ** What is known of the text around the dangling colon *)

Lemma no_closer_is_closer (s : jsstring) :
  Forall no_closer s -> Forall (fun x => is_closer x = false) s.
Proof.
  intros F. eapply Forall_impl; [|exact F]. cbn beta.
  intros x [H1 H2]. apply N.eqb_neq in H1, H2. unfold is_closer.
  rewrite H1, H2. reflexivity.
Qed.

Lemma wrap_no_closer (p : jsstring) :
  Forall no_closer p -> Forall no_closer (ch "{" :: p ++ [ch ":"]).
Proof.
  intros F. constructor; [split; discriminate|].
  apply Forall_app. split; [exact F|].
  repeat constructor; discriminate.
Qed.

Lemma wrap_no_fence (p : jsstring) :
  has_fence p = false -> has_fence (ch "{" :: p ++ [ch ":"]) = false.
Proof.
  intros H. cbn [has_fence]. apply orb_false_iff. split.
  - unfold starts_fence. destruct (p ++ [ch ":"]) as [|b [|c s]]; reflexivity.
  - rewrite has_fence_split by discriminate. rewrite H. reflexivity.
Qed.

Lemma wrap_no_colon_comma (p : jsstring) :
  colon_then_comma p = false ->
  colon_then_comma (ch "{" :: p ++ [ch ":"]) = false.
Proof.
  intros H. rewrite colon_then_comma_cons by discriminate.
  rewrite colon_then_comma_split by (reflexivity || discriminate).
  rewrite H. reflexivity.
Qed.

(** The text before a key, the key in quotes and whitespace. *)
Lemma key_prefix_facts (b key ws : jsstring) :
  Forall no_closer b -> has_fence b = false -> colon_then_comma b = false ->
  Forall (fun x => is_word x = true) key ->
  Forall (fun x => is_space x = true) ws ->
  Forall no_closer (b ++ dq :: key ++ dq :: ws)
  /\ has_fence (b ++ dq :: key ++ dq :: ws) = false
  /\ colon_then_comma (b ++ dq :: key ++ dq :: ws) = false.
Proof.
  intros Fb Hf Hc Fk Fw.
  assert (G : forall (P : N -> Prop),
            P dq -> (forall x, is_word x = true -> P x) ->
            (forall x, is_space x = true -> P x) ->
            Forall P (dq :: key ++ dq :: ws)).
  { intros P Hq Hw Hs. constructor; [exact Hq|].
    apply Forall_app. split.
    - eapply Forall_impl; [|exact Fk]. exact Hw.
    - constructor; [exact Hq|]. eapply Forall_impl; [|exact Fw]. exact Hs. }
  repeat split.
  - apply Forall_app. split; [exact Fb|].
    apply G; [split; discriminate| |]; intros x Hx; split; intros ->;
      discriminate Hx.
  - rewrite has_fence_split by discriminate. rewrite Hf. cbn [orb].
    apply has_fence_none.
    apply G; [discriminate| |]; intros x Hx ->; discriminate Hx.
  - rewrite colon_then_comma_split by (reflexivity || discriminate).
    rewrite Hc. cbn [orb]. apply colon_then_comma_none.
    apply G; [discriminate| |]; intros x Hx ->; discriminate Hx.
Qed.

(** After the substitution: no other one applies. *)
Lemma repaired_quiet (p : jsstring) (u w : N) :
  Forall no_closer p -> colon_then_comma p = false ->
  (u = ch "[" /\ w = ch "]") \/ (u = dq /\ w = dq) ->
  forall q, In q repair_steps ->
    replace (((ch "{" :: p ++ js ": ") ++ [u]) ++ [w]) (fst q) (snd q)
    = ((ch "{" :: p ++ js ": ") ++ [u]) ++ [w].
Proof.
  intros F C U.
  assert (Fu : no_closer u /\ is_space u = false /\ u <> ch ","
               /\ u <> ch ":").
  { destruct U as [[-> _]|[-> _]]; repeat split; discriminate. }
  assert (Fw : is_space w = false /\ w <> ch ":" /\ w <> ch "}"
               /\ w <> ch ",").
  { destruct U as [[_ ->]|[_ ->]]; repeat split; discriminate. }
  destruct Fu as (U1 & U2 & U3 & U4). destruct Fw as (W1 & W2 & W3 & W4).
  apply repair_quiet; try assumption.
  - apply no_closer_is_closer. apply Forall_app. split; [|auto].
    constructor; [split; discriminate|]. apply Forall_app.
    split; [exact F|]. repeat constructor; discriminate.
  - replace (((ch "{" :: p ++ js ": ") ++ [u]) ++ [w])
      with ((ch "{" :: p) ++ ch ":" :: [ch " "; u; w])
      by (app_norm; reflexivity).
    rewrite colon_then_comma_split by (reflexivity || discriminate).
    rewrite colon_then_comma_cons, C by discriminate. cbn [orb].
    cbn [colon_then_comma comma_after_space].
    apply N.eqb_neq in U3, U4, W2, W4.
    rewrite U3, U4, W2, W4, N.eqb_refl, U2.
    change (ch " " =? ch ",") with false. change (ch " " =? ch ":") with false.
    change (is_space (ch " ")) with true. cbn [andb orb].
    reflexivity.
Qed.

(** Before the substitution: no pattern with a closing brace or a comma
    applies. *)
Lemma dangling_quiet (p : jsstring) :
  Forall no_closer p -> colon_then_comma p = false ->
  forall q,
    (exists name, q = (re_dangling name BeforeBrace,
                       tpl_empty_array name BeforeBrace))
    \/ (exists name, q = (re_dangling name BeforeComma,
                          tpl_empty_array name BeforeComma))
    \/ q = (re_dangling_string BeforeBrace, tpl_empty_string BeforeBrace)
    \/ q = (re_dangling_string BeforeComma, tpl_empty_string BeforeComma) ->
    replace (ch "{" :: p ++ [ch ":"]) (fst q) (snd q)
    = ch "{" :: p ++ [ch ":"].
Proof.
  intros F C q H.
  assert (Fb : Forall (fun x => x <> ch "}") (ch "{" :: p ++ [ch ":"])).
  { eapply Forall_impl; [|exact (wrap_no_closer p F)]. cbn beta.
    intros x Hx. apply Hx. }
  destruct (before_brace_unmatched _ Fb) as (B1 & B2 & _).
  destruct (before_comma_unmatched _ (wrap_no_colon_comma p C))
    as (C1 & C2 & _).
  destruct H as [(name & ->)|[(name & ->)|[->| ->]]]; cbn [fst snd]; auto.
Qed.

(** ** A known key with a dangling colon *)

Lemma dangling_fills_cases (name : string) (fill : jsstring) :
  In (name, fill) dangling_fills ->
  (In name ["dependencies"; "subtasks"]%string /\ fill = js "[]")
  \/ (In name string_fields /\ fill = js "~~").
Proof.
  intros I. unfold dangling_fills in I.
  repeat (destruct I as [I|I]; [injection I as <- <-; cbn; tauto|]).
  destruct I.
Qed.

Ltac other_key :=
  match goal with
  | |- js ?a <> js ?b => intros E; vm_compute in E; discriminate E
  end.

Ltac known_words := repeat constructor.

Lemma repair_dangling_array (name : string) (b ws1 : jsstring) :
  In name ["dependencies"; "subtasks"]%string ->
  Forall no_closer b -> has_fence b = false -> colon_then_comma b = false ->
  Forall (fun x => is_space x = true) ws1 ->
  repair_substitutions (ch "{" :: (b ++ dq :: js name ++ dq :: ws1) ++ [ch ":"])
  = ((ch "{" :: (b ++ dq :: js name ++ [dq]) ++ js ": ") ++ [ch "["])
    ++ [ch "]"].
Proof.
  intros I Fb Hf Hc W1.
  assert (Fn : Forall (fun x => is_word x = true) (js name)).
  { destruct I as [<-|[<-|[]]]; known_words. }
  destruct (key_prefix_facts b (js name) ws1 Fb Hf Hc Fn W1) as (P1 & _ & P3).
  destruct (key_prefix_facts b (js name) [] Fb Hf Hc Fn (Forall_nil _))
    as (Q1 & _ & Q3).
  pose proof (dangling_quiet _ P1 P3) as Dq.
  pose proof (repaired_quiet _ (ch "[") (ch "]") Q1 Q3
                (or_introl (conj eq_refl eq_refl))) as Rq.
  assert (ET : ch "{" :: (b ++ dq :: js name ++ dq :: ws1) ++ [ch ":"]
               = (ch "{" :: b) ++ dq :: js name ++ dq :: ws1 ++ [ch ":"]).
  { app_norm. reflexivity. }
  assert (ER : (ch "{" :: b) ++ dq :: js name ++ dq :: js ": []"
               = ((ch "{" :: (b ++ dq :: js name ++ [dq]) ++ js ": ")
                  ++ [ch "["]) ++ [ch "]"]).
  { app_norm. reflexivity. }
  destruct I as [<-|[<-|[]]].
  - apply (repair_fires [] (skipn 1 repair_steps)
             (re_dangling "dependencies" AtEnd)
             (tpl_empty_array "dependencies" AtEnd));
      [reflexivity|intros q []| |exact Rq].
    rewrite ET, dangling_at_end_fires by assumption. exact ER.
  - apply (repair_fires (firstn 3 repair_steps) (skipn 4 repair_steps)
             (re_dangling "subtasks" AtEnd)
             (tpl_empty_array "subtasks" AtEnd));
      [reflexivity| | |exact Rq].
    + intros q Iq. cbn [firstn repair_steps] in Iq.
      destruct Iq as [<-|[<-|[<-|[]]]].
      * cbn [fst snd]. rewrite ET.
        apply dangling_at_end_other;
          [other_key|apply words_not; [reflexivity|assumption]
          |known_words|assumption].
      * apply Dq. left. eexists. reflexivity.
      * apply Dq. right. left. eexists. reflexivity.
    + rewrite ET, dangling_at_end_fires by assumption. exact ER.
Qed.

Lemma repair_dangling_string (name : string) (b ws1 : jsstring) :
  In name string_fields ->
  Forall no_closer b -> has_fence b = false -> colon_then_comma b = false ->
  Forall (fun x => is_space x = true) ws1 ->
  repair_substitutions (ch "{" :: (b ++ dq :: js name ++ dq :: ws1) ++ [ch ":"])
  = ((ch "{" :: (b ++ dq :: js name ++ [dq]) ++ js ": ") ++ [dq]) ++ [dq].
Proof.
  intros I Fb Hf Hc W1.
  pose proof (string_fields_words name I) as Fn.
  destruct (key_prefix_facts b (js name) ws1 Fb Hf Hc Fn W1) as (P1 & _ & P3).
  destruct (key_prefix_facts b (js name) [] Fb Hf Hc Fn (Forall_nil _))
    as (Q1 & _ & Q3).
  pose proof (dangling_quiet _ P1 P3) as Dq.
  pose proof (repaired_quiet _ dq dq Q1 Q3
                (or_intror (conj eq_refl eq_refl))) as Rq.
  assert (ET : ch "{" :: (b ++ dq :: js name ++ dq :: ws1) ++ [ch ":"]
               = (ch "{" :: b) ++ dq :: js name ++ dq :: ws1 ++ [ch ":"]).
  { app_norm. reflexivity. }
  assert (ER : (ch "{" :: b) ++ dq :: js name ++ dq :: js ": ~~"
               = ((ch "{" :: (b ++ dq :: js name ++ [dq]) ++ js ": ")
                  ++ [dq]) ++ [dq]).
  { app_norm. reflexivity. }
  apply (repair_fires (firstn 6 repair_steps) (skipn 7 repair_steps)
           (re_dangling_string AtEnd) (tpl_empty_string AtEnd));
    [reflexivity| | |exact Rq].
  - intros q Iq. cbn [firstn repair_steps] in Iq.
    destruct Iq as [<-|[<-|[<-|[<-|[<-|[<-|[]]]]]]].
    1, 4: cbn [fst snd]; rewrite ET;
      apply dangling_at_end_other;
        [destruct I as [<-|[<-|[<-|[<-|[]]]]]; other_key
        |apply words_not; [reflexivity|assumption]
        |known_words|assumption].
    1, 3: apply Dq; left; eexists; reflexivity.
    1, 2: apply Dq; right; left; eexists; reflexivity.
  - rewrite ET, dangling_string_at_end_fires by assumption. exact ER.
Qed.

Lemma dangling_key_at_end (name : string) (fill b ws1 ws2 : jsstring)
    (v : value) :
  In (name, fill) dangling_fills ->
  Forall (fun x => is_space x = true) ws1 ->
  Forall (fun x => is_space x = true) ws2 ->
  Forall (fun x => x <> ch "}" /\ x <> ch "]") b ->
  has_fence b = false -> colon_then_comma b = false ->
  JSON_parse (ch "{" :: b ++ dq :: js name ++ dq :: js ": " ++ fill ++ js "}")
  = Ok v ->
  extractJson (ch "{" :: b ++ dq :: js name ++ dq :: ws1 ++ ch ":" :: ws2)
  = Ok (ch "{" :: b ++ dq :: js name ++ dq :: js ": " ++ fill ++ js "}").
Proof.
  intros I W1 W2 Fb Hf Hc P.
  assert (Fn : Forall (fun x => is_word x = true) (js name)).
  { apply dangling_fills_cases in I as [[I _]|[I _]].
    - destruct I as [<-|[<-|[]]]; known_words.
    - apply string_fields_words, I. }
  destruct (key_prefix_facts b (js name) ws1 Fb Hf Hc Fn W1) as (P1 & P2 & _).
  assert (G : exists u w,
            fill = [u; w] /\ w <> ch "}"
            /\ repair_substitutions
                 (ch "{" :: (b ++ dq :: js name ++ dq :: ws1) ++ [ch ":"])
               = ch "{" :: (((b ++ dq :: js name ++ [dq]) ++ js ": ") ++ [u])
                           ++ [w]).
  { apply dangling_fills_cases in I as [[I ->]|[I ->]].
    - exists (ch "["), (ch "]"). split; [reflexivity|].
      split; [discriminate|].
      apply (repair_dangling_array name b ws1); assumption.
    - exists dq, dq. split; [reflexivity|]. split; [discriminate|].
      apply (repair_dangling_string name b ws1); assumption. }
  destruct G as (u & w & -> & Hw & R).
  replace (ch "{" :: b ++ dq :: js name ++ dq :: ws1 ++ ch ":" :: ws2)
    with ((ch "{" :: (b ++ dq :: js name ++ dq :: ws1) ++ [ch ":"]) ++ ws2)
    by (app_norm; reflexivity).
  replace (ch "{" :: b ++ dq :: js name ++ dq :: js ": " ++ [u; w] ++ js "}")
    with ((ch "{" :: (((b ++ dq :: js name ++ [dq]) ++ js ": ") ++ [u])
                     ++ [w]) ++ [ch "}"]) in *
    by (app_norm; reflexivity).
  apply (extractJson_colon_repaired _ _ ws2 w v W2
           (wrap_no_fence _ P2) (wrap_no_closer _ P1) R Hw P).
Qed.

(** ** Another key with a dangling colon *)

Lemma colon_end_split (y before pre s2 : jsstring) :
  Forall (fun x => is_space x = true) s2 ->
  y ++ [ch ":"] = before ++ (pre ++ ch ":" :: s2 ++ []) ++ [] ->
  y = before ++ pre.
Proof.
  intros F E. rewrite !app_nil_r in E.
  destruct s2 as [|l s2 _] using rev_ind.
  - rewrite app_assoc in E. apply app_inj_tail in E as [E _]. exact E.
  - exfalso.
    replace (before ++ pre ++ ch ":" :: s2 ++ [l])
      with ((before ++ pre ++ ch ":" :: s2) ++ [l]) in E
      by (app_norm; reflexivity).
    apply app_inj_tail in E as [_ E].
    apply Forall_app in F as [_ F]. inversion F; subst. discriminate.
Qed.

Lemma strip_prefix_app (p x : jsstring) : strip_prefix p (p ++ x) = Some x.
Proof.
  induction p as [|c p IH]; [reflexivity|].
  cbn [app strip_prefix]. rewrite N.eqb_refl. exact IH.
Qed.

Lemma ends_with_key_intro (name : string) (x ws : jsstring) :
  Forall (fun c => is_space c = true) ws ->
  ends_with_key name (x ++ dq :: js name ++ dq :: ws) = true.
Proof.
  intros F. unfold ends_with_key.
  assert (EK : rev (dq :: js name ++ [dq]) = dq :: rev (js name) ++ [dq]).
  { cbn [rev]. rewrite rev_app_distr. reflexivity. }
  replace (x ++ dq :: js name ++ dq :: ws)
    with (x ++ (dq :: js name ++ [dq]) ++ ws) by (app_norm; reflexivity).
  rewrite !rev_app_distr, <- app_assoc, EK. cbn [app].
  rewrite (drop_space_over (rev ws) dq _ (Forall_rev F) eq_refl).
  change (dq :: (rev (js name) ++ [dq]) ++ rev x)
    with ((dq :: rev (js name) ++ [dq]) ++ rev x).
  rewrite strip_prefix_app. reflexivity.
Qed.

Lemma ends_with_key_open (name : string) (p x ws : jsstring) :
  Forall (fun c => is_space c = true) ws ->
  ch "{" :: p = x ++ dq :: js name ++ dq :: ws ->
  ends_with_key name p = true.
Proof.
  intros F E. destruct x as [|c x].
  - cbn [app] in E. injection E as E _. discriminate E.
  - cbn [app] in E. injection E as _ E. rewrite E.
    apply ends_with_key_intro, F.
Qed.

Lemma known_key_absent (name : string) (fill p : jsstring) :
  ends_with_known_key p = false -> In (name, fill) dangling_fills ->
  ends_with_key name p = false.
Proof.
  unfold ends_with_known_key. intros H I.
  destruct (ends_with_key name p) eqn:E; [|reflexivity].
  rewrite <- H. symmetry. apply existsb_exists.
  exists (name, fill). auto.
Qed.

Lemma at_end_absent (name : string) (p : jsstring) :
  ends_with_key name p = false ->
  replace (ch "{" :: p ++ [ch ":"]) (re_dangling name AtEnd)
          (tpl_empty_array name AtEnd) = ch "{" :: p ++ [ch ":"].
Proof.
  intros N. apply replace_unmatched; [reflexivity|].
  intros before w rest cs E M R.
  rewrite (R (eq_refl : ends_eol (re_pat (re_dangling name AtEnd)) = true)
             eq_refl) in E.
  apply matches_dangling in M as (s1 & s2 & Fs1 & Fs2 & -> & _).
  cbn [position_text] in E.
  change (ch "{" :: p ++ [ch ":"]) with ((ch "{" :: p) ++ [ch ":"]) in E.
  apply colon_end_split in E; [|exact Fs2].
  rewrite (ends_with_key_open name p before s1 Fs1 E) in N. discriminate N.
Qed.

Lemma at_end_string_absent (p : jsstring) :
  (forall name, In name string_fields -> ends_with_key name p = false) ->
  replace (ch "{" :: p ++ [ch ":"]) (re_dangling_string AtEnd)
          (tpl_empty_string AtEnd) = ch "{" :: p ++ [ch ":"].
Proof.
  intros N. apply replace_unmatched; [reflexivity|].
  intros before w rest cs E M R.
  rewrite (R eq_refl eq_refl) in E.
  apply matches_dangling_string in M
    as (name & s1 & s2 & I & Fs1 & Fs2 & -> & _).
  cbn [position_text] in E.
  change (ch "{" :: p ++ [ch ":"]) with ((ch "{" :: p) ++ [ch ":"]) in E.
  apply colon_end_split in E; [|exact Fs2].
  pose proof (N name I) as Nn.
  rewrite (ends_with_key_open name p before s1 Fs1 E) in Nn.
  discriminate Nn.
Qed.

Lemma repair_dangling_colon (p : jsstring) :
  Forall no_closer p -> colon_then_comma p = false ->
  ends_with_known_key p = false ->
  repair_substitutions (ch "{" :: p ++ [ch ":"])
  = ((ch "{" :: p ++ js ": ") ++ [dq]) ++ [dq].
Proof.
  intros F C N.
  pose proof (dangling_quiet _ F C) as Dq.
  pose proof (repaired_quiet _ dq dq F C (or_intror (conj eq_refl eq_refl)))
    as Rq.
  pose proof (known_key_absent) as K.
  assert (Ns : replace (ch "{" :: p ++ [ch ":"]) (re_dangling_string AtEnd)
                 (tpl_empty_string AtEnd) = ch "{" :: p ++ [ch ":"]).
  { apply at_end_string_absent. intros name I.
    apply (K name (js "~~") p N). unfold dangling_fills.
    destruct I as [<-|[<-|[<-|[<-|[]]]]]; cbn; tauto. }
  apply (repair_fires (firstn 9 repair_steps) (skipn 10 repair_steps)
           (re_colon AtEnd) (tpl_colon AtEnd));
    [reflexivity| | |exact Rq].
  - intros q Iq. cbn [firstn repair_steps] in Iq.
    destruct Iq as [<-|[<-|[<-|[<-|[<-|[<-|[<-|[<-|[<-|[]]]]]]]]]].
    + apply at_end_absent, (K _ (js "[]") p N). cbn. tauto.
    + apply Dq. left. eexists. reflexivity.
    + apply Dq. right. left. eexists. reflexivity.
    + apply at_end_absent, (K _ (js "[]") p N). cbn. tauto.
    + apply Dq. left. eexists. reflexivity.
    + apply Dq. right. left. eexists. reflexivity.
    + exact Ns.
    + apply Dq. right. right. left. reflexivity.
    + apply Dq. right. right. right. reflexivity.
  - change (ch "{" :: p ++ [ch ":"]) with ((ch "{" :: p) ++ [ch ":"]).
    rewrite (colon_at_end_fires (ch "{" :: p)). app_norm. reflexivity.
Qed.

Lemma dangling_colon_at_end (p ws2 : jsstring) (v : value) :
  Forall (fun x => is_space x = true) ws2 ->
  Forall (fun x => x <> ch "}" /\ x <> ch "]") p ->
  has_fence p = false -> colon_then_comma p = false ->
  ends_with_known_key p = false ->
  JSON_parse (ch "{" :: p ++ js ": ~~}") = Ok v ->
  extractJson (ch "{" :: p ++ ch ":" :: ws2) = Ok (ch "{" :: p ++ js ": ~~}").
Proof.
  intros W2 F Hf C N P.
  pose proof (repair_dangling_colon p F C N) as R.
  replace (ch "{" :: p ++ ch ":" :: ws2)
    with ((ch "{" :: p ++ [ch ":"]) ++ ws2) by (app_norm; reflexivity).
  replace (ch "{" :: p ++ js ": ~~}")
    with ((ch "{" :: ((p ++ js ": ") ++ [dq]) ++ [dq]) ++ [ch "}"]) in *
    by (app_norm; reflexivity).
  apply (extractJson_colon_repaired _ _ ws2 dq v W2
           (wrap_no_fence _ Hf) (wrap_no_closer _ F) R
           ltac:(discriminate) P).
Qed.

(** ** A colon before the closing brace *)

(** Before the brace that closes the members there is a value and
    whitespace. *)
Lemma parse_members_end (n : nat) :
  forall s m r, parse_members n s = Some (m, r) ->
  exists b c ws, s = b ++ c :: ws ++ ch "}" :: r
                 /\ is_space c = false /\ c <> ch ":" /\ c <> ch ","
                 /\ json_space ws.
Proof.
  induction n as [|n IH]; intros s m r; [discriminate|].
  cbn [parse_members].
  destruct s as [|q r0]; [discriminate|].
  destruct (q =? dq); [|discriminate].
  destruct (string_body r0) as [[k r1]|] eqn:B; [|discriminate].
  apply string_body_local in B as (pk & -> & _ & _).
  destruct (skip_ws r1) as [|c r2] eqn:W1; [discriminate|].
  apply skip_ws_cons in W1 as (w1 & -> & _ & _).
  destruct (c =? ch ":"); [|discriminate].
  destruct (parse_value n (skip_ws r2)) as [[v r3]|] eqn:V; [|discriminate].
  apply value_text_end in V as (bv & cv & Ev & Hc & Hn & Hm).
  destruct (skip_ws_split r2) as (w2 & E2 & _). rewrite Ev in E2.
  destruct (skip_ws r3) as [|d r4] eqn:W3; [discriminate|].
  apply skip_ws_cons in W3 as (w3 & -> & F3 & _).
  destruct (d =? ch ",") eqn:Dc.
  - destruct (parse_members n (skip_ws r4)) as [[m' rest]|] eqn:M;
      [|discriminate].
    intros H. injection H as _ <-.
    apply IH in M as (b & c' & ws & E & Hc' & Hn' & Hm' & Fw).
    destruct (skip_ws_split r4) as (w4 & E4 & _). rewrite E in E4.
    exists (q :: pk ++ w1 ++ c :: (w2 ++ (bv ++ [cv]) ++ w3 ++ d :: w4 ++ b)),
      c', ws.
    split; [|auto]. rewrite E2, E4. app_norm. reflexivity.
  - destruct (d =? ch "}") eqn:Db; [|discriminate].
    apply N.eqb_eq in Db. subst d.
    intros H. injection H as _ <-.
    exists (q :: pk ++ w1 ++ c :: w2 ++ bv), cv, w3.
    split; [|auto]. rewrite E2. app_norm. reflexivity.
Qed.

Lemma parse_scalar_not_object (s : jsstring) (o : object) (r : jsstring) :
  parse_scalar s <> Some (JObj o, r).
Proof.
  unfold parse_scalar. destruct s as [|x s]; [discriminate|].
  repeat match goal with
  | |- context [if ?b then _ else _] => destruct b
  | |- context [match ?m with Some _ => _ | None => _ end] => destruct m
  | |- context [let (_, _) := ?p in _] => destruct p
  end; discriminate.
Qed.

Lemma object_text_end (n : nat) (r0 : jsstring) (v : value) (r : jsstring) :
  parse_value n (ch "{" :: r0) = Some (v, r) ->
  exists b c ws, ch "{" :: r0 = b ++ c :: ws ++ ch "}" :: r
                 /\ is_space c = false /\ c <> ch ":" /\ c <> ch ","
                 /\ json_space ws.
Proof.
  destruct n as [|n]; [discriminate|]. cbn [parse_value].
  rewrite N.eqb_refl.
  destruct (skip_ws_split r0) as (w0 & E0 & F0).
  destruct (skip_ws r0) as [|c2 r2] eqn:W; [discriminate|].
  destruct (c2 =? ch "}") eqn:C2.
  - apply N.eqb_eq in C2. subst c2. intros H. injection H as _ <-.
    exists [], (ch "{"), w0. rewrite E0.
    split; [reflexivity|]. split; [reflexivity|].
    split; [discriminate|]. split; [discriminate|exact F0].
  - destruct (parse_members n (c2 :: r2)) as [[m rest]|] eqn:M;
      [|discriminate].
    intros H. injection H as _ <-.
    apply parse_members_end in M as (b & c & ws & E & Hc & Hn & Hm & Fw).
    exists (ch "{" :: w0 ++ b), c, ws. split; [|auto].
    rewrite E0, E. app_norm. reflexivity.
Qed.

(** The last unit that is not whitespace. *)
Lemma last_solid (a sa b sb : jsstring) (u c : N) :
  Forall (fun x => is_space x = true) sa ->
  Forall (fun x => is_space x = true) sb ->
  is_space u = false -> is_space c = false ->
  a ++ u :: sa = b ++ c :: sb -> a = b /\ u = c /\ sa = sb.
Proof.
  intros Fa Fb Hu Hc E.
  pose proof (f_equal (fun s => drop_space (rev s)) E) as D. cbn beta in D.
  rewrite !rev_app_distr in D. cbn [rev] in D.
  rewrite <- !app_assoc in D. cbn [app] in D.
  rewrite (drop_space_over _ _ _ (Forall_rev Fa) Hu) in D.
  rewrite (drop_space_over _ _ _ (Forall_rev Fb) Hc) in D.
  injection D as -> D. apply (f_equal (@rev N)) in D.
  rewrite !rev_involutive in D. subst b.
  apply app_inv_head in E. injection E as ->. auto.
Qed.

Lemma colon_brace_no_parse (y ws2 : jsstring) :
  Forall (fun x => is_space x = true) ws2 ->
  parses (ch "{" :: (y ++ ch ":" :: ws2) ++ [ch "}"]) = false.
Proof.
  intros W2. unfold parses.
  destruct (JSON_parse (ch "{" :: (y ++ ch ":" :: ws2) ++ [ch "}"]))
    as [v|e] eqn:P; [|reflexivity].
  exfalso. unfold JSON_parse in P.
  rewrite skip_ws_stop in P by reflexivity.
  destruct (parse_value _ _) as [[v' rest]|] eqn:V; [|discriminate].
  destruct (skip_ws rest) eqn:W; [|discriminate].
  apply skip_ws_nil in W.
  apply object_text_end in V as (b & c & ws & E & Hc & Hn & Hm & Fw).
  destruct rest as [|l rest _] using rev_ind.
  - change (ch "{" :: (y ++ ch ":" :: ws2) ++ [ch "}"])
      with ((ch "{" :: y ++ ch ":" :: ws2) ++ [ch "}"]) in E.
    replace (b ++ c :: ws ++ [ch "}"]) with ((b ++ c :: ws) ++ [ch "}"]) in E
      by (app_norm; reflexivity).
    apply app_inj_tail in E as [E _].
    change (ch "{" :: y ++ ch ":" :: ws2)
      with ((ch "{" :: y) ++ ch ":" :: ws2) in E.
    apply last_solid in E as (_ & E & _);
      [congruence|exact W2|apply json_space_spaces, Fw|reflexivity|exact Hc].
  - change (ch "{" :: (y ++ ch ":" :: ws2) ++ [ch "}"])
      with ((ch "{" :: y ++ ch ":" :: ws2) ++ [ch "}"]) in E.
    replace (b ++ c :: ws ++ ch "}" :: rest ++ [l])
      with ((b ++ c :: ws ++ ch "}" :: rest) ++ [l]) in E
      by (app_norm; reflexivity).
    apply app_inj_tail in E as [_ E]. subst l.
    apply Forall_app in W as [_ W]. inversion W as [|? ? Hl _]; subst.
    discriminate Hl.
Qed.

(** ** The patterns that end with the closing brace *)

Lemma exec_complete re (w : jsstring) cs :
  plain (re_pat re) = true -> matches (re_pat re) w cs ->
  forall prev rest, exec_at re prev (w ++ rest) <> None.
Proof.
  intros Pl M prev rest. unfold exec_at.
  apply (rmatch_complete _ _ w cs M Pl). discriminate.
Qed.

Lemma search_plain_found re (x w rest : jsstring) cs :
  plain (re_pat re) = true -> matches (re_pat re) w cs ->
  search re None (x ++ w ++ rest) <> None.
Proof.
  intros Pl M. apply search_found. intros p.
  apply (exec_complete re w cs Pl M).
Qed.

(** The one closing brace of the text ends the match. *)
Lemma brace_last (y before m rest : jsstring) :
  Forall (fun x => x <> ch "}") y ->
  y ++ [ch "}"] = before ++ (m ++ [ch "}"]) ++ rest ->
  rest = [] /\ y = before ++ m.
Proof.
  intros F E. destruct rest as [|l rest _] using rev_ind.
  - split; [reflexivity|]. rewrite app_nil_r, app_assoc in E.
    apply app_inj_tail in E as [E _]. exact E.
  - exfalso. rewrite !app_assoc in E. apply app_inj_tail in E as [E _].
    apply Forall_not_In in F. apply F. rewrite E.
    apply in_or_app. left. apply in_or_app. right.
    left. reflexivity.
Qed.

Lemma key_ends_same (name : string) (key x ws1 : jsstring) :
  Forall (fun c => c <> dq) key ->
  Forall (fun c => is_word c = true) (js name) ->
  Forall (fun c => is_space c = true) ws1 ->
  key_ends name (x ++ dq :: key ++ dq :: ws1) -> key = js name.
Proof.
  intros Fk Fn F1 (x' & ws & Fw & E).
  assert (E2 : (x ++ dq :: key) ++ dq :: ws1
               = (x' ++ dq :: js name) ++ dq :: ws).
  { app_norm. exact E. }
  apply last_unit_split in E2 as [E2 _];
    [|apply spaces_not; [reflexivity|assumption]..].
  apply last_unit_split in E2 as [_ E2];
    [exact E2|assumption|apply words_not; [reflexivity|assumption]].
Qed.

Lemma key_ends_open (name : string) (p : jsstring) :
  key_ends name (ch "{" :: p) -> ends_with_key name p = true.
Proof.
  intros (x & ws & F & E). apply (ends_with_key_open name p x ws F E).
Qed.

(** What a match that ends with the closing brace says of the text before
    the colon. *)
Lemma colon_brace_split (y ws2 before pre s2 rest : jsstring) :
  Forall (fun x => x <> ch "}") y ->
  Forall (fun x => is_space x = true) ws2 ->
  Forall (fun x => is_space x = true) s2 ->
  (y ++ ch ":" :: ws2) ++ [ch "}"]
  = before ++ (pre ++ ch ":" :: s2 ++ position_text BeforeBrace) ++ rest ->
  rest = [] /\ y = before ++ pre.
Proof.
  intros F W2 S2 E. cbn [position_text] in E.
  replace (pre ++ ch ":" :: s2 ++ js "}")
    with ((pre ++ ch ":" :: s2) ++ [ch "}"]) in E by (app_norm; reflexivity).
  apply brace_last in E as [-> E].
  - split; [reflexivity|].
    rewrite app_assoc in E.
    apply last_unit_split in E as [E _];
      [exact E|apply spaces_not; [reflexivity|assumption]..].
  - apply Forall_app. split; [exact F|].
    constructor; [discriminate|]. apply spaces_not; [reflexivity|exact W2].
Qed.

Section BeforeBrace.

Variables (y ws2 : jsstring).
Hypothesis no_brace : Forall (fun x => x <> ch "}") y.
Hypothesis spaces : Forall (fun x => is_space x = true) ws2.

Lemma brace_absent (name : string) :
  ~ key_ends name y ->
  replace ((y ++ ch ":" :: ws2) ++ [ch "}"]) (re_dangling name BeforeBrace)
          (tpl_empty_array name BeforeBrace)
  = (y ++ ch ":" :: ws2) ++ [ch "}"].
Proof.
  intros N. apply replace_unmatched; [reflexivity|].
  intros before w rest cs E M _.
  apply matches_dangling in M as (s1 & s2 & Fs1 & Fs2 & -> & _).
  apply colon_brace_split in E as [_ E]; try assumption.
  apply N. exists before, s1. auto.
Qed.

Lemma brace_string_absent :
  (forall name, In name string_fields -> ~ key_ends name y) ->
  replace ((y ++ ch ":" :: ws2) ++ [ch "}"]) (re_dangling_string BeforeBrace)
          (tpl_empty_string BeforeBrace)
  = (y ++ ch ":" :: ws2) ++ [ch "}"].
Proof.
  intros N. apply replace_unmatched; [reflexivity|].
  intros before w rest cs E M _.
  apply matches_dangling_string in M
    as (name & s1 & s2 & I & Fs1 & Fs2 & -> & _).
  apply colon_brace_split in E as [_ E]; try assumption.
  apply (N name I). exists before, s1. auto.
Qed.

Lemma colon_brace_fires :
  replace ((y ++ ch ":" :: ws2) ++ [ch "}"]) (re_colon BeforeBrace)
          (tpl_colon BeforeBrace)
  = y ++ js ": ~~}".
Proof.
  unfold replace, replace_first.
  change (re_global (re_colon BeforeBrace)) with false. cbn iota.
  destruct (search (re_colon BeforeBrace) None
              ((y ++ ch ":" :: ws2) ++ [ch "}"]))
    as [[[before m] st]|] eqn:S.
  - apply search_sound in S as [Es M].
    apply matches_colon in M as (s2 & F2 & -> & _).
    apply (colon_brace_split y ws2 before [] s2) in Es as [-> ->];
      try assumption.
    cbn [tpl_colon expand position_text]. rewrite !app_nil_r.
    reflexivity.
  - exfalso. revert S.
    assert (M : matches (re_pat (re_colon BeforeBrace))
                  ([ch ":"] ++ ws2 ++ [ch "}"]) (([] ++ []) ++ [])).
    { cbn [re_pat re_colon rseq position_pat].
      apply M_seq; [apply M_char|].
      apply M_seq; [apply (M_star is_space); exact spaces|apply M_char]. }
    pose proof (search_plain_found (re_colon BeforeBrace) y _ [] _
                  eq_refl M) as G.
    rewrite app_nil_r in G.
    replace ((y ++ ch ":" :: ws2) ++ [ch "}"])
      with (y ++ [ch ":"] ++ ws2 ++ [ch "}"]) by (app_norm; reflexivity).
    exact G.
Qed.

End BeforeBrace.

Section KnownKey.

Variables (x ws1 ws2 : jsstring) (name : string).
Hypothesis no_brace : Forall (fun c => c <> ch "}") x.
Hypothesis key_words : Forall (fun c => is_word c = true) (js name).
Hypothesis spaces1 : Forall (fun c => is_space c = true) ws1.
Hypothesis spaces2 : Forall (fun c => is_space c = true) ws2.

Lemma key_text_no_brace :
  Forall (fun c => c <> ch "}") (x ++ dq :: js name ++ dq :: ws1).
Proof.
  apply Forall_app. split; [exact no_brace|].
  constructor; [discriminate|]. apply Forall_app. split.
  - apply words_not; [reflexivity|exact key_words].
  - constructor; [discriminate|].
    apply spaces_not; [reflexivity|exact spaces1].
Qed.

Lemma key_brace_split (before : jsstring) (name' : string) (s1 : jsstring) :
  Forall (fun c => is_word c = true) (js name') ->
  Forall (fun c => is_space c = true) s1 ->
  x ++ dq :: js name ++ dq :: ws1 = before ++ dq :: js name' ++ dq :: s1 ->
  before = x /\ js name' = js name.
Proof.
  intros Fn F1 E.
  assert (E2 : (x ++ dq :: js name) ++ dq :: ws1
               = (before ++ dq :: js name') ++ dq :: s1).
  { app_norm. exact E. }
  apply last_unit_split in E2 as [E2 _];
    [|apply spaces_not; [reflexivity|assumption]..].
  apply last_unit_split in E2 as [-> ->];
    [auto|apply words_not; [reflexivity|assumption]..].
Qed.

Lemma brace_key_fires :
  replace (((x ++ dq :: js name ++ dq :: ws1) ++ ch ":" :: ws2) ++ [ch "}"])
          (re_dangling name BeforeBrace) (tpl_empty_array name BeforeBrace)
  = x ++ dq :: js name ++ dq :: js ": []}".
Proof.
  unfold replace, replace_first.
  change (re_global (re_dangling name BeforeBrace)) with false. cbn iota.
  destruct (search (re_dangling name BeforeBrace) None _)
    as [[[before m] st]|] eqn:S.
  - apply search_sound in S as [Es M].
    apply matches_dangling in M as (s1 & s2 & Fs1 & Fs2 & -> & _).
    apply colon_brace_split in Es as [-> Es];
      try assumption; [|exact key_text_no_brace].
    apply key_brace_split in Es as [-> _]; try assumption.
    cbn [tpl_empty_array expand position_text]. rewrite !app_nil_r.
    reflexivity.
  - exfalso. revert S.
    assert (M : exists cs,
              matches (re_pat (re_dangling name BeforeBrace))
                ([dq] ++ js name ++ [dq] ++ ws1 ++ [ch ":"] ++ ws2
                 ++ [ch "}"]) cs).
    { cbn [re_pat re_dangling rseq position_pat]. eexists.
      apply M_seq; [apply M_char|].
      apply M_seq; [apply matches_rlit_intro|].
      apply M_seq; [apply M_char|].
      apply M_seq; [apply (M_star is_space); exact spaces1|].
      apply M_seq; [apply M_char|].
      apply M_seq; [apply (M_star is_space); exact spaces2|apply M_char]. }
    destruct M as (cs & M).
    assert (Pl : plain (re_pat (re_dangling name BeforeBrace)) = true).
    { cbn [re_pat re_dangling rseq position_pat plain s_star].
      rewrite plain_rlit. reflexivity. }
    pose proof (search_plain_found _ x _ [] _ Pl M) as G.
    rewrite app_nil_r in G.
    replace (((x ++ dq :: js name ++ dq :: ws1) ++ ch ":" :: ws2) ++ [ch "}"])
      with (x ++ [dq] ++ js name ++ [dq] ++ ws1 ++ [ch ":"] ++ ws2
            ++ [ch "}"]) by (app_norm; reflexivity).
    exact G.
Qed.

Lemma brace_string_fires :
  In name string_fields ->
  replace (((x ++ dq :: js name ++ dq :: ws1) ++ ch ":" :: ws2) ++ [ch "}"])
          (re_dangling_string BeforeBrace) (tpl_empty_string BeforeBrace)
  = x ++ dq :: js name ++ dq :: js ": ~~}".
Proof.
  intros I. unfold replace, replace_first.
  change (re_global (re_dangling_string BeforeBrace)) with false. cbn iota.
  destruct (search (re_dangling_string BeforeBrace) None _)
    as [[[before m] st]|] eqn:S.
  - apply search_sound in S as [Es M].
    apply matches_dangling_string in M
      as (name' & s1 & s2 & I' & Fs1 & Fs2 & -> & Ec).
    apply colon_brace_split in Es as [-> Es];
      try assumption; [|exact key_text_no_brace].
    apply key_brace_split in Es as [-> En];
      try assumption; [|apply string_fields_words, I'].
    rewrite Ec, En.
    cbn [tpl_empty_string expand position_text cap_lookup].
    rewrite Nat.eqb_refl. rewrite !app_nil_r. cbn [app].
    reflexivity.
  - exfalso. revert S.
    assert (M : exists cs,
              matches (re_pat (re_dangling_string BeforeBrace))
                ([dq] ++ js name ++ [dq] ++ ws1 ++ [ch ":"] ++ ws2
                 ++ [ch "}"]) cs).
    { cbn [re_pat re_dangling_string rseq position_pat]. eexists.
      apply M_seq; [apply M_char|].
      apply M_seq.
      { apply M_group.
        destruct I as [<-|[<-|[<-|[<-|[]]]]].
        - apply M_alt_l, matches_rlit_intro.
        - apply M_alt_r, M_alt_l, matches_rlit_intro.
        - apply M_alt_r, M_alt_r, M_alt_l, matches_rlit_intro.
        - apply M_alt_r, M_alt_r, M_alt_r, matches_rlit_intro. }
      apply M_seq; [apply M_char|].
      apply M_seq; [apply (M_star is_space); exact spaces1|].
      apply M_seq; [apply M_char|].
      apply M_seq; [apply (M_star is_space); exact spaces2|apply M_char]. }
    destruct M as (cs & M).
    pose proof (search_plain_found (re_dangling_string BeforeBrace) x _ [] _
                  eq_refl M) as G.
    rewrite app_nil_r in G.
    replace (((x ++ dq :: js name ++ dq :: ws1) ++ ch ":" :: ws2) ++ [ch "}"])
      with (x ++ [dq] ++ js name ++ [dq] ++ ws1 ++ [ch ":"] ++ ws2
            ++ [ch "}"]) by (app_norm; reflexivity).
    exact G.
Qed.

End KnownKey.

(** ** The repair pass on a text that ends with a colon and the brace *)

Lemma comma_after_space_none (ws : jsstring) :
  Forall (fun x => is_space x = true) ws -> comma_after_space ws = false.
Proof.
  induction 1 as [|x ws Hx F IH]; [reflexivity|].
  cbn [comma_after_space]. rewrite Hx, IH.
  destruct (x =? ch ",") eqn:E; [|reflexivity].
  apply N.eqb_eq in E. subst x. discriminate Hx.
Qed.

Lemma closed_no_colon_comma (p ws2 : jsstring) :
  colon_then_comma p = false ->
  Forall (fun x => is_space x = true) ws2 ->
  colon_then_comma (ch "{" :: (p ++ ch ":" :: ws2) ++ [ch "}"]) = false.
Proof.
  intros C W2. rewrite colon_then_comma_cons by discriminate.
  rewrite <- app_assoc. cbn [app].
  rewrite colon_then_comma_split by (reflexivity || discriminate).
  rewrite C. cbn [orb colon_then_comma]. rewrite N.eqb_refl. cbn [andb].
  rewrite (comma_after_space_app ws2 (ch "}") []) by
    (reflexivity || discriminate).
  rewrite (comma_after_space_none ws2 W2). cbn [orb].
  apply colon_then_comma_none. apply Forall_app. split.
  - apply spaces_not; [reflexivity|exact W2].
  - repeat constructor. discriminate.
Qed.

(** The patterns with the closing brace need a colon and whitespace
    before it. *)
Lemma brace_after_solid (y : jsstring) (w : N) :
  Forall (fun x => x <> ch "}") (y ++ [w]) ->
  is_space w = false -> w <> ch ":" ->
  (forall name, replace ((y ++ [w]) ++ [ch "}"]) (re_dangling name BeforeBrace)
                  (tpl_empty_array name BeforeBrace) = (y ++ [w]) ++ [ch "}"])
  /\ replace ((y ++ [w]) ++ [ch "}"]) (re_dangling_string BeforeBrace)
       (tpl_empty_string BeforeBrace) = (y ++ [w]) ++ [ch "}"]
  /\ replace ((y ++ [w]) ++ [ch "}"]) (re_colon BeforeBrace)
       (tpl_colon BeforeBrace) = (y ++ [w]) ++ [ch "}"].
Proof.
  intros F Hs Hc.
  assert (G : forall before pre s2 rest,
            Forall (fun x => is_space x = true) s2 ->
            (y ++ [w]) ++ [ch "}"]
            = before ++ (pre ++ ch ":" :: s2 ++ position_text BeforeBrace)
              ++ rest -> False).
  { intros before pre s2 rest F2 E. cbn [position_text] in E.
    replace (pre ++ ch ":" :: s2 ++ js "}")
      with ((pre ++ ch ":" :: s2) ++ [ch "}"]) in E
      by (app_norm; reflexivity).
    apply brace_last in E as [_ E]; [|exact F].
    rewrite app_assoc in E.
    apply (ends_colon_space _ _ _ _ E F2 Hs Hc). }
  repeat split; [intros name| |];
    (apply replace_unmatched; [reflexivity|]);
    intros before m rest cs E M _.
  - apply matches_dangling in M as (s1 & s2 & F1 & F2 & -> & _).
    apply (G before _ s2 rest F2 E).
  - apply matches_dangling_string in M as (nm & s1 & s2 & _ & F1 & F2 & -> & _).
    apply (G before _ s2 rest F2 E).
  - apply matches_colon in M as (s2 & F2 & -> & _).
    apply (G before [] s2 rest F2 E).
Qed.

(** The same as [repair_quiet] for a text that the brace closes. *)
Lemma repair_quiet_closed (p : jsstring) (u w : N) :
  Forall (fun x => is_closer x = false) (p ++ [u]) ->
  is_space u = false -> u <> ch "," ->
  is_space w = false -> w <> ch ":" -> w <> ch "}" -> w <> ch "," ->
  colon_then_comma (((p ++ [u]) ++ [w]) ++ [ch "}"]) = false ->
  forall q, In q repair_steps ->
    replace (((p ++ [u]) ++ [w]) ++ [ch "}"]) (fst q) (snd q)
    = ((p ++ [u]) ++ [w]) ++ [ch "}"].
Proof.
  intros F Hs Hc Ws Wc Wb Wm C q I.
  assert (Fb : Forall (fun x => x <> ch "}") ((p ++ [u]) ++ [w])).
  { apply Forall_app. split; [|repeat constructor; exact Wb].
    eapply Forall_impl; [|exact F]. cbn beta. intros x Hx ->.
    discriminate Hx. }
  destruct (brace_after_solid _ w Fb Ws Wc) as (B1 & B2 & B3).
  destruct (before_comma_unmatched _ C) as (C1 & C2 & C3).
  destruct (at_end_unmatched ((p ++ [u]) ++ [w]) (ch "}") eq_refl
              ltac:(discriminate)) as (A1 & A2 & A3).
  assert (T : replace (((p ++ [u]) ++ [w]) ++ [ch "}"]) re_trailing_comma
                [TCap 1] = ((p ++ [u]) ++ [w]) ++ [ch "}"]).
  { apply trailing_comma_unmatched. intros a sp cl b E Fs Cl.
    destruct b as [|l b _] using rev_ind.
    - replace (a ++ ch "," :: sp ++ [cl])
        with ((a ++ ch "," :: sp) ++ [cl]) in E by (app_norm; reflexivity).
      apply app_inj_tail in E as [E _].
      destruct sp as [|k sp _] using rev_ind.
      + apply app_inj_tail in E as [_ E]. congruence.
      + replace (a ++ ch "," :: sp ++ [k])
          with ((a ++ ch "," :: sp) ++ [k]) in E by (app_norm; reflexivity).
        apply app_inj_tail in E as [_ E].
        apply Forall_app in Fs as [_ Fs]. inversion Fs; subst. congruence.
    - replace (a ++ ch "," :: sp ++ cl :: b ++ [l])
        with ((a ++ ch "," :: sp ++ cl :: b) ++ [l]) in E
        by (app_norm; reflexivity).
      apply app_inj_tail in E as [E _].
      apply (no_comma_closer p u w F Hs Hc a sp cl b E Fs Cl). }
  unfold repair_steps in I.
  repeat (destruct I as [<-|I]; [cbn [fst snd]; auto|]).
  destruct I.
Qed.

Lemma close_open_closed (z : jsstring) :
  close_open (ch "{" :: z ++ [ch "}"]) = ch "{" :: z ++ [ch "}"].
Proof.
  assert (E : endsWith (ch "{" :: z ++ [ch "}"]) (ch "}") = true).
  { apply (endsWith_app (ch "{" :: z)). }
  unfold close_open. rewrite E.
  cbn [startsWith]. rewrite N.eqb_refl. cbn [andb negb].
  change (ch "{" =? ch "[") with false. reflexivity.
Qed.

Lemma extractJson_brace_repaired (body z : jsstring) (v : value) :
  has_fence (ch "{" :: body ++ [ch "}"]) = false ->
  parses (ch "{" :: body ++ [ch "}"]) = false ->
  repair_substitutions (ch "{" :: body ++ [ch "}"]) = ch "{" :: z ++ [ch "}"] ->
  JSON_parse (ch "{" :: z ++ [ch "}"]) = Ok v ->
  extractJson (ch "{" :: body ++ [ch "}"]) = Ok (ch "{" :: z ++ [ch "}"]).
Proof.
  intros Hf N R P.
  assert (C : candidate (ch "{" :: body ++ [ch "}"])
              = ch "{" :: body ++ [ch "}"]).
  { apply candidate_object_framed; [exact Hf|].
    exists [], []. rewrite app_nil_r. auto. }
  assert (Rp : repair (ch "{" :: body ++ [ch "}"]) = ch "{" :: z ++ [ch "}"]).
  { unfold repair. rewrite R. apply close_open_closed. }
  assert (Pp : parses (ch "{" :: z ++ [ch "}"]) = true).
  { unfold parses. rewrite P. reflexivity. }
  generalize (extractJson_cases (ch "{" :: body ++ [ch "}"])).
  cbv zeta. rewrite C, Rp.
  intros [[H _]|[(_ & _ & E)|[(_ & H & _)|(_ & H & _)]]];
    first [exact E|congruence].
Qed.

(** After the substitution before the closing brace no other one
    applies. *)
Lemma repaired_quiet_closed (p : jsstring) (u w : N) :
  Forall no_closer p -> colon_then_comma p = false ->
  (u = ch "[" /\ w = ch "]") \/ (u = dq /\ w = dq) ->
  forall q, In q repair_steps ->
    replace ((((ch "{" :: p ++ js ": ") ++ [u]) ++ [w]) ++ [ch "}"])
            (fst q) (snd q)
    = (((ch "{" :: p ++ js ": ") ++ [u]) ++ [w]) ++ [ch "}"].
Proof.
  intros F C U.
  assert (Fu : no_closer u /\ is_space u = false /\ u <> ch ","
               /\ u <> ch ":").
  { destruct U as [[-> _]|[-> _]]; repeat split; discriminate. }
  assert (Fw : is_space w = false /\ w <> ch ":" /\ w <> ch "}"
               /\ w <> ch ",").
  { destruct U as [[_ ->]|[_ ->]]; repeat split; discriminate. }
  destruct Fu as (U1 & U2 & U3 & U4). destruct Fw as (W1 & W2 & W3 & W4).
  apply repair_quiet_closed; try assumption.
  - apply no_closer_is_closer. apply Forall_app. split; [|auto].
    constructor; [split; discriminate|]. apply Forall_app.
    split; [exact F|]. repeat constructor; discriminate.
  - replace ((((ch "{" :: p ++ js ": ") ++ [u]) ++ [w]) ++ [ch "}"])
      with ((ch "{" :: p) ++ ch ":" :: [ch " "; u; w; ch "}"])
      by (app_norm; reflexivity).
    rewrite colon_then_comma_split by (reflexivity || discriminate).
    rewrite colon_then_comma_cons, C by discriminate. cbn [orb].
    cbn [colon_then_comma comma_after_space].
    apply N.eqb_neq in U3, U4, W2, W4.
    rewrite U3, U4, W2, W4, N.eqb_refl, U2.
    change (ch " " =? ch ",") with false. change (ch " " =? ch ":") with false.
    change (ch "}" =? ch ":") with false.
    change (is_space (ch " ")) with true. cbn [andb orb].
    reflexivity.
Qed.

(** ** A dangling colon before the closing brace *)

Lemma closed_no_fence (p ws2 : jsstring) :
  has_fence p = false -> Forall (fun x => is_space x = true) ws2 ->
  has_fence (ch "{" :: (p ++ ch ":" :: ws2) ++ [ch "}"]) = false.
Proof.
  intros H W2. cbn [has_fence]. apply orb_false_iff. split.
  - unfold starts_fence.
    destruct ((p ++ ch ":" :: ws2) ++ [ch "}"]) as [|b [|c s]]; reflexivity.
  - rewrite <- app_assoc. cbn [app].
    rewrite has_fence_split by discriminate. rewrite H. cbn [orb].
    apply has_fence_none. constructor; [discriminate|].
    apply Forall_app. split.
    + apply spaces_not; [reflexivity|exact W2].
    + repeat constructor. discriminate.
Qed.

Section Closed.

Variables (p ws2 : jsstring).
Hypothesis no_closers : Forall no_closer p.
Hypothesis no_colon_comma : colon_then_comma p = false.
Hypothesis spaces : Forall (fun x => is_space x = true) ws2.

Lemma open_no_brace : Forall (fun x => x <> ch "}") (ch "{" :: p).
Proof.
  constructor; [discriminate|]. eapply Forall_impl; [|exact no_closers].
  cbn beta. intros x Hx. apply Hx.
Qed.

(** Before the substitution: the patterns for the end of the text and
    for a comma do not apply. *)
Lemma closed_quiet (q : RegExp * list tpl_item) :
  (exists name, q = (re_dangling name AtEnd, tpl_empty_array name AtEnd))
  \/ (exists name, q = (re_dangling name BeforeComma,
                        tpl_empty_array name BeforeComma))
  \/ q = (re_dangling_string AtEnd, tpl_empty_string AtEnd)
  \/ q = (re_dangling_string BeforeComma, tpl_empty_string BeforeComma)
  \/ q = (re_colon AtEnd, tpl_colon AtEnd) ->
  replace (ch "{" :: (p ++ ch ":" :: ws2) ++ [ch "}"]) (fst q) (snd q)
  = ch "{" :: (p ++ ch ":" :: ws2) ++ [ch "}"].
Proof.
  intros H.
  destruct (at_end_unmatched (ch "{" :: p ++ ch ":" :: ws2) (ch "}") eq_refl
              ltac:(discriminate)) as (A1 & A2 & A3).
  destruct (before_comma_unmatched _
              (closed_no_colon_comma p ws2 no_colon_comma spaces))
    as (C1 & C2 & _).
  destruct H as [(name & ->)|[(name & ->)|[->|[->| ->]]]]; cbn [fst snd];
    auto.
Qed.

Lemma closed_absent (name : string) :
  ~ key_ends name (ch "{" :: p) ->
  replace (ch "{" :: (p ++ ch ":" :: ws2) ++ [ch "}"])
          (re_dangling name BeforeBrace) (tpl_empty_array name BeforeBrace)
  = ch "{" :: (p ++ ch ":" :: ws2) ++ [ch "}"].
Proof.
  apply (brace_absent (ch "{" :: p) ws2 open_no_brace spaces name).
Qed.

Lemma closed_string_absent :
  (forall name, In name string_fields -> ~ key_ends name (ch "{" :: p)) ->
  replace (ch "{" :: (p ++ ch ":" :: ws2) ++ [ch "}"])
          (re_dangling_string BeforeBrace) (tpl_empty_string BeforeBrace)
  = ch "{" :: (p ++ ch ":" :: ws2) ++ [ch "}"].
Proof.
  apply (brace_string_absent (ch "{" :: p) ws2 open_no_brace spaces).
Qed.

End Closed.

Lemma repair_closed_colon (p ws2 : jsstring) :
  Forall no_closer p -> colon_then_comma p = false ->
  Forall (fun x => is_space x = true) ws2 ->
  ends_with_known_key p = false ->
  repair_substitutions (ch "{" :: (p ++ ch ":" :: ws2) ++ [ch "}"])
  = (((ch "{" :: p ++ js ": ") ++ [dq]) ++ [dq]) ++ [ch "}"].
Proof.
  intros F C W2 N.
  pose proof (closed_quiet p ws2 C W2) as Cq.
  pose proof (repaired_quiet_closed _ dq dq F C
                (or_intror (conj eq_refl eq_refl))) as Rq.
  assert (K : forall name fill, In (name, fill) dangling_fills ->
                ~ key_ends name (ch "{" :: p)).
  { intros name fill I H. apply key_ends_open in H.
    rewrite (known_key_absent name fill p N I) in H. discriminate H. }
  apply (repair_fires (firstn 10 repair_steps) (skipn 11 repair_steps)
           (re_colon BeforeBrace) (tpl_colon BeforeBrace));
    [reflexivity| | |exact Rq].
  - intros q Iq. cbn [firstn repair_steps] in Iq.
    destruct Iq as [<-|[<-|[<-|[<-|[<-|[<-|[<-|[<-|[<-|[<-|[]]]]]]]]]]].
    + apply Cq. left. eexists. reflexivity.
    + apply (closed_absent p ws2 F W2), (K _ (js "[]")). cbn. tauto.
    + apply Cq. right. left. eexists. reflexivity.
    + apply Cq. left. eexists. reflexivity.
    + apply (closed_absent p ws2 F W2), (K _ (js "[]")). cbn. tauto.
    + apply Cq. right. left. eexists. reflexivity.
    + apply Cq. right. right. left. reflexivity.
    + apply (closed_string_absent p ws2 F W2). intros name I.
      apply (K name (js "~~")). unfold dangling_fills.
      destruct I as [<-|[<-|[<-|[<-|[]]]]]; cbn; tauto.
    + apply Cq. right. right. right. left. reflexivity.
    + apply Cq. right. right. right. right. reflexivity.
  - rewrite (colon_brace_fires (ch "{" :: p) ws2 (open_no_brace p F) W2
             : replace (ch "{" :: (p ++ ch ":" :: ws2) ++ [ch "}"]) _ _ = _).
    app_norm. reflexivity.
Qed.

Lemma dangling_colon_closed (p ws2 : jsstring) (v : value) :
  Forall (fun x => is_space x = true) ws2 ->
  Forall (fun x => x <> ch "}" /\ x <> ch "]") p ->
  has_fence p = false -> colon_then_comma p = false ->
  ends_with_known_key p = false ->
  JSON_parse (ch "{" :: p ++ js ": ~~}") = Ok v ->
  extractJson (ch "{" :: p ++ ch ":" :: ws2 ++ js "}")
  = Ok (ch "{" :: p ++ js ": ~~}").
Proof.
  intros W2 F Hf C N P.
  pose proof (repair_closed_colon p ws2 F C W2 N) as R.
  replace (ch "{" :: p ++ ch ":" :: ws2 ++ js "}")
    with (ch "{" :: (p ++ ch ":" :: ws2) ++ [ch "}"])
    by (app_norm; reflexivity).
  replace (ch "{" :: p ++ js ": ~~}")
    with (ch "{" :: (((p ++ js ": ") ++ [dq]) ++ [dq]) ++ [ch "}"]) in *
    by (app_norm; reflexivity).
  apply (extractJson_brace_repaired _ _ v (closed_no_fence p ws2 Hf W2)
           (colon_brace_no_parse p ws2 W2) R P).
Qed.

Section ClosedKey.

Variables (b ws1 ws2 : jsstring) (name : string).
Hypothesis no_closers : Forall no_closer b.
Hypothesis no_fence : has_fence b = false.
Hypothesis no_colon_comma : colon_then_comma b = false.
Hypothesis key_words : Forall (fun x => is_word x = true) (js name).
Hypothesis spaces1 : Forall (fun x => is_space x = true) ws1.
Hypothesis spaces2 : Forall (fun x => is_space x = true) ws2.

Lemma closed_key_other (name' : string) :
  js name <> js name' ->
  Forall (fun x => is_word x = true) (js name') ->
  replace (ch "{" :: ((b ++ dq :: js name ++ dq :: ws1) ++ ch ":" :: ws2)
                     ++ [ch "}"])
          (re_dangling name' BeforeBrace) (tpl_empty_array name' BeforeBrace)
  = ch "{" :: ((b ++ dq :: js name ++ dq :: ws1) ++ ch ":" :: ws2) ++ [ch "}"].
Proof.
  intros N Fn.
  destruct (key_prefix_facts b (js name) ws1 no_closers no_fence
              no_colon_comma key_words spaces1) as (P1 & _ & _).
  apply (closed_absent (b ++ dq :: js name ++ dq :: ws1) ws2 P1 spaces2).
  intros H. apply N.
  apply (key_ends_same name' (js name) (ch "{" :: b) ws1);
    [apply words_not; [reflexivity|exact key_words]|exact Fn
    |exact spaces1|exact H].
Qed.

Lemma open_b_no_brace : Forall (fun c => c <> ch "}") (ch "{" :: b).
Proof. apply open_no_brace, no_closers. Qed.

Lemma closed_key_fires :
  replace (ch "{" :: ((b ++ dq :: js name ++ dq :: ws1) ++ ch ":" :: ws2)
                     ++ [ch "}"])
          (re_dangling name BeforeBrace)
          (tpl_empty_array name BeforeBrace)
  = (((ch "{" :: (b ++ dq :: js name ++ [dq]) ++ js ": ") ++ [ch "["])
     ++ [ch "]"]) ++ [ch "}"].
Proof.
  rewrite (brace_key_fires (ch "{" :: b) ws1 ws2 name open_b_no_brace
             key_words spaces1 spaces2
           : replace (ch "{" :: ((b ++ dq :: js name ++ dq :: ws1)
                                 ++ ch ":" :: ws2) ++ [ch "}"]) _ _ = _).
  app_norm. reflexivity.
Qed.

Lemma closed_string_fires :
  In name string_fields ->
  replace (ch "{" :: ((b ++ dq :: js name ++ dq :: ws1) ++ ch ":" :: ws2)
                     ++ [ch "}"])
          (re_dangling_string BeforeBrace)
          (tpl_empty_string BeforeBrace)
  = (((ch "{" :: (b ++ dq :: js name ++ [dq]) ++ js ": ") ++ [dq])
     ++ [dq]) ++ [ch "}"].
Proof.
  intros I.
  rewrite (brace_string_fires (ch "{" :: b) ws1 ws2 name open_b_no_brace
             key_words spaces1 spaces2 I
           : replace (ch "{" :: ((b ++ dq :: js name ++ dq :: ws1)
                                 ++ ch ":" :: ws2) ++ [ch "}"]) _ _ = _).
  app_norm. reflexivity.
Qed.

End ClosedKey.

Lemma repair_closed_array (name : string) (b ws1 ws2 : jsstring) :
  In name ["dependencies"; "subtasks"]%string ->
  Forall no_closer b -> has_fence b = false -> colon_then_comma b = false ->
  Forall (fun x => is_space x = true) ws1 ->
  Forall (fun x => is_space x = true) ws2 ->
  repair_substitutions
    (ch "{" :: ((b ++ dq :: js name ++ dq :: ws1) ++ ch ":" :: ws2)
               ++ [ch "}"])
  = (((ch "{" :: (b ++ dq :: js name ++ [dq]) ++ js ": ") ++ [ch "["])
     ++ [ch "]"]) ++ [ch "}"].
Proof.
  intros I Fb Hf Hc W1 W2.
  assert (Fn : Forall (fun x => is_word x = true) (js name)).
  { destruct I as [<-|[<-|[]]]; known_words. }
  destruct (key_prefix_facts b (js name) ws1 Fb Hf Hc Fn W1) as (P1 & _ & P3).
  destruct (key_prefix_facts b (js name) [] Fb Hf Hc Fn (Forall_nil _))
    as (Q1 & _ & Q3).
  pose proof (closed_quiet _ ws2 P3 W2) as Cq.
  pose proof (repaired_quiet_closed _ (ch "[") (ch "]") Q1 Q3
                (or_introl (conj eq_refl eq_refl))) as Rq.
  pose proof (closed_key_fires b ws1 ws2 name Fb Fn W1 W2) as Fire.
  pose proof (closed_key_other b ws1 ws2 name Fb Hf Hc Fn W1 W2) as Other.
  destruct I as [<-|[<-|[]]].
  - apply (repair_fires (firstn 1 repair_steps) (skipn 2 repair_steps)
             (re_dangling "dependencies" BeforeBrace)
             (tpl_empty_array "dependencies" BeforeBrace));
      [reflexivity| |exact Fire|exact Rq].
    intros q Iq. cbn [firstn repair_steps] in Iq.
    destruct Iq as [<-|[]].
    apply Cq. left. eexists. reflexivity.
  - apply (repair_fires (firstn 4 repair_steps) (skipn 5 repair_steps)
             (re_dangling "subtasks" BeforeBrace)
             (tpl_empty_array "subtasks" BeforeBrace));
      [reflexivity| |exact Fire|exact Rq].
    intros q Iq. cbn [firstn repair_steps] in Iq.
    destruct Iq as [<-|[<-|[<-|[<-|[]]]]].
    + apply Cq. left. eexists. reflexivity.
    + apply Other; [other_key|known_words].
    + apply Cq. right. left. eexists. reflexivity.
    + apply Cq. left. eexists. reflexivity.
Qed.

Lemma repair_closed_string (name : string) (b ws1 ws2 : jsstring) :
  In name string_fields ->
  Forall no_closer b -> has_fence b = false -> colon_then_comma b = false ->
  Forall (fun x => is_space x = true) ws1 ->
  Forall (fun x => is_space x = true) ws2 ->
  repair_substitutions
    (ch "{" :: ((b ++ dq :: js name ++ dq :: ws1) ++ ch ":" :: ws2)
               ++ [ch "}"])
  = (((ch "{" :: (b ++ dq :: js name ++ [dq]) ++ js ": ") ++ [dq])
     ++ [dq]) ++ [ch "}"].
Proof.
  intros I Fb Hf Hc W1 W2.
  pose proof (string_fields_words name I) as Fn.
  destruct (key_prefix_facts b (js name) ws1 Fb Hf Hc Fn W1) as (P1 & _ & P3).
  destruct (key_prefix_facts b (js name) [] Fb Hf Hc Fn (Forall_nil _))
    as (Q1 & _ & Q3).
  pose proof (closed_quiet _ ws2 P3 W2) as Cq.
  pose proof (repaired_quiet_closed _ dq dq Q1 Q3
                (or_intror (conj eq_refl eq_refl))) as Rq.
  pose proof (closed_string_fires b ws1 ws2 name Fb Fn W1 W2 I) as Fire.
  pose proof (closed_key_other b ws1 ws2 name Fb Hf Hc Fn W1 W2) as Other.
  apply (repair_fires (firstn 7 repair_steps) (skipn 8 repair_steps)
           (re_dangling_string BeforeBrace) (tpl_empty_string BeforeBrace));
    [reflexivity| |exact Fire|exact Rq].
  intros q Iq. cbn [firstn repair_steps] in Iq.
  destruct Iq as [<-|[<-|[<-|[<-|[<-|[<-|[<-|[]]]]]]]].
  - apply Cq. left. eexists. reflexivity.
  - apply Other; [destruct I as [<-|[<-|[<-|[<-|[]]]]]; other_key
                 |known_words].
  - apply Cq. right. left. eexists. reflexivity.
  - apply Cq. left. eexists. reflexivity.
  - apply Other; [destruct I as [<-|[<-|[<-|[<-|[]]]]]; other_key
                 |known_words].
  - apply Cq. right. left. eexists. reflexivity.
  - apply Cq. right. right. left. reflexivity.
Qed.

Lemma dangling_key_closed (name : string) (fill b ws1 ws2 : jsstring)
    (v : value) :
  In (name, fill) dangling_fills ->
  Forall (fun x => is_space x = true) ws1 ->
  Forall (fun x => is_space x = true) ws2 ->
  Forall (fun x => x <> ch "}" /\ x <> ch "]") b ->
  has_fence b = false -> colon_then_comma b = false ->
  JSON_parse (ch "{" :: b ++ dq :: js name ++ dq :: js ": " ++ fill ++ js "}")
  = Ok v ->
  extractJson (ch "{" :: b ++ dq :: js name ++ dq :: ws1 ++ ch ":" :: ws2
               ++ js "}")
  = Ok (ch "{" :: b ++ dq :: js name ++ dq :: js ": " ++ fill ++ js "}").
Proof.
  intros I W1 W2 Fb Hf Hc P.
  assert (Fn : Forall (fun x => is_word x = true) (js name)).
  { apply dangling_fills_cases in I as [[I _]|[I _]].
    - destruct I as [<-|[<-|[]]]; known_words.
    - apply string_fields_words, I. }
  destruct (key_prefix_facts b (js name) ws1 Fb Hf Hc Fn W1) as (P1 & P2 & _).
  assert (G : exists u w,
            fill = [u; w]
            /\ repair_substitutions
                 (ch "{" :: ((b ++ dq :: js name ++ dq :: ws1)
                             ++ ch ":" :: ws2) ++ [ch "}"])
               = ch "{" :: ((((b ++ dq :: js name ++ [dq]) ++ js ": ") ++ [u])
                            ++ [w]) ++ [ch "}"]).
  { apply dangling_fills_cases in I as [[I ->]|[I ->]].
    - exists (ch "["), (ch "]"). split; [reflexivity|].
      apply (repair_closed_array name b ws1 ws2); assumption.
    - exists dq, dq. split; [reflexivity|].
      apply (repair_closed_string name b ws1 ws2); assumption. }
  destruct G as (u & w & -> & R).
  replace (ch "{" :: b ++ dq :: js name ++ dq :: ws1 ++ ch ":" :: ws2
           ++ js "}")
    with (ch "{" :: ((b ++ dq :: js name ++ dq :: ws1) ++ ch ":" :: ws2)
                    ++ [ch "}"])
    by (app_norm; reflexivity).
  replace (ch "{" :: b ++ dq :: js name ++ dq :: js ": " ++ [u; w] ++ js "}")
    with (ch "{" :: ((((b ++ dq :: js name ++ [dq]) ++ js ": ") ++ [u])
                     ++ [w]) ++ [ch "}"]) in *
    by (app_norm; reflexivity).
  apply (extractJson_brace_repaired _ _ v
           (closed_no_fence _ ws2 P2 W2)
           (colon_brace_no_parse _ ws2 W2) R P).
Qed.

(** X13: an object text that stops after the colon of one of the six keys
    that the repair pass knows, with or without the closing brace, gets the
    empty array, for [dependencies] and [subtasks], or the empty string,
    for [title], [description], [details] and [testStrategy], and the
    closing brace, when that makes it valid JSON: the whitespace around the
    colon goes, the members before the key stay (lines 46, 47, 50, 51, 56,
    57 and 69 to 71).  The text before the key holds no closing brace or
    bracket, no run of three backticks and no colon that is followed by a
    comma. *)
Theorem extractJson_dangling_key (name : string)
    (fill b ws1 ws2 closing : jsstring) (v : value) :
  In (name, fill) dangling_fills ->
  Forall (fun x => is_space x = true) ws1 ->
  Forall (fun x => is_space x = true) ws2 ->
  Forall (fun x => x <> ch "}" /\ x <> ch "]") b ->
  has_fence b = false -> colon_then_comma b = false ->
  closing = [] \/ closing = js "}" ->
  JSON_parse (ch "{" :: b ++ dq :: js name ++ dq :: js ": " ++ fill ++ js "}")
  = Ok v ->
  extractJson (ch "{" :: b ++ dq :: js name ++ dq :: ws1 ++ ch ":" :: ws2
               ++ closing)
  = Ok (ch "{" :: b ++ dq :: js name ++ dq :: js ": " ++ fill ++ js "}").
Proof.
  intros I W1 W2 Fb Hf Hc [-> | ->] P.
  - rewrite app_nil_r. apply (dangling_key_at_end name fill b ws1 ws2 v);
      assumption.
  - apply (dangling_key_closed name fill b ws1 ws2 v); assumption.
Qed.

Lemma extractJson_dangling_key_witness :
  extractJson (js "{~id~:7,~title~:~Fix~,~subtasks~ : ")
  = Ok (js "{~id~:7,~title~:~Fix~,~subtasks~: []}")
  /\ extractJson (js "{~details~:}")
     = Ok (js "{~details~: ~~}").
Proof.
  split.
  - apply (extractJson_dangling_key "subtasks" (js "[]")
             (js "~id~:7,~title~:~Fix~,") (js " ") (js " ") []
             (JObj [(js "id", JNum (S754_finite false 7881299347898368 (-50)));
                    (js "title", JStr (js "Fix"));
                    (js "subtasks", JArr [])]));
      try (vm_compute; tauto); try reflexivity;
      repeat constructor; discriminate.
  - apply (extractJson_dangling_key "details" (js "~~") [] [] [] (js "}")
             (JObj [(js "details", JStr [])]));
      try (vm_compute; tauto); try reflexivity;
      repeat constructor; discriminate.
Defined.

(** X14: an object text that stops after the colon of any other key, with
    or without the closing brace, gets the empty string and the closing
    brace, when that makes it valid JSON, and all that stands before the
    colon is kept (lines 61, 62 and 69 to 71).  The text before the colon
    holds no closing brace or bracket, no run of three backticks and no
    colon that is followed by a comma, and does not end with one of the six
    known keys. *)
Theorem extractJson_dangling_colon (p ws2 closing : jsstring) (v : value) :
  Forall (fun x => is_space x = true) ws2 ->
  Forall (fun x => x <> ch "}" /\ x <> ch "]") p ->
  has_fence p = false -> colon_then_comma p = false ->
  ends_with_known_key p = false ->
  closing = [] \/ closing = js "}" ->
  JSON_parse (ch "{" :: p ++ js ": ~~}") = Ok v ->
  extractJson (ch "{" :: p ++ ch ":" :: ws2 ++ closing)
  = Ok (ch "{" :: p ++ js ": ~~}").
Proof.
  intros W2 F Hf C N [-> | ->] P.
  - rewrite app_nil_r. apply (dangling_colon_at_end p ws2 v); assumption.
  - apply (dangling_colon_closed p ws2 v); assumption.
Qed.

Lemma extractJson_dangling_colon_witness :
  extractJson (js "{~id~:7,~status~ : ")
  = Ok (js "{~id~:7,~status~ : ~~}")
  /\ extractJson (js "{~status~: }")
     = Ok (js "{~status~: ~~}").
Proof.
  split.
  - apply (extractJson_dangling_colon (js "~id~:7,~status~ ") (js " ") []
             (JObj [(js "id", JNum (S754_finite false 7881299347898368 (-50)));
                    (js "status", JStr [])]));
      try (vm_compute; tauto); try reflexivity;
      repeat constructor; discriminate.
  - apply (extractJson_dangling_colon (js "~status~") (js " ") (js "}")
             (JObj [(js "status", JStr [])]));
      try (vm_compute; tauto); try reflexivity;
      repeat constructor; discriminate.
Defined.

(* ------------------------------------------------------------------ *)
(** ** A unit, whitespace and another unit *)

Section UnitThen.

Variables (u : N) (p : N -> bool).

Lemma after_space_intro (sp : jsstring) (x : N) (r : jsstring) :
  Forall (fun c => is_space c = true) sp -> p x = true ->
  after_space p (sp ++ x :: r) = true.
Proof.
  intros F Hx. induction F as [|c sp Hc F IH]; cbn [app after_space].
  - rewrite Hx. reflexivity.
  - rewrite Hc, IH. destruct (p c); reflexivity.
Qed.

Lemma unit_then_app (a b : jsstring) :
  unit_then u p b = true -> unit_then u p (a ++ b) = true.
Proof.
  intros H. induction a as [|x a IH]; [exact H|].
  cbn [app unit_then]. rewrite IH. apply orb_true_r.
Qed.

Lemma unit_then_intro (a sp : jsstring) (x : N) (r : jsstring) :
  Forall (fun c => is_space c = true) sp -> p x = true ->
  unit_then u p (a ++ u :: sp ++ x :: r) = true.
Proof.
  intros F Hx. apply unit_then_app. cbn [unit_then].
  rewrite N.eqb_refl, (after_space_intro sp x r F Hx). reflexivity.
Qed.

Lemma unit_then_cons (x : N) (s : jsstring) :
  x <> u -> unit_then u p (x :: s) = unit_then u p s.
Proof.
  intros H. apply N.eqb_neq in H. cbn [unit_then]. rewrite H. reflexivity.
Qed.

Lemma unit_then_none (s : jsstring) :
  Forall (fun x => x <> u) s -> unit_then u p s = false.
Proof.
  induction 1 as [|x s Hx F IH]; [reflexivity|].
  rewrite unit_then_cons by exact Hx. exact IH.
Qed.

Lemma after_space_solid (a : jsstring) (x : N) (b : jsstring) :
  is_space x = false -> p x = false ->
  after_space p (a ++ x :: b) = after_space p a.
Proof.
  intros Hs Hp. induction a as [|y a IH]; cbn [app after_space].
  - rewrite Hp, Hs. reflexivity.
  - rewrite IH. reflexivity.
Qed.

(** What comes after does not count when it starts with a unit that is
    neither whitespace nor one that [p] accepts. *)
Lemma unit_then_split (a : jsstring) (x : N) (b : jsstring) :
  is_space x = false -> p x = false ->
  unit_then u p (a ++ x :: b) = unit_then u p a || unit_then u p (x :: b).
Proof.
  intros Hs Hp. induction a as [|y a IH]; [reflexivity|].
  cbn [app]. cbn [unit_then].
  change (unit_then u p (a ++ x :: b)
          = unit_then u p a || unit_then u p (x :: b)) in IH.
  rewrite IH, (after_space_solid a x b Hs Hp), orb_assoc. reflexivity.
Qed.

End UnitThen.

Lemma colon_then_brace_unmatched (s : jsstring) :
  colon_then_brace s = false ->
  (forall name, replace s (re_dangling name BeforeBrace)
                  (tpl_empty_array name BeforeBrace) = s)
  /\ replace s (re_dangling_string BeforeBrace) (tpl_empty_string BeforeBrace)
     = s
  /\ replace s (re_colon BeforeBrace) (tpl_colon BeforeBrace) = s.
Proof.
  intros H.
  assert (G : forall before pre s2 rest,
            Forall (fun x => is_space x = true) s2 ->
            s = before ++ (pre ++ ch ":" :: s2 ++ position_text BeforeBrace)
                ++ rest -> False).
  { intros before pre s2 rest F E.
    rewrite E in H. cbn [position_text] in H.
    replace (before ++ (pre ++ ch ":" :: s2 ++ js "}") ++ rest)
      with ((before ++ pre) ++ ch ":" :: s2 ++ ch "}" :: rest) in H
      by (app_norm; reflexivity).
    unfold colon_then_brace in H.
    rewrite unit_then_intro in H; [discriminate|exact F|apply N.eqb_refl]. }
  repeat split; [intros name| |];
    (apply replace_unmatched; [reflexivity|]);
    intros before w rest cs E M _.
  - apply matches_dangling in M as (s1 & s2 & F1 & F2 & -> & _).
    apply (G before _ s2 rest F2 E).
  - apply matches_dangling_string in M as (nm & s1 & s2 & _ & F1 & F2 & -> & _).
    apply (G before _ s2 rest F2 E).
  - apply matches_colon in M as (s2 & F2 & -> & _).
    apply (G before [] s2 rest F2 E).
Qed.

(** ** The comma before the closing unit *)

Lemma trailing_comma_fires (x ws : jsstring) (cl : N) :
  comma_then_closer x = false ->
  Forall (fun c => is_space c = true) ws -> is_closer cl = true ->
  replace ((x ++ ch "," :: ws) ++ [cl]) re_trailing_comma [TCap 1]
  = (x ++ ws) ++ [cl].
Proof.
  intros N W C. unfold replace, replace_first.
  change (re_global re_trailing_comma) with false. cbn iota.
  destruct (search re_trailing_comma None ((x ++ ch "," :: ws) ++ [cl]))
    as [[[before m] st]|] eqn:S.
  - apply search_sound in S as [Es M].
    apply matches_trailing_comma in M as (sp & cl' & F & C' & -> & Ec).
    rewrite Ec. cbn [expand cap_lookup]. rewrite Nat.eqb_refl, app_nil_r.
    assert (Hcl : forall c, is_closer c = true ->
                            is_space c = false /\ c <> ch ",").
    { intros c Hc. unfold is_closer in Hc. apply orb_true_iff in Hc.
      destruct Hc as [Hc|Hc]; apply N.eqb_eq in Hc; subst c;
        split; (reflexivity || discriminate). }
    destruct (m_rest st) as [|l rest _] using rev_ind.
    + rewrite app_nil_r in *.
      replace (before ++ ch "," :: sp ++ [cl'])
        with ((before ++ ch "," :: sp) ++ [cl']) in Es
        by (app_norm; reflexivity).
      apply app_inj_tail in Es as [Es <-].
      apply last_solid in Es as (-> & _ & ->);
        [|assumption|assumption|reflexivity..].
      app_norm. reflexivity.
    + exfalso.
      replace (before ++ (ch "," :: sp ++ [cl']) ++ rest ++ [l])
        with (((before ++ ch "," :: sp ++ [cl']) ++ rest) ++ [l]) in Es
        by (app_norm; reflexivity).
      apply app_inj_tail in Es as [Es _].
      apply app_eq_app in Es as [k [[E1 E2]|[E1 E2]]].
      * rewrite E1 in N. unfold comma_then_closer in N.
        replace ((before ++ ch "," :: sp ++ [cl']) ++ k)
          with (before ++ ch "," :: sp ++ cl' :: k) in N
          by (app_norm; reflexivity).
        rewrite unit_then_intro in N; [discriminate|exact F|exact C'].
      * destruct k as [|k0 k _] using rev_ind.
        { rewrite app_nil_r in E1. rewrite <- E1 in N.
          unfold comma_then_closer in N.
          replace (before ++ ch "," :: sp ++ [cl'])
            with (before ++ ch "," :: sp ++ cl' :: []) in N by reflexivity.
          rewrite unit_then_intro in N; [discriminate|exact F|exact C']. }
        replace (before ++ ch "," :: sp ++ [cl'])
          with ((before ++ ch "," :: sp) ++ [cl']) in E1
          by (app_norm; reflexivity).
        rewrite app_assoc in E1. apply app_inj_tail in E1 as [_ <-].
        destruct (Hcl cl' C') as [Hs Hc].
        assert (I : In cl' (ch "," :: ws)).
        { rewrite E2. apply in_or_app. left. apply in_or_app. right.
          left. reflexivity. }
        destruct I as [I|I]; [congruence|].
        rewrite Forall_forall in W. rewrite (W _ I) in Hs. discriminate Hs.
  - exfalso. revert S.
    assert (M : matches (re_pat re_trailing_comma)
                  ([ch ","] ++ ws ++ [cl]) ((1%nat, ws ++ [cl]) :: [] ++ [])
                /\ True).
    { split; [|exact I]. cbn [re_pat re_trailing_comma rseq].
      change ((1%nat, ws ++ [cl]) :: [] ++ [])
        with (((1%nat, ws ++ [cl]) :: [] ++ []) ++ []).
      apply M_seq; [apply M_char|].
      apply M_group. apply M_seq;
        [apply (M_star is_space); exact W|apply M_set; exact C]. }
    destruct M as [M _].
    pose proof (search_plain_found re_trailing_comma x _ [] _ eq_refl M) as G.
    rewrite app_nil_r in G.
    replace ((x ++ ch "," :: ws) ++ [cl])
      with (x ++ [ch ","] ++ ws ++ [cl]) by (app_norm; reflexivity).
    exact G.
Qed.

(** ** A comma before the closing brace or bracket *)

Lemma solid_last (x : jsstring) :
  Forall (fun c => is_space c = true) x
  \/ exists a u sa, x = a ++ u :: sa /\ is_space u = false
                    /\ Forall (fun c => is_space c = true) sa.
Proof.
  induction x as [|l x IH] using rev_ind; [left; constructor|].
  destruct (is_space l) eqn:S.
  - destruct IH as [F|(a & u & sa & -> & Hu & F)].
    + left. apply Forall_app. auto.
    + right. exists a, u, (sa ++ [l]). split; [app_norm; reflexivity|].
      split; [exact Hu|]. apply Forall_app. auto.
  - right. exists x, l, []. auto.
Qed.

(** Before the bracket that closes the elements there is a value and
    whitespace. *)
Lemma parse_elements_solid (n : nat) :
  forall s l r, parse_elements n s = Some (l, r) ->
  exists b c ws, s = b ++ c :: ws ++ ch "]" :: r
                 /\ is_space c = false /\ c <> ch ":" /\ c <> ch ","
                 /\ json_space ws.
Proof.
  induction n as [|n IH]; intros s l r; [discriminate|].
  cbn [parse_elements].
  destruct (parse_value n s) as [[v r1]|] eqn:V; [|discriminate].
  apply value_text_end in V as (bv & cv & -> & Hc & Hn & Hm).
  destruct (skip_ws r1) as [|d r'] eqn:W; [discriminate|].
  apply skip_ws_cons in W as (w1 & -> & F1 & _).
  destruct (d =? ch ",") eqn:Dc.
  - destruct (parse_elements n (skip_ws r')) as [[l' rest]|] eqn:E;
      [|discriminate].
    intros H. injection H as _ <-.
    apply IH in E as (b & c' & ws & E & Hc' & Hn' & Hm' & Fw).
    destruct (skip_ws_split r') as (w2 & Er & _). rewrite E in Er.
    exists ((bv ++ [cv]) ++ w1 ++ d :: w2 ++ b), c', ws.
    split; [|auto]. rewrite Er. app_norm. reflexivity.
  - destruct (d =? ch "]") eqn:Db; [|discriminate].
    apply N.eqb_eq in Db. subst d.
    intros H. injection H as _ <-.
    exists bv, cv, w1. split; [|auto]. app_norm. reflexivity.
Qed.

Lemma array_text_end (n : nat) (r0 : jsstring) (v : value) (r : jsstring) :
  parse_value n (ch "[" :: r0) = Some (v, r) ->
  exists b c ws, ch "[" :: r0 = b ++ c :: ws ++ ch "]" :: r
                 /\ is_space c = false /\ c <> ch ":" /\ c <> ch ","
                 /\ json_space ws.
Proof.
  destruct n as [|n]; [discriminate|]. cbn [parse_value].
  change (ch "[" =? ch "{") with false. rewrite N.eqb_refl. cbn iota.
  destruct (skip_ws_split r0) as (w0 & E0 & F0).
  destruct (skip_ws r0) as [|c2 r2] eqn:W; [discriminate|].
  destruct (c2 =? ch "]") eqn:C2.
  - apply N.eqb_eq in C2. subst c2. intros H. injection H as _ <-.
    exists [], (ch "["), w0. rewrite E0.
    split; [reflexivity|]. split; [reflexivity|].
    split; [discriminate|]. split; [discriminate|exact F0].
  - destruct (parse_elements n (c2 :: r2)) as [[m rest]|] eqn:M;
      [|discriminate].
    intros H. injection H as _ <-.
    apply parse_elements_solid in M as (b & c & ws & E & Hc & Hn & Hm & Fw).
    exists (ch "[" :: w0 ++ b), c, ws. split; [|auto].
    rewrite E0, E. app_norm. reflexivity.
Qed.

Lemma close_open_bracketed (z : jsstring) :
  close_open (ch "[" :: z ++ [ch "]"]) = ch "[" :: z ++ [ch "]"].
Proof.
  assert (E : endsWith (ch "[" :: z ++ [ch "]"]) (ch "]") = true).
  { apply (endsWith_app (ch "[" :: z)). }
  unfold close_open. cbn [startsWith].
  change (ch "[" =? ch "{") with false. cbn [andb].
  rewrite E, andb_false_r. reflexivity.
Qed.

Section TrailingComma.

Variables (o cl : N) (b ws : jsstring) (v : value).
Hypothesis pair : (o = ch "{" /\ cl = ch "}") \/ (o = ch "[" /\ cl = ch "]").
Hypothesis spaces : Forall (fun x => is_space x = true) ws.
Hypothesis no_fence : has_fence b = false.
Hypothesis no_colon_comma : colon_then_comma b = false.
Hypothesis no_colon_brace : colon_then_brace b = false.
Hypothesis no_comma_closer : comma_then_closer b = false.
Hypothesis parsed : JSON_parse (o :: (b ++ ws) ++ [cl]) = Ok v.

Lemma pair_units :
  is_space o = false /\ is_json_ws o = false /\ o <> ch ":" /\ o <> ch ","
  /\ o <> ch "`" /\ is_space cl = false /\ cl <> ch ":" /\ cl <> ch "`"
  /\ is_closer cl = true /\ is_json_ws cl = false.
Proof.
  clear - pair.
  destruct pair as [[-> ->]|[-> ->]]; repeat split; discriminate.
Qed.

(** What stands before [ws] ends with a unit that is neither a colon nor
    a comma, and whitespace. *)
Lemma value_before_closer (y : jsstring) (u : value) :
  JSON_parse (o :: (y ++ ws) ++ [cl]) = Ok u ->
  exists b0 c w1, o :: y = b0 ++ c :: w1 /\ is_space c = false
                  /\ c <> ch ":" /\ c <> ch ","
                  /\ Forall (fun x => is_space x = true) w1.
Proof.
  destruct pair_units as (O1 & O2 & O3 & O4 & _ & K1 & _ & _ & _ & K2).
  intros P. unfold JSON_parse in P.
  rewrite skip_ws_stop in P by exact O2.
  destruct (parse_value _ _) as [[v' rest]|] eqn:V; [|discriminate].
  destruct (skip_ws rest) eqn:Wr; [|discriminate].
  apply skip_ws_nil in Wr.
  assert (G : exists b0 c ws', o :: (y ++ ws) ++ [cl]
                               = b0 ++ c :: ws' ++ cl :: rest
                /\ is_space c = false /\ c <> ch ":" /\ c <> ch ","
                /\ json_space ws').
  { clear - pair V. destruct pair as [[-> ->]|[-> ->]].
    - apply (object_text_end _ _ _ _ V).
    - apply (array_text_end _ _ _ _ V). }
  destruct G as (b0 & c & ws' & E & Hc & Hn & Hm & Fw).
  assert (Er : rest = []).
  { destruct rest as [|l rest _] using rev_ind; [reflexivity|]. exfalso.
    change (o :: (y ++ ws) ++ [cl]) with ((o :: y ++ ws) ++ [cl]) in E.
    replace (b0 ++ c :: ws' ++ cl :: rest ++ [l])
      with ((b0 ++ c :: ws' ++ cl :: rest) ++ [l]) in E
      by (app_norm; reflexivity).
    apply app_inj_tail in E as [_ E]. subst l.
    apply Forall_app in Wr as [_ Wr]. inversion Wr as [|? ? Hl _]; subst.
    congruence. }
  subst rest.
  change (o :: (y ++ ws) ++ [cl]) with ((o :: y ++ ws) ++ [cl]) in E.
  replace (b0 ++ c :: ws' ++ [cl]) with ((b0 ++ c :: ws') ++ [cl]) in E
    by (app_norm; reflexivity).
  apply app_inj_tail in E as [E _].
  destruct (solid_last (o :: y)) as [F|(a & x & sa & Ea & Hx & Fa)].
  { inversion F as [|? ? H _]. congruence. }
  change (o :: y ++ ws) with ((o :: y) ++ ws) in E.
  rewrite Ea in E. rewrite <- app_assoc in E. cbn [app] in E.
  apply last_solid in E as (-> & -> & _);
    [|apply Forall_app; auto|apply json_space_spaces, Fw|assumption..].
  exists b0, c, sa. auto.
Qed.

Lemma comma_closer_no_parse :
  parses (o :: (b ++ ch "," :: ws) ++ [cl]) = false.
Proof.
  unfold parses.
  destruct (JSON_parse (o :: (b ++ ch "," :: ws) ++ [cl]))
    as [u|e] eqn:P; [|reflexivity].
  exfalso.
  replace (o :: (b ++ ch "," :: ws) ++ [cl])
    with (o :: ((b ++ [ch ","]) ++ ws) ++ [cl]) in P
    by (app_norm; reflexivity).
  apply value_before_closer in P as (b0 & c & w1 & E & Hc & Hn & Hm & F).
  change (o :: b ++ [ch ","]) with ((o :: b) ++ [ch ","]) in E.
  destruct w1 as [|l w1 _] using rev_ind.
  - apply app_inj_tail in E as [_ E]. congruence.
  - replace (b0 ++ c :: w1 ++ [l]) with ((b0 ++ c :: w1) ++ [l]) in E
      by (app_norm; reflexivity).
    apply app_inj_tail in E as [_ E]. subst l.
    apply Forall_app in F as [_ F]. inversion F as [|? ? Hl _].
    discriminate Hl.
Qed.

Lemma comma_text_no_fence :
  has_fence (o :: (b ++ ch "," :: ws) ++ [cl]) = false.
Proof.
  destruct pair_units as (_ & _ & _ & _ & O5 & _ & _ & K3 & _).
  cbn [has_fence]. apply orb_false_iff. split.
  - unfold starts_fence. apply N.eqb_neq in O5.
    destruct ((b ++ ch "," :: ws) ++ [cl]) as [|x [|y s]];
      try reflexivity. rewrite O5. reflexivity.
  - rewrite <- app_assoc. cbn [app].
    rewrite has_fence_split by discriminate. rewrite no_fence. cbn [orb].
    apply has_fence_none. constructor; [discriminate|].
    apply Forall_app. split.
    + apply spaces_not; [reflexivity|exact spaces].
    + repeat constructor. exact K3.
Qed.

Lemma comma_tail_no_colon (w1 : jsstring) :
  Forall (fun x => is_space x = true) w1 ->
  Forall (fun x => x <> ch ":") (w1 ++ ch "," :: ws ++ [cl]).
Proof.
  destruct pair_units as (_ & _ & _ & _ & _ & _ & K2 & _).
  intros F. apply Forall_app. split.
  - apply spaces_not; [reflexivity|exact F].
  - constructor; [discriminate|]. apply Forall_app. split.
    + apply spaces_not; [reflexivity|exact spaces].
    + repeat constructor. exact K2.
Qed.

Lemma comma_text_no_colon_comma :
  colon_then_comma (o :: (b ++ ch "," :: ws) ++ [cl]) = false.
Proof.
  destruct pair_units as (_ & _ & O3 & _).
  destruct (value_before_closer b v parsed)
    as (b0 & c & w1 & E & Hc & Hn & Hm & F).
  assert (C0 : colon_then_comma b0 = false).
  { pose proof no_colon_comma as C.
    rewrite <- (colon_then_comma_cons o b) in C by exact O3.
    rewrite E, colon_then_comma_split in C by assumption.
    apply orb_false_iff in C as [C _]. exact C. }
  change (o :: (b ++ ch "," :: ws) ++ [cl])
    with (((o :: b) ++ ch "," :: ws) ++ [cl]).
  rewrite E.
  replace (((b0 ++ c :: w1) ++ ch "," :: ws) ++ [cl])
    with (b0 ++ c :: (w1 ++ ch "," :: ws ++ [cl]))
    by (app_norm; reflexivity).
  rewrite colon_then_comma_split, C0 by assumption. cbn [orb].
  rewrite colon_then_comma_cons by exact Hn.
  apply colon_then_comma_none, comma_tail_no_colon, F.
Qed.

Lemma comma_text_no_colon_brace :
  colon_then_brace (o :: (b ++ ch "," :: ws) ++ [cl]) = false.
Proof.
  destruct pair_units as (_ & _ & O3 & _).
  unfold colon_then_brace in *.
  rewrite unit_then_cons by exact O3.
  rewrite <- app_assoc. cbn [app].
  rewrite unit_then_split by reflexivity.
  rewrite no_colon_brace. cbn [orb].
  apply unit_then_none. apply (comma_tail_no_colon [] (Forall_nil _)).
Qed.

Lemma comma_text_repaired :
  repair_substitutions (o :: (b ++ ch "," :: ws) ++ [cl])
  = o :: (b ++ ws) ++ [cl].
Proof.
  destruct pair_units as (_ & _ & _ & O4 & _ & K1 & K2 & _ & K4 & _).
  destruct (at_end_unmatched (o :: b ++ ch "," :: ws) cl K1 K2)
    as (A1 & A2 & A3).
  destruct (colon_then_brace_unmatched _ comma_text_no_colon_brace)
    as (B1 & B2 & B3).
  destruct (before_comma_unmatched _ comma_text_no_colon_comma)
    as (C1 & C2 & C3).
  change ((o :: b ++ ch "," :: ws) ++ [cl])
    with (o :: (b ++ ch "," :: ws) ++ [cl]) in A1, A2, A3.
  unfold repair_substitutions.
  rewrite A1, B1, C1, A1, B1, C1, A2, B2, C2, A3, B3, C3.
  assert (N : comma_then_closer (o :: b) = false).
  { unfold comma_then_closer in *. rewrite unit_then_cons by exact O4.
    exact no_comma_closer. }
  exact (trailing_comma_fires (o :: b) ws cl N spaces K4).
Qed.

End TrailingComma.

(** X15: a comma before the closing brace of an object text is taken out,
    with the whitespace after it kept, when the text is then valid JSON
    (line 66).  The text between the braces holds no run of three backticks,
    no colon that is followed by a comma or a closing brace, and no other
    comma that is followed by a closing brace or bracket; whitespace may
    stand between the two. *)
Theorem extractJson_trailing_comma (b ws : jsstring) (v : value) :
  Forall (fun x => is_space x = true) ws ->
  has_fence b = false ->
  colon_then_comma b = false -> colon_then_brace b = false ->
  comma_then_closer b = false ->
  JSON_parse (ch "{" :: b ++ ws ++ js "}") = Ok v ->
  extractJson (ch "{" :: b ++ ch "," :: ws ++ js "}")
  = Ok (ch "{" :: b ++ ws ++ js "}").
Proof.
  intros W Hf C1 C2 C3 P.
  replace (ch "{" :: b ++ ws ++ js "}")
    with (ch "{" :: (b ++ ws) ++ [ch "}"]) in * by (app_norm; reflexivity).
  replace (ch "{" :: b ++ ch "," :: ws ++ js "}")
    with (ch "{" :: (b ++ ch "," :: ws) ++ [ch "}"])
    by (app_norm; reflexivity).
  assert (Hp : (ch "{" = ch "{" /\ ch "}" = ch "}")
               \/ (ch "{" = ch "[" /\ ch "}" = ch "]")) by auto.
  apply (extractJson_brace_repaired _ _ v
           (comma_text_no_fence _ _ b ws Hp W Hf)
           (comma_closer_no_parse _ _ b ws Hp W)
           (comma_text_repaired _ _ b ws v Hp W C1 C2 C3 P) P).
Qed.

Lemma extractJson_trailing_comma_witness :
  extractJson (js "{~title~:~x~,~dependencies~:[1,2], }")
  = Ok (js "{~title~:~x~,~dependencies~:[1,2] }").
Proof.
  apply (extractJson_trailing_comma (js "~title~:~x~,~dependencies~:[1,2]")
           (js " ")
           (JObj [(js "title", JStr (js "x"));
                  (js "dependencies",
                   JArr [JNum (S754_finite false 4503599627370496 (-52));
                         JNum (S754_finite false 4503599627370496 (-51))])]));
    try reflexivity; repeat constructor.
Defined.

(** X16: the same for an array text without an opening brace: the comma
    before the closing bracket is taken out when the text is then valid
    JSON. *)
Theorem extractJson_trailing_comma_array (b ws : jsstring) (v : value) :
  Forall (fun x => is_space x = true) ws ->
  Forall (fun x => x <> ch "{") b ->
  has_fence b = false ->
  colon_then_comma b = false -> colon_then_brace b = false ->
  comma_then_closer b = false ->
  JSON_parse (ch "[" :: b ++ ws ++ js "]") = Ok v ->
  extractJson (ch "[" :: b ++ ch "," :: ws ++ js "]")
  = Ok (ch "[" :: b ++ ws ++ js "]").
Proof.
  intros W Fb Hf C1 C2 C3 P.
  replace (ch "[" :: b ++ ws ++ js "]")
    with (ch "[" :: (b ++ ws) ++ [ch "]"]) in * by (app_norm; reflexivity).
  replace (ch "[" :: b ++ ch "," :: ws ++ js "]")
    with (ch "[" :: (b ++ ch "," :: ws) ++ [ch "]"])
    by (app_norm; reflexivity).
  assert (Hp : (ch "[" = ch "{" /\ ch "]" = ch "}")
               \/ (ch "[" = ch "[" /\ ch "]" = ch "]")) by auto.
  pose proof (comma_text_no_fence _ _ b ws Hp W Hf) as Nf.
  pose proof (comma_closer_no_parse _ _ b ws Hp W) as Np.
  pose proof (comma_text_repaired _ _ b ws v Hp W C1 C2 C3 P) as R.
  assert (C : candidate (ch "[" :: (b ++ ch "," :: ws) ++ [ch "]"])
              = ch "[" :: (b ++ ch "," :: ws) ++ [ch "]"]).
  { apply candidate_array_framed; [exact Nf| |].
    - exists [], []. rewrite app_nil_r. auto.
    - apply Forall_app. split; [exact Fb|].
      constructor; [discriminate|].
      apply spaces_not; [reflexivity|exact W]. }
  assert (Rp : repair (ch "[" :: (b ++ ch "," :: ws) ++ [ch "]"])
               = ch "[" :: (b ++ ws) ++ [ch "]"]).
  { unfold repair. rewrite R. apply close_open_bracketed. }
  assert (Pp : parses (ch "[" :: (b ++ ws) ++ [ch "]"]) = true).
  { unfold parses. rewrite P. reflexivity. }
  generalize (extractJson_cases (ch "[" :: (b ++ ch "," :: ws) ++ [ch "]"])).
  cbv zeta. rewrite C, Rp.
  intros [[H _]|[(_ & _ & E)|[(_ & H & _)|(_ & H & _)]]];
    first [exact E|congruence].
Qed.

Lemma extractJson_trailing_comma_array_witness :
  extractJson (js "[1, ~a,b~, [2],]") = Ok (js "[1, ~a,b~, [2]]").
Proof.
  apply (extractJson_trailing_comma_array (js "1, ~a,b~, [2]") []
           (JArr [JNum (S754_finite false 4503599627370496 (-52));
                  JStr (js "a,b");
                  JArr [JNum (S754_finite false 4503599627370496 (-51))]]));
    try reflexivity; repeat constructor; discriminate.
Defined.

(* ------------------------------------------------------------------ *)
(** ** The keys of an object literal *)

(** Two runs of units that [p] accepts, each before a unit that it does
    not accept, are the same run. *)
Lemma run_split (p : N -> bool) (a b : jsstring) (cx cy : N)
    (x y : jsstring) :
  Forall (fun c => p c = true) a -> Forall (fun c => p c = true) b ->
  p cx = false -> p cy = false ->
  a ++ cx :: x = b ++ cy :: y -> a = b /\ cx = cy /\ x = y.
Proof.
  intros Fa. revert b. induction Fa as [|c a Hc Fa IH]; intros b Fb Hx Hy E.
  - destruct b as [|d b]; cbn [app] in E.
    + injection E as -> ->. auto.
    + injection E as -> _. inversion Fb; subst. congruence.
  - destruct b as [|d b]; cbn [app] in E.
    + injection E as -> _. congruence.
    + injection E as -> E. inversion Fb; subst.
      destruct (IH b) as (-> & -> & ->); auto.
Qed.

Lemma key_start_unit (c : N) : is_key_start c = true -> is_key_unit c = true.
Proof.
  unfold is_key_start, is_key_unit. repeat rewrite ?orb_true_iff. tauto.
Qed.

Lemma key_unit_solid (c : N) :
  is_key_unit c = true ->
  is_space c = false /\ c <> ch ":" /\ c <> dq /\ c <> ch ","
  /\ c <> ch "}" /\ is_key_opener c = false.
Proof.
  intros H. unfold is_key_unit, is_key_opener in *.
  repeat split; units.
Qed.

(** A match of the key pattern, with the first unit of the key. *)
Lemma matches_key w cs :
  matches (re_pat re_unquoted_key) w cs ->
  exists o ws1 k0 ks ws2,
    w = (o :: ws1) ++ (k0 :: ks) ++ ws2 ++ [ch ":"]
    /\ is_key_opener o = true
    /\ Forall (fun x => is_space x = true) ws1
    /\ is_key_start k0 = true
    /\ Forall (fun x => is_key_unit x = true) ks
    /\ Forall (fun x => is_space x = true) ws2
    /\ expand tpl_quoted_key cs = (o :: ws1) ++ dq :: (k0 :: ks) ++ [dq; ch ":"].
Proof.
  cbn [re_pat re_unquoted_key rseq]. intros M. inv_matches.
  match goal with
  | |- exists _ _ _ _ _,
         ([?o] ++ ?a) ++ ([?k0] ++ ?ks) ++ ?b ++ _ = _ /\ _ =>
      exists o, a, k0, ks, b
  end.
  repeat (split; [first [reflexivity|assumption]|]).
  cbn [expand tpl_quoted_key cap_lookup Nat.eqb app]. app_norm.
  reflexivity.
Qed.

Section KeyMatch.

Variables (o k0 : N) (ws1 ks ws2 : jsstring).
Hypothesis opener : is_key_opener o = true.
Hypothesis spaces1 : Forall (fun x => is_space x = true) ws1.
Hypothesis key_start : is_key_start k0 = true.
Hypothesis key_units : Forall (fun x => is_key_unit x = true) ks.
Hypothesis spaces2 : Forall (fun x => is_space x = true) ws2.

(** At an opener that a key and its colon follow the pattern matches up
    to the colon. *)
Lemma key_match_at (prev : option N) (rest : jsstring) :
  exists st,
    exec_at re_unquoted_key prev
      (o :: ws1 ++ (k0 :: ks) ++ ws2 ++ ch ":" :: rest) = Some st
    /\ m_rest st = rest
    /\ expand tpl_quoted_key (m_caps st)
       = o :: ws1 ++ dq :: (k0 :: ks) ++ [dq; ch ":"].
Proof.
  destruct (key_unit_solid k0 (key_start_unit k0 key_start))
    as (K1 & K2 & _).
  destruct (exec_at re_unquoted_key prev
              (o :: ws1 ++ (k0 :: ks) ++ ws2 ++ ch ":" :: rest))
    as [st|] eqn:E.
  - exists st. split; [reflexivity|].
    apply exec_at_sound in E as (w & E & M).
    apply matches_key in M
      as (o' & a & c0 & cs & b & -> & Ho & Fa & Hc & Fc & Fb & Ex).
    destruct (key_unit_solid c0 (key_start_unit c0 Hc)) as (C1 & C2 & _).
    replace (((o' :: a) ++ (c0 :: cs) ++ b ++ [ch ":"]) ++ m_rest st)
      with (o' :: a ++ c0 :: (cs ++ b ++ ch ":" :: m_rest st)) in E
      by (app_norm; reflexivity).
    cbn [app] in E. injection E as <- E.
    apply (run_split is_space) in E as (<- & <- & E); try assumption.
    assert (G : forall (x r : jsstring),
                Forall (fun c => is_space c = true) x ->
                exists c t, x ++ ch ":" :: r = c :: t
                            /\ is_key_unit c = false).
    { intros x r Fx. destruct Fx as [|c x Hc' Fx]; cbn [app].
      - eexists _, _. split; reflexivity.
      - eexists _, _. split; [reflexivity|].
        destruct (is_key_unit c) eqn:U; [|reflexivity].
        apply key_unit_solid in U as (U & _). congruence. }
    destruct (G ws2 rest spaces2) as (c1 & t1 & E1 & U1).
    destruct (G b (m_rest st) Fb) as (c2 & t2 & E2 & U2).
    rewrite E1, E2 in E.
    apply (run_split is_key_unit) in E as (<- & -> & ->); try assumption.
    rewrite <- E2 in E1.
    apply (run_split is_space) in E1 as (<- & _ & <-);
      try assumption; try reflexivity.
    split; [reflexivity|]. rewrite Ex. app_norm. reflexivity.
  - exfalso. revert E.
    assert (M : exists cs,
              matches (re_pat re_unquoted_key)
                (([o] ++ ws1) ++ ([k0] ++ ks) ++ ws2 ++ [ch ":"]) cs).
    { cbn [re_pat re_unquoted_key rseq]. eexists.
      apply M_seq.
      { apply M_group. apply M_seq;
          [apply M_set; exact opener
          |apply (M_star is_space); exact spaces1]. }
      apply M_seq.
      { apply M_group. apply M_seq;
          [apply M_set; exact key_start
          |apply M_star; exact key_units]. }
      apply M_seq; [apply (M_star is_space); exact spaces2|apply M_char]. }
    destruct M as (cs & M).
    pose proof (exec_complete re_unquoted_key _ cs eq_refl M prev rest) as G.
    replace ((([o] ++ ws1) ++ ([k0] ++ ks) ++ ws2 ++ [ch ":"]) ++ rest)
      with (o :: ws1 ++ (k0 :: ks) ++ ws2 ++ ch ":" :: rest) in G
      by (app_norm; reflexivity).
    exact G.
Qed.

End KeyMatch.

Lemma key_no_match (prev : option N) (c : N) (s : jsstring) :
  is_key_opener c = false -> exec_at re_unquoted_key prev (c :: s) = None.
Proof.
  intros H. unfold exec_at.
  cbn [re_pat re_multiline re_unquoted_key rseq rmatch m_rest m_prev m_caps].
  rewrite H. reflexivity.
Qed.

Lemma key_no_match_end (prev : option N) :
  exec_at re_unquoted_key prev [] = None.
Proof. reflexivity. Qed.

(** ** The global replacement, step by step *)

Section Global.

Variables (re : RegExp) (t : list tpl_item).

Lemma replace_all_skip (w rest : jsstring) :
  forall prev, exists prev',
    replace_all_from re t prev (w ++ rest) (length w)
    = replace_all_from re t prev' rest O.
Proof.
  induction w as [|c w IH]; intros prev.
  - exists prev. reflexivity.
  - cbn [app length]. rewrite replace_all_from_eq. apply IH.
Qed.

(** A match at the start: its replacement, then the text after it. *)
Lemma replace_all_match (prev : option N) (c : N) (w rest : jsstring) st :
  exec_at re prev (c :: w ++ rest) = Some st -> m_rest st = rest ->
  exists prev',
    replace_all_from re t prev (c :: w ++ rest) O
    = expand t (m_caps st) ++ replace_all_from re t prev' rest O.
Proof.
  intros E R. rewrite replace_all_from_eq, E, R.
  replace (length (c :: w ++ rest) - length rest)%nat with (S (length w))
    by (cbn [length]; rewrite length_app; lia).
  destruct (replace_all_skip w rest (Some c)) as (p & ->).
  exists p. reflexivity.
Qed.

(** Units at which the pattern does not match are copied. *)
Lemma replace_all_copy (w rest : jsstring) :
  (forall prev a b, w = a ++ b -> b <> [] ->
                    exec_at re prev (b ++ rest) = None) ->
  forall prev, exists prev',
    replace_all_from re t prev (w ++ rest) O
    = w ++ replace_all_from re t prev' rest O.
Proof.
  induction w as [|c w IH]; intros H prev.
  - exists prev. reflexivity.
  - cbn [app]. rewrite replace_all_from_eq.
    rewrite (H prev [] (c :: w) eq_refl ltac:(discriminate)
             : exec_at re prev (c :: w ++ rest) = None).
    destruct (IH (fun p a b E N => H p (c :: a) b (f_equal (cons c) E) N)
                 (Some c)) as (p & ->).
    exists p. reflexivity.
Qed.

End Global.

(** ** The conversion of an object literal *)

Lemma forallb_Forall (p : N -> bool) (s : jsstring) :
  forallb p s = true -> Forall (fun c => p c = true) s.
Proof. intros H. apply Forall_forall. apply forallb_forall. exact H. Qed.

Lemma literal_ok_parts (m : literal) :
  literal_ok m = true ->
  Forall (fun x => is_space x = true) (lit_space m)
  /\ (exists k0 ks, lit_key m = k0 :: ks /\ is_key_start k0 = true
                    /\ Forall (fun x => is_key_unit x = true) ks)
  /\ Forall (fun x => is_space x = true) (lit_gap m)
  /\ Forall (fun x => is_key_opener x = false) (lit_value m).
Proof.
  unfold literal_ok. rewrite !andb_true_iff. intros [[[H1 H2] H3] H4].
  split; [apply forallb_Forall, H1|]. split.
  - unfold is_identifier in H2. destruct (lit_key m) as [|k0 ks];
      [discriminate|].
    apply andb_true_iff in H2 as [H2 H5]. exists k0, ks.
    split; [reflexivity|]. split; [exact H2|apply forallb_Forall, H5].
  - split; [apply forallb_Forall, H3|].
    apply forallb_Forall in H4. eapply Forall_impl; [|exact H4].
    cbn beta. intros c Hc. apply negb_true_iff in Hc. exact Hc.
Qed.

(** The text of a value is copied. *)
Lemma value_copied (V rest : jsstring) :
  Forall (fun x => is_key_opener x = false) V ->
  forall prev, exists prev',
    replace_all_from re_unquoted_key tpl_quoted_key prev (V ++ rest) O
    = V ++ replace_all_from re_unquoted_key tpl_quoted_key prev' rest O.
Proof.
  intros F. apply replace_all_copy. intros prev a b E N.
  destruct b as [|c b]; [contradiction|].
  apply key_no_match. rewrite E in F. apply Forall_app in F as [_ F].
  inversion F. assumption.
Qed.

Lemma closing_copied (prev : option N) :
  replace_all_from re_unquoted_key tpl_quoted_key prev [ch "}"] O
  = [ch "}"].
Proof. reflexivity. Qed.

Lemma members_converted (ms : list literal) :
  Forall (fun m => literal_ok m = true) ms -> ms <> [] ->
  forall o prev, is_key_opener o = true ->
    replace_all_from re_unquoted_key tpl_quoted_key prev
      (o :: joined literal_text ms ++ [ch "}"]) O
    = o :: joined quoted_text ms ++ [ch "}"].
Proof.
  induction 1 as [|m ms Hm F IH]; intros N o prev Ho; [contradiction|].
  destruct (literal_ok_parts m Hm)
    as (F1 & (k0 & ks & Ek & Hk & Fk) & F2 & Fv).
  cbn [joined]. unfold literal_text at 1, quoted_text at 1. rewrite Ek.
  set (tail := match ms with
               | [] => []
               | _ :: _ => ch "," :: joined literal_text ms
               end).
  set (tail' := match ms with
                | [] => []
                | _ :: _ => ch "," :: joined quoted_text ms
                end).
  destruct (key_match_at o k0 (lit_space m) ks (lit_gap m) Ho F1 Hk Fk F2
              prev (lit_value m ++ tail ++ [ch "}"]))
    as (st & E & R & Ex).
  replace (o :: ((lit_space m ++ (k0 :: ks) ++ lit_gap m
                  ++ ch ":" :: lit_value m) ++ tail) ++ [ch "}"])
    with (o :: (lit_space m ++ (k0 :: ks) ++ lit_gap m ++ [ch ":"])
               ++ lit_value m ++ tail ++ [ch "}"])
    by (app_norm; reflexivity).
  assert (E' : exec_at re_unquoted_key prev
                 (o :: (lit_space m ++ (k0 :: ks) ++ lit_gap m ++ [ch ":"])
                       ++ lit_value m ++ tail ++ [ch "}"]) = Some st).
  { rewrite <- E. f_equal. app_norm. reflexivity. }
  destruct (replace_all_match re_unquoted_key tpl_quoted_key prev o _ _ st
              E' R) as (p1 & ->).
  destruct (value_copied (lit_value m) (tail ++ [ch "}"]) Fv p1)
    as (p2 & ->).
  rewrite Ex.
  assert (T : replace_all_from re_unquoted_key tpl_quoted_key p2
                (tail ++ [ch "}"]) O = tail' ++ [ch "}"]).
  { subst tail tail'. destruct ms as [|m' ms'].
    - reflexivity.
    - cbn [app]. apply IH; [discriminate|reflexivity]. }
  rewrite T. app_norm. reflexivity.
Qed.

Lemma literal_converted (ms : list literal) :
  Forall (fun m => literal_ok m = true) ms -> ms <> [] ->
  convert_literal (ch "{" :: joined literal_text ms ++ [ch "}"])
  = map unquote (ch "{" :: joined quoted_text ms ++ [ch "}"]).
Proof.
  intros F N. unfold convert_literal. rewrite replace_quote_map. f_equal.
  unfold replace. change (re_global re_unquoted_key) with true. cbn iota.
  apply members_converted; [exact F|exact N|reflexivity].
Qed.

(** ** A text that opens an object and goes on with no key in quotes *)

Lemma skip_ws_first (ws : jsstring) (k0 : N) (x : jsstring) :
  is_json_ws k0 = false ->
  exists c r, skip_ws (ws ++ k0 :: x) = c :: r /\ In c (ws ++ [k0]).
Proof.
  intros H. induction ws as [|w ws (c & r & E & I)]; cbn [app skip_ws].
  - rewrite H. exists k0, x. split; [reflexivity|left; reflexivity].
  - destruct (is_json_ws w).
    + exists c, r. split; [exact E|right; exact I].
    + eexists _, _. split; [reflexivity|left; reflexivity].
Qed.

Lemma unquoted_no_parse (p : jsstring) (k0 : N) (x : jsstring) :
  Forall (fun c => c <> dq /\ c <> ch "}") (p ++ [k0]) ->
  is_json_ws k0 = false ->
  parses (ch "{" :: p ++ k0 :: x) = false.
Proof.
  intros F H. unfold parses, JSON_parse.
  rewrite skip_ws_stop by reflexivity.
  destruct (2 * length (ch "{" :: p ++ k0 :: x) + 1)%nat as [|n];
    [reflexivity|].
  cbn [parse_value]. rewrite N.eqb_refl.
  destruct (skip_ws_first p k0 x H) as (c & r & -> & I).
  rewrite Forall_forall in F. destruct (F c I) as [Hq Hb].
  apply N.eqb_neq in Hq, Hb. rewrite Hb.
  destruct n as [|n]; [reflexivity|].
  cbn [parse_members]. rewrite Hq. reflexivity.
Qed.

(** ** The repair pass keeps what stands before the first quote, colon or
    comma *)

Lemma search_prefix re (p x : jsstring) :
  (forall prev h s, plain_unit h -> exec_at re prev (h :: s) = None) ->
  Forall plain_unit p ->
  forall prev,
    match search re prev (p ++ x) with
    | Some (before, _, _) => exists y, before = p ++ y
    | None => True
    end.
Proof.
  intros H F. induction F as [|h p Hh F IH]; intros prev.
  - cbn [app]. destruct (search re prev x) as [[[before m] st]|];
      [exists before; reflexivity|exact I].
  - cbn [app]. rewrite search_eq, (H prev h _ Hh).
    specialize (IH (Some h)).
    destruct (search re (Some h) (p ++ x)) as [[[before m] st]|];
      [|exact I].
    destruct IH as (y & ->). exists y. reflexivity.
Qed.

Lemma replace_first_prefix re t (p x : jsstring) :
  (forall prev h s, plain_unit h -> exec_at re prev (h :: s) = None) ->
  Forall plain_unit p ->
  exists y, replace_first (p ++ x) re t = p ++ y.
Proof.
  intros H F. unfold replace_first.
  pose proof (search_prefix re p x H F None) as S.
  destruct (search re None (p ++ x)) as [[[before m] st]|].
  - destruct S as (y & ->). rewrite <- app_assoc. eauto.
  - eauto.
Qed.

Lemma repair_steps_start :
  Forall (fun q => re_global (fst q) = false /\
            forall prev h s, plain_unit h ->
                             exec_at (fst q) prev (h :: s) = None)
         repair_steps.
Proof.
  assert (G : forall re,
            (forall w cs, matches (re_pat re) w cs ->
                          exists u w', w = u :: w' /\ ~ plain_unit u) ->
            forall prev h s, plain_unit h -> exec_at re prev (h :: s) = None).
  { intros re Hm prev h s Hh.
    destruct (exec_at re prev (h :: s)) as [st|] eqn:E; [|reflexivity].
    exfalso. apply exec_at_sound in E as (w & E & M).
    destruct (Hm w _ M) as (u & w' & -> & Hu).
    cbn [app] in E. injection E as -> _. contradiction. }
  assert (D : forall name p w cs,
            matches (re_pat (re_dangling name p)) w cs ->
            exists u w', w = u :: w' /\ ~ plain_unit u).
  { intros name p w cs M.
    apply matches_dangling in M as (s1 & s2 & _ & _ & -> & _).
    eexists _, _. split; [reflexivity|]. intros (H & _). congruence. }
  assert (S : forall p w cs,
            matches (re_pat (re_dangling_string p)) w cs ->
            exists u w', w = u :: w' /\ ~ plain_unit u).
  { intros p w cs M.
    apply matches_dangling_string in M as (nm & s1 & s2 & _ & _ & _ & -> & _).
    eexists _, _. split; [reflexivity|]. intros (H & _). congruence. }
  assert (C : forall p w cs,
            matches (re_pat (re_colon p)) w cs ->
            exists u w', w = u :: w' /\ ~ plain_unit u).
  { intros p w cs M.
    apply matches_colon in M as (s2 & _ & -> & _).
    eexists _, _. split; [reflexivity|]. intros (_ & H & _). congruence. }
  assert (T : forall w cs,
            matches (re_pat re_trailing_comma) w cs ->
            exists u w', w = u :: w' /\ ~ plain_unit u).
  { intros w cs M.
    apply matches_trailing_comma in M as (sp & cl & _ & _ & -> & _).
    eexists _, _. split; [reflexivity|]. intros (_ & _ & H). congruence. }
  unfold repair_steps.
  repeat (constructor; [split; [reflexivity|]; cbn [fst]; apply G; eauto|]).
  constructor.
Qed.

Lemma repair_substitutions_prefix (p x : jsstring) :
  Forall plain_unit p -> exists y, repair_substitutions (p ++ x) = p ++ y.
Proof.
  intros Fp. rewrite repair_substitutions_steps.
  pose proof repair_steps_start as F. revert x.
  induction F as [|[re t] l [G H] F IH]; intros x; cbn [fold_left fst snd].
  - eauto.
  - unfold replace at 2. cbn [fst snd] in G, H. rewrite G.
    destruct (replace_first_prefix re t p x H Fp) as [y ->].
    apply IH.
Qed.

Lemma repair_prefix (p x : jsstring) :
  Forall plain_unit p -> exists y, repair (p ++ x) = p ++ y.
Proof.
  intros Fp. unfold repair.
  destruct (repair_substitutions_prefix p x Fp) as (y & ->).
  destruct (close_open_tail (p ++ y)) as [->|[->| ->]];
    rewrite <- ?app_assoc; eauto.
Qed.

(** X17: an object literal whose keys are identifiers without quotes is
    returned with its keys in quotes and its single quotes turned into
    double quotes, when that is valid JSON; the whitespace between a key
    and its colon is not kept (lines 80 to 91).  The texts of the values
    hold neither an opening brace nor a comma, and the text holds no run of
    three backticks. *)
Theorem extractJson_object_literal (ms : list literal) (v : value) :
  ms <> [] -> forallb literal_ok ms = true ->
  has_fence (ch "{" :: joined literal_text ms ++ js "}") = false ->
  JSON_parse (map unquote (ch "{" :: joined quoted_text ms ++ js "}")) = Ok v ->
  extractJson (ch "{" :: joined literal_text ms ++ js "}")
  = Ok (map unquote (ch "{" :: joined quoted_text ms ++ js "}")).
Proof.
  intros N Ok Hf P.
  assert (F : Forall (fun m => literal_ok m = true) ms).
  { apply Forall_forall. apply forallb_forall. exact Ok. }
  change (js "}") with [ch "}"] in *.
  pose proof (literal_converted ms F N) as Cv.
  assert (C : candidate (ch "{" :: joined literal_text ms ++ [ch "}"])
              = ch "{" :: joined literal_text ms ++ [ch "}"]).
  { apply candidate_object_framed; [exact Hf|].
    exists [], []. rewrite app_nil_r. auto. }
  destruct ms as [|m ms]; [contradiction|].
  inversion F as [|? ? Hm _]; subst.
  destruct (literal_ok_parts m Hm)
    as (F1 & (k0 & ks & Ek & Hk & Fk) & F2 & Fv).
  destruct (key_unit_solid k0 (key_start_unit k0 Hk))
    as (K1 & K2 & K3 & K4 & K5 & _).
  assert (Sh : exists x, ch "{" :: joined literal_text (m :: ms) ++ [ch "}"]
                         = (ch "{" :: lit_space m ++ [k0]) ++ x).
  { cbn [joined]. unfold literal_text at 1. rewrite Ek.
    eexists. app_norm. cbn [app]. reflexivity. }
  destruct Sh as (x & Sh).
  assert (Fp : Forall plain_unit (ch "{" :: lit_space m ++ [k0])).
  { constructor; [repeat split; discriminate|].
    apply Forall_app. split.
    - eapply Forall_impl; [|exact F1]. cbn beta.
      intros c Hc. repeat split; intros ->; discriminate Hc.
    - repeat constructor; assumption. }
  assert (Fq : Forall (fun c => c <> dq /\ c <> ch "}") (lit_space m ++ [k0])).
  { apply Forall_app. split.
    - eapply Forall_impl; [|exact F1]. cbn beta.
      intros c Hc. split; intros ->; discriminate Hc.
    - repeat constructor; assumption. }
  assert (Kw : is_json_ws k0 = false).
  { destruct (is_json_ws k0) eqn:W; [|reflexivity].
    apply json_ws_is_space in W. congruence. }
  assert (N1 : parses (ch "{" :: joined literal_text (m :: ms) ++ [ch "}"])
               = false).
  { rewrite Sh. cbn [app]. rewrite <- app_assoc. cbn [app].
    apply (unquoted_no_parse _ _ _ Fq Kw). }
  assert (N2 : parses (repair (ch "{" :: joined literal_text (m :: ms)
                               ++ [ch "}"])) = false).
  { rewrite Sh. destruct (repair_prefix _ x Fp) as (y & ->).
    cbn [app]. rewrite <- app_assoc. cbn [app].
    apply (unquoted_no_parse _ _ _ Fq Kw). }
  assert (Pp : parses (map unquote (ch "{" :: joined quoted_text (m :: ms)
                                    ++ [ch "}"])) = true).
  { unfold parses. rewrite P. reflexivity. }
  generalize (extractJson_cases
                (ch "{" :: joined literal_text (m :: ms) ++ [ch "}"])).
  cbv zeta. rewrite C, Cv.
  intros [[H _]|[(_ & H & _)|[(_ & _ & _ & E)|(_ & _ & H & _)]]];
    first [exact E|congruence].
Qed.

Lemma extractJson_object_literal_witness :
  extractJson (js "{title : 'Fix login', priority: 2 ,done:false}")
  = Ok (js "{~title~: ~Fix login~, ~priority~: 2 ,~done~:false}").
Proof.
  apply (extractJson_object_literal
           [Literal [] (js "title") (js " ") (js " 'Fix login'");
            Literal (js " ") (js "priority") [] (js " 2 ");
            Literal [] (js "done") [] (js "false")]
           (JObj [(js "title", JStr (js "Fix login"));
                  (js "priority",
                   JNum (S754_finite false 4503599627370496 (-51)));
                  (js "done", JBool false)]));
    try reflexivity. discriminate.
Defined.

(* ------------------------------------------------------------------ *)
(** * Valid text *)

(** ** A fence at a line boundary *)

Lemma replace_all_no_match_at re t (ok : option N -> jsstring -> Prop) :
  (forall prev s, ok prev s -> exec_at re prev s = None) ->
  (forall prev c s, ok prev (c :: s) -> ok (Some c) s) ->
  forall s prev, ok prev s -> replace_all_from re t prev s O = s.
Proof.
  intros Hn Ht. induction s as [|c s IH]; intros prev Hs;
    rewrite replace_all_from_eq, (Hn _ _ Hs); [reflexivity|].
  f_equal. apply IH. apply (Ht prev c). exact Hs.
Qed.

Lemma spaces_no_eol (r : jsstring) :
  eol_after r = false ->
  forall prev caps,
    star_loop is_space (rmatch true REol Some) prev r caps = None.
Proof.
  induction r as [|c r IH]; cbn [eol_after]; [discriminate|].
  intros H prev caps. apply orb_false_iff in H as [L H].
  cbn [star_loop]. destruct (is_space c) eqn:S.
  - cbn [andb] in H. rewrite (IH H).
    cbn [rmatch m_rest at_eol andb]. rewrite L. reflexivity.
  - cbn [rmatch m_rest at_eol andb]. rewrite L. reflexivity.
Qed.

Lemma fence_close_none prev s :
  starts_fence s = true -> eol_after (skipn 3 s) = false ->
  exec_at re_fence_close prev s = None.
Proof.
  destruct s as [|a [|b [|c r]]]; try discriminate.
  cbn [starts_fence skipn]. intros F E.
  apply andb_true_iff in F as [F F3]. apply andb_true_iff in F as [F1 F2].
  apply N.eqb_eq in F1, F2, F3. subst.
  unfold exec_at.
  change (re_pat re_fence_close)
    with (RSeq (RSeq (RChar (ch "`")) (RSeq (RChar (ch "`")) (RChar (ch "`"))))
               (RSeq (RStar is_space) REol)).
  cbn [re_multiline re_fence_close rmatch m_rest m_prev m_caps].
  rewrite !N.eqb_refl. cbn [m_rest m_prev m_caps].
  apply spaces_no_eol. exact E.
Qed.

Lemma fence_not_bol prev s :
  at_bol true prev = false ->
  exec_at re_fence_json prev s = None
  /\ exec_at re_fence_open prev s = None.
Proof.
  intros H. unfold exec_at.
  cbn [re_pat re_multiline re_fence_json re_fence_open rseq rmatch m_prev].
  rewrite H. split; reflexivity.
Qed.

Lemma fences_no_match prev s :
  starts_fence s && (at_bol true prev || eol_after (skipn 3 s)) = false ->
  exec_at re_fence_json prev s = None
  /\ exec_at re_fence_open prev s = None
  /\ exec_at re_fence_close prev s = None.
Proof.
  destruct (starts_fence s) eqn:F; cbn [andb]; intros H.
  - apply orb_false_iff in H as [B E].
    destruct (fence_not_bol prev s B) as [H1 H2].
    split; [exact H1|]. split; [exact H2|].
    apply fence_close_none; assumption.
  - split; [apply fence_json_no_match; exact F|].
    split; [apply fence_open_no_match; exact F|].
    apply fence_close_no_match; exact F.
Qed.

Lemma fence_at_line_tail prev c s :
  fence_at_line prev (c :: s) = false -> fence_at_line (Some c) s = false.
Proof.
  cbn [fence_at_line]. intros H. apply orb_false_iff in H. tauto.
Qed.

Lemma fence_at_line_head prev s :
  fence_at_line prev s = false ->
  starts_fence s && (at_bol true prev || eol_after (skipn 3 s)) = false.
Proof.
  destruct s as [|c s]; [reflexivity|]. cbn [fence_at_line]. intros H.
  apply orb_false_iff in H. tauto.
Qed.

(** Without a fence at a line boundary the three fence replacements change
    nothing. *)
Lemma replace_fences_line (s : jsstring) :
  line_fence s = false ->
  replace s re_fence_json [] = s
  /\ replace s re_fence_open [] = s
  /\ replace s re_fence_close [] = s.
Proof.
  intros H. unfold replace. cbn [re_global re_fence_json re_fence_open
                                 re_fence_close].
  repeat split;
    apply (replace_all_no_match_at _ _
             (fun prev s => fence_at_line prev s = false));
    try exact H; try exact fence_at_line_tail; intros prev s' Hs;
    apply fences_no_match, fence_at_line_head, Hs.
Qed.

(** A run of three backticks that is not at a line boundary does not
    count. *)
Lemma line_fence_none (s : jsstring) :
  has_fence s = false -> line_fence s = false.
Proof.
  unfold line_fence. generalize (@None N).
  induction s as [|c s IH]; intros prev H; [reflexivity|].
  cbn [fence_at_line]. rewrite (has_fence_head _ H). cbn [andb orb].
  apply IH. apply (has_fence_tail c). exact H.
Qed.

(** ** The text of a value *)

Lemma JSON_parse_core (text : jsstring) (v : value) :
  JSON_parse text = Ok v ->
  exists ws1 c0 t b c1 ws2,
    text = ws1 ++ (c0 :: t) ++ ws2 /\ json_space ws1 /\ json_space ws2
    /\ JSON_parse (c0 :: t) = Ok v
    /\ c0 :: t = b ++ [c1]
    /\ is_space c0 = false /\ c0 <> ch "c" /\ c0 <> ch "l" /\ c0 <> ch "v"
    /\ is_space c1 = false /\ c1 <> ch ";"
    /\ (forall o, v = JObj o -> c0 = ch "{" /\ c1 = ch "}")
    /\ (forall l, v = JArr l -> c0 = ch "[" /\ c1 = ch "]").
Proof.
  unfold JSON_parse at 1. intros H.
  destruct (parse_value (2 * length text + 1) (skip_ws text))
    as [[v' rest]|] eqn:P; [|discriminate].
  destruct (skip_ws rest) eqn:W; [|discriminate].
  injection H as ->.
  destruct (parse_local (2 * length text + 1)) as (LV & _ & _).
  pose proof P as P'.
  apply LV in P' as (pre & E & Np & Ho & L).
  destruct (skip_ws_split text) as (ws1 & Et & F1).
  destruct (nonws_head _ _ _ Np E) as (c & p & -> & Hc).
  assert (Pc : JSON_parse (c :: p) = Ok v).
  { unfold JSON_parse. rewrite (skip_ws_stop _ _ Hc).
    pose proof (L (2 * length (c :: p) + 1)%nat [] ltac:(lia) eq_refl) as Lx.
    rewrite app_nil_r in Lx. rewrite Lx. reflexivity. }
  assert (G : exists b c1,
            c :: p = b ++ [c1]
            /\ is_space c = false /\ c <> ch "c" /\ c <> ch "l"
            /\ c <> ch "v" /\ is_space c1 = false /\ c1 <> ch ";"
            /\ (forall o, v = JObj o -> c = ch "{" /\ c1 = ch "}")
            /\ (forall l, v = JArr l -> c = ch "[" /\ c1 = ch "]")).
  { rewrite E in P. destruct (structured v) eqn:S.
    - destruct v as [| | | |l|o]; try discriminate S.
      + apply parse_array_shape in P as (body & Eb).
        apply app_inv_tail in Eb. exists (ch "[" :: body), (ch "]").
        rewrite Eb. injection Eb as -> _.
        split; [reflexivity|]. repeat split; try discriminate; try reflexivity.
      + destruct (Ho o eq_refl) as (body & Eb).
        exists (ch "{" :: body), (ch "}").
        rewrite Eb. injection Eb as -> _.
        split; [reflexivity|]. repeat split; try discriminate; try reflexivity.
    - apply (parse_value_scalar _ _ _ _ P) in S as Q.
      apply parse_scalar_ends in Q
        as ((c0 & t & E0 & S0 & A1 & A2 & A3) & (b & c1 & E1 & S1 & B1 & _)).
      injection E0 as <- _.
      change (c :: p ++ rest) with ((c :: p) ++ rest) in E1.
      apply app_inv_tail in E1.
      exists b, c1. split; [exact E1|].
      repeat split; try assumption; destruct v; discriminate. }
  destruct G as (b & c1 & G).
  exists ws1, c, p, b, c1, rest.
  split; [rewrite Et, E; reflexivity|]. split; [exact F1|].
  split; [apply skip_ws_nil; exact W|].
  split; [exact Pc|]. exact G.
Qed.

(** ** The span patterns *)

Lemma closes_app (c : N) (a b : jsstring) :
  existsb (fun y => y =? c) b = true ->
  existsb (fun y => y =? c) (a ++ b) = true.
Proof.
  intros H. rewrite existsb_app, H. apply orb_true_r.
Qed.

Lemma opens_then_closes_app (o c : N) (a b : jsstring) :
  opens_then_closes o c b = true -> opens_then_closes o c (a ++ b) = true.
Proof.
  induction a as [|x a IH]; [auto|]. intros H.
  cbn [app opens_then_closes]. rewrite (IH H). apply orb_true_r.
Qed.

Lemma opens_then_closes_found (o c : N) (a mid rest : jsstring) :
  opens_then_closes o c (a ++ o :: mid ++ c :: rest) = true.
Proof.
  apply opens_then_closes_app. cbn [opens_then_closes].
  rewrite N.eqb_refl. cbn [andb].
  rewrite closes_app; [reflexivity|]. cbn [existsb].
  rewrite N.eqb_refl. reflexivity.
Qed.

Lemma opens_then_closes_inside (o c : N) (a b d : jsstring) :
  opens_then_closes o c (a ++ b ++ d) = false ->
  opens_then_closes o c b = false.
Proof.
  intros H. destruct (opens_then_closes o c b) eqn:B; [|reflexivity].
  rewrite <- H. symmetry. apply opens_then_closes_app.
  clear H. induction b as [|x b IH]; [discriminate|].
  cbn [opens_then_closes app] in *.
  apply orb_true_iff in B as [B|B].
  - apply andb_true_iff in B as [B1 B2]. rewrite B1. cbn [andb].
    rewrite existsb_app, B2. reflexivity.
  - rewrite (IH B). apply orb_true_r.
Qed.

Lemma open_then_close_pair (s : jsstring) :
  open_then_close s = opens_then_closes (ch "{") (ch "}") s.
Proof.
  induction s as [|x s IH]; [reflexivity|].
  cbn [open_then_close opens_then_closes]. rewrite IH. reflexivity.
Qed.

Lemma search_span_none (o c : N) (s : jsstring) (prev : option N) :
  opens_then_closes o c s = false -> search (re_span o c) prev s = None.
Proof.
  intros H.
  destruct (search (re_span o c) prev s) as [[[before m] st]|] eqn:S;
    [|reflexivity].
  exfalso. apply search_sound in S as [Es M].
  rewrite Es in H. clear Es.
  cbn [re_pat re_span rseq] in M. inv_matches.
  match type of H with
  | opens_then_closes _ _ (?a ++ ([?o'] ++ ?w ++ [?c']) ++ ?r) = false =>
      replace (a ++ ([o'] ++ w ++ [c']) ++ r)
        with (a ++ o' :: w ++ c' :: r) in H
        by (cbn [app]; rewrite <- !app_assoc; reflexivity)
  end.
  rewrite opens_then_closes_found in H. discriminate H.
Qed.

Lemma match_object_absent (s : jsstring) :
  open_then_close s = false -> str_match s re_object = None.
Proof.
  intros H. unfold str_match.
  change re_object with (re_span (ch "{") (ch "}")).
  rewrite search_span_none; [reflexivity|].
  rewrite <- open_then_close_pair. exact H.
Qed.

Lemma match_array_absent (s : jsstring) :
  opens_then_closes (ch "[") (ch "]") s = false ->
  str_match s re_array = None.
Proof.
  intros H. unfold str_match.
  change re_array with (re_span (ch "[") (ch "]")).
  rewrite search_span_none; [reflexivity|exact H].
Qed.

(** ** The candidate of a valid text *)

Lemma open_then_close_inside (a b d : jsstring) :
  open_then_close (a ++ b ++ d) = false -> open_then_close b = false.
Proof.
  rewrite !open_then_close_pair. apply opens_then_closes_inside.
Qed.

Lemma match_array_whole (body : jsstring) :
  str_match (ch "[" :: body ++ [ch "]"]) re_array
  = Some (ch "[" :: body ++ [ch "]"]).
Proof.
  apply match_array_framed. exists [], [].
  split; [rewrite app_nil_r; reflexivity|]. split; constructor.
Qed.

Lemma core_framed (c0 c1 o c : N) (t b : jsstring) :
  c0 :: t = b ++ [c1] -> c0 = o -> c1 = c -> o <> c ->
  exists body, c0 :: t = o :: body ++ [c].
Proof.
  intros E -> -> N. destruct b as [|x b]; cbn [app] in E.
  - injection E as E _. contradiction.
  - injection E as <- ->. exists b. reflexivity.
Qed.

(** On a valid text the wrapping patterns find nothing, and the matches of
    lines 26 to 33 take the whole trimmed text when [whole_match] says
    so. *)
Lemma candidate_valid (text : jsstring) (v : value) :
  JSON_parse text = Ok v ->
  line_fence (trim text) = false ->
  whole_match v (trim text) = true ->
  candidate text = trim text /\ JSON_parse (trim text) = Ok v.
Proof.
  intros P.
  destruct (JSON_parse_core _ _ P)
    as (ws1 & c0 & t & b & c1 & ws2 & -> & F1 & F2 & Pc & E & S0 & Hc & Hl
        & Hv & S1 & Hs & Ho & Ha).
  unfold candidate, strip_wrapping.
  rewrite (trim_core ws1 ws2 t b c0 c1 (json_space_spaces _ F1)
             (json_space_spaces _ F2) S0 S1 E).
  intros Hf Hw. split; [|exact Pc].
  destruct (replace_fences_line _ Hf) as (R1 & R2 & R3).
  rewrite R1, R2, R3.
  destruct (decl_no_match_head c0 t Hc Hl Hv) as (D1 & D2 & D3).
  rewrite (replace_decl_id _ _ D1), (replace_decl_id _ _ D2),
    (replace_decl_id _ _ D3).
  rewrite E, (replace_semicolon_end b c1 S1 Hs), <- E.
  unfold pick_match. destruct v as [|bv|x|str|l|o]; cbn [whole_match] in Hw.
  1-4: apply andb_true_iff in Hw as [H1 H2];
       apply negb_true_iff in H1, H2;
       rewrite (match_object_absent _ H1), (match_array_absent _ H2);
       reflexivity.
  - apply negb_true_iff in Hw. rewrite (match_object_absent _ Hw).
    destruct (Ha l eq_refl) as [A0 A1].
    destruct (core_framed _ _ _ _ _ _ E A0 A1 ltac:(discriminate))
      as (body & ->).
    rewrite match_array_whole. reflexivity.
  - destruct (Ho o eq_refl) as [A0 A1].
    destruct (core_framed _ _ _ _ _ _ E A0 A1 ltac:(discriminate))
      as (body & ->).
    rewrite match_object_whole. reflexivity.
Qed.

(** C2, as amended: a text that parses is returned trimmed when it holds
    no run of three backticks at a line boundary and is the text of an
    object, or of an array in which no [{] has a [}] after it, or of a
    scalar in which moreover no [[] has a []] after it. *)
Theorem extractJson_valid_trimmed (text : jsstring) (v : value) :
  JSON_parse text = Ok v ->
  line_fence (trim text) = false ->
  whole_match v (trim text) = true ->
  extractJson text = Ok (trim text).
Proof.
  intros P Hf Hw.
  destruct (candidate_valid text v P Hf Hw) as [C Pc].
  rewrite extractJson_first; rewrite C; [reflexivity|].
  unfold parses. rewrite Pc. reflexivity.
Qed.

Lemma extractJson_valid_trimmed_witness :
  extractJson ([LF] ++ js " {~details~:~Use ```js code``` here~} ")
  = Ok (js "{~details~:~Use ```js code``` here~}")
  /\ extractJson (js " [1, ~[a]~] " ++ [LF]) = Ok (js "[1, ~[a]~]")
  /\ extractJson (js " ~a; b~") = Ok (js "~a; b~").
Proof.
  split; [|split].
  - change (js "{~details~:~Use ```js code``` here~}")
      with (trim ([LF] ++ js " {~details~:~Use ```js code``` here~} ")).
    apply (extractJson_valid_trimmed _
             (JObj [(js "details", JStr (js "Use ```js code``` here"))]));
      vm_compute; reflexivity.
  - change (js "[1, ~[a]~]") with (trim (js " [1, ~[a]~] " ++ [LF])).
    apply (extractJson_valid_trimmed _
             (JArr [JNum (S754_finite false 4503599627370496 (-52));
                    JStr (js "[a]")]));
      vm_compute; reflexivity.
  - change (js "~a; b~") with (trim (js " ~a; b~")).
    apply (extractJson_valid_trimmed _ (JStr (js "a; b")));
      vm_compute; reflexivity.
Defined.

(** What the conditions of the amended C2 leave out.  An array that holds
    one object gives the object, and a string that holds an array gives
    the array; an array that holds two objects comes back as it is, by the
    fallback of line 95.  A fence after U+2028 inside a string is at the
    start of a line for the patterns of lines 15 and 16, and goes. *)
Lemma extractJson_inner_span :
  (parses (js "[{~a~:1}]") = true
   /\ extractJson (js "[{~a~:1}]") = Ok (js "{~a~:1}"))
  /\ (parses (js "~[1]~") = true
      /\ extractJson (js "~[1]~") = Ok (js "[1]"))
  /\ (parses (js "[{~a~:1},{~b~:2}]") = true
      /\ extractJson (js "[{~a~:1},{~b~:2}]") = Ok (js "[{~a~:1},{~b~:2}]")).
Proof.
  repeat split; vm_compute; reflexivity.
Qed.

Lemma extractJson_line_fence :
  let text := js "{~a~:~" ++ [8232] ++ js "```~}" in
  parses text = true
  /\ trim text = text
  /\ line_fence text = true
  /\ extractJson text = Ok (js "{~a~:~" ++ [8232] ++ js "~}").
Proof.
  cbv zeta. repeat split; vm_compute; reflexivity.
Qed.

(** ** Results that are arrays *)

Lemma array_not_brace (r : jsstring) (l : list value) (x : jsstring) :
  JSON_parse r = Ok (JArr l) -> r <> ch "{" :: x.
Proof.
  intros P E.
  destruct (JSON_parse_core _ _ P)
    as (ws1 & c0 & t & b & c1 & ws2 & E' & F1 & _ & _ & _ & _ & _ & _
        & _ & _ & _ & _ & Ha).
  destruct (Ha l eq_refl) as [-> _]. rewrite E in E'.
  destruct ws1 as [|w ws1]; cbn [app] in E'; injection E' as E' _.
  - discriminate E'.
  - inversion F1 as [|? ? W _]; subst. discriminate W.
Qed.

(** The candidate is braced, or no brace pair is left in it. *)
Lemma candidate_braced_or_not (s : jsstring) :
  (exists x, candidate s = ch "{" :: x ++ [ch "}"])
  \/ open_then_close (candidate s) = false.
Proof.
  unfold candidate, pick_match. generalize (strip_wrapping s). intros t.
  destruct (str_match t re_object) as [m|] eqn:O.
  - left. apply (match_object_shape _ _ O).
  - right.
    assert (H : open_then_close t = false).
    { destruct (open_then_close t) eqn:H; [|reflexivity].
      exfalso. apply (match_object_complete t H). exact O. }
    unfold str_match.
    destruct (search re_array None t) as [[[before m] st]|] eqn:A;
      [|exact H].
    apply search_sound in A as [Et _]. rewrite Et in H.
    apply (open_then_close_inside _ _ _ H).
Qed.

Lemma braces_open_then_close (a b : jsstring) :
  braces a = braces b -> open_then_close a = open_then_close b.
Proof.
  intros H. rewrite <- (open_then_close_braces a), H.
  apply open_then_close_braces.
Qed.

Lemma braces_bracket (s : jsstring) : braces (s ++ [ch "]"]) = braces s.
Proof.
  unfold braces. rewrite filter_app. cbn. apply app_nil_r.
Qed.

(** A result of [extractJson] that is an array is the argument itself, or
    it holds no brace pair. *)
Lemma array_result (s r : jsstring) (l : list value) :
  extractJson s = Ok r ->
  JSON_parse r = Ok (JArr l) ->
  r = s \/ open_then_close r = false.
Proof.
  intros E P.
  destruct (extractJson_result s r E) as [->|Hr]; [left; reflexivity|].
  right.
  destruct (candidate_braced_or_not s) as [[x K]|K].
  - exfalso. destruct Hr as [Hr|[Hr|Hr]]; rewrite K in Hr.
    + apply (array_not_brace _ l (x ++ [ch "}"]) P). exact Hr.
    + unfold repair in Hr.
      destruct (repair_substitutions_head (ch "{") (x ++ [ch "}"]))
        as [s' R]; [auto|].
      rewrite R in Hr. destruct (close_open_brace s') as [y B].
      rewrite B in Hr. apply (array_not_brace _ l (y ++ [ch "}"]) P).
      exact Hr.
    + destruct (convert_literal_head (ch "{") (x ++ [ch "}"])) as [s' R];
        [auto|].
      rewrite R in Hr. apply (array_not_brace _ l s' P). exact Hr.
  - destruct Hr as [Hr|[Hr|Hr]].
    + rewrite Hr. exact K.
    + rewrite <- K. subst r. unfold repair in *.
      pose proof (repair_substitutions_braces (candidate s)) as Hb.
      revert P Hb. generalize (repair_substitutions (candidate s)).
      intros y P Hb.
      destruct (close_open_tail y) as [T|[T|T]]; rewrite T in *.
      * apply braces_open_then_close. exact Hb.
      * exfalso. unfold close_open in T.
        destruct (startsWith y (ch "{")) eqn:S1.
        -- apply startsWith_true in S1 as [y' ->].
           apply (array_not_brace _ l (y' ++ [ch "}"]) P). reflexivity.
        -- cbn [andb] in T.
           destruct (startsWith y (ch "[") && negb (endsWith y (ch "]")));
             [|apply (f_equal (@length N)) in T; rewrite length_app in T;
               cbn [length] in T; lia].
           apply app_inv_head in T. discriminate T.
      * apply braces_open_then_close. rewrite braces_bracket. exact Hb.
    + rewrite <- K. subst r. apply braces_open_then_close.
      apply convert_literal_braces.
Qed.

(** C6, as amended: [extractJson] returns again a result [r] that parses,
    when [r] is the argument itself, or holds no run of three backticks at
    a line boundary and is the text of an object, or that of an array
    without whitespace around it, or that of a scalar without whitespace
    around it in which no [{] has a [}] and no [[] has a []] after it. *)
Theorem extractJson_idempotent_valid (s r : jsstring) (v : value) :
  extractJson s = Ok r ->
  JSON_parse r = Ok v ->
  r = s
  \/ (line_fence r = false
      /\ match v with
         | JObj _ => True
         | JArr _ => trim r = r
         | _ => trim r = r /\ whole_match v r = true
         end) ->
  extractJson r = Ok r.
Proof.
  intros E P [->|[Hf C]]; [exact E|].
  assert (G : trim r = r -> whole_match v r = true -> extractJson r = Ok r).
  { intros T W. rewrite <- T in Hf, W.
    destruct (candidate_valid r v P Hf W) as [K Pc]. rewrite T in K, Pc.
    rewrite extractJson_first; rewrite K; [reflexivity|].
    unfold parses. rewrite Pc. reflexivity. }
  destruct v as [|bv|x|str|l|o]; try (apply G; apply C).
  - destruct (array_result s r l E P) as [->|H]; [exact E|].
    apply G; [exact C|]. cbn [whole_match]. rewrite H. reflexivity.
  - destruct (extractJson_result s r E) as [->|Hr]; [exact E|].
    destruct (stage_object_braced (candidate s) r o) as [x B];
      [apply candidate_kinds|exact Hr|exact P|].
    apply G; [|reflexivity]. subst r. apply trim_braced_only.
Qed.

Lemma extractJson_idempotent_valid_witness :
  let s := js "```json" ++ [LF] ++ js "{note: 'a ```b```'} ;" ++ [LF]
           ++ js "```" in
  extractJson s = Ok (js "{~note~: ~a ```b```~}")
  /\ extractJson (js "{~note~: ~a ```b```~}")
     = Ok (js "{~note~: ~a ```b```~}")
  /\ extractJson (js "const a = [1, 2];") = Ok (js "[1, 2]")
  /\ extractJson (js "[1, 2]") = Ok (js "[1, 2]")
  /\ extractJson (js "~a; b~ ;") = Ok (js "~a; b~ ")
  /\ extractJson (js "5;") = Ok (js "5")
  /\ extractJson (js "5") = Ok (js "5").
Proof.
  cbv zeta.
  assert (E1 : extractJson
                 (js "```json" ++ [LF] ++ js "{note: 'a ```b```'} ;" ++ [LF]
                  ++ js "```")
               = Ok (js "{~note~: ~a ```b```~}")) by (vm_compute; reflexivity).
  assert (E2 : extractJson (js "const a = [1, 2];") = Ok (js "[1, 2]"))
    by (vm_compute; reflexivity).
  assert (E3 : extractJson (js "5;") = Ok (js "5"))
    by (vm_compute; reflexivity).
  split; [exact E1|]. split.
  { apply (extractJson_idempotent_valid _ _
             (JObj [(js "note", JStr (js "a ```b```"))]) E1);
      [vm_compute; reflexivity|].
    right. split; [vm_compute; reflexivity|exact I]. }
  split; [exact E2|]. split.
  { apply (extractJson_idempotent_valid _ _
             (JArr [JNum (S754_finite false 4503599627370496 (-52));
                    JNum (S754_finite false 4503599627370496 (-51))]) E2);
      [vm_compute; reflexivity|].
    right. split; vm_compute; reflexivity. }
  split; [vm_compute; reflexivity|]. split; [exact E3|].
  apply (extractJson_idempotent_valid _ _
           (JNum (S754_finite false 5629499534213120 (-50))) E3);
    [vm_compute; reflexivity|].
  right. split; [vm_compute; reflexivity|].
  split; vm_compute; reflexivity.
Defined.

(** The fence condition of the amended C6 is needed: of two fences after
    U+2028 the first call removes one, and the second call the other. *)
Lemma extractJson_fence_left :
  let s := js "{~a~:~" ++ [8232] ++ js "``````~}" in
  let r := js "{~a~:~" ++ [8232] ++ js "```~}" in
  extractJson s = Ok r
  /\ parses r = true
  /\ line_fence r = true
  /\ extractJson r = Ok (js "{~a~:~" ++ [8232] ++ js "~}").
Proof.
  cbv zeta. repeat split; vm_compute; reflexivity.
Qed.
